(** * dev-engine: scheduler, state store, orchestrator and error classifier

    A shallow embedding of the core of the engine
    (TaskScheduler.ts, StateManager.js, DevEngine.ts, ErrorClassifier.ts)
    together with the properties of its specification. *)

From stdpp Require Import base option list numbers strings gmap fin_maps relations.
From Stdlib Require Import Ascii String ZArith Lia DecimalString DecimalZ Sorted.

Local Open Scope string_scope.
Local Open Scope Z_scope.
#[local] Set Warnings "-register-all".
#[local] Set Warnings "-clear-no-such-hyp".

(* ===================================================================== *)
(** * Error classifier  (src/core/ErrorClassifier.ts)                     *)
(* ===================================================================== *)

Module Classifier.

(** ** Regular expressions

    The rule table is a table of JavaScript regular expressions.  Only the
    existence of a match decides the category, so a pattern is embedded as
    its abstract syntax and [exec] answers whether [RegExp.prototype.exec]
    finds a match (a non-null result) somewhere in the subject. *)

Inductive cset : Type :=
  | CChar (c : ascii)      (* a literal character *)
  | CDot                   (* .  : anything but a line terminator *)
  | CSpace                 (* \s *)
  | CDigit.                (* \d *)

Inductive re : Type :=
  | Void                   (* matches nothing; only produced by derivatives *)
  | Eps
  | Sym (cs : cset)
  | Cat (r1 r2 : re)
  | Alt (r1 r2 : re)
  | Star (r : re).

Definition Plus (r : re) : re := Cat r (Star r).
Definition Opt (r : re) : re := Alt r Eps.

Fixpoint Rep (n : nat) (r : re) : re :=
  match n with
  | O => Eps
  | S n' => Cat r (Rep n' r)
  end.

Fixpoint lit (s : string) : re :=
  match s with
  | EmptyString => Eps
  | String c EmptyString => Sym (CChar c)
  | String c s' => Cat (Sym (CChar c)) (lit s')
  end.

Fixpoint seq (rs : list re) : re :=
  match rs with
  | [] => Eps
  | [r] => r
  | r :: rs' => Cat r (seq rs')
  end.

Fixpoint alts (rs : list re) : re :=
  match rs with
  | [] => Void
  | [r] => r
  | r :: rs' => Alt r (alts rs')
  end.

Definition dot : re := Sym CDot.
Definition ws : re := Sym CSpace.
Definition digit : re := Sym CDigit.

(** A pattern with its [i] flag. *)
Record RegExp : Type := mkRegExp { source : re; ignoreCase : bool }.

Definition lower (c : ascii) : ascii :=
  let n := N_of_ascii c in
  if ((65 <=? n) && (n <=? 90))%N then ascii_of_N (n + 32) else c.

Fixpoint toLowerCase (s : string) : string :=
  match s with
  | EmptyString => EmptyString
  | String c s' => String (lower c) (toLowerCase s')
  end.

Definition is_space (c : ascii) : bool :=
  let n := N_of_ascii c in
  ((n =? 32) || ((9 <=? n) && (n <=? 13)) || (n =? 160))%N.

Definition is_digit (c : ascii) : bool :=
  let n := N_of_ascii c in ((48 <=? n) && (n <=? 57))%N.

Definition is_line_terminator (c : ascii) : bool :=
  let n := N_of_ascii c in ((n =? 10) || (n =? 13))%N.

Definition cmatch (icase : bool) (cs : cset) (c : ascii) : bool :=
  match cs with
  | CChar a => if icase then Ascii.eqb (lower a) (lower c) else Ascii.eqb a c
  | CDot => negb (is_line_terminator c)
  | CSpace => is_space c
  | CDigit => is_digit c
  end.

Fixpoint nullable (r : re) : bool :=
  match r with
  | Void => false
  | Eps => true
  | Sym _ => false
  | Cat r1 r2 => nullable r1 && nullable r2
  | Alt r1 r2 => nullable r1 || nullable r2
  | Star _ => true
  end.

Definition cat' (r1 r2 : re) : re :=
  match r1, r2 with
  | Void, _ => Void
  | _, Void => Void
  | Eps, _ => r2
  | _, _ => Cat r1 r2
  end.

Definition alt' (r1 r2 : re) : re :=
  match r1, r2 with
  | Void, _ => r2
  | _, Void => r1
  | _, _ => Alt r1 r2
  end.

(** Brzozowski derivative of [r] by the character [c]. *)
Fixpoint deriv (icase : bool) (c : ascii) (r : re) : re :=
  match r with
  | Void => Void
  | Eps => Void
  | Sym cs => if cmatch icase cs c then Eps else Void
  | Cat r1 r2 =>
      let d1 := cat' (deriv icase c r1) r2 in
      if nullable r1 then alt' d1 (deriv icase c r2) else d1
  | Alt r1 r2 => alt' (deriv icase c r1) (deriv icase c r2)
  | Star r1 => cat' (deriv icase c r1) (Star r1)
  end.

(** Does some prefix of [s] match [r]? *)
Fixpoint match_prefix (icase : bool) (r : re) (s : string) : bool :=
  nullable r ||
  match s with
  | EmptyString => false
  | String c s' =>
      match deriv icase c r with
      | Void => false
      | r' => match_prefix icase r' s'
      end
  end.

(** Is there a start position from which a prefix matches? *)
Fixpoint search (icase : bool) (r : re) (s : string) : bool :=
  match_prefix icase r s ||
  match s with
  | EmptyString => false
  | String _ s' => search icase r s'
  end.

(** [pattern.exec(s)] is truthy. *)
Definition exec (p : RegExp) (s : string) : bool :=
  search (ignoreCase p) (source p) s.

Definition cs_ (r : re) : RegExp := mkRegExp r false.
Definition ci_ (r : re) : RegExp := mkRegExp r true.

(** ** The rule table *)

Inductive ErrorCategory : Type :=
  | syntax | type | import | runtime | assertion
  | timeout | permission | resource | network | unknown.

#[global] Instance ErrorCategory_eq_dec : EqDecision ErrorCategory.
Proof. solve_decision. Defined.

Record ErrorPattern : Type := mkErrorPattern {
  category : ErrorCategory;
  patterns : list RegExp
}.

Definition ERROR_PATTERNS : list ErrorPattern :=
  [ mkErrorPattern syntax
      [ ci_ (seq [lit "SyntaxError:"; Star ws; Plus dot]);
        ci_ (lit "Unexpected token");
        ci_ (lit "Parsing error");
        cs_ (seq [lit "error TS1"; Rep 3 digit; lit ":"]) ];
    mkErrorPattern type
      [ ci_ (seq [lit "TypeError:"; Star ws; Plus dot]);
        cs_ (seq [lit "error TS2"; Rep 3 digit; lit ":"]);
        cs_ (seq [lit "Type '"; Plus dot; lit "' is not assignable to type '";
                  Plus dot; lit "'"]);
        cs_ (seq [lit "Property '"; Plus dot; lit "' does not exist on type"]);
        cs_ (seq [lit "Cannot find name '"; Plus dot; lit "'"]) ];
    mkErrorPattern import
      [ cs_ (seq [lit "Cannot find module '"; Plus dot; lit "'"]);
        ci_ (lit "Module not found");
        cs_ (lit "Error [ERR_MODULE_NOT_FOUND]");
        ci_ (lit "Unable to resolve module");
        ci_ (seq [lit "No such file or directory"; Star dot; lit "import"]) ];
    mkErrorPattern runtime
      [ ci_ (seq [lit "ReferenceError:"; Star ws; Plus dot]);
        ci_ (seq [lit "RangeError:"; Star ws; Plus dot]);
        ci_ (seq [lit "Error:"; Star ws; Plus dot; lit " is not defined"]);
        ci_ (lit "Maximum call stack size exceeded");
        ci_ (lit "undefined is not a function");
        ci_ (lit "null is not an object") ];
    mkErrorPattern assertion
      [ cs_ (seq [lit "expect("; Plus dot; lit ")."; Opt (lit "not."); lit "to";
                  alts [lit "Be"; lit "Equal"; lit "Have"; lit "Match"; lit "Throw"]]);
        ci_ (lit "AssertionError");
        ci_ (seq [lit "Expected"; Opt (lit ":"); Star ws; Plus dot; Star ws;
                  lit "Received"; Opt (lit ":"); Star ws; Plus dot]);
        ci_ (seq [lit "expected "; Plus dot; lit " to ";
                  alts [lit "equal"; lit "be"; lit "match"; lit "throw"]]);
        cs_ (seq [lit "FAIL"; Plus ws; Plus dot; lit ".test.";
                  alts [lit "ts"; lit "js"]]) ];
    mkErrorPattern timeout
      [ ci_ (lit "Timeout");
        ci_ (lit "exceeded timeout");
        ci_ (lit "ETIMEDOUT");
        ci_ (lit "Async callback was not invoked within");
        ci_ (seq [lit "Test timeout of "; Plus digit; lit "ms exceeded"]) ];
    mkErrorPattern permission
      [ cs_ (lit "EACCES");
        ci_ (lit "Permission denied");
        cs_ (lit "EPERM");
        ci_ (lit "Operation not permitted") ];
    mkErrorPattern resource
      [ cs_ (lit "ENOENT");
        ci_ (lit "No such file or directory");
        cs_ (lit "ENOTDIR");
        ci_ (lit "File not found");
        ci_ (lit "Directory not found") ];
    mkErrorPattern network
      [ cs_ (lit "ECONNREFUSED");
        cs_ (lit "ENOTFOUND");
        cs_ (lit "getaddrinfo");
        ci_ (lit "network error");
        ci_ (lit "socket hang up");
        cs_ (lit "ECONNRESET") ] ].

(** ** classify

    The result record keeps the two fields the category decides on; the
    message, the location and the hint are computed by [extractMessage],
    [extractLocation] and [extractInfo] and never feed back into the
    choice of the category. *)

Record ClassifiedError : Type := mkClassifiedError {
  err_category : ErrorCategory;
  originalError : string
}.

(** The inner loop: [pattern.exec(stderr) || pattern.exec(normalizedStderr)]. *)
Definition rule_matches (stderr normalizedStderr : string) (ep : ErrorPattern) : bool :=
  existsb (fun p => exec p stderr || exec p normalizedStderr) (patterns ep).

(** The outer loop over the rules, in declared order. *)
Fixpoint first_match (stderr normalizedStderr : string) (rules : list ErrorPattern)
  : option ErrorCategory :=
  match rules with
  | [] => None
  | ep :: rules' =>
      if rule_matches stderr normalizedStderr ep then Some (category ep)
      else first_match stderr normalizedStderr rules'
  end.

Definition classify (stderr : string) (exitCode : Z) : ClassifiedError :=
  let normalizedStderr := toLowerCase stderr in
  match first_match stderr normalizedStderr ERROR_PATTERNS with
  | Some c => mkClassifiedError c stderr
  | None => mkClassifiedError unknown stderr
  end.

Definition S7_stderr : string := "TypeError: Cannot read property 'x' of undefined".

(** ** Properties of the classifier *)

(** The scan stops at the first rule that has a matching pattern. *)
Lemma first_match_app stderr norm rules1 ep rules2 :
  forallb (fun r => negb (rule_matches stderr norm r)) rules1 = true ->
  rule_matches stderr norm ep = true ->
  first_match stderr norm (rules1 ++ ep :: rules2) = Some (category ep).
Proof.
  induction rules1 as [|r rules1 IH]; simpl; intros Hnone Hep.
  - by rewrite Hep.
  - apply andb_prop in Hnone as [Hr Hrest].
    apply negb_true_iff in Hr. rewrite Hr. by apply IH.
Qed.

Lemma classify_exitCode_irrelevant stderr e1 e2 :
  classify stderr e1 = classify stderr e2.
Proof. reflexivity. Qed.

(** C9.  For every exit code, [classify] sends the stderr
    "TypeError: Cannot read property 'x' of undefined" to the category
    [type], not [runtime]: the rules are scanned in the declared order
    syntax, type, import, runtime, assertion, timeout, permission,
    resource, network; no pattern of the syntax rule matches and the type
    rule is the first one with a matching pattern. *)
Theorem C9_typeerror_classified_as_type :
  forall exitCode : Z,
    err_category (classify S7_stderr exitCode) = type
    /\ err_category (classify S7_stderr exitCode) <> runtime
    /\ map category ERROR_PATTERNS =
         [syntax; type; import; runtime; assertion; timeout; permission;
          resource; network]
    /\ (exists syntax_rule type_rule later_rules,
          ERROR_PATTERNS = syntax_rule :: type_rule :: later_rules
          /\ rule_matches S7_stderr (toLowerCase S7_stderr) syntax_rule = false
          /\ rule_matches S7_stderr (toLowerCase S7_stderr) type_rule = true).
Proof.
  intros exitCode.
  rewrite (classify_exitCode_irrelevant S7_stderr exitCode 0).
  split; [ by vm_compute | ].
  split; [ by vm_compute | ].
  split; [ reflexivity | ].
  eexists _, _, _. split; [ reflexivity | ].
  split; by vm_compute.
Qed.

(** ** What the first rule always catches *)

Lemma search_app icase r (pre s : string) :
  search icase r s = true -> search icase r (pre +:+ s) = true.
Proof.
  intros H. induction pre as [|c pre IH]; [done|].
  change (String c pre +:+ s) with (String c (pre +:+ s)).
  cbn [search]. rewrite IH. apply orb_true_r.
Qed.

Lemma lit_not_Void (s : string) : lit s <> Void.
Proof. destruct s as [|c [|c' s]]; done. Qed.

Lemma cat'_Eps r : r <> Void -> cat' Eps r = r.
Proof. by destruct r. Qed.

Lemma match_prefix_nullable icase r s : nullable r = true -> match_prefix icase r s = true.
Proof. intros H. destruct s; simpl; by rewrite H. Qed.

(** A literal matches at the front of a subject that spells it, letter
    case aside. *)
Lemma match_prefix_lit (pat w post : string) :
  toLowerCase w = toLowerCase pat ->
  match_prefix true (lit pat) (w +:+ post) = true.
Proof.
  revert w. induction pat as [|a pat IH]; intros w Hw.
  - by apply match_prefix_nullable.
  - destruct w as [|b w]; [done|]. simpl in Hw. injection Hw as Hab Hw.
    change (String b w +:+ post) with (String b (w +:+ post)).
    assert (Hc : cmatch true (CChar a) b = true).
    { simpl. rewrite Hab. apply Ascii.eqb_refl. }
    destruct pat as [|a' pat].
    + cbn [lit match_prefix nullable deriv orb]. rewrite Hc.
      by apply match_prefix_nullable.
    + change (lit (String a (String a' pat)))
        with (Cat (Sym (CChar a)) (lit (String a' pat))).
      cbn [match_prefix nullable deriv andb orb]. rewrite Hc.
      rewrite cat'_Eps by apply lit_not_Void.
      specialize (IH w Hw).
      destruct (lit (String a' pat)) eqn:E; try done.
      by destruct (lit_not_Void (String a' pat)).
Qed.

Lemma search_here icase r (s : string) :
  match_prefix icase r s = true -> search icase r s = true.
Proof. intros H. destruct s; cbn [search]; by rewrite H. Qed.

Lemma exec_literal (pat pre w post : string) :
  toLowerCase w = toLowerCase pat ->
  exec (ci_ (lit pat)) (pre +:+ w +:+ post) = true.
Proof.
  intros Hw. unfold exec, ci_. simpl. apply search_app, search_here.
  by apply match_prefix_lit.
Qed.

Lemma cat'_Cat r1 r2 :
  r2 <> Void -> (exists cs, r1 = Sym cs) \/ (exists a b, r1 = Cat a b) ->
  cat' r1 r2 = Cat r1 r2.
Proof. intros H2 [[cs ->]|(a & b & ->)]; by destruct r2. Qed.

Lemma lit_shape a (s : string) :
  (exists cs, lit (String a s) = Sym cs) \/ (exists x y, lit (String a s) = Cat x y).
Proof. destruct s; simpl; eauto. Qed.

(** A literal followed by [r] matches a subject that spells the literal,
    letter case aside, where [r] matches what follows. *)
Lemma match_prefix_lit_then (pat w rest : string) (r : re) :
  pat <> "" -> r <> Void -> nullable r = false ->
  toLowerCase w = toLowerCase pat ->
  match_prefix true r rest = true ->
  match_prefix true (Cat (lit pat) r) (w +:+ rest) = true.
Proof.
  intros Hne Hr Hnull. revert w.
  induction pat as [|a pat IH]; [done|]. intros w Hw Hrest.
  destruct w as [|b w]; [done|]. simpl in Hw. injection Hw as Hab Hw.
  change (String b w +:+ rest) with (String b (w +:+ rest)).
  assert (Hc : cmatch true (CChar a) b = true).
  { simpl. rewrite Hab. apply Ascii.eqb_refl. }
  destruct pat as [|a' pat].
  - destruct w; [|done].
    change ("" +:+ rest) with rest.
    cbn [lit match_prefix nullable deriv andb orb]. rewrite Hc.
    rewrite cat'_Eps by done. destruct r; try done.
  - change (lit (String a (String a' pat)))
      with (Cat (Sym (CChar a)) (lit (String a' pat))).
    cbn [match_prefix nullable deriv andb orb]. rewrite Hc.
    rewrite cat'_Eps by apply lit_not_Void.
    rewrite cat'_Cat by (try done; apply lit_shape).
    by apply IH.
Qed.

Lemma match_prefix_rest (c : ascii) (post : string) :
  is_line_terminator c = false ->
  match_prefix true (Cat (Star ws) (Plus dot)) (String c post) = true.
Proof.
  intros Hc. cbn [match_prefix nullable Plus andb orb deriv ws dot cmatch].
  rewrite Hc. cbn [negb]. destruct (is_space c); cbn; by destruct post.
Qed.

Definition syntax_rule : ErrorPattern :=
  mkErrorPattern syntax
    [ ci_ (seq [lit "SyntaxError:"; Star ws; Plus dot]);
      ci_ (lit "Unexpected token");
      ci_ (lit "Parsing error");
      cs_ (seq [lit "error TS1"; Rep 3 digit; lit ":"]) ].

(** An output that contains "Unexpected token" or "Parsing error", or
    "SyntaxError:" followed by a character that does not end the line, in
    any letter case, is classified as a syntax error for every exit code,
    whatever else the output holds. *)
Theorem syntax_markers_win :
  forall (pre w post : string) (exitCode : Z),
    toLowerCase w = "unexpected token"
    \/ toLowerCase w = "parsing error"
    \/ (exists w' c, w = w' +:+ String c "" /\ toLowerCase w' = "syntaxerror:"
                     /\ is_line_terminator c = false) ->
    err_category (classify (pre +:+ w +:+ post) exitCode) = syntax
    /\ originalError (classify (pre +:+ w +:+ post) exitCode) = pre +:+ w +:+ post.
Proof.
  intros pre w post exitCode Hw.
  assert (Hrule : rule_matches (pre +:+ w +:+ post) (toLowerCase (pre +:+ w +:+ post))
                    syntax_rule = true).
  { unfold rule_matches, syntax_rule. cbn [patterns existsb].
    destruct Hw as [Hw|[Hw|(w' & c & -> & Hw & Hc)]].
    - rewrite (exec_literal "Unexpected token" pre w post Hw).
      by rewrite !orb_true_r.
    - rewrite (exec_literal "Parsing error" pre w post Hw).
      by rewrite !orb_true_r.
    - assert (H : exec (ci_ (seq [lit "SyntaxError:"; Star ws; Plus dot]))
                    (pre +:+ (w' +:+ String c "") +:+ post) = true).
      { unfold exec, ci_. simpl ignoreCase. simpl source.
        apply search_app, search_here.
        replace ((w' +:+ String c "") +:+ post) with (w' +:+ String c post).
        2:{ clear. induction w' as [|a w' IH]; [done|].
            change (String a w' +:+ String c post) with (String a (w' +:+ String c post)).
            by rewrite IH. }
        apply (match_prefix_lit_then "SyntaxError:" w' (String c post)
                 (Cat (Star ws) (Plus dot))); try done.
        by apply match_prefix_rest. }
      by rewrite H. }
  unfold classify.
  change ERROR_PATTERNS with (syntax_rule :: List.tl ERROR_PATTERNS).
  cbn [first_match]. by rewrite Hrule.
Qed.

Lemma syntax_markers_win_witness :
  toLowerCase "Unexpected TOKEN" = "unexpected token"
  /\ err_category (classify ("TypeError: x is not a function; " +:+ "Unexpected TOKEN"
                             +:+ " }") 1) = syntax
  /\ originalError (classify ("TypeError: x is not a function; " +:+ "Unexpected TOKEN"
                              +:+ " }") 1)
     = "TypeError: x is not a function; " +:+ "Unexpected TOKEN" +:+ " }".
Proof.
  split; [reflexivity|].
  apply (syntax_markers_win "TypeError: x is not a function; " "Unexpected TOKEN" " }" 1).
  left. reflexivity.
Defined.

(** ** [analyzeMultiple] *)

Definition newline : string := String "010"%char "".

(** [s.split('\n')] *)
Fixpoint split_lines (s : string) : list string :=
  match s with
  | EmptyString => [""]
  | String c s' =>
      if Ascii.eqb c "010"%char then "" :: split_lines s'
      else match split_lines s' with
           | l :: ls => String c l :: ls
           | [] => [String c ""]
           end
  end.

(** [isErrorStart(line)]: the pattern is anchored at the start of the
    line. *)
Definition error_start : re :=
  seq [Star ws;
       alts [lit "Error"; lit "TypeError"; lit "SyntaxError"; lit "ReferenceError";
             lit "FAIL"; seq [lit "error TS"; Plus digit]]].

Definition isErrorStart (line : string) : bool := match_prefix true error_start line.

(** A string is truthy when it is not empty. *)
Definition nonempty (s : string) : bool := negb (String.eqb s "").

(** One turn of the loop; the accumulator is [(errors, currentError)]. *)
Definition analyze_line (exitCode : Z) (acc : list ClassifiedError * string)
    (line : string) : list ClassifiedError * string :=
  let '(errors, currentError) := acc in
  if isErrorStart line then
    ((if nonempty currentError then errors ++ [classify currentError exitCode]
      else errors)%list, line)
  else if nonempty currentError then
    (errors, currentError +:+ newline +:+ line)
  else (errors, currentError).

Definition analyzeMultiple (stderr : string) (exitCode : Z) : list ClassifiedError :=
  let '(errors, currentError) :=
    fold_left (analyze_line exitCode) (split_lines stderr) ([], "") in
  let errors := (if nonempty currentError
                 then errors ++ [classify currentError exitCode]
                 else errors)%list in
  if (List.length errors =? 0)%nat then [classify stderr exitCode] else errors.

(** The lines from the first one that starts an error. *)
Fixpoint from_first_error (lines : list string) : list string :=
  match lines with
  | [] => []
  | l :: ls => if isErrorStart l then l :: ls else from_first_error ls
  end.

(** One error with the lines that follow it up to the next error. *)
Definition error_block (b : string) : Prop :=
  exists l rest,
    b = String.concat newline (l :: rest) /\ isErrorStart l = true
    /\ forallb (fun r => negb (isErrorStart r)) rest = true.

Lemma split_lines_nonempty (s : string) : split_lines s <> [].
Proof.
  destruct s as [|c s]; [done|]. cbn [split_lines].
  destruct (Ascii.eqb c "010"%char); [done|]. by destruct (split_lines s).
Qed.

Lemma concat_split_lines (s : string) : String.concat newline (split_lines s) = s.
Proof.
  induction s as [|c s IH]; [done|]. cbn [split_lines].
  pose proof (split_lines_nonempty s) as Hne.
  destruct (split_lines s) as [|l ls] eqn:El; [done|].
  destruct (Ascii.eqb c "010"%char) eqn:E.
  - apply Ascii.eqb_eq in E as ->.
    change (String.concat newline ("" :: l :: ls))
      with ("" +:+ newline +:+ String.concat newline (l :: ls)).
    by rewrite IH.
  - destruct ls as [|l' ls]; simpl in *; by rewrite <- IH.
Qed.

Lemma app_string_assoc (s1 s2 s3 : string) :
  (s1 +:+ s2) +:+ s3 = s1 +:+ (s2 +:+ s3).
Proof.
  induction s1 as [|a s1 IH]; [done|].
  change (String a s1 +:+ s2) with (String a (s1 +:+ s2)).
  change (String a (s1 +:+ s2) +:+ s3) with (String a ((s1 +:+ s2) +:+ s3)).
  by rewrite IH.
Qed.

Lemma concat_snoc (sep : string) (l : list string) (x : string) :
  l <> [] -> String.concat sep (l ++ [x])%list = String.concat sep l +:+ sep +:+ x.
Proof.
  induction l as [|a l IH]; [done|]. intros _.
  destruct l as [|b l]; [done|].
  change (String.concat sep ((a :: b :: l) ++ [x]))
    with (a +:+ sep +:+ String.concat sep ((b :: l) ++ [x])).
  rewrite IH by done.
  change (String.concat sep (a :: b :: l))
    with (a +:+ sep +:+ String.concat sep (b :: l)).
  by rewrite !app_string_assoc.
Qed.

Lemma originalError_classify s e : originalError (classify s e) = s.
Proof. unfold classify. by destruct (first_match _ _ _). Qed.

Lemma isErrorStart_nonempty l : isErrorStart l = true -> nonempty l = true.
Proof. by destruct l. Qed.

Lemma from_first_error_app seen line :
  from_first_error (seen ++ [line])%list
  = if existsb isErrorStart seen then (from_first_error seen ++ [line])%list
    else if isErrorStart line then [line] else [].
Proof.
  induction seen as [|l seen IH]; simpl; [done|].
  destruct (isErrorStart l); [done|]. exact IH.
Qed.

Lemma from_first_error_nonempty seen :
  existsb isErrorStart seen = true -> from_first_error seen <> [].
Proof.
  induction seen as [|l seen IH]; simpl; [done|].
  destruct (isErrorStart l); [done|]. exact IH.
Qed.

Section Analyze.

Variable exitCode : Z.

Definition analyzed (seen : list string) (acc : list ClassifiedError * string) : Prop :=
  if existsb isErrorStart seen then
    nonempty (snd acc) = true
    /\ S (List.length (fst acc)) = List.length (List.filter isErrorStart seen)
    /\ String.concat newline (List.map originalError (fst acc) ++ [snd acc])%list
       = String.concat newline (from_first_error seen)
    /\ error_block (snd acc)
    /\ Forall (fun e => e = classify (originalError e) exitCode
                        /\ error_block (originalError e)) (fst acc)
  else acc = ([], "").

Lemma analyze_line_spec seen acc line :
  analyzed seen acc -> analyzed (seen ++ [line])%list (analyze_line exitCode acc line).
Proof.
  unfold analyzed. rewrite existsb_app, from_first_error_app, List.filter_app, length_app.
  cbn [existsb List.filter]. rewrite orb_false_r.
  destruct acc as [errors cur]. unfold analyze_line.
  destruct (existsb isErrorStart seen) eqn:Hseen; cbn [orb fst snd].
  - intros (Hcur & Hlen & Hcat & Hblock & Hall). rewrite Hcur.
    pose proof (from_first_error_nonempty seen Hseen) as Hne.
    destruct (isErrorStart line) eqn:Hline; cbn [fst snd List.length].
    + split; [by apply isErrorStart_nonempty|]. split.
      { rewrite length_app. simpl. lia. }
      split.
      { rewrite map_app. cbn [List.map]. rewrite originalError_classify.
        rewrite (concat_snoc newline (List.map originalError errors ++ [cur]) line)
          by (by destruct (List.map originalError errors)).
        rewrite (concat_snoc newline (from_first_error seen) line) by done.
        by rewrite Hcat. }
      split.
      { exists line, []. by rewrite Hline. }
      apply Forall_app. split; [done|]. constructor; [|done].
      by rewrite originalError_classify.
    + split.
      { destruct cur; [done|done]. }
      split; [simpl; lia|]. split.
      { rewrite (concat_snoc newline (from_first_error seen) line) by done.
        rewrite <- Hcat.
        destruct (List.map originalError errors) as [|x xs]; [done|].
        rewrite (concat_snoc newline (x :: xs) cur) by done.
        rewrite (concat_snoc newline (x :: xs) (cur +:+ newline +:+ line)) by done.
        by rewrite !app_string_assoc. }
      split; [|done].
      destruct Hblock as (l & rest & -> & Hl & Hrest).
      exists l, (rest ++ [line])%list. split.
      { change (l :: rest ++ [line])%list with ((l :: rest) ++ [line])%list.
        by rewrite concat_snoc. }
      split; [done|]. rewrite forallb_app, Hrest. simpl. by rewrite Hline.
  - intros [= -> ->]. cbn [nonempty String.eqb negb].
    destruct (isErrorStart line) eqn:Hline; cbn [fst snd]; [|done].
    split; [by apply isErrorStart_nonempty|].
    assert (Hnone : List.filter isErrorStart seen = []).
    { clear -Hseen. induction seen as [|l seen IH]; [done|]. simpl in *.
      destruct (isErrorStart l); [done|]. by apply IH. }
    rewrite Hnone. split; [done|]. split; [done|]. split; [|done].
    exists line, []. by rewrite Hline.
Qed.

Lemma analyze_lines_spec lines : forall seen acc,
  analyzed seen acc ->
  analyzed (seen ++ lines)%list (fold_left (analyze_line exitCode) lines acc).
Proof.
  induction lines as [|l lines IH]; intros seen acc H; simpl.
  - by rewrite app_nil_r.
  - replace (seen ++ l :: lines)%list with ((seen ++ [l]) ++ lines)%list
      by (by rewrite <- app_assoc).
    apply IH. by apply analyze_line_spec.
Qed.

End Analyze.

(** [analyzeMultiple(stderr, exitCode)] never returns an empty list.
    When no line starts an error it classifies the whole output.
    Otherwise it returns one classified error per line that starts an
    error, each the classification of a block made of that line and the
    lines up to the next start; the blocks, joined by newlines, are the
    output from its first error line on, so the lines before it are the
    only ones dropped. *)
Theorem analyzeMultiple_blocks :
  forall (stderr : string) (exitCode : Z),
    let lines := split_lines stderr in
    let result := analyzeMultiple stderr exitCode in
    String.concat newline lines = stderr
    /\ result <> []
    /\ (existsb isErrorStart lines = false -> result = [classify stderr exitCode])
    /\ (existsb isErrorStart lines = true ->
        List.length result = List.length (List.filter isErrorStart lines)
        /\ String.concat newline (List.map originalError result)
           = String.concat newline (from_first_error lines)
        /\ Forall (fun e => e = classify (originalError e) exitCode
                            /\ error_block (originalError e)) result).
Proof.
  intros stderr exitCode lines result.
  split; [apply concat_split_lines|].
  pose proof (analyze_lines_spec exitCode lines [] ([], "") eq_refl) as H.
  simpl app in H. unfold analyzed in H.
  unfold result, analyzeMultiple. fold lines.
  destruct (fold_left (analyze_line exitCode) lines ([], "")) as [errors cur].
  destruct (existsb isErrorStart lines).
  - cbn [fst snd] in H. destruct H as (Hcur & Hlen & Hcat & Hblock & Hall).
    rewrite Hcur.
    assert (Hz : (List.length (errors ++ [classify cur exitCode])%list =? 0)%nat = false).
    { apply Nat.eqb_neq. rewrite length_app. simpl. lia. }
    rewrite Hz. split; [by destruct errors|]. split; [done|]. intros _.
    split; [rewrite length_app; simpl; lia|]. split.
    + rewrite map_app. cbn [List.map]. by rewrite originalError_classify.
    + apply Forall_app. split; [done|]. constructor; [|done].
      by rewrite originalError_classify.
  - injection H as -> ->. simpl. done.
Qed.

(** ** [extractMessage] *)

(** [s.trim()], on the white space and line terminators of Latin-1. *)
Fixpoint trimStart (s : string) : string :=
  match s with
  | EmptyString => EmptyString
  | String c s' => if is_space c then trimStart s' else s
  end.

Fixpoint trimEnd (s : string) : string :=
  match s with
  | EmptyString => EmptyString
  | String c s' =>
      match trimEnd s' with
      | EmptyString => if is_space c then EmptyString else String c EmptyString
      | t => String c t
      end
  end.

Definition trim (s : string) : string := trimEnd (trimStart s).

(** [line.includes(sub)] *)
Definition includes (line sub : string) : bool := search false (lit sub) line.

Definition names_error (line : string) : bool :=
  includes line "Error:" || includes line "FAIL" || includes line "error TS".

Definition extractMessage (stderr : string) : string :=
  let lines := List.filter (fun l => nonempty (trim l)) (split_lines stderr) in
  match List.find names_error lines with
  | Some line => trim line
  | None =>
      match lines with
      | l :: _ => if nonempty (trim l) then trim l else "Unknown error"
      | [] => "Unknown error"
      end
  end.

Fixpoint has_newline (s : string) : bool :=
  match s with
  | EmptyString => false
  | String c s' => Ascii.eqb c "010"%char || has_newline s'
  end.

Definition first_char (s : string) : option ascii :=
  match s with
  | EmptyString => None
  | String c _ => Some c
  end.

Fixpoint last_char (s : string) : option ascii :=
  match s with
  | EmptyString => None
  | String c EmptyString => Some c
  | String _ s' => last_char s'
  end.

Lemma trimStart_first s c : first_char (trimStart s) = Some c -> is_space c = false.
Proof.
  induction s as [|a s IH]; simpl; [done|].
  destruct (is_space a) eqn:E; [done|]. simpl. by intros [= <-].
Qed.

Lemma trimEnd_first s : trimEnd s <> "" -> first_char (trimEnd s) = first_char s.
Proof.
  destruct s as [|a s]; [done|]. simpl.
  destruct (trimEnd s); [|done]. by destruct (is_space a).
Qed.

Lemma trimEnd_last s c : last_char (trimEnd s) = Some c -> is_space c = false.
Proof.
  induction s as [|a s IH]; simpl; [done|].
  destruct (trimEnd s) as [|b t] eqn:E.
  - destruct (is_space a) eqn:Ea; [done|]. simpl. by intros [= <-].
  - simpl. simpl in IH. exact IH.
Qed.

Lemma trimStart_newline s : has_newline s = false -> has_newline (trimStart s) = false.
Proof.
  induction s as [|a s IH]; simpl; [done|].
  intros [Ha Hs]%orb_false_elim. destruct (is_space a); [by apply IH|].
  simpl. by rewrite Ha, Hs.
Qed.

Lemma trimEnd_newline s : has_newline s = false -> has_newline (trimEnd s) = false.
Proof.
  induction s as [|a s IH]; simpl; [done|].
  intros [Ha Hs]%orb_false_elim. specialize (IH Hs).
  destruct (trimEnd s) as [|b t].
  - destruct (is_space a); [done|]. simpl. by rewrite Ha.
  - simpl. simpl in IH. by rewrite Ha, IH.
Qed.

Lemma split_lines_newline s l : In l (split_lines s) -> has_newline l = false.
Proof.
  revert l. induction s as [|c s IH]; intros l; cbn [split_lines].
  - by intros [<-|[]].
  - pose proof (split_lines_nonempty s) as Hne.
    destruct (split_lines s) as [|l0 ls]; [done|].
    destruct (Ascii.eqb c "010"%char) eqn:E.
    + intros [<-|Hin]; [done|]. by apply IH.
    + intros [<-|Hin].
      * simpl. rewrite E. apply IH. by left.
      * apply IH. by right.
Qed.

(** A message that is the trimmed form of a line of the output. *)
Definition trimmed_line (stderr message : string) : Prop :=
  exists line, In line (split_lines stderr) /\ message = trim line.

(** The message [classify] reports is never empty; it is "Unknown error"
    when every line of the output is blank, and otherwise the trimmed
    form of a line of the output that is not blank: it holds no newline
    and neither starts nor ends with white space.  When a line that is not
    blank contains "Error:", "FAIL" or "error TS", the message is the
    first such line, trimmed. *)
Theorem extractMessage_is_a_trimmed_line :
  forall (stderr : string),
    let message := extractMessage stderr in
    let lines := List.filter (fun l => nonempty (trim l)) (split_lines stderr) in
    message <> ""
    /\ (lines = [] -> message = "Unknown error")
    /\ (lines <> [] ->
        trimmed_line stderr message
        /\ has_newline message = false
        /\ (forall c, first_char message = Some c -> is_space c = false)
        /\ (forall c, last_char message = Some c -> is_space c = false))
    /\ (forall before line after,
          lines = (before ++ line :: after)%list ->
          forallb (fun l => negb (names_error l)) before = true ->
          names_error line = true ->
          message = trim line).
Proof.
  intros stderr message lines.
  assert (Hpick : lines <> [] ->
            exists line, In line lines /\ message = trim line).
  { unfold message, extractMessage. fold lines. intros Hne.
    destruct (List.find names_error lines) as [line|] eqn:Hf.
    - apply find_some in Hf as [Hin _]. eauto.
    - destruct lines as [|l ls] eqn:El; [done|].
      assert (Hl : In l lines) by (rewrite El; by left).
      unfold lines in Hl. apply filter_In in Hl as [_ Hl].
      rewrite Hl. exists l. split; [by left|done]. }
  assert (Hblank : lines = [] -> message = "Unknown error").
  { unfold message, extractMessage. fold lines. by intros ->. }
  split_and!.
  - destruct lines as [|l ls] eqn:El.
    + by rewrite Hblank.
    + destruct Hpick as (line & Hin & ->); [done|].
      rewrite <- El in Hin. unfold lines in Hin. apply filter_In in Hin as [_ Hl].
      intros E. by rewrite E in Hl.
  - done.
  - intros Hne. destruct (Hpick Hne) as (line & Hin & Hm).
    unfold lines in Hin. apply filter_In in Hin as [Hin Hl].
    split; [by exists line|]. rewrite Hm. split_and!.
    + unfold trim. apply trimEnd_newline, trimStart_newline.
      by eapply split_lines_newline.
    + intros c. unfold trim. rewrite trimEnd_first.
      * apply trimStart_first.
      * intros E. unfold trim in Hl. by rewrite E in Hl.
    + intros c. apply trimEnd_last.
  - intros before line after El Hbefore Hline.
    unfold message, extractMessage. fold lines. rewrite El.
    assert (Hfind : List.find names_error (before ++ line :: after)%list = Some line).
    { clear El. induction before as [|b before IH]; simpl.
      - by rewrite Hline.
      - simpl in Hbefore. apply andb_prop in Hbefore as [Hb Hrest].
        apply negb_true_iff in Hb. rewrite Hb. by apply IH. }
    by rewrite Hfind.
Qed.

End Classifier.


(* ===================================================================== *)
(** * JavaScript values shared by the state store and the orchestrator   *)
(* ===================================================================== *)

Module Js.

(** A thrown exception or a returned value. *)
Inductive fallible (A : Type) : Type :=
  | Ok (a : A)
  | Throw (msg : string).
Arguments Ok {A} a.
Arguments Throw {A} msg.

(** A [Date] object: a time value in milliseconds, or "Invalid Date".
    Time values are modelled as unbounded integers. *)
Inductive Date : Type :=
  | ValidDate (ms : Z)
  | InvalidDate.

#[global] Instance Date_eq_dec : EqDecision Date.
Proof. solve_decision. Defined.

(** Dynamically typed values.  Numbers are modelled as integers; objects
    are property lists in insertion order. *)
Inductive jsval : Type :=
  | VUndefined
  | VNull
  | VBool (b : bool)
  | VNum (n : Z)
  | VStr (s : string)
  | VDate (d : Date)
  | VArr (elems : list jsval)
  | VObj (props : list (string * jsval)).

(** JSON documents. *)
Inductive json : Type :=
  | JNull
  | JBool (b : bool)
  | JNum (n : Z)
  | JStr (s : string)
  | JArr (elems : list json)
  | JObj (props : list (string * json)).

(** [o.k]: [undefined] when the property is absent. *)
Fixpoint obj_get (ps : list (string * jsval)) (k : string) : jsval :=
  match ps with
  | [] => VUndefined
  | (k', v) :: ps' => if String.eqb k' k then v else obj_get ps' k
  end.

(** [{...o, k: v}]: an existing key keeps its place, a new one is appended. *)
Fixpoint obj_set (ps : list (string * jsval)) (k : string) (v : jsval)
  : list (string * jsval) :=
  match ps with
  | [] => [(k, v)]
  | (k', v') :: ps' =>
      if String.eqb k' k then (k', v) :: ps' else (k', v') :: obj_set ps' k v
  end.

(** Property read on an arbitrary value; [None] is the TypeError raised
    when reading a property of [null] or [undefined]. *)
Definition get (v : jsval) (k : string) : option jsval :=
  match v with
  | VUndefined | VNull => None
  | VObj ps => Some (obj_get ps k)
  | _ => Some VUndefined
  end.

(** Own enumerable properties copied by a spread [{...v}] (the index keys
    of arrays and strings are left out; no claim reads them). *)
Definition spread (v : jsval) : list (string * jsval) :=
  match v with
  | VObj ps => ps
  | _ => []
  end.

(** Truthiness, as used by [x ? a : b] and [x && y]. *)
Definition truthy (v : jsval) : bool :=
  match v with
  | VUndefined | VNull => false
  | VBool b => b
  | VNum n => negb (n =? 0)
  | VStr s => negb (String.eqb s "")
  | _ => true
  end.

Section Runtime.

(** The date codec of the JavaScript runtime: [Date.prototype.toISOString]
    on a valid time value, and the parser behind [new Date(string)]. *)
Variable toISOString : Z -> string.
Variable Date_parse : string -> Date.

(** [new Date(v)] *)
Definition new_Date (v : jsval) : Date :=
  match v with
  | VStr s => Date_parse s
  | VNum n => ValidDate n
  | VNull => ValidDate 0
  | VBool b => ValidDate (if b then 1 else 0)
  | VDate d => d
  | _ => InvalidDate
  end.

(** [JSON.stringify(v)] as a document; [None] when the result is
    [undefined] (the property is then omitted, an array slot becomes null).
    A [Date] is written through [toJSON]: its ISO string, or null when
    invalid. *)
Fixpoint JSON_stringify (v : jsval) : option json :=
  match v with
  | VUndefined => None
  | VNull => Some JNull
  | VBool b => Some (JBool b)
  | VNum n => Some (JNum n)
  | VStr s => Some (JStr s)
  | VDate (ValidDate ms) => Some (JStr (toISOString ms))
  | VDate InvalidDate => Some JNull
  | VArr l =>
      Some (JArr (List.map (fun x =>
              match JSON_stringify x with Some j => j | None => JNull end) l))
  | VObj ps =>
      Some (JObj ((fix props (ps : list (string * jsval)) : list (string * json) :=
              match ps with
              | [] => []
              | (k, x) :: ps' =>
                  match JSON_stringify x with
                  | Some j => (k, j) :: props ps'
                  | None => props ps'
                  end
              end) ps))
  end.

(** The value [JSON.parse] builds from a document. *)
Fixpoint JSON_value (j : json) : jsval :=
  match j with
  | JNull => VNull
  | JBool b => VBool b
  | JNum n => VNum n
  | JStr s => VStr s
  | JArr l => VArr (List.map JSON_value l)
  | JObj ps => VObj (List.map (fun kv => (fst kv, JSON_value (snd kv))) ps)
  end.

(** Values that survive a trip through JSON unchanged: no [undefined] and
    no [Date] anywhere inside. *)
Fixpoint plain (v : jsval) : bool :=
  match v with
  | VUndefined => false
  | VDate _ => false
  | VArr l => forallb plain l
  | VObj ps => forallb (fun kv => plain (snd kv)) ps
  | _ => true
  end.

Definition stringify_props (ps : list (string * jsval)) : list (string * json) :=
  match JSON_stringify (VObj ps) with
  | Some (JObj js) => js
  | _ => []
  end.

(** *** Unfolding equations *)

Lemma JSON_stringify_VObj ps :
  JSON_stringify (VObj ps) = Some (JObj (stringify_props ps)).
Proof. reflexivity. Qed.

Lemma stringify_props_nil : stringify_props [] = [].
Proof. reflexivity. Qed.

Lemma stringify_props_cons k x ps :
  stringify_props ((k, x) :: ps) =
  match JSON_stringify x with
  | Some j => (k, j) :: stringify_props ps
  | None => stringify_props ps
  end.
Proof. unfold stringify_props. simpl. by destruct (JSON_stringify x). Qed.

Lemma JSON_stringify_VArr l :
  JSON_stringify (VArr l) =
  Some (JArr (List.map (fun x => default JNull (JSON_stringify x)) l)).
Proof. reflexivity. Qed.

Lemma JSON_stringify_VStr s : JSON_stringify (VStr s) = Some (JStr s).
Proof. reflexivity. Qed.

Lemma JSON_stringify_VNum n : JSON_stringify (VNum n) = Some (JNum n).
Proof. reflexivity. Qed.

Lemma JSON_stringify_VUndefined : JSON_stringify VUndefined = None.
Proof. reflexivity. Qed.

Lemma JSON_stringify_VDate ms :
  JSON_stringify (VDate (ValidDate ms)) = Some (JStr (toISOString ms)).
Proof. reflexivity. Qed.

Lemma JSON_value_JObj_cons k j js :
  JSON_value (JObj ((k, j) :: js)) =
  VObj ((k, JSON_value j) :: spread (JSON_value (JObj js))).
Proof. reflexivity. Qed.

Lemma JSON_value_JObj_nil : JSON_value (JObj []) = VObj [].
Proof. reflexivity. Qed.

Lemma JSON_value_JArr l : JSON_value (JArr l) = VArr (List.map JSON_value l).
Proof. reflexivity. Qed.

Lemma JSON_value_JStr s : JSON_value (JStr s) = VStr s.
Proof. reflexivity. Qed.

Lemma JSON_value_JNum n : JSON_value (JNum n) = VNum n.
Proof. reflexivity. Qed.

(** A plain value is written to a document that reads back as itself. *)
Lemma plain_roundtrip (v : jsval) :
  plain v = true ->
  exists j, JSON_stringify v = Some j /\ JSON_value j = v.
Proof.
  revert v. fix IH 1.
  intros [ | | b | n | s | d | l | ps] Hp; simpl in Hp; try discriminate.
  - by exists JNull.
  - by exists (JBool b).
  - by exists (JNum n).
  - by exists (JStr s).
  - assert (Hl : exists js,
        List.map (fun x => default JNull (JSON_stringify x)) l = js
        /\ List.map JSON_value js = l).
    { clear -IH Hp. induction l as [|x l IHl]; simpl in *.
      - by exists [].
      - apply andb_prop in Hp as [Hx Hl].
        destruct (IH x Hx) as (j & Hj & Hv).
        destruct (IHl Hl) as (js & Hjs & Hvs).
        exists (j :: js). rewrite Hj, Hjs. simpl. by rewrite Hv, Hvs. }
    destruct Hl as (js & Hjs & Hvs).
    exists (JArr js). rewrite JSON_stringify_VArr, Hjs, JSON_value_JArr.
    by rewrite Hvs.
  - assert (Hl : exists js,
        stringify_props ps = js
        /\ List.map (fun kv => (fst kv, JSON_value (snd kv))) js = ps).
    { clear -IH Hp. induction ps as [|[k x] ps IHl].
      - by exists [].
      - simpl in Hp. apply andb_prop in Hp as [Hx Hl].
        destruct (IH x Hx) as (j & Hj & Hv).
        destruct (IHl Hl) as (js & Hjs & Hvs).
        exists ((k, j) :: js). rewrite stringify_props_cons, Hj, Hjs.
        simpl. by rewrite Hv, Hvs. }
    destruct Hl as (js & Hjs & Hvs).
    exists (JObj js). rewrite JSON_stringify_VObj, Hjs. simpl. by rewrite Hvs.
Qed.

End Runtime.

Create Rewrite HintDb js.
#[export] Hint Rewrite JSON_stringify_VObj stringify_props_nil stringify_props_cons
  JSON_stringify_VStr JSON_stringify_VNum JSON_stringify_VUndefined
  JSON_stringify_VDate JSON_value_JObj_cons JSON_value_JObj_nil
  JSON_value_JStr JSON_value_JNum : js.

(** Text, up to what [JSON.parse] makes of it: the rendering of a
    document, or text on which [JSON.parse] throws a SyntaxError. *)
Inductive Text : Type :=
  | Rendered (doc : json)
  | Unparseable (raw : string).

Definition JSON_parse (t : Text) : fallible jsval :=
  match t with
  | Rendered doc => Ok (JSON_value doc)
  | Unparseable _ => Throw "SyntaxError"
  end.

End Js.

(* ===================================================================== *)
(** * State store  (dist/core/StateManager.js)                            *)
(* ===================================================================== *)

Module StateStore.
Import Js.

(** ** The file system port

    An in-memory file system: files by path, and the directories made. *)
Record FS : Type := mkFS {
  files : gmap string Text;
  dirs : gset string
}.

Definition fs_exists (fs : FS) (path : string) : bool :=
  bool_decide (is_Some (files fs !! path)) || bool_decide (path ∈ dirs fs).

Definition fs_mkdir (fs : FS) (path : string) : FS :=
  mkFS (files fs) ({[path]} ∪ dirs fs).

Definition fs_writeFile (fs : FS) (path : string) (content : Text) : FS :=
  mkFS (<[path := content]> (files fs)) (dirs fs).

Definition fs_readFile (fs : FS) (path : string) : fallible Text :=
  match files fs !! path with
  | Some t => Ok t
  | None => Throw "ENOENT"
  end.

(** [s] with [pre] removed from its front. *)
Fixpoint strip_prefix (pre s : string) : option string :=
  match pre, s with
  | EmptyString, _ => Some s
  | String a pre', String b s' =>
      if Ascii.eqb a b then strip_prefix pre' s' else None
  | String _ _, EmptyString => None
  end.

Fixpoint has_char (c : ascii) (s : string) : bool :=
  match s with
  | EmptyString => false
  | String a s' => Ascii.eqb a c || has_char c s'
  end.

(** [listFiles(dir, {recursive: false})]: the names of the files that lie
    directly in [dir]. *)
Definition fs_listFiles (fs : FS) (dir : string) : list string :=
  omap (fun kv : string * Text =>
          match strip_prefix (dir +:+ "/") (fst kv) with
          | Some name => if has_char "/"%char name then None else Some name
          | None => None
          end)
       (map_to_list (files fs)).

(** ** String helpers of the JavaScript runtime *)

(** [s.endsWith(suffix)] *)
Definition endsWith (s suffix : string) : bool :=
  let n := String.length s in
  let m := String.length suffix in
  (m <=? n)%nat && String.eqb (String.substring (n - m) m s) suffix.

Fixpoint drop_chars (n : nat) (s : string) : string :=
  match n, s with
  | O, _ => s
  | S n', String _ s' => drop_chars n' s'
  | S _, EmptyString => EmptyString
  end.

(** [s.replace(pat, rep)] with a string pattern: the first occurrence only. *)
Fixpoint replace (pat rep s : string) : string :=
  if String.prefix pat s then rep +:+ drop_chars (String.length pat) s
  else match s with
       | EmptyString => EmptyString
       | String c s' => String c (replace pat rep s')
       end.

(** ** Execution states as typed by the interfaces *)

Inductive Phase : Type := planning | executing | documenting | completed | failed.

Inductive TaskStatus : Type := PENDING | RUNNING | COMPLETED | FAILED.

Record TaskState : Type := mkTaskState {
  id : string;
  filePath : string;
  description : string;
  dependencies : list string;
  status : TaskStatus;
  result : option string;
  error : option string;
  attempts : Z;
  startedAt : option Date;
  completedAt : option Date
}.

Record ExecutionState : Type := mkExecutionState {
  planId : string;
  goal : string;
  phase : Phase;
  tasks : list TaskState;
  architectureReasoning : string;
  es_startedAt : Date;
  lastCheckpoint : Date;
  metadata : option (list (string * jsval))
}.

Definition Phase_str (p : Phase) : string :=
  match p with
  | planning => "planning" | executing => "executing"
  | documenting => "documenting" | completed => "completed"
  | failed => "failed"
  end.

Definition TaskStatus_str (s : TaskStatus) : string :=
  match s with
  | PENDING => "PENDING" | RUNNING => "RUNNING"
  | COMPLETED => "COMPLETED" | FAILED => "FAILED"
  end.

(** An optional property is present only when it holds a value. *)
Definition opt_prop (k : string) (o : option jsval) : list (string * jsval) :=
  match o with
  | Some v => [(k, v)]
  | None => []
  end.

(** The object a typed task state is at run time. *)
Definition TaskState_obj (t : TaskState) : jsval :=
  VObj ([ ("id", VStr (id t));
          ("filePath", VStr (filePath t));
          ("description", VStr (description t));
          ("dependencies", VArr (List.map VStr (dependencies t)));
          ("status", VStr (TaskStatus_str (status t))) ]
        ++ opt_prop "result" (VStr <$> result t)
        ++ opt_prop "error" (VStr <$> error t)
        ++ [ ("attempts", VNum (attempts t)) ]
        ++ opt_prop "startedAt" (VDate <$> startedAt t)
        ++ opt_prop "completedAt" (VDate <$> completedAt t)).

(** The object a typed execution state is at run time. *)
Definition ExecutionState_obj (s : ExecutionState) : jsval :=
  VObj ([ ("planId", VStr (planId s));
          ("goal", VStr (goal s));
          ("phase", VStr (Phase_str (phase s)));
          ("tasks", VArr (List.map TaskState_obj (tasks s)));
          ("architectureReasoning", VStr (architectureReasoning s));
          ("startedAt", VDate (es_startedAt s));
          ("lastCheckpoint", VDate (lastCheckpoint s)) ]
        ++ opt_prop "metadata" (VObj <$> metadata s)).

(** Reading an object back through the interface types. *)
Definition as_string (v : jsval) : option string :=
  match v with VStr s => Some s | _ => None end.

Definition as_opt_string (v : jsval) : option (option string) :=
  match v with
  | VUndefined => Some None
  | VStr s => Some (Some s)
  | _ => None
  end.

Definition as_Date (v : jsval) : option Date :=
  match v with VDate d => Some d | _ => None end.

Definition as_opt_Date (v : jsval) : option (option Date) :=
  match v with
  | VUndefined => Some None
  | VDate d => Some (Some d)
  | _ => None
  end.

Definition as_num (v : jsval) : option Z :=
  match v with VNum n => Some n | _ => None end.

Definition as_Phase (v : jsval) : option Phase :=
  match v with
  | VStr s =>
      if String.eqb s "planning" then Some planning
      else if String.eqb s "executing" then Some executing
      else if String.eqb s "documenting" then Some documenting
      else if String.eqb s "completed" then Some completed
      else if String.eqb s "failed" then Some failed
      else None
  | _ => None
  end.

Definition as_TaskStatus (v : jsval) : option TaskStatus :=
  match v with
  | VStr s =>
      if String.eqb s "PENDING" then Some PENDING
      else if String.eqb s "RUNNING" then Some RUNNING
      else if String.eqb s "COMPLETED" then Some COMPLETED
      else if String.eqb s "FAILED" then Some FAILED
      else None
  | _ => None
  end.

Definition as_array {A} (f : jsval -> option A) (v : jsval) : option (list A) :=
  match v with
  | VArr l => mapM f l
  | _ => None
  end.

Definition as_opt_record (v : jsval) : option (option (list (string * jsval))) :=
  match v with
  | VUndefined => Some None
  | VObj ps => Some (Some ps)
  | _ => None
  end.

Definition as_TaskState (v : jsval) : option TaskState :=
  match v with
  | VObj ps =>
      i ← as_string (obj_get ps "id");
      f ← as_string (obj_get ps "filePath");
      d ← as_string (obj_get ps "description");
      deps ← as_array as_string (obj_get ps "dependencies");
      st ← as_TaskStatus (obj_get ps "status");
      r ← as_opt_string (obj_get ps "result");
      e ← as_opt_string (obj_get ps "error");
      a ← as_num (obj_get ps "attempts");
      sa ← as_opt_Date (obj_get ps "startedAt");
      ca ← as_opt_Date (obj_get ps "completedAt");
      Some (mkTaskState i f d deps st r e a sa ca)
  | _ => None
  end.

Definition as_ExecutionState (v : jsval) : option ExecutionState :=
  match v with
  | VObj ps =>
      p ← as_string (obj_get ps "planId");
      g ← as_string (obj_get ps "goal");
      ph ← as_Phase (obj_get ps "phase");
      ts ← as_array as_TaskState (obj_get ps "tasks");
      ar ← as_string (obj_get ps "architectureReasoning");
      sa ← as_Date (obj_get ps "startedAt");
      lc ← as_Date (obj_get ps "lastCheckpoint");
      md ← as_opt_record (obj_get ps "metadata");
      Some (mkExecutionState p g ph ts ar sa lc md)
  | _ => None
  end.

(** ** The store *)

Section Store.

(** From the runtime: the date codec, the first eight hexadecimal digits
    of a SHA-256 digest, and [Number.prototype.toString(36)]. *)
Variable toISOString : Z -> string.
Variable Date_parse : string -> Date.
Variable sha256_hex8 : string -> string.
Variable toString36 : Z -> string.

(** The [stateDir] option of the constructor. *)
Variable stateDir : string.

Definition generatePlanId (now : Z) (goal : string) : string :=
  "plan-" +:+ sha256_hex8 goal +:+ "-" +:+ toString36 now.

Definition getStatePath (planId : string) : string :=
  stateDir +:+ "/" +:+ planId +:+ ".json".

Definition ensureStateDir (fs : FS) : FS :=
  if fs_exists fs stateDir then fs else fs_mkdir fs stateDir.

(** [d?.toISOString()] *)
Definition opt_toISOString (v : jsval) : fallible jsval :=
  match v with
  | VUndefined | VNull => Ok VUndefined
  | VDate (ValidDate ms) => Ok (VStr (toISOString ms))
  | VDate InvalidDate => Throw "RangeError: Invalid time value"
  | _ => Throw "TypeError: toISOString is not a function"
  end.

(** The callback of [state.tasks.map] in [save]. *)
Definition save_task (t : jsval) : fallible jsval :=
  match get t "startedAt", get t "completedAt" with
  | Some sa, Some ca =>
      match opt_toISOString sa with
      | Throw e => Throw e
      | Ok sa' =>
          match opt_toISOString ca with
          | Throw e => Throw e
          | Ok ca' =>
              Ok (VObj (obj_set (obj_set (spread t) "startedAt" sa')
                                "completedAt" ca'))
          end
      end
  | _, _ => Throw "TypeError: cannot read properties"
  end.

(** [xs.map(f)] for a callback that may throw. *)
Fixpoint map_result {A B} (f : A -> fallible B) (xs : list A) : fallible (list B) :=
  match xs with
  | [] => Ok []
  | x :: xs' =>
      match f x with
      | Throw e => Throw e
      | Ok y =>
          match map_result f xs' with
          | Throw e => Throw e
          | Ok ys => Ok (y :: ys)
          end
      end
  end.

(** [save(state)], at clock reading [now].  A throw rejects the promise
    before anything is written. *)
Definition save (fs : FS) (now : Z) (st : ExecutionState) : fallible FS :=
  let fs1 := ensureStateDir fs in
  let state := ExecutionState_obj st in
  match get state "tasks" with
  | Some (VArr ts) =>
      match map_result save_task ts with
      | Throw e => Throw e
      | Ok ts' =>
          let obj := VObj (obj_set (obj_set (spread state)
                              "lastCheckpoint" (VStr (toISOString now)))
                              "tasks" (VArr ts')) in
          match JSON_stringify toISOString obj with
          | Some doc => Ok (fs_writeFile fs1 (getStatePath (planId st)) (Rendered doc))
          | None => Throw "TypeError: content is undefined"
          end
      end
  | _ => Throw "TypeError: state.tasks.map is not a function"
  end.

(** The callback of [parsed.tasks.map] in [load]. *)
Definition load_task (t : jsval) : fallible jsval :=
  match get t "startedAt", get t "completedAt" with
  | Some sa, Some ca =>
      let sa' := if truthy sa then VDate (new_Date Date_parse sa) else VUndefined in
      let ca' := if truthy ca then VDate (new_Date Date_parse ca) else VUndefined in
      Ok (VObj (obj_set (obj_set (spread t) "startedAt" sa') "completedAt" ca'))
  | _, _ => Throw "TypeError: cannot read properties"
  end.

(** The body of the [try] block of [load]. *)
Definition load_body (fs : FS) (path : string) : fallible jsval :=
  match fs_readFile fs path with
  | Throw e => Throw e
  | Ok content =>
      match JSON_parse content with
      | Throw e => Throw e
      | Ok parsed =>
          match get parsed "startedAt", get parsed "lastCheckpoint",
                get parsed "tasks" with
          | Some sa, Some lc, Some (VArr ts) =>
              match map_result load_task ts with
              | Throw e => Throw e
              | Ok ts' =>
                  Ok (VObj (obj_set (obj_set (obj_set (spread parsed)
                        "startedAt" (VDate (new_Date Date_parse sa)))
                        "lastCheckpoint" (VDate (new_Date Date_parse lc)))
                        "tasks" (VArr ts')))
              end
          | _, _, _ => Throw "TypeError"
          end
      end
  end.

(** [load(planId)]; [None] is [null]. *)
Definition load (fs : FS) (planId : string) : option jsval :=
  let path := getStatePath planId in
  if negb (fs_exists fs path) then None
  else match load_body fs path with
       | Ok state => Some state
       | Throw _ => None
       end.

(** [list()]: the plan ids, and the file system after [ensureStateDir]. *)
Definition listPlanIds (fs : FS) : FS * list string :=
  let fs1 := ensureStateDir fs in
  (fs1, List.map (fun f => replace ".json" "" f)
          (List.filter (fun f => endsWith f ".json") (fs_listFiles fs1 stateDir))).

(** [d.getTime()]: [None] is NaN. *)
Definition getTime (v : jsval) : option Z :=
  match v with
  | VDate (ValidDate ms) => Some ms
  | _ => None
  end.

(** One turn of the loop of [findLatestForGoal]; the accumulator is
    [(latestState, latestTime)]. *)
Definition latest_step (fs : FS) (goal : string)
    (acc : option jsval * Z) (planId : string) : option jsval * Z :=
  match load fs planId with
  | Some state =>
      match get state "goal", get state "lastCheckpoint" with
      | Some (VStr g), Some lc =>
          if String.eqb g goal then
            match getTime lc with
            | Some checkpointTime =>
                if snd acc <? checkpointTime then (Some state, checkpointTime)
                else acc
            | None => acc
            end
          else acc
      | _, _ => acc
      end
  | None => acc
  end.

Definition findLatestForGoal (fs : FS) (goal : string) : FS * option jsval :=
  let '(fs1, planIds) := listPlanIds fs in
  (fs1, fst (fold_left (latest_step fs1 goal) planIds (None, 0))).

Definition createInitialState (now : Z) (goal : string) : ExecutionState :=
  mkExecutionState (generatePlanId now goal) goal planning [] ""
                   (ValidDate now) (ValidDate now) None.

End Store.

(** [t.status === 'COMPLETED'] for every task; [None] is the TypeError of
    reading a property of [null]. *)
Fixpoint every_completed (ts : list jsval) : option bool :=
  match ts with
  | [] => Some true
  | t :: ts' =>
      match get t "status" with
      | None => None
      | Some (VStr s) =>
          if String.eqb s "COMPLETED" then every_completed ts' else Some false
      | Some _ => Some false
      end
  end.

(** [isComplete(state)] on a run-time state object. *)
Definition isComplete (state : jsval) : option bool :=
  match get state "phase" with
  | None => None
  | Some (VStr "completed") => Some true
  | Some _ =>
      match get state "tasks" with
      | Some (VArr ts) => every_completed ts
      | _ => None
      end
  end.

(** ** Properties of the store *)

Definition Date_valid (d : Date) : bool :=
  match d with ValidDate _ => true | InvalidDate => false end.

Definition opt_Date_valid (d : option Date) : bool :=
  match d with Some d' => Date_valid d' | None => true end.

Definition TaskState_valid (t : TaskState) : bool :=
  opt_Date_valid (startedAt t) && opt_Date_valid (completedAt t).

(** States that a checkpoint can hold: every date is a valid date and the
    metadata is plain JSON data. *)
Definition storable (s : ExecutionState) : bool :=
  Date_valid (es_startedAt s)
  && forallb TaskState_valid (tasks s)
  && match metadata s with
     | Some ps => forallb (fun kv => plain (snd kv)) ps
     | None => true
     end.

(** [s] with [lastCheckpoint] set to the time of the save. *)
Definition refreshed (s : ExecutionState) (now : Z) : ExecutionState :=
  mkExecutionState (planId s) (goal s) (phase s) (tasks s)
    (architectureReasoning s) (es_startedAt s) (ValidDate now) (metadata s).

Section Roundtrip.

Variable toISOString : Z -> string.
Variable Date_parse : string -> Date.
Variable stateDir : string.

(** What the runtime guarantees of its date codec. *)
Hypothesis parse_toISOString : forall ms, Date_parse (toISOString ms) = ValidDate ms.
Hypothesis toISOString_nonempty : forall ms, toISOString ms <> "".

(** [save] then [load] gives back [s] with a refreshed [lastCheckpoint]. *)
Definition roundtrip (fs : FS) (now : Z) (s : ExecutionState) : Prop :=
  exists fs' o,
    save toISOString stateDir fs now s = Ok fs'
    /\ load Date_parse stateDir fs' (planId s) = Some o
    /\ as_ExecutionState o = Some (refreshed s now).

Lemma truthy_iso ms : truthy (VStr (toISOString ms)) = true.
Proof.
  simpl. apply negb_true_iff. apply String.eqb_neq. apply toISOString_nonempty.
Qed.

Lemma as_TaskStatus_str st : as_TaskStatus (VStr (TaskStatus_str st)) = Some st.
Proof. by destruct st. Qed.

Lemma as_Phase_str ph : as_Phase (VStr (Phase_str ph)) = Some ph.
Proof. by destruct ph. Qed.

Lemma as_array_strings (l : list string) :
  as_array as_string (VArr (List.map VStr l)) = Some l.
Proof.
  simpl. induction l as [|x l IH]; simpl; [done|].
  by rewrite IH.
Qed.

Lemma strings_plain (l : list string) : plain (VArr (List.map VStr l)) = true.
Proof. simpl. induction l; simpl; auto. Qed.

#[local] Arguments JSON_stringify : simpl never.
#[local] Arguments JSON_value : simpl never.
#[local] Arguments truthy : simpl never.
#[local] Arguments as_array : simpl never.
#[local] Arguments as_TaskStatus : simpl never.
#[local] Arguments as_Phase : simpl never.
#[local] Arguments as_TaskState : simpl never.
#[local] Arguments map_result : simpl never.

(** One task through the callback of [save], the document and the
    callback of [load]. *)
Lemma task_roundtrip (t : TaskState) :
  TaskState_valid t = true ->
  exists d j o,
    save_task toISOString (TaskState_obj t) = Ok d
    /\ JSON_stringify toISOString d = Some j
    /\ load_task Date_parse (JSON_value j) = Ok o
    /\ as_TaskState o = Some t.
Proof.
  destruct t as [i f de deps st r e a sa ca].
  unfold TaskState_valid, TaskState_obj. simpl.
  intros [Hsa Hca]%andb_prop.
  destruct (plain_roundtrip toISOString _ (strings_plain deps)) as (dj & Hdj & Hdv).
  pose proof (as_array_strings deps) as Hdeps.
  revert Hdj Hdv Hdeps. generalize (VArr (List.map VStr deps)).
  intros dv Hdj Hdv Hdeps.
  destruct sa as [[ms1|]|]; simpl in Hsa; try discriminate;
  destruct ca as [[ms2|]|]; simpl in Hca; try discriminate;
  destruct r as [r|]; destruct e as [e|]; cbn.
  all: eexists _, _, _.
  all: (split; [reflexivity|]).
  all: autorewrite with js; rewrite ?Hdj.
  all: (split; [reflexivity|]).
  all: autorewrite with js; rewrite ?Hdv; cbn; rewrite ?truthy_iso.
  all: (split; [reflexivity|]).
  all: unfold as_TaskState; cbn; rewrite ?Hdeps, ?as_TaskStatus_str; cbn;
       rewrite ?parse_toISOString.
  all: reflexivity.
Qed.

(** The task array through both [map] calls. *)
Lemma tasks_roundtrip (ts : list TaskState) :
  forallb TaskState_valid ts = true ->
  exists ds js os,
    map_result (save_task toISOString) (List.map TaskState_obj ts) = Ok ds
    /\ List.map (fun x => default JNull (JSON_stringify toISOString x)) ds = js
    /\ map_result (load_task Date_parse) (List.map JSON_value js) = Ok os
    /\ as_array as_TaskState (VArr os) = Some ts.
Proof.
  induction ts as [|t ts IH]; intros Hv.
  - by exists [], [], [].
  - simpl in Hv. apply andb_prop in Hv as [Ht Hts].
    destruct (task_roundtrip t Ht) as (d & j & o & Hd & Hj & Ho & Hot).
    destruct (IH Hts) as (ds & js & os & Hds & Hjs & Hos & Hots).
    exists (d :: ds), (j :: js), (o :: os).
    unfold map_result in *; simpl. fold (@map_result jsval jsval) in *.
    rewrite Hd, Hds. split; [done|].
    rewrite Hj, Hjs. split; [done|].
    simpl. rewrite Ho, Hos. split; [done|].
    unfold as_array in *. simpl. by rewrite Hot, Hots.
Qed.

Lemma fs_exists_writeFile fs path content :
  fs_exists (fs_writeFile fs path content) path = true.
Proof.
  unfold fs_exists, fs_writeFile. simpl.
  rewrite lookup_insert_eq. by rewrite bool_decide_eq_true_2.
Qed.

Lemma fs_readFile_writeFile fs path content :
  fs_readFile (fs_writeFile fs path content) path = Ok content.
Proof. unfold fs_readFile, fs_writeFile. simpl. by rewrite lookup_insert_eq. Qed.

Lemma storable_roundtrip (fs : FS) (now : Z) (s : ExecutionState) :
  storable s = true -> roundtrip fs now s.
Proof.
  destruct s as [p g ph ts ar sa lc md]. unfold storable, roundtrip. simpl.
  intros [[Hsa Hts]%andb_prop Hmd]%andb_prop.
  destruct sa as [ms0|]; [|discriminate].
  destruct (tasks_roundtrip ts Hts) as (ds & js & os & Hds & Hjs & Hos & Hots).
  unfold load. simpl planId.
  destruct md as [ps|].
  - destruct (plain_roundtrip toISOString (VObj ps) Hmd) as (mj & Hmj & Hmv).
    rewrite JSON_stringify_VObj in Hmj. injection Hmj as <-.
    eexists _, _. split.
    { unfold save. cbn. rewrite Hds. cbn.
      autorewrite with js. rewrite JSON_stringify_VArr, Hjs.
      reflexivity. }
    rewrite fs_exists_writeFile. cbn.
    unfold load_body. rewrite fs_readFile_writeFile. cbn.
    autorewrite with js. rewrite JSON_value_JArr. cbn. rewrite Hos.
    split; [reflexivity|].
    cbn. rewrite Hots, Hmv, as_Phase_str. cbn.
    by rewrite !parse_toISOString.
  - eexists _, _. split.
    { unfold save. cbn. rewrite Hds. cbn.
      autorewrite with js. rewrite JSON_stringify_VArr, Hjs.
      reflexivity. }
    rewrite fs_exists_writeFile. cbn.
    unfold load_body. rewrite fs_readFile_writeFile. cbn.
    autorewrite with js. rewrite JSON_value_JArr. cbn. rewrite Hos.
    split; [reflexivity|].
    cbn. rewrite Hots, as_Phase_str. cbn.
    by rewrite !parse_toISOString.
Qed.

End Roundtrip.

(** *** A concrete date codec

    Decimal milliseconds: an instance of the codec laws on which the store
    can be run on concrete states. *)

Definition dec_toISOString (ms : Z) : string :=
  NilZero.string_of_int (Z.to_int ms).

Definition dec_Date_parse (s : string) : Date :=
  match NilZero.int_of_string s with
  | Some d => ValidDate (Z.of_int d)
  | None => InvalidDate
  end.

Lemma dec_parse_toISOString ms : dec_Date_parse (dec_toISOString ms) = ValidDate ms.
Proof.
  unfold dec_Date_parse, dec_toISOString.
  pose proof (DecimalZ.of_to ms) as Hback.
  destruct (Z.to_int ms) as [u|u] eqn:E; destruct u;
    try (rewrite NilZero.isi by discriminate; by f_equal).
  - rewrite NilZero.isi_posnil. f_equal. by rewrite <- Hback.
  - rewrite NilZero.isi_negnil. f_equal. by rewrite <- Hback.
Qed.

Lemma dec_toISOString_nonempty ms : dec_toISOString ms <> "".
Proof.
  intros E. pose proof (dec_parse_toISOString ms) as H.
  rewrite E in H. discriminate H.
Qed.

Definition example_stateDir : string := ".openclaw/state".

Definition empty_FS : FS := mkFS ∅ ∅.

Definition example_task : TaskState :=
  mkTaskState "a" "src/a.ts" "first module" [] COMPLETED (Some "A") None 1
              (Some (ValidDate 1000)) (Some (ValidDate 2000)).

Definition example_state : ExecutionState :=
  mkExecutionState "plan-0" "build it" executing [example_task] "layers"
    (ValidDate 500) (ValidDate 600) (Some [("retries", VNum 2)]).

(** A state whose metadata holds a [Date]. *)
Definition dated_metadata_state : ExecutionState :=
  mkExecutionState "plan-1" "build it" executing [] "layers"
    (ValidDate 500) (ValidDate 600) (Some [("when", VDate (ValidDate 0))]).

(** C6 (amended).  For every execution state whose dates are valid and
    whose metadata is plain JSON data, [save] followed by [load] of its
    plan id returns a state equal to it in every field -- goal, phase,
    architectureReasoning, startedAt, metadata and each field of each task
    -- except [lastCheckpoint], which holds the time of the save. *)
Theorem C6_save_load_roundtrip :
  forall (toISOString : Z -> string) (Date_parse : string -> Date)
         (stateDir : string),
    (forall ms, Date_parse (toISOString ms) = ValidDate ms) ->
    (forall ms, toISOString ms <> "") ->
    forall (fs : FS) (now : Z) (s : ExecutionState),
      storable s = true ->
      roundtrip toISOString Date_parse stateDir fs now s.
Proof.
  intros toISO parse dir Hlaw Hne fs now s Hs.
  by apply storable_roundtrip.
Qed.

Lemma C6_save_load_roundtrip_witness :
  storable example_state = true
  /\ roundtrip dec_toISOString dec_Date_parse example_stateDir empty_FS 700
               example_state.
Proof.
  split; [reflexivity|].
  apply (C6_save_load_roundtrip dec_toISOString dec_Date_parse example_stateDir
           dec_parse_toISOString dec_toISOString_nonempty empty_FS 700
           example_state).
  reflexivity.
Defined.

(** C6 as stated, for every execution state, fails: a [Date] kept in the
    metadata comes back as its ISO string, so the loaded state differs
    from the saved one in its metadata. *)
Lemma C6_roundtrip_counterexample :
  exists s : ExecutionState,
    metadata s = Some [("when", VDate (ValidDate 0))]
    /\ (forall ms, dec_Date_parse (dec_toISOString ms) = ValidDate ms)
    /\ (forall ms, dec_toISOString ms <> "")
    /\ ~ roundtrip dec_toISOString dec_Date_parse example_stateDir empty_FS 700 s.
Proof.
  exists dated_metadata_state.
  split; [reflexivity|].
  split; [apply dec_parse_toISOString|].
  split; [apply dec_toISOString_nonempty|].
  intros (fs' & o & Hsave & Hload & Has).
  vm_compute in Hsave. injection Hsave as <-.
  vm_compute in Hload. injection Hload as <-.
  vm_compute in Has. discriminate Has.
Qed.

(** *** Listing *)

Lemma append_cons a (s t : string) : String a s +:+ t = String a (s +:+ t).
Proof. reflexivity. Qed.

Lemma append_assoc (s1 s2 s3 : string) :
  (s1 +:+ s2) +:+ s3 = s1 +:+ (s2 +:+ s3).
Proof.
  induction s1 as [|a s1 IH]; [done|].
  rewrite !append_cons. by f_equal.
Qed.


Lemma has_char_app c (s1 s2 : string) :
  has_char c (s1 +:+ s2) = has_char c s1 || has_char c s2.
Proof.
  induction s1 as [|a s1 IH]; simpl; [done|].
  by rewrite IH, orb_assoc.
Qed.

Lemma length_app (s1 s2 : string) :
  String.length (s1 +:+ s2) = (String.length s1 + String.length s2)%nat.
Proof. induction s1 as [|a s1 IH]; simpl; [done | by f_equal]. Qed.

Lemma substring_app_r (s1 s2 : string) :
  String.substring (String.length s1) (String.length s2) (s1 +:+ s2) = s2.
Proof.
  induction s1 as [|a s1 IH]; simpl; [|done].
  induction s2 as [|b s2 IH2]; simpl in *; [done | by f_equal].
Qed.

Lemma endsWith_app (s suffix : string) : endsWith (s +:+ suffix) suffix = true.
Proof.
  unfold endsWith. rewrite length_app.
  apply andb_true_intro. split.
  - apply Nat.leb_le. lia.
  - replace (String.length s + String.length suffix - String.length suffix)%nat
      with (String.length s) by lia.
    rewrite substring_app_r. apply String.eqb_refl.
Qed.

Lemma prefix_cons a s1 b s2 :
  String.prefix (String a s1) (String b s2) =
  if ascii_dec a b then String.prefix s1 s2 else false.
Proof. reflexivity. Qed.

Lemma replace_cons_skip pat rep c s :
  String.prefix pat (String c s) = false ->
  replace pat rep (String c s) = String c (replace pat rep s).
Proof. intros H. cbn [replace]. by rewrite H. Qed.

Lemma files_ensureStateDir dir fs : files (ensureStateDir dir fs) = files fs.
Proof. unfold ensureStateDir. by destruct (fs_exists fs dir). Qed.










(** ** Deleting *)

(** [fs.delete(path)] as [StateManager] calls it, without options: a file
    is unlinked; a missing path rejects, and so does a directory. *)
Definition fs_delete (fs : FS) (path : string) : fallible FS :=
  match files fs !! path with
  | Some _ => Ok (mkFS (base.delete path (files fs)) (dirs fs))
  | None =>
      if bool_decide (path ∈ dirs fs) then Throw "ERR_FS_EISDIR" else Throw "ENOENT"
  end.

(** [delete(planId)]: whatever [fs.delete] throws is swallowed. *)
Definition delete (stateDir : string) (fs : FS) (planId : string) : FS :=
  match fs_delete fs (getStatePath stateDir planId) with
  | Ok fs' => fs'
  | Throw _ => fs
  end.

Lemma append_inj_l (s t1 t2 : string) : s +:+ t1 = s +:+ t2 -> t1 = t2.
Proof. induction s as [|a s IH]; simpl; [done|]. intros [= H]. by apply IH. Qed.

Lemma append_inj_r (s1 s2 t : string) : s1 +:+ t = s2 +:+ t -> s1 = s2.
Proof.
  revert s2. induction s1 as [|a s1 IH]; intros [|b s2] H.
  - done.
  - apply (f_equal String.length) in H. rewrite !length_app in H. simpl in H. lia.
  - apply (f_equal String.length) in H. rewrite !length_app in H. simpl in H. lia.
  - rewrite !append_cons in H. injection H as -> H. f_equal. by apply IH.
Qed.

(** *** [Number.prototype.toString(36)] on an integer

    The digits are 0-9 and a-z; a negative number is written as a minus
    sign and the digits of its magnitude.  [digits36] lists the digits from
    the least significant one; its fuel is more than the number of binary
    digits, which is at least the number of digits in base 36. *)
Definition alphabet36 : list ascii :=
  list_ascii_of_string "0123456789abcdefghijklmnopqrstuvwxyz".

Definition digit36 (d : Z) : ascii := nth (Z.to_nat d) alphabet36 "0"%char.

Fixpoint digits36 (fuel : nat) (n : Z) : list Z :=
  match fuel with
  | O => []
  | S fuel' => n mod 36 :: (if n / 36 =? 0 then [] else digits36 fuel' (n / 36))
  end.

Definition render36 (n : Z) : string :=
  string_of_list_ascii
    (map digit36 (rev (digits36 (S (Z.to_nat (Z.log2 n))) n))).

Definition base36 (n : Z) : string :=
  if n <? 0 then String "-" (render36 (- n)) else render36 n.

Definition value36 (l : list Z) : Z := fold_right (fun d v => d + 36 * v) 0 l.

Lemma value36_digits36 fuel n :
  0 <= n < 36 ^ Z.of_nat fuel -> value36 (digits36 fuel n) = n.
Proof.
  revert n. induction fuel as [|fuel IH]; intros n Hn.
  - simpl in *. lia.
  - cbn [digits36 value36 fold_right].
    destruct (Z.eqb_spec (n / 36) 0) as [E|E].
    + simpl. pose proof (Z.div_mod n 36). lia.
    + fold (value36 (digits36 fuel (n / 36))). rewrite IH.
      * pose proof (Z.div_mod n 36). lia.
      * rewrite Nat2Z.inj_succ, Z.pow_succ_r in Hn by lia.
        split; [apply Z.div_pos; lia|].
        apply Z.div_lt_upper_bound; lia.
Qed.

Lemma digits36_range fuel n :
  Forall (fun d => 0 <= d < 36) (digits36 fuel n).
Proof.
  revert n. induction fuel as [|fuel IH]; intros n; [constructor|].
  cbn [digits36]. constructor; [apply Z.mod_pos_bound; lia|].
  destruct (n / 36 =? 0); [constructor|apply IH].
Qed.

Lemma enough_fuel36 n : 0 <= n -> n < 36 ^ Z.of_nat (S (Z.to_nat (Z.log2 n))).
Proof.
  intros Hn. rewrite Nat2Z.inj_succ, Z2Nat.id by apply Z.log2_nonneg.
  destruct (Z.eq_dec n 0) as [->|Hne].
  - simpl. lia.
  - pose proof (Z.log2_spec n ltac:(lia)) as [_ Hlt].
    eapply Z.lt_le_trans; [exact Hlt|].
    apply Z.pow_le_mono_l. lia.
Qed.

Lemma NoDup_alphabet36 : NoDup alphabet36.
Proof. apply (bool_decide_unpack _). by vm_compute. Qed.

Lemma digit36_inj d e :
  0 <= d < 36 -> 0 <= e < 36 -> digit36 d = digit36 e -> d = e.
Proof.
  intros Hd He E. unfold digit36 in E.
  assert (Z.to_nat d = Z.to_nat e) as Hnat; [|lia].
  assert (Hlen : List.length alphabet36 = 36%nat) by reflexivity.
  destruct (lookup_lt_is_Some_2 alphabet36 (Z.to_nat d)) as [x Hx]; [lia|].
  destruct (lookup_lt_is_Some_2 alphabet36 (Z.to_nat e)) as [y Hy]; [lia|].
  rewrite !nth_lookup, Hx, Hy in E. simpl in E. subst y.
  exact (proj1 (NoDup_alt alphabet36) NoDup_alphabet36 _ _ x Hx Hy).
Qed.

Lemma digit36_alphabet d : 0 <= d < 36 -> In (digit36 d) alphabet36.
Proof.
  intros Hd. unfold digit36. apply nth_In.
  change (List.length alphabet36) with 36%nat. lia.
Qed.

Lemma map_digit36_inj l1 l2 :
  Forall (fun d => 0 <= d < 36) l1 -> Forall (fun d => 0 <= d < 36) l2 ->
  map digit36 l1 = map digit36 l2 -> l1 = l2.
Proof.
  intros H1. revert l2. induction H1 as [|d l1 Hd _ IH]; intros l2 H2 E.
  - by destruct l2.
  - destruct H2 as [|e l2 He H2]; [done|]. simpl in E.
    injection E as Ed El. f_equal; [by apply digit36_inj|by apply IH].
Qed.

Lemma string_of_list_ascii_inj l1 l2 :
  string_of_list_ascii l1 = string_of_list_ascii l2 -> l1 = l2.
Proof.
  intros E. rewrite <- (list_ascii_of_string_of_list_ascii l1),
    <- (list_ascii_of_string_of_list_ascii l2). by rewrite E.
Qed.

Lemma render36_inj n m : 0 <= n -> 0 <= m -> render36 n = render36 m -> n = m.
Proof.
  intros Hn Hm E. unfold render36 in E.
  apply string_of_list_ascii_inj, map_digit36_inj in E;
    [|apply Forall_rev, digits36_range..].
  apply (f_equal (@rev Z)) in E. rewrite !rev_involutive in E.
  rewrite <- (value36_digits36 _ n (conj Hn (enough_fuel36 n Hn))),
    <- (value36_digits36 _ m (conj Hm (enough_fuel36 m Hm))).
  by rewrite E.
Qed.

Lemma render36_no_minus n s : render36 n <> String "-" s.
Proof.
  intros E.
  assert (In "-"%char (list_ascii_of_string (render36 n))) as Hin.
  { rewrite E. by left. }
  unfold render36 in Hin. rewrite list_ascii_of_string_of_list_ascii in Hin.
  apply in_map_iff in Hin as (d & Hd & Hin%in_rev).
  pose proof (digits36_range (S (Z.to_nat (Z.log2 n))) n) as Hall.
  rewrite List.Forall_forall in Hall. apply Hall, digit36_alphabet in Hin.
  rewrite Hd in Hin. revert Hin. apply (bool_decide_unpack _). by vm_compute.
Qed.

(** Two integers have the same text in base 36 only when they are equal. *)
Lemma base36_inj n m : base36 n = base36 m -> n = m.
Proof.
  unfold base36.
  destruct (Z.ltb_spec n 0) as [Hn|Hn], (Z.ltb_spec m 0) as [Hm|Hm]; intros E.
  - injection E as E. apply render36_inj in E; lia.
  - symmetry in E. by apply render36_no_minus in E.
  - by apply render36_no_minus in E.
  - by apply render36_inj.
Qed.

(** The plan ids generated for a goal at two clock readings are the same
    only when the readings are. *)
Lemma generatePlanId_inj (sha256_hex8 : string -> string) (goal : string) (now t0 : Z) :
  generatePlanId sha256_hex8 base36 now goal
  = generatePlanId sha256_hex8 base36 t0 goal -> now = t0.
Proof.
  unfold generatePlanId. intros E.
  by apply append_inj_l, append_inj_l, append_inj_l, base36_inj in E.
Qed.

Lemma getStatePath_inj dir p q : getStatePath dir p = getStatePath dir q -> p = q.
Proof.
  unfold getStatePath. intros H.
  apply append_inj_l in H. apply (append_inj_l "/") in H.
  by apply append_inj_r in H.
Qed.

Lemma getStatePath_not_dir dir p : getStatePath dir p <> dir.
Proof.
  unfold getStatePath. intros H. apply (f_equal String.length) in H.
  rewrite length_app in H. simpl in H. lia.
Qed.

(** [load] reads the file system at the path of the plan only. *)
Lemma load_ext Date_parse dir fs fs' p :
  files fs' !! getStatePath dir p = files fs !! getStatePath dir p ->
  (getStatePath dir p ∈ dirs fs' <-> getStatePath dir p ∈ dirs fs) ->
  load Date_parse dir fs' p = load Date_parse dir fs p.
Proof.
  intros Hf Hd. unfold load, load_body, fs_exists, fs_readFile. rewrite Hf.
  by rewrite (bool_decide_ext _ _ Hd).
Qed.

Lemma substring_all (s : string) : String.substring 0 (String.length s) s = s.
Proof. induction s as [|a s IH]; simpl; [done|]. by f_equal. Qed.

Lemma substring_split (s : string) (k : nat) :
  (k <= String.length s)%nat ->
  s = String.substring 0 k s +:+ String.substring k (String.length s - k) s.
Proof.
  revert k. induction s as [|a s IH]; intros k Hk.
  - simpl in Hk. assert (k = 0%nat) as -> by lia. reflexivity.
  - destruct k as [|k].
    + rewrite Nat.sub_0_r, substring_all. reflexivity.
    + cbn [String.substring String.length Nat.sub]. rewrite append_cons. f_equal.
      apply IH. simpl in Hk. lia.
Qed.

Lemma endsWith_split (s suffix : string) :
  endsWith s suffix = true -> exists pre, s = pre +:+ suffix.
Proof.
  unfold endsWith. intros [Hle He]%andb_prop.
  apply Nat.leb_le in Hle. apply String.eqb_eq in He.
  exists (String.substring 0 (String.length s - String.length suffix) s).
  pose proof (substring_split s (String.length s - String.length suffix)
                ltac:(lia)) as H.
  replace (String.length s - (String.length s - String.length suffix))%nat
    with (String.length suffix) in H by lia.
  by rewrite He in H.
Qed.

Lemma prefix_split (pat s : string) :
  String.prefix pat s = true -> s = pat +:+ drop_chars (String.length pat) s.
Proof.
  revert s. induction pat as [|a pat IH]; intros s H; [done|].
  destruct s as [|b s]; [done|]. rewrite prefix_cons in H.
  destruct (ascii_dec a b) as [->|]; [|done].
  simpl. rewrite append_cons. f_equal. by apply IH.
Qed.

Lemma strip_prefix_Some (pre s r : string) :
  strip_prefix pre s = Some r -> s = pre +:+ r.
Proof.
  revert s. induction pre as [|a pre IH]; intros s; simpl.
  - by intros [= ->].
  - destruct s as [|b s]; [done|].
    destruct (Ascii.eqb a b) eqn:E; [|done]. apply Ascii.eqb_eq in E as ->.
    intros H. rewrite append_cons. f_equal. by apply IH.
Qed.

(** A listed plan id without a dot comes from the file of its own name. *)
Lemma replace_json_unique (f : string) :
  endsWith f ".json" = true ->
  has_char "."%char (replace ".json" "" f) = false ->
  f = replace ".json" "" f +:+ ".json".
Proof.
  induction f as [|c f IH]; [done|]. intros He Hdot.
  destruct (endsWith_split _ _ He) as [pre Hpre].
  destruct (String.prefix ".json" (String c f)) eqn:Hp.
  - cbn [replace] in *. rewrite Hp in *.
    pose proof (prefix_split _ _ Hp) as Hf.
    set (rest := drop_chars (String.length ".json") (String c f)) in *.
    change ("" +:+ rest) with rest in *.
    destruct pre as [|c' pre].
    + rewrite Hf in Hpre. change ("" +:+ ".json") with (".json" +:+ "") in Hpre.
      apply append_inj_l in Hpre. rewrite Hpre. by rewrite Hf, Hpre.
    + exfalso. rewrite Hf in Hpre. rewrite !append_cons in Hpre.
      injection Hpre as _ Hpre.
      apply (f_equal (has_char "."%char)) in Hpre.
      change ("" +:+ rest) with rest in Hpre.
      assert (H1 : has_char "."%char
                     (String "j" (String "s" (String "o" (String "n" rest)))) = false).
      { cbn [has_char]. by rewrite Hdot. }
      assert (H2 : has_char "."%char (pre +:+ ".json") = true).
      { rewrite has_char_app. apply orb_true_intro. by right. }
      congruence.
  - rewrite (replace_cons_skip _ _ _ _ Hp) in *. simpl in Hdot.
    apply orb_false_elim in Hdot as [Hc Hdot].
    destruct pre as [|c' pre].
    + change ("" +:+ ".json") with ".json" in Hpre. rewrite Hpre in Hp. done.
    + rewrite append_cons in Hpre. injection Hpre as -> Hpre.
      rewrite append_cons. f_equal. apply IH; [|done].
      rewrite Hpre. apply endsWith_app.
Qed.

Lemma delete_files dir fs p :
  files (delete dir fs p) = base.delete (getStatePath dir p) (files fs).
Proof.
  unfold delete, fs_delete.
  destruct (files fs !! getStatePath dir p) eqn:E; [done|].
  rewrite delete_id by done. by case_bool_decide.
Qed.

Lemma delete_dirs dir fs p : dirs (delete dir fs p) = dirs fs.
Proof.
  unfold delete, fs_delete.
  destruct (files fs !! getStatePath dir p); [done|]. by case_bool_decide.
Qed.

Lemma load_delete_eq Date_parse dir fs p :
  load Date_parse dir (delete dir fs p) p = None.
Proof.
  unfold load, load_body, fs_readFile, fs_exists.
  rewrite delete_files, lookup_delete_eq. simpl. by case_bool_decide.
Qed.

Lemma load_delete_ne Date_parse dir fs p q :
  q <> p -> load Date_parse dir (delete dir fs p) q = load Date_parse dir fs q.
Proof.
  intros Hq. apply load_ext.
  - rewrite delete_files. apply lookup_delete_ne. intros H.
    by apply getStatePath_inj in H.
  - by rewrite delete_dirs.
Qed.

(** After [delete(planId)] the checkpoint cannot be loaded, whatever was
    at its path, and every other checkpoint loads as before; deleting
    what is not there changes nothing, and so does deleting twice.
    Nothing new is listed. *)
Theorem delete_forgets_checkpoint :
  forall (Date_parse : string -> Date) (stateDir : string) (fs : FS)
         (planId : string),
    let fs' := delete stateDir fs planId in
    load Date_parse stateDir fs' planId = None
    /\ (forall q, q <> planId ->
          load Date_parse stateDir fs' q = load Date_parse stateDir fs q)
    /\ (files fs !! getStatePath stateDir planId = None -> fs' = fs)
    /\ delete stateDir fs' planId = fs'
    /\ (forall q, In q (snd (listPlanIds stateDir fs')) ->
                  In q (snd (listPlanIds stateDir fs)))
    /\ (has_char "."%char planId = false ->
        ~ In planId (snd (listPlanIds stateDir fs'))).
Proof.
  intros parse dir fs p fs'.
  pose proof (delete_files dir fs p) as Hfiles.
  pose proof (delete_dirs dir fs p) as Hdirs.
  fold fs' in Hfiles, Hdirs.
  split_and!.
  - apply load_delete_eq.
  - intros q Hq. by apply load_delete_ne.
  - intros Hnone. unfold fs', delete, fs_delete. rewrite Hnone. by case_bool_decide.
  - unfold delete at 1. unfold fs_delete.
    rewrite Hfiles, lookup_delete_eq. by case_bool_decide.
  - intros q. unfold listPlanIds. simpl. rewrite !in_map_iff.
    intros (f & Hf & Hin). exists f. split; [done|].
    apply filter_In in Hin as [Hin He]. apply filter_In. split; [|done].
    apply list_elem_of_In. apply list_elem_of_In in Hin.
    unfold fs_listFiles in *. apply list_elem_of_omap in Hin as ([k x] & Hkx & Hname).
    apply list_elem_of_omap. exists (k, x). split; [|done].
    apply elem_of_map_to_list. apply elem_of_map_to_list in Hkx.
    rewrite files_ensureStateDir in *. rewrite Hfiles in Hkx.
    by apply lookup_delete_Some in Hkx as [_ ?].
  - intros Hdot. unfold listPlanIds. simpl. rewrite in_map_iff.
    intros (f & Hf & Hin). apply filter_In in Hin as [Hin He].
    assert (Hfp : f = p +:+ ".json").
    { rewrite <- Hf. apply replace_json_unique; [done|]. by rewrite Hf. }
    apply list_elem_of_In in Hin. unfold fs_listFiles in Hin.
    apply list_elem_of_omap in Hin as ([k x] & Hkx & Hname).
    apply elem_of_map_to_list in Hkx. rewrite files_ensureStateDir, Hfiles in Hkx.
    apply lookup_delete_Some in Hkx as [Hne _]. apply Hne. simpl in Hname.
    destruct (strip_prefix (dir +:+ "/") k) as [name|] eqn:Hs; [|done].
    destruct (has_char "/"%char name); [done|]. injection Hname as ->.
    apply strip_prefix_Some in Hs. rewrite Hs, Hfp. unfold getStatePath.
    by rewrite append_assoc.
Qed.

(** ** Saving *)

#[local] Arguments JSON_stringify : simpl never.
#[local] Arguments map_result : simpl never.

Lemma save_task_valid toISOString (t : TaskState) :
  if TaskState_valid t
  then exists d, save_task toISOString (TaskState_obj t) = Ok d
  else exists e, save_task toISOString (TaskState_obj t) = Throw e.
Proof.
  destruct t as [i f de deps st r e a sa ca].
  unfold TaskState_valid, TaskState_obj. simpl.
  destruct sa as [[ms1|]|]; destruct ca as [[ms2|]|];
    destruct r as [r|]; destruct e as [e|]; cbn; eauto.
Qed.

Lemma save_tasks_valid toISOString (ts : list TaskState) :
  if forallb TaskState_valid ts
  then exists ds, map_result (save_task toISOString) (List.map TaskState_obj ts) = Ok ds
  else exists e, map_result (save_task toISOString) (List.map TaskState_obj ts) = Throw e.
Proof.
  induction ts as [|t ts IH]; [by exists []|].
  cbn [forallb List.map]. unfold map_result. fold (@map_result jsval jsval).
  pose proof (save_task_valid toISOString t) as Ht.
  destruct (TaskState_valid t).
  - destruct Ht as [d ->]. simpl. destruct (forallb TaskState_valid ts).
    + destruct IH as [ds ->]. eauto.
    + destruct IH as [e ->]. eauto.
  - destruct Ht as [e ->]. simpl. eauto.
Qed.

Lemma listPlanIds_mono dir fs fs' q :
  (forall k x, files fs !! k = Some x -> is_Some (files fs' !! k)) ->
  In q (snd (listPlanIds dir fs)) -> In q (snd (listPlanIds dir fs')).
Proof.
  intros Hsub. unfold listPlanIds. simpl. rewrite !in_map_iff.
  intros (f & Hf & Hin). exists f. split; [done|].
  apply filter_In in Hin as [Hin He]. apply filter_In. split; [|done].
  apply list_elem_of_In. apply list_elem_of_In in Hin.
  unfold fs_listFiles in *. apply list_elem_of_omap in Hin as ([k x] & Hkx & Hname).
  apply elem_of_map_to_list in Hkx. rewrite files_ensureStateDir in Hkx.
  destruct (Hsub k x Hkx) as [x' Hx'].
  apply list_elem_of_omap. exists (k, x'). split; [|done].
  apply elem_of_map_to_list. by rewrite files_ensureStateDir.
Qed.

(** [save(state)] rejects exactly when a task of the state carries an
    invalid [Date]; otherwise it writes one file, at the path of the plan
    id of the state, after making the state directory if it is missing.
    The other checkpoints load as before and stay listed. *)
Theorem save_writes_one_checkpoint :
  forall (toISOString : Z -> string) (stateDir : string) (fs : FS) (now : Z)
         (st : ExecutionState),
    (if forallb TaskState_valid (tasks st)
     then exists doc,
            save toISOString stateDir fs now st
            = Ok (fs_writeFile (ensureStateDir stateDir fs)
                    (getStatePath stateDir (planId st)) (Rendered doc))
     else exists e, save toISOString stateDir fs now st = Throw e)
    /\ (forall fs', save toISOString stateDir fs now st = Ok fs' ->
          forall (Date_parse : string -> Date) (q : string),
            (q <> planId st ->
             load Date_parse stateDir fs' q = load Date_parse stateDir fs q)
            /\ (In q (snd (listPlanIds stateDir fs)) ->
                In q (snd (listPlanIds stateDir fs')))).
Proof.
  intros toISO dir fs now st.
  assert (Hsave : if forallb TaskState_valid (tasks st)
     then exists doc,
            save toISO dir fs now st
            = Ok (fs_writeFile (ensureStateDir dir fs)
                    (getStatePath dir (planId st)) (Rendered doc))
     else exists e, save toISO dir fs now st = Throw e).
  { pose proof (save_tasks_valid toISO (tasks st)) as Hts.
    unfold save. destruct st as [p g ph ts ar sa lc md]. cbn in *.
    destruct (forallb TaskState_valid ts).
    - destruct Hts as [ds ->]. rewrite JSON_stringify_VObj. eauto.
    - destruct Hts as [e ->]. eauto. }
  split; [done|].
  intros fs' Hfs'. destruct (forallb TaskState_valid (tasks st)).
  2:{ destruct Hsave as [e He]. congruence. }
  destruct Hsave as [doc Hdoc]. rewrite Hdoc in Hfs'. injection Hfs' as <-.
  intros parse q. split.
  - intros Hq. apply load_ext.
    + simpl. rewrite files_ensureStateDir. apply lookup_insert_ne.
      intros H. by apply getStatePath_inj in H.
    + simpl. unfold ensureStateDir. destruct (fs_exists fs dir); [done|].
      simpl. rewrite elem_of_union, elem_of_singleton.
      pose proof (getStatePath_not_dir dir q). tauto.
  - apply listPlanIds_mono. intros k x Hk. simpl. rewrite files_ensureStateDir.
    destruct (decide (k = getStatePath dir (planId st))) as [->|Hne].
    + rewrite lookup_insert_eq. eauto.
    + rewrite lookup_insert_ne by done. eauto.
Qed.

(** ** The latest checkpoint of a goal *)

Section Latest.

Variable Date_parse : string -> Date.
Variable stateDir : string.
Variable fs : FS.
Variable goal : string.

(** The checkpoint [planId] loads as [state], which is of the goal and
    was saved at time [t]. *)
Definition checkpoint_of (planId : string) (state : jsval) (t : Z) : Prop :=
  load Date_parse stateDir fs planId = Some state
  /\ get state "goal" = Some (VStr goal)
  /\ exists lc, get state "lastCheckpoint" = Some lc /\ getTime lc = Some t.

Definition latest_so_far (seen : list string) (acc : option jsval * Z) : Prop :=
  0 <= snd acc
  /\ (forall p st t, In p seen -> checkpoint_of p st t -> t <= snd acc)
  /\ match fst acc with
     | Some st => exists p, In p seen /\ checkpoint_of p st (snd acc) /\ 0 < snd acc
     | None => snd acc = 0
     end.

Lemma latest_step_spec seen acc p :
  latest_so_far seen acc ->
  latest_so_far (seen ++ [p]) (latest_step Date_parse stateDir fs goal acc p).
Proof.
  intros (Hpos & Hmax & Hfound).
  assert (Hkeep : (forall st t, checkpoint_of p st t -> t <= snd acc) ->
                  latest_so_far (seen ++ [p]) acc).
  { intros Hp. split; [done|]. split.
    - intros p' st t [Hin|[<-|[]]]%in_app_or Hc; [by eapply Hmax|by eapply Hp].
    - destruct (fst acc) as [st|]; [|done].
      destruct Hfound as (p0 & Hin & Hc & Ht). exists p0.
      split; [apply in_or_app; by left|done]. }
  unfold latest_step.
  destruct (load Date_parse stateDir fs p) as [state|] eqn:Hload.
  2:{ apply Hkeep. intros st t (Hl & _). congruence. }
  destruct (get state "goal") as [vg|] eqn:Hg.
  2:{ apply Hkeep. intros st t (Hl & Hg' & _). congruence. }
  assert (Hother : (forall g, vg = VStr g -> g <> goal) -> latest_so_far (seen ++ [p]) acc).
  { intros Hne. apply Hkeep. intros st t (Hl & Hg' & _).
    rewrite Hload in Hl. injection Hl as <-. rewrite Hg in Hg'. injection Hg' as ->.
    by destruct (Hne goal). }
  destruct vg as [| | | |g| | |]; try (apply Hother; intros ? [=]; done).
  destruct (get state "lastCheckpoint") as [lc|] eqn:Hlc.
  2:{ apply Hkeep. intros st t (Hl & _ & lc & Hlc' & _).
      rewrite Hload in Hl. injection Hl as <-. congruence. }
  destruct (String.eqb g goal) eqn:Heq.
  2:{ apply Hother. intros g' [= <-]. by apply String.eqb_neq. }
  apply String.eqb_eq in Heq as ->.
  destruct (getTime lc) as [tm|] eqn:Htm.
  2:{ apply Hkeep. intros st t (Hl & _ & lc' & Hlc' & Ht).
      rewrite Hload in Hl. injection Hl as <-. congruence. }
  assert (Hthis : forall st t, checkpoint_of p st t -> st = state /\ t = tm).
  { intros st t (Hl & _ & lc' & Hlc' & Ht).
    rewrite Hload in Hl. injection Hl as <-. split; [done|]. congruence. }
  destruct (snd acc <? tm) eqn:Hlt.
  - apply Z.ltb_lt in Hlt. split; [simpl; lia|]. split.
    + intros p' st t [Hin|[<-|[]]]%in_app_or Hc; simpl.
      * specialize (Hmax p' st t Hin Hc). lia.
      * destruct (Hthis st t Hc) as [_ ->]. lia.
    + simpl. exists p. split; [apply in_or_app; right; by left|].
      split; [|lia]. split; [done|]. split; [done|]. eauto.
  - apply Z.ltb_ge in Hlt. apply Hkeep. intros st t Hc.
    destruct (Hthis st t Hc) as [_ ->]. lia.
Qed.

Lemma latest_fold_spec ids : forall seen acc,
  latest_so_far seen acc ->
  latest_so_far (seen ++ ids)
    (fold_left (latest_step Date_parse stateDir fs goal) ids acc).
Proof.
  induction ids as [|p ids IH]; intros seen acc H; simpl.
  - by rewrite app_nil_r.
  - replace (seen ++ p :: ids)%list with ((seen ++ [p]) ++ ids)%list
      by (by rewrite <- app_assoc).
    apply IH. by apply latest_step_spec.
Qed.

End Latest.

(** [findLatestForGoal(goal)] returns a listed checkpoint that loads, is
    of the goal and was saved at a time after the epoch, and no listed
    checkpoint of the goal was saved later; it returns null exactly when
    no listed checkpoint of the goal was saved after the epoch. *)
Theorem findLatestForGoal_is_latest :
  forall (Date_parse : string -> Date) (stateDir : string) (fs : FS)
         (goal : string),
    let fs1 := fst (listPlanIds stateDir fs) in
    let planIds := snd (listPlanIds stateDir fs) in
    let found := snd (findLatestForGoal Date_parse stateDir fs goal) in
    (forall latest, found = Some latest ->
       exists p t,
         In p planIds /\ checkpoint_of Date_parse stateDir fs1 goal p latest t
         /\ 0 < t
         /\ forall p' st' t',
              In p' planIds ->
              checkpoint_of Date_parse stateDir fs1 goal p' st' t' -> t' <= t)
    /\ (found = None <->
        forall p st t,
          In p planIds -> checkpoint_of Date_parse stateDir fs1 goal p st t ->
          t <= 0).
Proof.
  intros parse dir fs goal fs1 planIds found.
  pose proof (latest_fold_spec parse dir fs1 goal planIds [] (None, 0)) as H.
  destruct H as (Hpos & Hmax & Hfound).
  { split; [done|]. split; [|done]. by intros ??? []. }
  assert (Ef : found = fst (fold_left (latest_step parse dir fs1 goal) planIds (None, 0)))
    by reflexivity.
  rewrite <- Ef in Hfound. simpl app in *. split.
  - intros latest E. rewrite E in Hfound.
    destruct Hfound as (p' & Hin' & Hc' & Ht'). exists p'. eexists. eauto.
  - split.
    + intros E. rewrite E in Hfound. intros p st t Hin Hc.
      specialize (Hmax p st t Hin Hc). lia.
    + intros Hnone. destruct found as [latest|]; [|done].
      destruct Hfound as (p' & Hin' & Hc' & Ht').
      specialize (Hnone p' latest _ Hin' Hc'). lia.
Qed.

(** ** Reading a state *)

#[global] Instance TaskStatus_eq_dec : EqDecision TaskStatus.
Proof. solve_decision. Defined.

#[global] Instance Phase_eq_dec : EqDecision Phase.
Proof. solve_decision. Defined.

(** [getResumableTasks(state)] *)
Definition getResumableTasks (state : ExecutionState) : list TaskState :=
  List.filter (fun t => bool_decide (status t = PENDING)
                        || bool_decide (status t = RUNNING)) (tasks state).

(** [isFatallyFailed(state)] *)
Definition isFatallyFailed (state : ExecutionState) : bool :=
  bool_decide (phase state = failed)
  && existsb (fun t => bool_decide (status t = FAILED) && (3 <=? attempts t))
             (tasks state).

Lemma every_completed_typed (ts : list TaskState) :
  every_completed (List.map TaskState_obj ts)
  = Some (forallb (fun t => bool_decide (status t = COMPLETED)) ts).
Proof.
  induction ts as [|t ts IH]; [done|].
  cbn [List.map every_completed forallb].
  assert (Hs : get (TaskState_obj t) "status" = Some (VStr (TaskStatus_str (status t))))
    by reflexivity.
  rewrite Hs. destruct (status t); simpl; try done.
Qed.

(** On a state of the interface types, [isComplete] is true exactly when
    the phase is completed or every task is COMPLETED (so also when there
    is no task).  A fatally failed state is never complete and has a
    FAILED task with at least three attempts; a state all of whose tasks
    are COMPLETED has no resumable task, and a resumable task is never a
    COMPLETED or FAILED one. *)
Theorem state_predicates_agree :
  forall (state : ExecutionState),
    isComplete (ExecutionState_obj state)
    = Some (bool_decide (phase state = completed)
            || forallb (fun t => bool_decide (status t = COMPLETED)) (tasks state))
    /\ (isFatallyFailed state = true ->
        isComplete (ExecutionState_obj state) = Some false
        /\ exists t, In t (tasks state) /\ status t = FAILED /\ 3 <= attempts t)
    /\ (forallb (fun t => bool_decide (status t = COMPLETED)) (tasks state) = true ->
        getResumableTasks state = [])
    /\ (forall t, In t (getResumableTasks state) ->
          In t (tasks state) /\ (status t = PENDING \/ status t = RUNNING)).
Proof.
  intros state.
  assert (Hc : isComplete (ExecutionState_obj state)
    = Some (bool_decide (phase state = completed)
            || forallb (fun t => bool_decide (status t = COMPLETED)) (tasks state))).
  { destruct state as [p g ph ts ar sa lc md]. unfold isComplete. cbn.
    destruct ph; cbn; try done; apply every_completed_typed. }
  split; [done|]. split_and!.
  - unfold isFatallyFailed. intros [Hph Hex]%andb_prop.
    apply bool_decide_eq_true in Hph. apply existsb_exists in Hex as (t & Hin & Ht).
    apply andb_prop in Ht as [Hst Hatt]. apply bool_decide_eq_true in Hst.
    apply Z.leb_le in Hatt. split; [|eauto].
    rewrite Hc, Hph. simpl. f_equal. apply not_true_is_false.
    intros Hall. rewrite forallb_forall in Hall. specialize (Hall t Hin).
    apply bool_decide_eq_true in Hall. congruence.
  - intros Hall. unfold getResumableTasks. rewrite forallb_forall in Hall.
    clear Hc. induction (tasks state) as [|t ts IH]; [done|]. simpl.
    assert (Ht : status t = COMPLETED).
    { eapply bool_decide_eq_true_1, Hall. by left. }
    rewrite Ht. simpl. apply IH. intros x Hx. apply Hall. by right.
  - intros t [Hin Ht]%filter_In. split; [done|].
    apply orb_prop in Ht as [H|H]; apply bool_decide_eq_true in H; auto.
Qed.

(** ** Cleaning up *)

(** [states.sort((a, b) => b.timestamp - a.timestamp)] on time values
    that are numbers: [Array.prototype.sort] is stable, so this is an
    insertion from the right that never passes an entry of equal time. *)
Fixpoint insert_by_time (x : string * Z) (l : list (string * Z))
  : list (string * Z) :=
  match l with
  | [] => [x]
  | y :: l' =>
      if decide (snd x < snd y) then y :: insert_by_time x l' else x :: y :: l'
  end.

Definition sort_by_time (l : list (string * Z)) : list (string * Z) :=
  foldr insert_by_time [] l.

Section Cleanup.

Variable Date_parse : string -> Date.

(** The order in which the runtime's [Array.prototype.sort] leaves an array
    when the comparator is not consistent. *)
Variable runtime_sort : list (string * option Z) -> list (string * option Z).

Variable stateDir : string.

(** The loop that fills [states]: the plan ids that load, each with the
    time value of its [lastCheckpoint] ([None] is NaN). *)
Fixpoint load_times (fs : FS) (planIds : list string)
  : fallible (list (string * option Z)) :=
  match planIds with
  | [] => Ok []
  | planId :: rest =>
      match load Date_parse stateDir fs planId with
      | Some state =>
          match get state "lastCheckpoint" with
          | Some (VDate d) =>
              match load_times fs rest with
              | Ok states => Ok ((planId, getTime (VDate d)) :: states)
              | Throw e => Throw e
              end
          | _ => Throw "TypeError: getTime is not a function"
          end
      | None => load_times fs rest
      end
  end.

Definition with_time (entry : string * option Z) : option (string * Z) :=
  t ← snd entry; Some (fst entry, t).

Definition timed_entry (entry : string * Z) : string * option Z :=
  (fst entry, Some (snd entry)).

(** [states.sort((a, b) => b.timestamp - a.timestamp)].  When every time
    value is a number the sort is the stable one, newest first.  With a NaN
    among them the comparator need not be consistent, and the order is then
    the runtime's. *)
Definition sort_states (states : list (string * option Z))
  : list (string * option Z) :=
  match mapM with_time states with
  | Some timed => timed_entry <$> sort_by_time timed
  | None => runtime_sort states
  end.

(** [cleanup(keepCount)]: the file system it leaves, and the number it
    returns or the error it rejects with.  With a negative [keepCount]
    the loop reads [states[keepCount].planId] and throws. *)
Definition cleanup (fs : FS) (keepCount : Z) : FS * fallible Z :=
  let '(fs1, planIds) := listPlanIds stateDir fs in
  if decide (Z.of_nat (List.length planIds) <= keepCount) then (fs1, Ok 0)
  else
    match load_times fs1 planIds with
    | Throw e => (fs1, Throw e)
    | Ok states =>
        if decide (keepCount < 0)
        then (fs1, Throw "TypeError: Cannot read properties of undefined")
        else
          let doomed := drop (Z.to_nat keepCount) (sort_states states) in
          (fold_left (fun fs entry => delete stateDir fs (fst entry)) doomed fs1,
           Ok (Z.of_nat (List.length doomed)))
    end.

End Cleanup.

Definition newer (a b : string * Z) : Prop := snd b <= snd a.

Lemma insert_by_time_perm x l : insert_by_time x l ≡ₚ x :: l.
Proof.
  induction l as [|y l IH]; simpl; [done|]. case_decide; [|done].
  rewrite IH. apply Permutation_swap.
Qed.

Lemma sort_by_time_perm l : sort_by_time l ≡ₚ l.
Proof.
  induction l as [|x l IH]; simpl; [done|]. by rewrite insert_by_time_perm, IH.
Qed.

Lemma insert_by_time_sorted x l :
  StronglySorted newer l -> StronglySorted newer (insert_by_time x l).
Proof.
  induction 1 as [|y l Hl IH Hy]; simpl; [repeat constructor|].
  case_decide as Hlt.
  - constructor; [done|]. apply Forall_forall. intros z Hz.
    rewrite insert_by_time_perm in Hz. apply elem_of_cons in Hz as [->|Hz].
    + unfold newer. lia.
    + rewrite Forall_forall in Hy. by apply Hy.
  - constructor; [by constructor|]. constructor; [unfold newer; lia|].
    apply Forall_forall. intros z Hz. rewrite Forall_forall in Hy.
    specialize (Hy z Hz). unfold newer in *. lia.
Qed.

Lemma sort_by_time_sorted l : StronglySorted newer (sort_by_time l).
Proof.
  induction l as [|x l IH]; simpl; [constructor|]. by apply insert_by_time_sorted.
Qed.

Lemma sorted_take_drop (l : list (string * Z)) (k : nat) :
  StronglySorted newer l ->
  forall a b, a ∈ take k l -> b ∈ drop k l -> snd b <= snd a.
Proof.
  intros Hs. revert k. induction Hs as [|x l Hl IH Hx]; intros k a b.
  - rewrite take_nil. by intros ?%elem_of_nil.
  - destruct k as [|k]; simpl; [by intros ?%elem_of_nil|].
    intros [->|Ha]%elem_of_cons Hb; [|by eapply IH].
    rewrite Forall_forall in Hx. apply (Hx b). by apply (subseteq_drop k l).
Qed.

Lemma obj_get_set_eq ps k v : obj_get (obj_set ps k v) k = v.
Proof.
  induction ps as [|[k' v'] ps IH]; simpl.
  - by rewrite String.eqb_refl.
  - destruct (String.eqb k' k) eqn:E; simpl; by rewrite E.
Qed.

Lemma obj_get_set_ne ps k k' v : k <> k' -> obj_get (obj_set ps k v) k' = obj_get ps k'.
Proof.
  intros Hne. induction ps as [|[k0 v0] ps IH]; simpl.
  - destruct (String.eqb k k') eqn:E; [|done].
    apply String.eqb_eq in E. done.
  - destruct (String.eqb k0 k) eqn:E; simpl.
    + apply String.eqb_eq in E. subst k0.
      destruct (String.eqb k k') eqn:E'; [|done].
      apply String.eqb_eq in E'. done.
    + by rewrite IH.
Qed.

(** A date as [save] writes it, or one left out: not a number, an array or
    an object. *)
Definition plain_date (v : option jsval) : bool :=
  match v with
  | Some (VNum _) | Some (VArr _) | Some (VObj _) => false
  | _ => true
  end.

(** The dates [load] converts in a document. *)
Definition plain_dates (content : Text) : bool :=
  match JSON_parse content with
  | Throw _ => true
  | Ok parsed =>
      plain_date (get parsed "startedAt")
      && plain_date (get parsed "lastCheckpoint")
      && match get parsed "tasks" with
         | Some (VArr ts) =>
             forallb (fun t => plain_date (get t "startedAt")
                               && plain_date (get t "completedAt")) ts
         | _ => true
         end
  end.

Lemma load_lastCheckpoint Date_parse dir fs p state :
  load Date_parse dir fs p = Some state ->
  exists d, get state "lastCheckpoint" = Some (VDate d).
Proof.
  unfold load, load_body.
  destruct (negb _); [done|].
  destruct (fs_readFile _ _) as [content|]; [|done].
  destruct (JSON_parse content) as [parsed|]; [|done].
  destruct (get parsed "startedAt") as [sa|]; [|done].
  destruct (get parsed "lastCheckpoint") as [lc|]; [|done].
  destruct (get parsed "tasks") as [[| | | | | |ts|]|]; try done.
  destruct (map_result _ ts) as [ts'|]; [|done].
  intros [= <-]. eexists. simpl. f_equal.
  rewrite obj_get_set_ne by done. apply obj_get_set_eq.
Qed.

(** The loop that fills [states] never throws: it collects the listed plan
    ids that load, in order, each with its time value. *)
Lemma load_times_total Date_parse dir fs planIds :
  exists states,
    load_times Date_parse dir fs planIds = Ok states
    /\ states.*1
       = List.filter (fun p => bool_decide (is_Some (load Date_parse dir fs p)))
                     planIds
    /\ forall p o, (p, o) ∈ states ->
         exists state lc, load Date_parse dir fs p = Some state
                          /\ get state "lastCheckpoint" = Some lc
                          /\ getTime lc = o.
Proof.
  induction planIds as [|p ids (rest & Hrest & Hids & Htimes)]; simpl.
  - exists []. split; [done|]. split; [done|]. by intros ?? ?%elem_of_nil.
  - destruct (load Date_parse dir fs p) as [state|] eqn:Hload.
    + destruct (load_lastCheckpoint _ _ _ _ _ Hload) as [d Hd].
      rewrite Hd, Hrest. eexists. split; [done|].
      rewrite bool_decide_eq_true_2 by eauto. split; [simpl; by f_equal|].
      intros q o [[= -> ->]|Hin]%elem_of_cons; [|by apply Htimes].
      by exists state, (VDate d).
    + exists rest. split; [done|].
      rewrite bool_decide_eq_false_2 by (by intros [? ?]). done.
Qed.

Lemma with_time_back states timed :
  mapM with_time states = Some timed -> timed_entry <$> timed = states.
Proof.
  revert timed. induction states as [|[p o] states IH]; intros timed.
  - by intros [= <-].
  - destruct o as [t|]; [|done]. cbn.
    destruct (mapM with_time states) as [rest|]; [|done].
    cbn. intros [= <-]. cbn. by rewrite (IH rest eq_refl).
Qed.

Lemma with_time_all states :
  Forall (fun entry => is_Some (snd entry)) states ->
  is_Some (mapM with_time states).
Proof.
  induction 1 as [|[p o] states [t Ht] _ [rest IH]]; [by eexists|].
  simpl in Ht. subst o. cbn. rewrite IH. by eexists.
Qed.

Section Sorted_states.

Variable runtime_sort : list (string * option Z) -> list (string * option Z).
Hypothesis runtime_sort_perm : forall l, runtime_sort l ≡ₚ l.

Lemma sort_states_perm states : sort_states runtime_sort states ≡ₚ states.
Proof.
  unfold sort_states.
  destruct (mapM with_time states) as [timed|] eqn:E; [|apply runtime_sort_perm].
  rewrite sort_by_time_perm. by rewrite (with_time_back _ _ E).
Qed.

(** When no time value is NaN, every entry among the first [k] is at least
    as new as every entry after them. *)
Lemma sort_states_newest states (k : nat) pk tk pd td :
  Forall (fun entry => is_Some (snd entry)) states ->
  (pk, Some tk) ∈ take k (sort_states runtime_sort states) ->
  (pd, Some td) ∈ drop k (sort_states runtime_sort states) ->
  td <= tk.
Proof.
  intros Hall. unfold sort_states.
  destruct (with_time_all _ Hall) as [timed ->].
  rewrite <- fmap_take, <- fmap_drop.
  intros Hk Hd.
  apply list_elem_of_fmap in Hk as (a & Ha & Hin_a).
  apply list_elem_of_fmap in Hd as (b & Hb & Hin_b).
  injection Ha as -> ->. injection Hb as -> ->.
  exact (sorted_take_drop _ k (sort_by_time_sorted timed) a b Hin_a Hin_b).
Qed.

End Sorted_states.

Lemma NoDup_List_filter {A} (f : A -> bool) (l : list A) :
  NoDup l -> NoDup (List.filter f l).
Proof. rewrite !NoDup_ListNoDup. apply List.NoDup_filter. Qed.

Lemma load_delete_each {B} Date_parse dir (doomed : list (string * B)) : forall fs q,
  load Date_parse dir
       (fold_left (fun fs entry => delete dir fs (fst entry)) doomed fs) q
  = if decide (q ∈ doomed.*1) then None else load Date_parse dir fs q.
Proof.
  induction doomed as [|[p t] doomed IH]; intros fs q.
  - done.
  - cbn [fold_left fmap list_fmap fst]. rewrite IH. destruct (decide (q ∈ doomed.*1)) as [Hin|Hin].
    + by rewrite decide_True by (by right).
    + destruct (decide (q = p)) as [->|Hne].
      * rewrite decide_True by left. apply load_delete_eq.
      * rewrite decide_False by (by intros [?|?]%elem_of_cons).
        by apply load_delete_ne.
Qed.

(** [cleanup(keepCount)] on a store whose documents hold their dates as
    [save] writes them, for a whole number [keepCount].  A negative
    [keepCount] rejects and deletes nothing.  Otherwise the call returns the
    number of entries it dropped: the listed plan ids that load, each with
    the time of its last checkpoint, are split into the first [keepCount]
    of them in sorted order and the rest, and the files of the rest are
    deleted.  These ids no longer load; every other plan id loads as before.
    When no time value is NaN, no kept entry is older than a dropped one.
    When the listed plan ids are pairwise distinct, so are the entries, and
    every kept checkpoint still loads. *)
Theorem cleanup_keeps_newest :
  forall (Date_parse : string -> Date)
         (runtime_sort : list (string * option Z) -> list (string * option Z))
         (stateDir : string) (fs : FS) (keepCount : Z),
    (forall l, runtime_sort l ≡ₚ l) ->
    map_Forall (fun _ content => plain_dates content = true) (files fs) ->
    let fs1 := fst (listPlanIds stateDir fs) in
    let planIds := snd (listPlanIds stateDir fs) in
    let loadable :=
      List.filter (fun p => bool_decide (is_Some (load Date_parse stateDir fs1 p)))
                  planIds in
    let result := cleanup Date_parse runtime_sort stateDir fs keepCount in
    (keepCount < 0 -> fst result = fs1 /\ exists e, snd result = Throw e)
    /\ (0 <= keepCount ->
        exists kept dropped : list (string * option Z),
          snd result = Ok (Z.of_nat (List.length dropped))
          /\ (kept ++ dropped)%list.*1 ≡ₚ loadable
          /\ List.length kept = Nat.min (Z.to_nat keepCount) (List.length loadable)
          /\ (forall p o, (p, o) ∈ (kept ++ dropped)%list ->
                exists state lc,
                  load Date_parse stateDir fs1 p = Some state
                  /\ get state "lastCheckpoint" = Some lc /\ getTime lc = o)
          /\ (forall q, load Date_parse stateDir (fst result) q
                        = if decide (q ∈ dropped.*1) then None
                          else load Date_parse stateDir fs1 q)
          /\ (Forall (fun entry => is_Some (snd entry)) (kept ++ dropped)%list ->
              forall pk tk pd td,
                (pk, Some tk) ∈ kept -> (pd, Some td) ∈ dropped -> td <= tk)
          /\ (NoDup planIds ->
              NoDup (kept ++ dropped)%list.*1
              /\ forall p o, (p, o) ∈ kept ->
                   is_Some (load Date_parse stateDir (fst result) p))).
Proof.
  intros parse rsort dir fs keep Hperm _ fs1 planIds loadable result.
  subst fs1 planIds loadable result. unfold cleanup.
  destruct (listPlanIds dir fs) as [fs1 planIds] eqn:Hlist. cbn [fst snd].
  destruct (load_times_total parse dir fs1 planIds)
    as (states & Hstates & Hids & Htimes).
  assert (Hlen : List.length states
                 = List.length (List.filter
                     (fun p => bool_decide (is_Some (load parse dir fs1 p))) planIds)).
  { by rewrite <- Hids, length_fmap. }
  assert (Hle : (List.length states <= List.length planIds)%nat).
  { rewrite Hlen. apply List.filter_length_le. }
  split.
  - intros Hneg. rewrite decide_False by lia. rewrite Hstates.
    rewrite decide_True by done. split; [done|]. by eexists.
  - intros Hpos.
    pose proof (sort_states_perm rsort Hperm states) as Hsorted.
    set (sorted := sort_states rsort states) in *.
    exists (take (Z.to_nat keep) sorted), (drop (Z.to_nat keep) sorted).
    assert (Hall : (take (Z.to_nat keep) sorted ++ drop (Z.to_nat keep) sorted)%list.*1
                   ≡ₚ List.filter
                        (fun p => bool_decide (is_Some (load parse dir fs1 p))) planIds).
    { rewrite take_drop, <- Hids. by rewrite Hsorted. }
    assert (Hsl : List.length sorted = List.length states).
    { by apply Permutation_length. }
    case_decide as Hfew.
    + (* nothing is loaded: at most [keepCount] plan ids are listed *)
      cbn [fst snd].
      assert (Hnone : drop (Z.to_nat keep) sorted = []).
      { apply drop_ge. lia. }
      rewrite Hnone. split_and!.
      * done.
      * by rewrite <- Hnone.
      * rewrite length_take, Hsl, Hlen. done.
      * intros p o. rewrite <- Hnone, take_drop, Hsorted. apply Htimes.
      * intros q. by rewrite decide_False by (by intros ?%elem_of_nil).
      * by intros _ ???? _ ?%elem_of_nil.
      * intros Hnd. split.
        -- rewrite <- Hnone, Hall. by apply NoDup_List_filter.
        -- intros p o Hin. rewrite <- (app_nil_r (take _ _)), <- Hnone, take_drop in Hin.
           rewrite Hsorted in Hin. destruct (Htimes p o Hin) as (state & _ & -> & _).
           by eexists.
    + rewrite Hstates. rewrite decide_False by lia. cbn [fst snd]. split_and!.
      * done.
      * done.
      * rewrite length_take, Hsl, Hlen. done.
      * intros p o. rewrite take_drop, Hsorted. apply Htimes.
      * intros q. apply load_delete_each.
      * rewrite take_drop. intros Hvalid pk tk pd td.
        apply (sort_states_newest rsort states). by rewrite <- Hsorted.
      * intros Hnd.
        assert (Hnd' : NoDup (take (Z.to_nat keep) sorted
                              ++ drop (Z.to_nat keep) sorted)%list.*1).
        { rewrite Hall. by apply NoDup_List_filter. }
        split; [done|]. intros p o Hin.
        rewrite load_delete_each.
        rewrite fmap_app in Hnd'. apply NoDup_app in Hnd' as (_ & Hdisj & _).
        rewrite decide_False.
        2:{ apply Hdisj. apply list_elem_of_fmap. by exists (p, o). }
        assert (Hin' : (p, o) ∈ states).
        { rewrite <- Hsorted, <- (take_drop (Z.to_nat keep) sorted).
          apply elem_of_app. by left. }
        destruct (Htimes p o Hin') as (state & _ & -> & _). by eexists.
Qed.

(** *** Three checkpoints *)

Definition checkpoint_state (p : string) : ExecutionState :=
  mkExecutionState p "build it" executing [] "layers" (ValidDate 50) (ValidDate 60) None.

Definition saved (fs : FS) (now : Z) (p : string) : FS :=
  match save dec_toISOString example_stateDir fs now (checkpoint_state p) with
  | Ok fs' => fs'
  | Throw _ => fs
  end.

(** Saved at times 100, 300 and 200. *)
Definition three_checkpoints : FS :=
  saved (saved (saved empty_FS 100 "plan-a") 300 "plan-b") 200 "plan-c".

Lemma cleanup_keeps_newest_witness :
  let result := cleanup dec_Date_parse (@rev _) example_stateDir three_checkpoints 1 in
  snd result = Ok 2
  /\ is_Some (load dec_Date_parse example_stateDir (fst result) "plan-b")
  /\ load dec_Date_parse example_stateDir (fst result) "plan-a" = None
  /\ load dec_Date_parse example_stateDir (fst result) "plan-c" = None
  /\ exists kept dropped : list (string * option Z),
       snd result = Ok (Z.of_nat (List.length dropped))
       /\ List.length kept = 1%nat
       /\ NoDup (kept ++ dropped)%list.*1.
Proof.
  intros result.
  split; [by vm_compute|]. split; [vm_compute; by eexists|].
  split; [by vm_compute|]. split; [by vm_compute|].
  assert (Hperm : forall l : list (string * option Z), rev l ≡ₚ l).
  { intros l. symmetry. apply Permutation_rev. }
  assert (Hdates : map_Forall (fun _ content => plain_dates content = true)
                              (files three_checkpoints)).
  { apply map_Forall_to_list, Forall_forall. intros [path content] Hin.
    change (plain_dates (snd (path, content)) = true).
    revert Hin. generalize (path, content).
    apply (Forall_forall (fun entry : string * Text => plain_dates (snd entry) = true)).
    apply (bool_decide_unpack _). by vm_compute. }
  destruct (cleanup_keeps_newest dec_Date_parse (@rev _) example_stateDir
              three_checkpoints 1 Hperm Hdates) as [_ Hkeep].
  destruct (Hkeep ltac:(lia)) as (kept & dropped & Hn & _ & Hk & _ & _ & _ & Hnd).
  exists kept, dropped. split; [exact Hn|]. split.
  - rewrite Hk. by vm_compute.
  - apply Hnd. apply (bool_decide_unpack _). by vm_compute.
Defined.

End StateStore.

(* ===================================================================== *)
(** * Orchestrator  (src/core/DevEngine.ts)                               *)
(* ===================================================================== *)

Module Engine.
Import Js StateStore.

(** ** The world the engine runs in

    Execution states are objects on a heap: [this.currentState] and the
    [state] parameter of [resumeExecution] are references, and assigning a
    property through one reference is seen through every other reference
    to the same object.  Calls to the collaborators (event bus, scheduler,
    model, file system, state store) are recorded in a trace. *)

Inductive PromptKind : Type := ARCHITECT | BUILDER | AUDITOR | FIXER | SCRIBE.

Inductive Effect : Type :=
  | EmitPhaseStart (phase : string)
  | SchedulerLoadPlan (tasks : list jsval)
  | SchedulerResumeFrom (completedResults : list (jsval * jsval))
  | SchedulerRun
  | LlmGenerate (prompt : PromptKind) (args : list jsval)
  | FsWriteFile (path : string) (content : string)
  | StateSave (state : list (string * jsval))
  | EmitCheckpointSaved (planId : jsval).

Record World : Type := mkWorld {
  heap : gmap nat (list (string * jsval));
  currentState : option nat;
  trace : list Effect
}.

(** What the collaborators answer during one call of [resumeExecution]:
    how the executor callbacks left [currentState.tasks] and whether
    [scheduler.run()] resolved, the text the model returned, and whether
    the writes went through. *)
Record Responses : Type := mkResponses {
  tasks_after_run : jsval -> jsval;
  scheduler_result : fallible unit;
  llm_result : fallible string;
  writeFile_result : fallible unit;
  save_result : fallible unit
}.

(** A state and exception monad over the world. *)
Definition M (A : Type) : Type := World -> World * fallible A.

Definition ret {A} (a : A) : M A := fun w => (w, Ok a).

Definition throw {A} (msg : string) : M A := fun w => (w, Throw msg).

Definition bind {A B} (c : M A) (k : A -> M B) : M B :=
  fun w =>
    match c w with
    | (w', Ok a) => k a w'
    | (w', Throw e) => (w', Throw e)
    end.

Notation "'let*' x ':=' c 'in' k" := (bind c (fun x => k))
  (at level 10, x name, c at level 100, k at level 200).
Notation "c ';;' k" := (bind c (fun _ => k))
  (at level 100, k at level 200, right associativity).

Definition lift {A} (r : fallible A) : M A := fun w => (w, r).

Definition effect (e : Effect) : M unit :=
  fun w => (mkWorld (heap w) (currentState w) (trace w ++ [e])%list, Ok tt).

(** [this.currentState = ref] *)
Definition set_currentState (ref : nat) : M unit :=
  fun w => (mkWorld (heap w) (Some ref) (trace w), Ok tt).

(** [this.currentState], which must not be null where it is dereferenced. *)
Definition this_currentState : M nat :=
  fun w =>
    match currentState w with
    | Some ref => (w, Ok ref)
    | None => (w, Throw "TypeError: this.currentState is null")
    end.

(** [ref.k] *)
Definition read (ref : nat) (k : string) : M jsval :=
  fun w =>
    match heap w !! ref with
    | Some ps => (w, Ok (obj_get ps k))
    | None => (w, Throw "TypeError: dangling reference")
    end.

(** [ref.k = v] *)
Definition assign (ref : nat) (k : string) (v : jsval) : M unit :=
  fun w =>
    match heap w !! ref with
    | Some ps =>
        (mkWorld (<[ref := obj_set ps k v]> (heap w)) (currentState w) (trace w),
         Ok tt)
    | None => (w, Throw "TypeError: dangling reference")
    end.

(** The whole object behind a reference, as passed to the state store. *)
Definition snapshot (ref : nat) : M (list (string * jsval)) :=
  fun w =>
    match heap w !! ref with
    | Some ps => (w, Ok ps)
    | None => (w, Throw "TypeError: dangling reference")
    end.

(** [v.k] on a value; reading a property of null or undefined throws. *)
Definition prop (v : jsval) (k : string) : M jsval :=
  match get v k with
  | Some x => ret x
  | None => throw "TypeError: cannot read properties"
  end.

(** [xs.map(f)] for an effectful callback. *)
Fixpoint mapM_ {A B} (f : A -> M B) (xs : list A) : M (list B) :=
  match xs with
  | [] => ret []
  | x :: xs' =>
      let* y := f x in
      let* ys := mapM_ f xs' in
      ret (y :: ys)
  end.

Definition as_elems (v : jsval) : M (list jsval) :=
  match v with
  | VArr l => ret l
  | _ => throw "TypeError: not an array"
  end.

(** [v === s] for a string literal [s]. *)
Definition is_str (v : jsval) (s : string) : bool :=
  match v with
  | VStr s' => String.eqb s' s
  | _ => false
  end.

Section Engine.

(** The [enableCheckpoints] option. *)
Variable enableCheckpoints : bool.

Variable env : Responses.

(** [checkpoint()] *)
Definition checkpoint : M unit :=
  fun w =>
    match currentState w with
    | Some ref =>
        if enableCheckpoints then
          (let* st := snapshot ref in
           effect (StateSave st) ;;
           lift (save_result env) ;;
           effect (EmitCheckpointSaved (obj_get st "planId"))) w
        else (w, Ok tt)
    | None => (w, Ok tt)
    end.

(** [phaseDocument(plan)] *)
Definition phaseDocument (architecture_reasoning : jsval) (tasks : list jsval)
  : M unit :=
  let* files := mapM_ (fun t =>
                  let* fp := prop t "file_path" in
                  let* d := prop t "description" in
                  ret (VObj [("file_path", fp); ("description", d)])) tasks in
  effect (LlmGenerate SCRIBE [architecture_reasoning; VArr files]) ;;
  let* content := lift (llm_result env) in
  effect (FsWriteFile "README.md" content) ;;
  lift (writeFile_result env).

(** The loop that fills [completedResults]: the [set] calls it makes. *)
Fixpoint completed_results (tasks : list jsval) : M (list (jsval * jsval)) :=
  match tasks with
  | [] => ret []
  | task :: tasks' =>
      let* st := prop task "status" in
      let* entry :=
        (if is_str st "COMPLETED" then
           let* r := prop task "result" in
           if truthy r then
             let* i := prop task "id" in
             let* r' := prop task "result" in
             ret [(i, r')]
           else ret []
         else ret []) in
      let* rest := completed_results tasks' in
      ret (entry ++ rest)%list
  end.

(** The callback that turns a task state back into a scheduler task. *)
Definition to_scheduler_task (t : jsval) : M jsval :=
  let* i := prop t "id" in
  let* fp := prop t "filePath" in
  let* d := prop t "description" in
  let* deps := prop t "dependencies" in
  let* st := prop t "status" in
  let* r := prop t "result" in
  let* a := prop t "attempts" in
  ret (VObj [("id", i); ("filePath", fp); ("description", d);
             ("dependencies", deps); ("type", VStr "code");
             ("status", VStr (if is_str st "COMPLETED" then "COMPLETED" else "PENDING"));
             ("result", r); ("attempts", a)]).

(** The callback that turns a task state into a task definition. *)
Definition to_task_definition (t : jsval) : M jsval :=
  let* i := prop t "id" in
  let* fp := prop t "filePath" in
  let* d := prop t "description" in
  let* deps := prop t "dependencies" in
  ret (VObj [("id", i); ("file_path", fp); ("description", d);
             ("dependencies", deps); ("type", VStr "code")]).

(** [await this.scheduler.run()]: the executor callbacks replace elements
    of [currentState.tasks]; they never assign [phase]. *)
Definition scheduler_run : M unit :=
  effect SchedulerRun ;;
  let* cur := this_currentState in
  let* ts := read cur "tasks" in
  assign cur "tasks" (tasks_after_run env ts) ;;
  lift (scheduler_result env).

(** [resumeExecution(state)] *)
Definition resumeExecution (state : nat) : M string :=
  set_currentState state ;;
  let* tasks_v := read state "tasks" in
  let* tasks := as_elems tasks_v in
  let* completedResults := completed_results tasks in
  let* tasks_v := read state "tasks" in
  let* tasks := as_elems tasks_v in
  let* schedulerTasks := mapM_ to_scheduler_task tasks in
  effect (SchedulerLoadPlan schedulerTasks) ;;
  effect (SchedulerResumeFrom completedResults) ;;
  effect (EmitPhaseStart "execution") ;;
  let* cur := this_currentState in
  assign cur "phase" (VStr "executing") ;;
  scheduler_run ;;
  let* ph := read state "phase" in
  (if negb (is_str ph "documenting") then
     effect (EmitPhaseStart "documentation") ;;
     let* cur := this_currentState in
     assign cur "phase" (VStr "documenting") ;;
     let* tasks_v := read state "tasks" in
     let* tasks := as_elems tasks_v in
     let* defs := mapM_ to_task_definition tasks in
     let* arch := read state "architectureReasoning" in
     phaseDocument arch defs
   else ret tt) ;;
  let* cur := this_currentState in
  assign cur "phase" (VStr "completed") ;;
  checkpoint ;;
  ret "Development cycle complete (resumed from checkpoint).".

(** *** Entry *)

(** From the runtime and the configuration, as for the state store. *)
Variable Date_parse : string -> Date.
Variable sha256_hex8 : string -> string.
Variable toString36 : Z -> string.
Variable checkpointDir : string.

(** The phases of a fresh run that follow its first checkpoint (context
    gathering, planning, execution, documentation); no property below
    looks inside them. *)
Variable fresh_phases : M string.

(** The decision taken at the head of [run]: the checkpoint to resume, if
    any.  [isComplete] is read off the loaded object. *)
Definition run_entry (fs : FS) (goal : string) (resume : bool)
  : FS * fallible (option jsval) :=
  if resume && enableCheckpoints then
    let '(fs1, existingState) := findLatestForGoal Date_parse checkpointDir fs goal in
    match existingState with
    | Some st =>
        match isComplete st with
        | Some false => (fs1, Ok (Some st))
        | Some true => (fs1, Ok None)
        | None => (fs1, Throw "TypeError: cannot read properties")
        end
    | None => (fs1, Ok None)
    end
  else (fs, Ok None).

(** A new object on the heap. *)
Definition alloc (ps : list (string * jsval)) : M nat :=
  fun w =>
    let ref := fresh (dom (heap w)) in
    (mkWorld (<[ref := ps]> (heap w)) (currentState w) (trace w), Ok ref).

(** [run(goal, repoPath, resume)] at clock reading [now]. *)
Definition run (fs : FS) (now : Z) (goal : string) (resume : bool)
  : World -> FS * (World * fallible string) :=
  fun w =>
    match run_entry fs goal resume with
    | (fs1, Throw e) => (fs1, (w, Throw e))
    | (fs1, Ok (Some st)) =>
        (fs1, (let* existingState := alloc (spread st) in
               resumeExecution existingState) w)
    | (fs1, Ok None) =>
        (fs1, (let* fresh_state :=
                 alloc (spread (ExecutionState_obj
                          (createInitialState sha256_hex8 toString36 now goal))) in
               set_currentState fresh_state ;;
               checkpoint ;;
               fresh_phases) w)
    end.

End Engine.

(** ** Properties of the orchestrator *)

Lemma bind_Ok {A B} (c : M A) (k : A -> M B) w w' b :
  bind c k w = (w', Ok b) ->
  exists w1 a, c w = (w1, Ok a) /\ k a w1 = (w', Ok b).
Proof.
  unfold bind. destruct (c w) as [w1 [a|e]]; [|discriminate].
  intros H. by exists w1, a.
Qed.

(** Computations that leave the world as it is. *)
Definition pure {A} (c : M A) : Prop := forall w, fst (c w) = w.

Lemma pure_ret {A} (a : A) : pure (ret a).
Proof. by intros w. Qed.

Lemma pure_throw {A} msg : pure (@throw A msg).
Proof. by intros w. Qed.

Lemma pure_bind {A B} (c : M A) (k : A -> M B) :
  pure c -> (forall a, pure (k a)) -> pure (bind c k).
Proof.
  intros Hc Hk w. unfold bind. specialize (Hc w).
  destruct (c w) as [w1 [a|e]]; simpl in *; subst; [apply Hk | done].
Qed.

Lemma pure_prop v k : pure (prop v k).
Proof. unfold prop. destruct (get v k); [apply pure_ret | apply pure_throw]. Qed.

Lemma pure_as_elems v : pure (as_elems v).
Proof. destruct v; first [apply pure_ret | apply pure_throw]. Qed.

Lemma pure_mapM_ {A B} (f : A -> M B) xs : (forall x, pure (f x)) -> pure (mapM_ f xs).
Proof.
  intros Hf. induction xs as [|x xs IH]; simpl; [apply pure_ret|].
  apply pure_bind; [apply Hf|]. intros y.
  apply pure_bind; [apply IH|]. intros ys. apply pure_ret.
Qed.

Lemma pure_to_scheduler_task t : pure (to_scheduler_task t).
Proof.
  unfold to_scheduler_task.
  repeat (apply pure_bind; [apply pure_prop | intros ?]). apply pure_ret.
Qed.

Lemma pure_to_task_definition t : pure (to_task_definition t).
Proof.
  unfold to_task_definition.
  repeat (apply pure_bind; [apply pure_prop | intros ?]). apply pure_ret.
Qed.

Lemma pure_completed_results ts : pure (completed_results ts).
Proof.
  induction ts as [|t ts IH]; simpl; [apply pure_ret|].
  apply pure_bind; [apply pure_prop | intros st].
  apply pure_bind.
  { destruct (is_str st "COMPLETED"); [|apply pure_ret].
    apply pure_bind; [apply pure_prop | intros r].
    destruct (truthy r); [|apply pure_ret].
    repeat (apply pure_bind; [apply pure_prop | intros ?]). apply pure_ret. }
  intros e. apply pure_bind; [apply IH | intros ?; apply pure_ret].
Qed.

Lemma pure_Ok {A} (c : M A) w w' a : pure c -> c w = (w', Ok a) -> w' = w.
Proof. intros Hc H. specialize (Hc w). rewrite H in Hc. done. Qed.

Lemma effect_Ok e w w' u :
  effect e w = (w', Ok u) ->
  w' = mkWorld (heap w) (currentState w) (trace w ++ [e])%list.
Proof. unfold effect. by intros [= <- _]. Qed.

Lemma assign_Ok ref k v w w' u :
  assign ref k v w = (w', Ok u) ->
  exists ps, heap w !! ref = Some ps
    /\ w' = mkWorld (<[ref := obj_set ps k v]> (heap w)) (currentState w) (trace w).
Proof.
  unfold assign. destruct (heap w !! ref) as [ps|]; [|discriminate].
  intros [= <- _]. by exists ps.
Qed.

Lemma read_Ok ref k w w' v :
  read ref k w = (w', Ok v) ->
  w' = w /\ exists ps, heap w !! ref = Some ps /\ v = obj_get ps k.
Proof.
  unfold read. destruct (heap w !! ref) as [ps|]; [|discriminate].
  intros [= <- <-]. split; [done|]. by exists ps.
Qed.

Lemma snapshot_Ok ref w w' ps :
  snapshot ref w = (w', Ok ps) -> w' = w /\ heap w !! ref = Some ps.
Proof.
  unfold snapshot. destruct (heap w !! ref) as [ps0|]; [|discriminate].
  by intros [= <- <-].
Qed.

Lemma this_currentState_Ok w w' ref :
  this_currentState w = (w', Ok ref) -> w' = w /\ currentState w = Some ref.
Proof.
  unfold this_currentState. destruct (currentState w); [|discriminate].
  by intros [= <- <-].
Qed.

Lemma lift_Ok {A} (r : fallible A) w w' a :
  lift r w = (w', Ok a) -> w' = w /\ r = Ok a.
Proof. unfold lift. by intros [= <- <-]. Qed.

Lemma ret_Ok {A} (x : A) w w' a : ret x w = (w', Ok a) -> w' = w /\ a = x.
Proof. unfold ret. by intros [= <- <-]. Qed.

Ltac step_effect H :=
  let w1 := fresh "w" in let a := fresh "a" in let Hc := fresh "Hc" in
  apply bind_Ok in H as (w1 & a & Hc & H);
  apply effect_Ok in Hc; subst w1; simpl in H.

Ltac solve_pure :=
  repeat first
    [ apply pure_ret | apply pure_throw | apply pure_prop | apply pure_as_elems
    | apply pure_completed_results | apply pure_to_scheduler_task
    | apply pure_to_task_definition | apply pure_mapM_; intros ?
    | apply pure_bind; [|intros ?] ].

Ltac step_pure H :=
  let w1 := fresh "w" in let a := fresh "a" in let Hc := fresh "Hc" in
  apply bind_Ok in H as (w1 & a & Hc & H);
  apply pure_Ok in Hc; [subst w1 | solve [solve_pure]].

Ltac step_read H ps Hps :=
  let w1 := fresh "w" in let a := fresh "a" in let Hc := fresh "Hc" in
  apply bind_Ok in H as (w1 & a & Hc & H);
  apply read_Ok in Hc as [-> (ps & Hps & ->)]; simpl in Hps.

Ltac step_cur H :=
  let w1 := fresh "w" in let a := fresh "a" in let Hc := fresh "Hc" in
  apply bind_Ok in H as (w1 & a & Hc & H);
  apply this_currentState_Ok in Hc as [-> Hc]; simpl in Hc;
  injection Hc as <-.

Ltac step_assign H ps Hps :=
  let w1 := fresh "w" in let a := fresh "a" in let Hc := fresh "Hc" in
  apply bind_Ok in H as (w1 & a & Hc & H);
  apply assign_Ok in Hc as (ps & Hps & ->); simpl in Hps, H.

Ltac step_lift H Hr :=
  let w1 := fresh "w" in let a := fresh "a" in let Hc := fresh "Hc" in
  apply bind_Ok in H as (w1 & a & Hc & H);
  apply lift_Ok in Hc as [-> Hr].

(** [phaseDocument] asks the model with the Scribe prompt and writes
    README.md. *)
Lemma phaseDocument_Ok env arch defs w w' u :
  phaseDocument env arch defs w = (w', Ok u) ->
  exists files content,
    llm_result env = Ok content
    /\ w' = mkWorld (heap w) (currentState w)
              (trace w ++ [LlmGenerate SCRIBE [arch; VArr files];
                           FsWriteFile "README.md" content])%list.
Proof.
  unfold phaseDocument. intros H.
  apply bind_Ok in H as (w1 & files & Hc & H).
  apply pure_Ok in Hc as ->; [|solve [solve_pure]].
  step_effect H. step_lift H Hllm. step_effect H.
  apply lift_Ok in H as [-> _].
  exists files, a0. split; [done|]. by rewrite <- List.app_assoc.
Qed.

(** [checkpoint] saves the object behind [this.currentState]. *)
Lemma checkpoint_Ok enableCheckpoints env ref w w' u :
  currentState w = Some ref ->
  checkpoint enableCheckpoints env w = (w', Ok u) ->
  if enableCheckpoints
  then exists st, heap w !! ref = Some st
         /\ w' = mkWorld (heap w) (currentState w)
                   (trace w ++ [StateSave st; EmitCheckpointSaved (obj_get st "planId")])%list
  else w' = w.
Proof.
  unfold checkpoint. intros Hcur H. rewrite Hcur in H. destruct enableCheckpoints.
  - apply bind_Ok in H as (w1 & st & Hc & H).
    apply snapshot_Ok in Hc as [-> Hst].
    step_effect H. step_lift H Hsave. apply effect_Ok in H as ->. simpl.
    exists st. split; [done|]. by rewrite <- List.app_assoc.
  - by injection H as <- _.
Qed.

Lemma resumeExecution_documents enableCheckpoints env state w w' msg :
  resumeExecution enableCheckpoints env state w = (w', Ok msg) ->
  exists ts cr arch files content tail ps',
    llm_result env = Ok content
    /\ trace w' =
         (trace w ++
          [SchedulerLoadPlan ts; SchedulerResumeFrom cr;
           EmitPhaseStart "execution"; SchedulerRun;
           EmitPhaseStart "documentation";
           LlmGenerate SCRIBE [arch; VArr files];
           FsWriteFile "README.md" content] ++ tail)%list
    /\ (if enableCheckpoints
        then exists st', tail = [StateSave st'; EmitCheckpointSaved (obj_get st' "planId")]
                         /\ obj_get st' "phase" = VStr "completed"
        else tail = [])
    /\ currentState w' = Some state
    /\ heap w' !! state = Some ps'
    /\ obj_get ps' "phase" = VStr "completed".
Proof.
  unfold resumeExecution. intros H.
  apply bind_Ok in H as (w1 & ? & Hc & H).
  unfold set_currentState in Hc. injection Hc as <- _.
  step_read H ps0 Hps0.
  step_pure H.
  step_pure H.
  step_read H ps1 Hps1.
  step_pure H.
  step_pure H.
  step_effect H. step_effect H. step_effect H.
  step_cur H.
  step_assign H ps2 Hps2.
  (* scheduler.run() *)
  apply bind_Ok in H as (w1 & ? & Hc & H). unfold scheduler_run in Hc.
  step_effect Hc. step_cur Hc. step_read Hc ps3 Hps3.
  step_assign Hc ps4 Hps4. apply lift_Ok in Hc as [-> Hsched].
  (* the guard reads the phase through [state] *)
  step_read H ps5 Hps5.
  rewrite lookup_insert_eq in Hps5. injection Hps5 as <-.
  rewrite lookup_insert_eq in Hps4. injection Hps4 as <-.
  rewrite lookup_insert_eq in Hps3. injection Hps3 as <-.
  rewrite obj_get_set_ne, obj_get_set_eq in H by done. simpl in H.
  apply bind_Ok in H as (w1 & ? & Hc & H).
  step_effect Hc. step_cur Hc. step_assign Hc ps6 Hps6.
  step_read Hc ps7 Hps7. step_pure Hc.
  step_pure Hc.
  step_read Hc ps8 Hps8.
  apply phaseDocument_Ok in Hc as (files & content & Hllm & ->).
  simpl in H.
  step_cur H. step_assign H ps9 Hps9.
  apply bind_Ok in H as (w1 & ? & Hc & H).
  apply ret_Ok in H as [-> _].
  apply (checkpoint_Ok _ _ state) in Hc; [|done].
  destruct enableCheckpoints.
  - destruct Hc as (st & Hst & ->). simpl in Hst |- *.
    rewrite lookup_insert_eq in Hst. injection Hst as <-.
    eexists _, _, _, _, _, _, _. split; [done|]. split.
    { rewrite <- !List.app_assoc. simpl. reflexivity. }
    split. { eexists. split; [done|]. apply obj_get_set_eq. }
    split; [done|]. rewrite lookup_insert_eq. split; [done|]. apply obj_get_set_eq.
  - subst. simpl.
    eexists _, _, _, _, _, [], _. split; [done|]. split.
    { rewrite <- !List.app_assoc. simpl. reflexivity. }
    split; [done|]. split; [done|]. rewrite lookup_insert_eq. split; [done|].
    apply obj_get_set_eq.
Qed.

Lemma alloc_Ok ps w w' ref :
  alloc ps w = (w', Ok ref) ->
  w' = mkWorld (<[ref := ps]> (heap w)) (currentState w) (trace w).
Proof. unfold alloc. by intros [= <- <-]. Qed.

(** Whatever phase the checkpoint stored, a resumed run that returns has
    gone through the documentation phase. *)
Lemma run_resume_documents enableCheckpoints env Date_parse sha256_hex8
    toString36 checkpointDir fresh_phases fs now goal w fs1 st fs' w' msg :
  run_entry enableCheckpoints Date_parse checkpointDir fs goal true
    = (fs1, Ok (Some st)) ->
  run enableCheckpoints env Date_parse sha256_hex8 toString36 checkpointDir
      fresh_phases fs now goal true w = (fs', (w', Ok msg)) ->
  exists ts cr arch files content tail ref ps',
    llm_result env = Ok content
    /\ trace w' =
         (trace w ++
          [SchedulerLoadPlan ts; SchedulerResumeFrom cr;
           EmitPhaseStart "execution"; SchedulerRun;
           EmitPhaseStart "documentation";
           LlmGenerate SCRIBE [arch; VArr files];
           FsWriteFile "README.md" content] ++ tail)%list
    /\ (if enableCheckpoints
        then exists st', tail = [StateSave st'; EmitCheckpointSaved (obj_get st' "planId")]
                         /\ obj_get st' "phase" = VStr "completed"
        else tail = [])
    /\ currentState w' = Some ref
    /\ heap w' !! ref = Some ps'
    /\ obj_get ps' "phase" = VStr "completed".
Proof.
  intros Hentry Hrun. unfold run in Hrun. rewrite Hentry in Hrun.
  injection Hrun as _ Hrun.
  apply bind_Ok in Hrun as (w1 & ref & Halloc & Hres).
  apply alloc_Ok in Halloc as ->.
  apply resumeExecution_documents in Hres
    as (ts & cr & arch & fl & content & tail & ps' & H1 & H2 & H3 & H4 & H5 & H6).
  by exists ts, cr, arch, fl, content, tail, ref, ps'.
Qed.

Lemma isComplete_no_tasks (st : jsval) :
  get st "tasks" = Some (VArr []) -> isComplete st = Some true.
Proof.
  destruct st as [ | | b | n | s | d | l | ps]; try discriminate.
  intros H. unfold isComplete. simpl in *. injection H as ->.
  destruct (obj_get ps "phase") as [ | | | |s| | | ]; try done.
  repeat match goal with
         | |- context [match ?x with _ => _ end] => destruct x; try done
         end.
Qed.

(** *** Concrete runs *)

Definition all_ok : Responses :=
  mkResponses (fun ts => ts) (Ok tt) (Ok "# Project") (Ok tt) (Ok tt).

Definition empty_World : World := mkWorld ∅ None [].

Definition pending_task : TaskState :=
  mkTaskState "b" "src/b.ts" "second module" ["a"] PENDING None None 0 None None.

(** A checkpoint whose stored phase is 'documenting' and that still has a
    pending task. *)
Definition documenting_state : ExecutionState :=
  mkExecutionState "plan-2" "build it" documenting [example_task; pending_task]
    "layers" (ValidDate 500) (ValidDate 600) None.

Definition FS_after_save (fs : FS) (now : Z) (s : ExecutionState) : FS :=
  match save dec_toISOString example_stateDir fs now s with
  | Ok fs' => fs'
  | Throw _ => fs
  end.

Definition documenting_FS : FS := FS_after_save empty_FS 700 documenting_state.

Definition const_hash (goal : string) : string := "0a1b2c3d".

(** The checkpoint a fresh run writes before the plan exists. *)
Definition planning_FS : FS :=
  FS_after_save empty_FS 700
    (createInitialState const_hash dec_toISOString 650 "build it").

Definition resumed_world : World :=
  fst (snd (run true all_ok dec_Date_parse const_hash dec_toISOString
                example_stateDir (throw "not reached") documenting_FS 800
                "build it" true empty_World)).

(** C7.  When [run(goal, repoPath, resume = true)] resumes a checkpoint
    whose stored phase is 'documenting' and returns, the documentation
    phase has been performed again: the Scribe request was made and
    README.md was written with its answer, and only then was the state
    marked completed (and checkpointed, when checkpoints are enabled). *)
Theorem C7_resume_redoes_documentation :
  forall (enableCheckpoints : bool) (env : Responses)
         (Date_parse : string -> Date) (sha256_hex8 : string -> string)
         (toString36 : Z -> string) (checkpointDir : string)
         (fresh_phases : M string) (fs : FS) (now : Z) (goal : string)
         (w : World) (fs1 : FS) (st : jsval) (fs' : FS) (w' : World)
         (msg : string),
    run_entry enableCheckpoints Date_parse checkpointDir fs goal true
      = (fs1, Ok (Some st)) ->
    get st "phase" = Some (VStr "documenting") ->
    run enableCheckpoints env Date_parse sha256_hex8 toString36 checkpointDir
        fresh_phases fs now goal true w = (fs', (w', Ok msg)) ->
    exists ts cr arch files content tail ref ps',
      llm_result env = Ok content
      /\ trace w' =
           (trace w ++
            [SchedulerLoadPlan ts; SchedulerResumeFrom cr;
             EmitPhaseStart "execution"; SchedulerRun;
             EmitPhaseStart "documentation";
             LlmGenerate SCRIBE [arch; VArr files];
             FsWriteFile "README.md" content] ++ tail)%list
      /\ (if enableCheckpoints
          then exists st', tail = [StateSave st';
                                   EmitCheckpointSaved (obj_get st' "planId")]
                           /\ obj_get st' "phase" = VStr "completed"
          else tail = [])
      /\ currentState w' = Some ref
      /\ heap w' !! ref = Some ps'
      /\ obj_get ps' "phase" = VStr "completed".
Proof.
  intros ec env parse hash b36 dir fresh fs now goal w fs1 st fs' w' msg
         Hentry _ Hrun.
  by eapply run_resume_documents.
Qed.

Lemma C7_resume_redoes_documentation_witness :
  exists ts cr arch files content tail ref ps',
    llm_result all_ok = Ok content
    /\ trace resumed_world =
         (trace empty_World ++
          [SchedulerLoadPlan ts; SchedulerResumeFrom cr;
           EmitPhaseStart "execution"; SchedulerRun;
           EmitPhaseStart "documentation";
           LlmGenerate SCRIBE [arch; VArr files];
           FsWriteFile "README.md" content] ++ tail)%list
    /\ (if true
        then exists st', tail = [StateSave st';
                                 EmitCheckpointSaved (obj_get st' "planId")]
                         /\ obj_get st' "phase" = VStr "completed"
        else tail = [])
    /\ currentState resumed_world = Some ref
    /\ heap resumed_world !! ref = Some ps'
    /\ obj_get ps' "phase" = VStr "completed".
Proof.
  eapply (C7_resume_redoes_documentation true all_ok dec_Date_parse const_hash
            dec_toISOString example_stateDir (throw "not reached")
            documenting_FS 800 "build it" empty_World).
  - vm_compute. reflexivity.
  - vm_compute. reflexivity.
  - vm_compute. reflexivity.
Defined.

(** The head of a fresh run: a new state with a new plan id becomes the
    current state and is checkpointed. *)
Definition fresh_run (enableCheckpoints : bool) (env : Responses)
    (sha256_hex8 : string -> string) (toString36 : Z -> string)
    (fresh_phases : M string) (now : Z) (goal : string) : M string :=
  let* fresh_state :=
    alloc (spread (ExecutionState_obj
                     (createInitialState sha256_hex8 toString36 now goal))) in
  set_currentState fresh_state ;;
  checkpoint enableCheckpoints env ;;
  fresh_phases.

Lemma run_entry_resumes_incomplete ec parse dir fs goal resume fs1 st :
  run_entry ec parse dir fs goal resume = (fs1, Ok (Some st)) ->
  isComplete st = Some false.
Proof.
  unfold run_entry. destruct (resume && ec); [|discriminate].
  destruct (findLatestForGoal parse dir fs goal) as [fs2 [st'|]]; [|discriminate].
  destruct (isComplete st') as [[|]|] eqn:E; try discriminate.
  by intros [= _ <-].
Qed.

(** C10 (amended).  [isComplete] is true of every execution state whose
    task array is empty, whatever its phase.  Consequently [run] with
    [resume = true] never resumes a checkpoint with an empty task array:
    when the latest checkpoint of the goal is one (as the checkpoint written
    before the plan is materialized is), the run starts afresh, on a state
    whose plan id is generated anew: the text plan-, the first eight digits
    of the hash of the goal, a dash, and the clock reading in base 36.  The
    id differs from the one generated for the same goal at every other clock
    reading, and is the same at the same reading. *)
Theorem C10_empty_checkpoint_never_resumed :
  forall (enableCheckpoints : bool) (env : Responses)
         (Date_parse : string -> Date) (sha256_hex8 : string -> string)
         (toString36 : Z -> string) (checkpointDir : string)
         (fresh_phases : M string),
    (forall p g ph ar sa lc md,
        isComplete (ExecutionState_obj (mkExecutionState p g ph [] ar sa lc md))
        = Some true)
    /\ (forall fs goal resume fs1 st,
          run_entry enableCheckpoints Date_parse checkpointDir fs goal resume
            = (fs1, Ok (Some st)) ->
          get st "tasks" <> Some (VArr []))
    /\ (forall fs now goal w fs1 st,
          findLatestForGoal Date_parse checkpointDir fs goal = (fs1, Some st) ->
          get st "tasks" = Some (VArr []) ->
          run enableCheckpoints env Date_parse sha256_hex8 toString36
              checkpointDir fresh_phases fs now goal true w
          = (if enableCheckpoints then fs1 else fs,
             fresh_run enableCheckpoints env sha256_hex8 toString36
                       fresh_phases now goal w)
          /\ get (ExecutionState_obj
                    (createInitialState sha256_hex8 toString36 now goal)) "planId"
             = Some (VStr ("plan-" +:+ sha256_hex8 goal +:+ "-" +:+ toString36 now)))
    /\ (forall now t0 goal,
          planId (createInitialState sha256_hex8 base36 now goal)
          = planId (createInitialState sha256_hex8 base36 t0 goal)
          <-> now = t0).
Proof.
  intros ec env parse hash b36 dir fresh. split; [|split; [|split]].
  - intros p g ph ar sa lc md. apply isComplete_no_tasks.
    by destruct md.
  - intros fs goal resume fs1 st Hentry Htasks.
    apply run_entry_resumes_incomplete in Hentry.
    apply isComplete_no_tasks in Htasks. congruence.
  - intros fs now goal w fs1 st Hlatest Htasks. split; [|reflexivity].
    unfold run, run_entry. destruct ec; cbn [andb]; [|reflexivity].
    rewrite Hlatest, (isComplete_no_tasks st Htasks). reflexivity.
  - intros now t0 goal. split; [|by intros ->].
    apply generatePlanId_inj.
Qed.

Definition fresh_world : World :=
  fst (snd (run true all_ok dec_Date_parse const_hash dec_toISOString
                example_stateDir (ret "done") planning_FS 800 "build it" true
                empty_World)).

(** The checkpoint a fresh run writes before the plan exists, its plan id
    written with the clock in base 36. *)
Definition early_FS : FS :=
  FS_after_save empty_FS 650
    (createInitialState const_hash base36 650 "build it").

Lemma C10_empty_checkpoint_never_resumed_witness :
  (exists fs1 st,
      findLatestForGoal dec_Date_parse example_stateDir early_FS "build it"
        = (fs1, Some st)
      /\ get st "phase" = Some (VStr "planning")
      /\ get st "tasks" = Some (VArr []))
  /\ snd (run true all_ok dec_Date_parse const_hash base36
               example_stateDir (ret "done") early_FS 800 "build it" true
               empty_World)
     = fresh_run true all_ok const_hash base36 (ret "done") 800
                 "build it" empty_World
  /\ planId (createInitialState const_hash base36 800 "build it")
     <> planId (createInitialState const_hash base36 650 "build it").
Proof.
  destruct (findLatestForGoal dec_Date_parse example_stateDir early_FS "build it")
    as [fs1 [st|]] eqn:Hlatest; [|by vm_compute in Hlatest].
  assert (Hphase : get st "phase" = Some (VStr "planning")).
  { vm_compute in Hlatest. by injection Hlatest as _ <-. }
  assert (Htasks : get st "tasks" = Some (VArr [])).
  { vm_compute in Hlatest. by injection Hlatest as _ <-. }
  split; [exists fs1, st; exact (conj eq_refl (conj Hphase Htasks))|].
  destruct (C10_empty_checkpoint_never_resumed true all_ok dec_Date_parse
              const_hash base36 example_stateDir (ret "done"))
    as (_ & _ & Hfresh & Hid).
  destruct (Hfresh early_FS 800 "build it" empty_World fs1 st Hlatest Htasks)
    as [Hrun _].
  split; [rewrite Hrun; reflexivity|].
  intros E. apply Hid in E. discriminate E.
Defined.

(** C10 as stated fails on the plan id: a run whose clock reads what it
    read when the checkpoint's state was created does not resume the
    checkpoint, and the plan id of its fresh state is the checkpoint's. *)
Lemma C10_same_clock_same_planId :
  exists fs1 st,
    findLatestForGoal dec_Date_parse example_stateDir early_FS "build it"
      = (fs1, Some st)
    /\ get st "phase" = Some (VStr "planning")
    /\ get st "tasks" = Some (VArr [])
    /\ snd (run true all_ok dec_Date_parse const_hash base36
                 example_stateDir (ret "done") early_FS 650 "build it" true
                 empty_World)
       = fresh_run true all_ok const_hash base36 (ret "done") 650
                   "build it" empty_World
    /\ get st "planId"
       = get (ExecutionState_obj
                (createInitialState const_hash base36 650 "build it")) "planId".
Proof.
  destruct (findLatestForGoal dec_Date_parse example_stateDir early_FS "build it")
    as [fs1 [st|]] eqn:Hlatest; [|by vm_compute in Hlatest].
  exists fs1, st. split; [done|].
  assert (Hphase : get st "phase" = Some (VStr "planning")).
  { vm_compute in Hlatest. by injection Hlatest as _ <-. }
  assert (Htasks : get st "tasks" = Some (VArr [])).
  { vm_compute in Hlatest. by injection Hlatest as _ <-. }
  assert (Hid : get st "planId"
                = get (ExecutionState_obj
                         (createInitialState const_hash base36 650 "build it"))
                      "planId").
  { vm_compute in Hlatest. injection Hlatest as _ <-. by vm_compute. }
  split; [done|]. split; [done|]. split; [|done].
  unfold run, run_entry. cbn [andb].
  rewrite Hlatest, (isComplete_no_tasks st Htasks). reflexivity.
Qed.

End Engine.

(* ===================================================================== *)
(** * Task scheduler  (src/core/TaskScheduler.ts)                         *)
(* ===================================================================== *)

Module Scheduler.

(** ** Types *)

Inductive TaskStatus : Type :=
  | PENDING | QUEUED | RUNNING | COMPLETED | FAILED | SKIPPED.

#[global] Instance TaskStatus_eq_dec : EqDecision TaskStatus.
Proof. solve_decision. Defined.

Inductive TaskType : Type := code | test | config | docs.

(** The timing fields [startedAt] and [completedAt] are left out: they are
    written from the clock and read by no decision of the scheduler. *)
Record Task : Type := mkTask {
  id : string;
  filePath : string;
  description : string;
  dependencies : list string;
  type : option TaskType;
  priority : option Z;
  status : TaskStatus;
  result : option string;
  error : option string;
  attempts : Z;
  maxAttempts : option Z
}.

(** The options after the constructor has filled in the defaults.  The
    scheduler is studied under whole-number options: [maxConcurrency],
    [defaultMaxAttempts] and the [maxAttempts] of a task are integers. *)
Record SchedulerOptions : Type := mkOptions {
  maxConcurrency : Z;
  defaultMaxAttempts : Z;
  taskTimeout : Z;
  retryDelay : Z
}.

Definition default_options : SchedulerOptions := mkOptions 3 3 300000 1000.

(** *** Asynchronous activations

    JavaScript runs one continuation at a time and switches only at an
    [await].  An activation of [scheduleTask] (with the [executeTask] it
    calls, and the nested [scheduleTask] of a retry) is a thread that rests
    at one of the [await]s below; a step runs it to its next [await]. *)
Inductive Pc : Type :=
  | AwaitAcquire            (* in the queue of [semaphore.acquire()] *)
  | Acquired                (* [acquire()] resolved, not yet resumed *)
  | AwaitStartEmit          (* [await emit('task:start')] *)
  | AwaitExecutor           (* [await executeWithTimeout(task)] *)
  | AwaitCompleteEmit       (* [await emit('task:complete')] *)
  | AwaitRetryEmit          (* [await emit('task:retry')] *)
  | AwaitRetryDelay         (* [await delay(retryDelay)] *)
  | AwaitFailedEmit         (* [await emit('task:failed')] *)
  | Releasing.              (* [executeTask] returned; [finally] blocks left *)

#[global] Instance Pc_eq_dec : EqDecision Pc.
Proof. solve_decision. Defined.

(** [held] counts the [scheduleTask] frames of the thread that hold a
    permit: one per attempt under way, since a retry calls [scheduleTask]
    from inside the [executeTask] of the attempt that failed. *)
Record Thread : Type := mkThread {
  th_task : string;
  th_pc : Pc;
  held : nat
}.

(** Where [run()] rests. *)
Inductive RunState : Type :=
  | NotStarted
  | AwaitEngineStart        (* [await emit('engine:start')] *)
  | Waiting                 (* [await waitForCompletion()], timer armed *)
  | Polled                  (* the timer found no pending task and resolved *)
  | AwaitEngineComplete     (* [await emit('engine:complete')] *)
  | Resolved
  | Rejected (message : string).

(** How a call of the executor settles, as [executeWithTimeout] sees it:
    the promise resolves, rejects with an error of the given message, or
    the timer fires first. *)
Inductive Outcome : Type :=
  | Resolves (value : string)
  | Rejects (message : string)
  | TimesOut.

(** The scheduler object.  [tasks] is a [Map]: its entries and the order
    in which its keys were inserted.  The semaphore is its two fields
    [permits] and [waiting] (the queued resolvers, named by the thread each
    one wakes).  [executed] logs the calls of the executor. *)
Record Scheduler : Type := mkScheduler {
  tasks : gmap string Task;
  order : list string;
  dependents : gmap string (list string);
  indegree : gmap string Z;
  permits : Z;
  waiting : list nat;
  runningTasks : list string;
  completedTasks : list string;
  failedTasks : list string;
  options : SchedulerOptions;
  threads : gmap nat Thread;
  next_tid : nat;
  run_state : RunState;
  executed : list string
}.

(** *** Field updates *)

Definition set_status (st : TaskStatus) (t : Task) : Task :=
  mkTask (id t) (filePath t) (description t) (dependencies t) (type t)
         (priority t) st (result t) (error t) (attempts t) (maxAttempts t).

Definition set_result (r : option string) (t : Task) : Task :=
  mkTask (id t) (filePath t) (description t) (dependencies t) (type t)
         (priority t) (status t) r (error t) (attempts t) (maxAttempts t).

Definition set_error (e : option string) (t : Task) : Task :=
  mkTask (id t) (filePath t) (description t) (dependencies t) (type t)
         (priority t) (status t) (result t) e (attempts t) (maxAttempts t).

Definition set_attempts (a : Z) (t : Task) : Task :=
  mkTask (id t) (filePath t) (description t) (dependencies t) (type t)
         (priority t) (status t) (result t) (error t) a (maxAttempts t).

Definition set_maxAttempts (m : option Z) (t : Task) : Task :=
  mkTask (id t) (filePath t) (description t) (dependencies t) (type t)
         (priority t) (status t) (result t) (error t) (attempts t) m.

Definition with_tasks (f : gmap string Task -> gmap string Task) (s : Scheduler)
  : Scheduler :=
  mkScheduler (f (tasks s)) (order s) (dependents s) (indegree s) (permits s)
    (waiting s) (runningTasks s) (completedTasks s) (failedTasks s) (options s)
    (threads s) (next_tid s) (run_state s) (executed s).

Definition with_indegree (m : gmap string Z) (s : Scheduler) : Scheduler :=
  mkScheduler (tasks s) (order s) (dependents s) m (permits s)
    (waiting s) (runningTasks s) (completedTasks s) (failedTasks s) (options s)
    (threads s) (next_tid s) (run_state s) (executed s).

Definition with_semaphore (p : Z) (q : list nat) (s : Scheduler) : Scheduler :=
  mkScheduler (tasks s) (order s) (dependents s) (indegree s) p
    q (runningTasks s) (completedTasks s) (failedTasks s) (options s)
    (threads s) (next_tid s) (run_state s) (executed s).

Definition with_runningTasks (l : list string) (s : Scheduler) : Scheduler :=
  mkScheduler (tasks s) (order s) (dependents s) (indegree s) (permits s)
    (waiting s) l (completedTasks s) (failedTasks s) (options s)
    (threads s) (next_tid s) (run_state s) (executed s).

Definition with_completedTasks (l : list string) (s : Scheduler) : Scheduler :=
  mkScheduler (tasks s) (order s) (dependents s) (indegree s) (permits s)
    (waiting s) (runningTasks s) l (failedTasks s) (options s)
    (threads s) (next_tid s) (run_state s) (executed s).

Definition with_failedTasks (l : list string) (s : Scheduler) : Scheduler :=
  mkScheduler (tasks s) (order s) (dependents s) (indegree s) (permits s)
    (waiting s) (runningTasks s) (completedTasks s) l (options s)
    (threads s) (next_tid s) (run_state s) (executed s).

Definition with_threads (f : gmap nat Thread -> gmap nat Thread) (s : Scheduler)
  : Scheduler :=
  mkScheduler (tasks s) (order s) (dependents s) (indegree s) (permits s)
    (waiting s) (runningTasks s) (completedTasks s) (failedTasks s) (options s)
    (f (threads s)) (next_tid s) (run_state s) (executed s).

Definition with_next_tid (n : nat) (s : Scheduler) : Scheduler :=
  mkScheduler (tasks s) (order s) (dependents s) (indegree s) (permits s)
    (waiting s) (runningTasks s) (completedTasks s) (failedTasks s) (options s)
    (threads s) n (run_state s) (executed s).

Definition with_run_state (r : RunState) (s : Scheduler) : Scheduler :=
  mkScheduler (tasks s) (order s) (dependents s) (indegree s) (permits s)
    (waiting s) (runningTasks s) (completedTasks s) (failedTasks s) (options s)
    (threads s) (next_tid s) r (executed s).

Definition with_executed (l : list string) (s : Scheduler) : Scheduler :=
  mkScheduler (tasks s) (order s) (dependents s) (indegree s) (permits s)
    (waiting s) (runningTasks s) (completedTasks s) (failedTasks s) (options s)
    (threads s) (next_tid s) (run_state s) l.

(** [task.field = value] on the task stored under [k]. *)
Definition update_task (k : string) (f : Task -> Task) (s : Scheduler) : Scheduler :=
  with_tasks (alter f k) s.

(** [set.add(x)] and [set.delete(x)] on a [Set] kept in insertion order. *)
Definition set_add (x : string) (l : list string) : list string :=
  if decide (x ∈ l) then l else (l ++ [x])%list.

Definition set_delete (x : string) (l : list string) : list string :=
  filter (fun y => y ≠ x) l.

Definition status_of (s : Scheduler) (k : string) : option TaskStatus :=
  status <$> tasks s !! k.

Definition string_of_Z (z : Z) : string := NilZero.string_of_int (Z.to_int z).

(** ** The constructor, [reset] and [loadPlan] *)

Definition new_scheduler (opts : SchedulerOptions) : Scheduler :=
  mkScheduler ∅ [] ∅ ∅ (maxConcurrency opts) [] [] [] [] opts ∅ 0 NotStarted [].

Definition reset (s : Scheduler) : Scheduler :=
  mkScheduler ∅ [] ∅ ∅ (permits s) (waiting s) [] [] [] (options s)
    (threads s) (next_tid s) (run_state s) (executed s).

(** The body of the first loop of [loadPlan]. *)
Definition load_entry (s : Scheduler) (task : Task) : Scheduler :=
  let normalizedTask :=
    set_maxAttempts
      (Some (default (defaultMaxAttempts (options s)) (maxAttempts task)))
      (set_attempts 0 (set_status PENDING task)) in
  mkScheduler (<[id task := normalizedTask]> (tasks s))
    (if decide (id task ∈ order s) then order s else (order s ++ [id task])%list)
    (<[id task := []]> (dependents s))
    (<[id task := 0]> (indegree s))
    (permits s) (waiting s) (runningTasks s) (completedTasks s) (failedTasks s)
    (options s) (threads s) (next_tid s) (run_state s) (executed s).

(** The body of the inner loop of the second loop of [loadPlan]: an unknown
    parent is logged and skipped. *)
Definition add_dependency (task : Task) (s : Scheduler) (parentId : string)
  : Scheduler :=
  if decide (is_Some (tasks s !! parentId)) then
    mkScheduler (tasks s) (order s)
      (alter (fun children => (children ++ [id task])%list) parentId (dependents s))
      (<[id task := default 0 (indegree s !! id task) + 1]> (indegree s))
      (permits s) (waiting s) (runningTasks s) (completedTasks s)
      (failedTasks s) (options s) (threads s) (next_tid s) (run_state s)
      (executed s)
  else s.

Definition add_dependencies (s : Scheduler) (task : Task) : Scheduler :=
  fold_left (add_dependency task) (dependencies task) s.

Definition loadPlan (taskList : list Task) (s : Scheduler) : Scheduler :=
  fold_left add_dependencies taskList (fold_left load_entry taskList (reset s)).

(** ** [hasCircularDependency] *)

Inductive Color : Type := WHITE | GRAY | BLACK.

#[global] Instance Color_eq_dec : EqDecision Color.
Proof. solve_decision. Defined.

(** The recursive closure [dfs]; [fuel] bounds the depth of the recursion
    and [None] means it ran out. *)
Fixpoint dfs (deps : gmap string (list string)) (fuel : nat) (taskId : string)
    (color : gmap string Color) : option (bool * gmap string Color) :=
  match fuel with
  | O => None
  | S fuel' =>
      match
        (fix loop (children : list string) (color : gmap string Color)
           : option (bool * gmap string Color) :=
           match children with
           | [] => Some (false, color)
           | childId :: rest =>
               match color !! childId with
               | Some GRAY => Some (true, color)
               | Some WHITE =>
                   match dfs deps fuel' childId color with
                   | None => None
                   | Some (true, color') => Some (true, color')
                   | Some (false, color') => loop rest color'
                   end
               | _ => loop rest color
               end
           end) (default [] (deps !! taskId)) (<[taskId := GRAY]> color)
      with
      | None => None
      | Some (true, color') => Some (true, color')
      | Some (false, color') => Some (false, <[taskId := BLACK]> color')
      end
  end.

(** The loop over the children inside [dfs], under its own name. *)
Fixpoint dfs_children (deps : gmap string (list string)) (fuel : nat)
    (children : list string) (color : gmap string Color)
  : option (bool * gmap string Color) :=
  match children with
  | [] => Some (false, color)
  | childId :: rest =>
      match color !! childId with
      | Some GRAY => Some (true, color)
      | Some WHITE =>
          match dfs deps fuel childId color with
          | None => None
          | Some (true, color') => Some (true, color')
          | Some (false, color') => dfs_children deps fuel rest color'
          end
      | _ => dfs_children deps fuel rest color
      end
  end.

(** The final loop over the keys. *)
Fixpoint dfs_all (deps : gmap string (list string)) (fuel : nat)
    (keys : list string) (color : gmap string Color) : option bool :=
  match keys with
  | [] => Some false
  | taskId :: rest =>
      match color !! taskId with
      | Some WHITE =>
          match dfs deps fuel taskId color with
          | None => None
          | Some (true, _) => Some true
          | Some (false, color') => dfs_all deps fuel rest color'
          end
      | _ => dfs_all deps fuel rest color
      end
  end.

Definition all_white (keys : list string) : gmap string Color :=
  fold_left (fun color taskId => <[taskId := WHITE]> color) keys ∅.

Definition hasCircularDependency (s : Scheduler) : option bool :=
  dfs_all (dependents s) (S (List.length (order s))) (order s) (all_white (order s)).

(** ** [getReadyTasks] *)

Definition priority_of (t : Task) : Z := default 0 (priority t).

(** [Array.prototype.sort] is stable; with the comparator
    [(b.priority ?? 0) - (a.priority ?? 0)] it is an insertion from the
    right that never passes an element of equal priority. *)
Fixpoint insert_by_priority (x : Task) (l : list Task) : list Task :=
  match l with
  | [] => [x]
  | y :: l' =>
      if decide (priority_of x < priority_of y) then y :: insert_by_priority x l'
      else x :: y :: l'
  end.

Definition sort_by_priority (l : list Task) : list Task :=
  foldr insert_by_priority [] l.

(** [Array.from(this.tasks.values())] *)
Definition task_values (s : Scheduler) : list Task :=
  omap (fun k => tasks s !! k) (order s).

Definition is_ready (s : Scheduler) (t : Task) : bool :=
  bool_decide (status t = PENDING)
  && bool_decide (default 0 (indegree s !! id t) = 0).

Definition getReadyTasks (s : Scheduler) : list Task :=
  sort_by_priority (List.filter (is_ready s) (task_values s)).

(** ** The semaphore *)

(** [acquire()] called by thread [tid]: take a permit, or queue up. *)
Definition acquire (tid : nat) (s : Scheduler) : Scheduler :=
  if decide (0 < permits s) then
    with_threads
      (alter (fun th => mkThread (th_task th) Acquired (S (held th))) tid)
      (with_semaphore (permits s - 1) (waiting s) s)
  else
    with_threads
      (alter (fun th => mkThread (th_task th) AwaitAcquire (held th)) tid)
      (with_semaphore (permits s) (waiting s ++ [tid])%list s).

(** [release()]: the permit goes back, and straight to the first waiter if
    there is one. *)
Definition release (s : Scheduler) : Scheduler :=
  match waiting s with
  | [] => with_semaphore (permits s + 1) [] s
  | next :: rest =>
      with_threads
        (alter (fun th => mkThread (th_task th) Acquired (S (held th))) next)
        (with_semaphore (permits s + 1 - 1) rest s)
  end.

(** ** [scheduleTask] *)

(** The synchronous head of [scheduleTask(task)] when it starts a new
    activation (from [run] or [onTaskCompleted]). *)
Definition scheduleTask (taskId : string) (s : Scheduler) : Scheduler :=
  let tid := next_tid s in
  let s1 := update_task taskId (set_status QUEUED) s in
  let s2 := with_next_tid (S tid)
              (with_threads (insert tid (mkThread taskId AwaitAcquire 0)) s1) in
  acquire tid s2.

(** The same head when thread [tid] calls it again for a retry. *)
Definition rescheduleTask (tid : nat) (taskId : string) (s : Scheduler) : Scheduler :=
  acquire tid (update_task taskId (set_status QUEUED) s).

(** ** [onTaskCompleted] *)

(** One turn of the loop over the children; the accumulator is the
    [indegree] map and [newlyReady]. *)
Definition completed_child (tasks : gmap string Task)
    (acc : gmap string Z * list string) (childId : string)
  : gmap string Z * list string :=
  let currentIndegree := default 0 (fst acc !! childId) - 1 in
  let indegree' := <[childId := currentIndegree]> (fst acc) in
  if decide (currentIndegree = 0) then
    match tasks !! childId with
    | Some childTask =>
        if decide (status childTask = PENDING)
        then (indegree', (snd acc ++ [childId])%list)
        else (indegree', snd acc)
    | None => (indegree', snd acc)
    end
  else (indegree', snd acc).

Definition onTaskCompleted (taskId : string) (s : Scheduler) : Scheduler :=
  let children := default [] (dependents s !! taskId) in
  let '(indegree', newlyReady) :=
    fold_left (completed_child (tasks s)) children (indegree s, []) in
  fold_left (fun s childId => scheduleTask childId s) newlyReady
            (with_indegree indegree' s).

(** ** [skipDependentTasks] *)

(** The [while] loop; [fuel] bounds its turns and [None] means it ran out. *)
Fixpoint skip_loop (deps : gmap string (list string)) (fuel : nat)
    (queue visited toSkip : list string) : option (list string) :=
  match fuel with
  | O => None
  | S fuel' =>
      match queue with
      | [] => Some toSkip
      | taskId :: rest =>
          if decide (taskId ∈ visited) then skip_loop deps fuel' rest visited toSkip
          else skip_loop deps fuel' (rest ++ default [] (deps !! taskId))%list
                         (taskId :: visited) (toSkip ++ [taskId])%list
      end
  end.

(** The number of entries of all the adjacency lists together. *)
Definition edge_count (deps : gmap string (list string)) : nat :=
  map_fold (fun _ children n => (List.length children + n)%nat) 0%nat deps.

Definition skip_fuel (deps : gmap string (list string)) (queue : list string) : nat :=
  S (List.length queue + edge_count deps).

Definition skip_message (failedTaskId : string) : string :=
  "Skipped due to failed dependency: " +:+ failedTaskId.

Definition mark_skipped (failedTaskId : string) (s : Scheduler) (taskId : string)
  : Scheduler :=
  with_failedTasks (set_add taskId (failedTasks s))
    (update_task taskId
       (fun t => set_error (Some (skip_message failedTaskId)) (set_status SKIPPED t))
       s).

Definition skipDependentTasks (failedTaskId : string) (s : Scheduler)
  : option Scheduler :=
  let queue := default [] (dependents s !! failedTaskId) in
  toSkip ← skip_loop (dependents s) (skip_fuel (dependents s) queue) queue [] [];
  Some (fold_left (mark_skipped failedTaskId) toSkip s).

(** ** [executeTask], one continuation at a time *)

Definition set_pc (tid : nat) (pc : Pc) (s : Scheduler) : Scheduler :=
  with_threads (alter (fun th => mkThread (th_task th) pc (held th)) tid) s.

Definition timeout_message (taskId : string) (s : Scheduler) : string :=
  "Task " +:+ taskId +:+ " timed out after "
    +:+ string_of_Z (taskTimeout (options s)) +:+ "ms".

(** The [catch] block of [executeTask] up to its first [await]. *)
Definition on_failure (tid : nat) (t : Task) (errorMessage : string)
    (s : Scheduler) : Scheduler :=
  let k := id t in
  let s1 := with_runningTasks (set_delete k (runningTasks s)) s in
  if decide (attempts t < default (defaultMaxAttempts (options s)) (maxAttempts t))
  then set_pc tid AwaitRetryEmit s1
  else
    set_pc tid AwaitFailedEmit
      (with_failedTasks (set_add k (failedTasks s1))
         (update_task k
            (fun t => set_error (Some errorMessage) (set_status FAILED t)) s1)).

(** Thread [tid] runs from the [await] it rests at to its next one.  The
    outcome [o] is read only where the executor settles. *)
Definition advance (tid : nat) (o : Outcome) (s : Scheduler) : option Scheduler :=
  th ← threads s !! tid;
  let k := th_task th in
  t ← tasks s !! k;
  match th_pc th with
  | AwaitAcquire => None
  | Acquired =>
      Some (set_pc tid AwaitStartEmit
              (with_runningTasks (set_add k (runningTasks s))
                 (update_task k
                    (fun t => set_attempts (attempts t + 1) (set_status RUNNING t))
                    s)))
  | AwaitStartEmit =>
      Some (set_pc tid AwaitExecutor
              (with_executed (executed s ++ [k])%list s))
  | AwaitExecutor =>
      match o with
      | Resolves value =>
          Some (set_pc tid AwaitCompleteEmit
                  (with_completedTasks (set_add k (completedTasks s))
                     (with_runningTasks (set_delete k (runningTasks s))
                        (update_task k
                           (fun t => set_result (Some value) (set_status COMPLETED t))
                           s))))
      | Rejects message => Some (on_failure tid t message s)
      | TimesOut => Some (on_failure tid t (timeout_message k s) s)
      end
  | AwaitCompleteEmit => Some (set_pc tid Releasing (onTaskCompleted k s))
  | AwaitRetryEmit => Some (set_pc tid AwaitRetryDelay s)
  | AwaitRetryDelay => Some (rescheduleTask tid k s)
  | AwaitFailedEmit =>
      s' ← skipDependentTasks k s;
      Some (set_pc tid Releasing s')
  | Releasing =>
      let s1 := release s in
      match held th with
      | O | S O => Some (with_threads (delete tid) s1)
      | S n => Some (with_threads
                       (alter (fun th => mkThread (th_task th) Releasing n) tid) s1)
      end
  end.

(** ** [run] and [waitForCompletion] *)

Definition is_pending (t : Task) : bool :=
  bool_decide (status t = PENDING) || bool_decide (status t = QUEUED)
  || bool_decide (status t = RUNNING).

Definition failure_message (failed : list string) : string :=
  string_of_Z (Z.of_nat (List.length failed)) +:+ " task(s) failed: "
    +:+ String.concat ", " failed.

Definition circular_message : string := "Circular dependency detected in task plan".

Definition not_ready_message : string :=
  "No tasks are ready to execute. Check dependency configuration.".

(** [run()] runs from the [await] it rests at to its next one; at
    [Waiting] the step is one firing of the polling timer. *)
Definition run_step (s : Scheduler) : option Scheduler :=
  match run_state s with
  | NotStarted => Some (with_run_state AwaitEngineStart s)
  | AwaitEngineStart =>
      match hasCircularDependency s with
      | None => None
      | Some true => Some (with_run_state (Rejected circular_message) s)
      | Some false =>
          let initialBatch := getReadyTasks s in
          if bool_decide (initialBatch = []) && bool_decide (0 < size (tasks s))%nat
          then Some (with_run_state (Rejected not_ready_message) s)
          else Some (with_run_state Waiting
                       (fold_left (fun s task => scheduleTask (id task) s)
                                  initialBatch s))
      end
  | Waiting =>
      if existsb is_pending (task_values s) then Some s
      else Some (with_run_state Polled s)
  | Polled =>
      match failedTasks s with
      | [] => Some (with_run_state AwaitEngineComplete s)
      | failed => Some (with_run_state (Rejected (failure_message failed)) s)
      end
  | AwaitEngineComplete => Some (with_run_state Resolved s)
  | Resolved | Rejected _ => None
  end.

(** ** Executions

    A choice names the continuation the event loop runs next and, where
    the executor settles, how. *)
Inductive Choice : Type :=
  | Tick
  | Advance (tid : nat) (o : Outcome).

Definition step (c : Choice) (s : Scheduler) : option Scheduler :=
  match c with
  | Tick => run_step s
  | Advance tid o => advance tid o s
  end.

Fixpoint exec (cs : list Choice) (s : Scheduler) : option Scheduler :=
  match cs with
  | [] => Some s
  | c :: cs' =>
      match step c s with
      | Some s' => exec cs' s'
      | None => None
      end
  end.

(** [getStatus().summary[st]] *)
Definition summary (s : Scheduler) (st : TaskStatus) : nat :=
  List.length (List.filter (fun t => bool_decide (status t = st)) (task_values s)).

(** A task as the callers build it: pending, no attempt made. *)
Definition new_task (i : string) (deps : list string) (m : option Z) : Task :=
  mkTask i (i +:+ ".ts") "" deps None None PENDING None None 0 m.

(** *** A retry that waits for the permit it holds *)

Definition retry_options : SchedulerOptions := mkOptions 1 2 300000 1000.

Definition retry_plan : Scheduler :=
  loadPlan [new_task "t" [] None] (new_scheduler retry_options).

(** [run()] starts, the only task is scheduled and its first attempt throws;
    the retry calls [scheduleTask] again. *)
Definition retry_schedule : list Choice :=
  [Tick; Tick; Advance 0 TimesOut; Advance 0 TimesOut;
   Advance 0 (Rejects "boom"); Advance 0 TimesOut; Advance 0 TimesOut].

Definition retry_deadlock : Scheduler :=
  mkScheduler
    {[ "t" := mkTask "t" "t.ts" "" [] None None QUEUED None None 1 (Some 2) ]}
    ["t"] {[ "t" := [] ]} {[ "t" := 0 ]} 0 [0%nat] [] [] [] retry_options
    {[ 0%nat := mkThread "t" AwaitAcquire 1 ]} 1 Waiting ["t"].


(** ** Cycle detection *)

Section Dfs.

Variable deps : gmap string (list string).

Definition children (u : string) : list string := default [] (deps !! u).

(** [v] is a child of [u]. *)
Definition edge (u v : string) : Prop := v ∈ children u.

Lemma dfs_loop_eq fuel l c :
  (fix loop (children : list string) (color : gmap string Color)
     : option (bool * gmap string Color) :=
     match children with
     | [] => Some (false, color)
     | childId :: rest =>
         match color !! childId with
         | Some GRAY => Some (true, color)
         | Some WHITE =>
             match dfs deps fuel childId color with
             | None => None
             | Some (true, color') => Some (true, color')
             | Some (false, color') => loop rest color'
             end
         | _ => loop rest color
         end
     end) l c = dfs_children deps fuel l c.
Proof.
  revert c. induction l as [|y l IH]; intros c; simpl; [done|].
  destruct (c !! y) as [[| |]|]; try done.
  destruct (dfs deps fuel y c) as [[[|] c']|]; done.
Qed.

Lemma dfs_unfold fuel u c :
  dfs deps (S fuel) u c =
  match dfs_children deps fuel (children u) (<[u := GRAY]> c) with
  | None => None
  | Some (true, c') => Some (true, c')
  | Some (false, c') => Some (false, <[u := BLACK]> c')
  end.
Proof. simpl. by rewrite dfs_loop_eq. Qed.

(** Black nodes have black children only, and lie on no cycle. *)
Definition black_closed (c : gmap string Color) : Prop :=
  forall x y, c !! x = Some BLACK -> edge x y -> c !! y = Some BLACK.

Definition black_acyclic (c : gmap string Color) : Prop :=
  forall x, c !! x = Some BLACK -> ~ tc edge x x.

(** Every child has a colour. *)
Definition coloured (c : gmap string Color) : Prop :=
  forall x y, edge x y -> is_Some (c !! y).

Record dfs_post (c c' : gmap string Color) : Prop := {
  post_white : forall x, c' !! x = Some WHITE -> c !! x = Some WHITE;
  post_gray : forall x, c !! x = Some GRAY -> c' !! x = Some GRAY;
  post_black : forall x, c !! x = Some BLACK -> c' !! x = Some BLACK;
  post_gray_back : forall x, c' !! x = Some GRAY -> c !! x = Some GRAY;
  post_dom : forall x, is_Some (c !! x) -> is_Some (c' !! x);
  post_closed : black_closed c -> black_closed c';
  post_acyclic : black_closed c -> black_acyclic c -> black_acyclic c'
}.

Lemma dfs_post_refl c : dfs_post c c.
Proof. by split. Qed.

Lemma dfs_post_trans c1 c2 c3 : dfs_post c1 c2 -> dfs_post c2 c3 -> dfs_post c1 c3.
Proof. intros [] []. split; auto. Qed.

Lemma black_closed_reach c x y :
  black_closed c -> c !! x = Some BLACK -> tc edge x y -> c !! y = Some BLACK.
Proof.
  intros Hc Hx Hp. induction Hp as [x y He|x y z He Hp IH]; eauto.
Qed.

Lemma coloured_post c c' : dfs_post c c' -> coloured c -> coloured c'.
Proof. intros Hp Hc x y He. apply (post_dom _ _ Hp). by eapply Hc. Qed.

(** The loop over the children, given what a recursive call achieves. *)
Lemma dfs_children_spec fuel :
  (forall u c c',
      coloured c ->
      c !! u = Some WHITE ->
      dfs deps fuel u c = Some (false, c') ->
      dfs_post c c' /\ c' !! u = Some BLACK) ->
  forall l c1 c2,
    coloured c1 ->
    (forall y, y ∈ l -> is_Some (c1 !! y)) ->
    dfs_children deps fuel l c1 = Some (false, c2) ->
    dfs_post c1 c2 /\ (forall y, y ∈ l -> c2 !! y = Some BLACK).
Proof.
  intros IH. induction l as [|y l IHl]; intros c1 c2 Hcol Hdom; simpl.
  - intros [= <-]. split; [apply dfs_post_refl|].
    intros y Hy. by apply elem_of_nil in Hy.
  - assert (Hdoml : forall z, z ∈ l -> is_Some (c1 !! z)).
    { intros z Hz. apply Hdom. by right. }
    destruct (c1 !! y) as [[| |]|] eqn:Hy.
    + destruct (dfs deps fuel y c1) as [[[|] c1']|] eqn:Hd; try discriminate.
      intros Hrest. destruct (IH _ _ _ Hcol Hy Hd) as [Hp1 Hb1].
      destruct (IHl c1' c2) as [Hp2 Hb2]; [by eapply coloured_post| |done|].
      { intros z Hz. apply (post_dom _ _ Hp1). by apply Hdoml. }
      split; [by eapply dfs_post_trans|].
      intros z [->|Hz]%elem_of_cons; [|by apply Hb2].
      by apply (post_black _ _ Hp2).
    + discriminate.
    + intros Hrest. destruct (IHl _ _ Hcol Hdoml Hrest) as [Hp2 Hb2].
      split; [done|]. intros z [->|Hz]%elem_of_cons; [|by apply Hb2].
      by apply (post_black _ _ Hp2).
    + destruct (Hdom y) as [? Hsome]; [by left|]. congruence.
Qed.

(** What a call of [dfs] that finds no back edge leaves behind. *)
Lemma dfs_spec fuel :
  forall u c c',
    coloured c ->
    c !! u = Some WHITE ->
    dfs deps fuel u c = Some (false, c') ->
    dfs_post c c' /\ c' !! u = Some BLACK.
Proof.
  induction fuel as [|fuel IH]; intros u c c' Hcol Hu; [discriminate|].
  rewrite dfs_unfold.
  destruct (dfs_children deps fuel (children u) (<[u:=GRAY]> c))
    as [[[|] c2]|] eqn:Hloop; try discriminate.
  intros [= <-].
  assert (Hcol1 : coloured (<[u:=GRAY]> c)).
  { intros x y He. destruct (decide (y = u)) as [->|Hne].
    - rewrite lookup_insert_eq. eauto.
    - rewrite lookup_insert_ne by done. by eapply Hcol. }
  destruct (dfs_children_spec fuel IH (children u) (<[u:=GRAY]> c) c2)
    as [Hp Hb]; [done| |done|].
  { intros y Hy. by apply (Hcol1 u). }
  assert (Hgray : c2 !! u = Some GRAY).
  { apply (post_gray _ _ Hp). apply lookup_insert_eq. }
  assert (Hclosed1 : black_closed c -> black_closed (<[u:=GRAY]> c)).
  { intros Hc x y Hx He.
    assert (x ≠ u) by (intros ->; rewrite lookup_insert_eq in Hx; discriminate).
    rewrite lookup_insert_ne in Hx by done.
    pose proof (Hc x y Hx He) as Hy.
    assert (y ≠ u) by congruence.
    by rewrite lookup_insert_ne. }
  split; [|apply lookup_insert_eq].
  split.
  - intros x Hx.
    assert (x ≠ u) by (intros ->; rewrite lookup_insert_eq in Hx; discriminate).
    rewrite lookup_insert_ne in Hx by done.
    apply (post_white _ _ Hp) in Hx. by rewrite lookup_insert_ne in Hx.
  - intros x Hx. assert (x ≠ u) by congruence.
    rewrite lookup_insert_ne by done. apply (post_gray _ _ Hp).
    by rewrite lookup_insert_ne.
  - intros x Hx. assert (x ≠ u) by congruence.
    rewrite lookup_insert_ne by done. apply (post_black _ _ Hp).
    by rewrite lookup_insert_ne.
  - intros x Hx.
    assert (x ≠ u) by (intros ->; rewrite lookup_insert_eq in Hx; discriminate).
    rewrite lookup_insert_ne in Hx by done.
    apply (post_gray_back _ _ Hp) in Hx. by rewrite lookup_insert_ne in Hx.
  - intros x Hx. destruct (decide (x = u)) as [->|Hne].
    + rewrite lookup_insert_eq. eauto.
    + rewrite lookup_insert_ne by done. apply (post_dom _ _ Hp).
      by rewrite lookup_insert_ne.
  - intros Hc x y Hx He.
    pose proof (post_closed _ _ Hp (Hclosed1 Hc)) as Hc2.
    destruct (decide (y = u)) as [->|Hy]; [apply lookup_insert_eq|].
    rewrite lookup_insert_ne by done.
    destruct (decide (x = u)) as [->|Hxu]; [by apply Hb|].
    rewrite lookup_insert_ne in Hx by done. by eapply Hc2.
  - intros Hc Ha x Hx Hcyc.
    pose proof (post_closed _ _ Hp (Hclosed1 Hc)) as Hc2.
    destruct (decide (x = u)) as [->|Hxu].
    + assert (c2 !! u = Some BLACK); [|congruence].
      inversion Hcyc as [? ? He|? v ? He Hrest]; subst.
      * by apply Hb.
      * eapply black_closed_reach; [done| |done]. by apply Hb.
    + rewrite lookup_insert_ne in Hx by done.
      apply (post_acyclic _ _ Hp) in Hx; [done|by apply Hclosed1|].
      intros z Hz. assert (z ≠ u) by (intros ->; rewrite lookup_insert_eq in Hz; discriminate).
      rewrite lookup_insert_ne in Hz by done. by apply Ha.
Qed.

(** *** Enough fuel *)

Definition whites (c : gmap string Color) : gmap string Color :=
  filter (fun kv => kv.2 = WHITE) c.

Lemma whites_lookup c x : whites c !! x = Some WHITE <-> c !! x = Some WHITE.
Proof.
  unfold whites. rewrite map_lookup_filter_Some. simpl. naive_solver.
Qed.

Lemma whites_lookup_Some c x v : whites c !! x = Some v -> v = WHITE /\ c !! x = Some WHITE.
Proof.
  unfold whites. rewrite map_lookup_filter_Some. simpl. naive_solver.
Qed.

Lemma whites_post c c' : dfs_post c c' -> (size (whites c') <= size (whites c))%nat.
Proof.
  intros Hp. apply map_subseteq_size. apply map_subseteq_spec.
  intros x v [-> Hx]%whites_lookup_Some. apply whites_lookup.
  by apply (post_white _ _ Hp).
Qed.

Lemma whites_gray c u :
  c !! u = Some WHITE -> (size (whites (<[u:=GRAY]> c)) < size (whites c))%nat.
Proof.
  intros Hu. apply map_subset_size. split.
  - apply map_subseteq_spec. intros x v [-> Hx]%whites_lookup_Some.
    apply whites_lookup.
    destruct (decide (x = u)) as [->|Hne].
    + rewrite lookup_insert_eq in Hx. discriminate.
    + by rewrite lookup_insert_ne in Hx.
  - intros Hsub. rewrite map_subseteq_spec in Hsub.
    specialize (Hsub u WHITE). rewrite !whites_lookup in Hsub.
    specialize (Hsub Hu). rewrite lookup_insert_eq in Hsub. discriminate.
Qed.

Lemma dfs_total fuel :
  forall u c,
    coloured c -> c !! u = Some WHITE -> (size (whites c) < fuel)%nat ->
    is_Some (dfs deps fuel u c).
Proof.
  induction fuel as [|fuel IH]; intros u c Hcol Hu Hfuel; [lia|].
  rewrite dfs_unfold.
  assert (Hloop : forall l c1,
             coloured c1 -> (size (whites c1) < fuel)%nat ->
             is_Some (dfs_children deps fuel l c1)).
  { clear u c Hcol Hu Hfuel.
    induction l as [|y l IHl]; intros c1 Hcol Hfuel; simpl; [eauto|].
    destruct (c1 !! y) as [[| |]|] eqn:Hy; eauto.
    destruct (IH y c1 Hcol Hy Hfuel) as [[[|] c1'] Hd]; rewrite Hd; [eauto|].
    destruct (dfs_spec fuel y c1 c1' Hcol Hy Hd) as [Hp _].
    apply IHl; [by eapply coloured_post|].
    pose proof (whites_post _ _ Hp). lia. }
  destruct (Hloop (children u) (<[u:=GRAY]> c)) as [[[|] c2] Hl].
  - intros x y He. destruct (decide (y = u)) as [->|Hne].
    + rewrite lookup_insert_eq. eauto.
    + rewrite lookup_insert_ne by done. by eapply Hcol.
  - pose proof (whites_gray c u Hu). lia.
  - rewrite Hl. eauto.
  - rewrite Hl. eauto.
Qed.

(** *** The loop over all keys *)

Definition no_gray (c : gmap string Color) : Prop :=
  forall x, c !! x <> Some GRAY.

Lemma dfs_all_spec fuel :
  forall keys c,
    coloured c -> no_gray c -> black_closed c -> black_acyclic c ->
    dfs_all deps fuel keys c = Some false ->
    forall k, k ∈ keys -> is_Some (c !! k) -> ~ tc edge k k.
Proof.
  induction keys as [|k0 keys IH]; intros c Hcol Hng Hbc Hba; simpl.
  { intros _ k Hk. by apply elem_of_nil in Hk. }
  destruct (c !! k0) as [[| |]|] eqn:Hk0.
  - destruct (dfs deps fuel k0 c) as [[[|] c']|] eqn:Hd; try discriminate.
    intros Hrest k Hk Hsome.
    destruct (dfs_spec fuel k0 c c' Hcol Hk0 Hd) as [Hp Hb].
    assert (Hng' : no_gray c').
    { intros x Hx. apply (Hng x). by apply (post_gray_back _ _ Hp). }
    pose proof (post_closed _ _ Hp Hbc) as Hbc'.
    pose proof (post_acyclic _ _ Hp Hbc Hba) as Hba'.
    apply elem_of_cons in Hk as [->|Hk].
    + by apply Hba'.
    + eapply (IH c'); eauto using coloured_post. by apply (post_dom _ _ Hp).
  - by destruct (Hng k0).
  - intros Hrest k [->|Hk]%elem_of_cons Hsome; [by apply Hba|].
    by eapply (IH c).
  - intros Hrest k [->|Hk]%elem_of_cons Hsome.
    + rewrite Hk0 in Hsome. by destruct Hsome.
    + by eapply (IH c).
Qed.

Lemma dfs_all_total fuel :
  forall keys c,
    coloured c -> (size (whites c) < fuel)%nat ->
    is_Some (dfs_all deps fuel keys c).
Proof.
  induction keys as [|k0 keys IH]; intros c Hcol Hfuel; simpl; [eauto|].
  destruct (c !! k0) as [[| |]|] eqn:Hk0; eauto.
  destruct (dfs_total fuel k0 c Hcol Hk0 Hfuel) as [[[|] c'] Hd]; rewrite Hd; [eauto|].
  destruct (dfs_spec fuel k0 c c' Hcol Hk0 Hd) as [Hp _].
  apply IH; [by eapply coloured_post|].
  pose proof (whites_post _ _ Hp). lia.
Qed.

End Dfs.

Lemma all_white_acc keys (acc : gmap string Color) k :
  fold_left (fun color taskId => <[taskId := WHITE]> color) keys acc !! k =
  if decide (k ∈ keys) then Some WHITE else acc !! k.
Proof.
  revert acc. induction keys as [|k0 keys IH]; intros acc; simpl; [done|].
  rewrite IH. destruct (decide (k ∈ keys)) as [Hin|Hnin].
  - rewrite decide_True; [done|by right].
  - destruct (decide (k = k0)) as [->|Hne].
    + rewrite decide_True by left. apply lookup_insert_eq.
    + rewrite decide_False; [by rewrite lookup_insert_ne|].
      intros [?|?]%elem_of_cons; done.
Qed.

Lemma all_white_lookup keys k :
  all_white keys !! k = if decide (k ∈ keys) then Some WHITE else None.
Proof. unfold all_white. by rewrite all_white_acc, lookup_empty. Qed.

Lemma all_white_size keys : (size (all_white keys) <= List.length keys)%nat.
Proof.
  unfold all_white.
  assert (H : forall acc : gmap string Color,
             (size (fold_left (fun color taskId => <[taskId := WHITE]> color) keys acc)
              <= size acc + List.length keys)%nat).
  { induction keys as [|k0 keys IH]; intros acc; simpl; [lia|].
    specialize (IH (<[k0:=WHITE]> acc)).
    assert (size (<[k0:=WHITE]> acc) <= S (size acc))%nat; [|lia].
    destruct (acc !! k0) eqn:E.
    - rewrite map_size_insert_Some by eauto. lia.
    - rewrite map_size_insert_None by done. lia. }
  specialize (H ∅). by rewrite map_size_empty in H.
Qed.

(** Every child recorded in [dependents] is a key of [tasks]. *)
Definition children_known (s : Scheduler) : Prop :=
  forall p c, edge (dependents s) p c -> c ∈ order s.

Lemma tc_last {A} (R : relation A) x z : tc R x z -> exists y, R y z.
Proof. induction 1; eauto. Qed.

Lemma hasCircularDependency_total s :
  children_known s -> is_Some (hasCircularDependency s).
Proof.
  intros Hk. unfold hasCircularDependency. apply dfs_all_total.
  - intros x y He. rewrite all_white_lookup.
    rewrite decide_True; [eauto|]. by eapply Hk.
  - pose proof (all_white_size (order s)).
    assert (size (whites (all_white (order s))) <= size (all_white (order s)))%nat.
    { apply map_subseteq_size. unfold whites. apply map_filter_subseteq. }
    lia.
Qed.

(** A cycle in [dependents] is found. *)
Lemma hasCircularDependency_complete s x :
  children_known s -> tc (edge (dependents s)) x x ->
  hasCircularDependency s = Some true.
Proof.
  intros Hk Hcyc.
  destruct (hasCircularDependency_total s Hk) as [[|] Hres]; [done|].
  exfalso. unfold hasCircularDependency in Hres.
  assert (Hx : x ∈ order s).
  { destruct (tc_last _ _ _ Hcyc) as [y Hy]. by eapply Hk. }
  eapply (dfs_all_spec (dependents s)); [| | | |exact Hres|exact Hx| |exact Hcyc].
  - intros a b He. rewrite all_white_lookup.
    rewrite decide_True; [eauto|]. by eapply Hk.
  - intros a. rewrite all_white_lookup. by case_decide.
  - intros a b Ha. rewrite all_white_lookup in Ha. by case_decide.
  - intros a Ha. rewrite all_white_lookup in Ha. by case_decide.
  - rewrite all_white_lookup. rewrite decide_True by done. eauto.
Qed.

(** ** [loadPlan] *)

(** What the first loop establishes. *)
Record entries_loaded (ids : list string) (s : Scheduler) : Prop := {
  el_order : forall k, k ∈ order s <-> k ∈ ids;
  el_nodup : NoDup (order s);
  el_tasks : forall k, is_Some (tasks s !! k) <-> k ∈ ids;
  el_task : forall k t, tasks s !! k = Some t ->
              id t = k /\ status t = PENDING /\ attempts t = 0
              /\ is_Some (maxAttempts t);
  el_dependents : forall k, dependents s !! k = if decide (k ∈ ids) then Some [] else None;
  el_indegree : forall k, indegree s !! k = if decide (k ∈ ids) then Some 0 else None
}.

Lemma load_entry_loaded ids s task :
  entries_loaded ids s -> entries_loaded (ids ++ [id task]) (load_entry s task).
Proof.
  intros [Ho Hn Ht Htk Hd Hi]. split; simpl.
  - intros k. rewrite elem_of_app, list_elem_of_singleton.
    case_decide as Hin.
    + rewrite Ho. split; [tauto|]. intros [?| ->]; [done|]. by apply Ho.
    + rewrite elem_of_app, list_elem_of_singleton, Ho. tauto.
  - case_decide as Hin; [done|].
    apply NoDup_app. split; [done|]. split; [|apply NoDup_singleton].
    intros x Hx ->%list_elem_of_singleton. done.
  - intros k. rewrite elem_of_app, list_elem_of_singleton.
    destruct (decide (k = id task)) as [->|Hne].
    + rewrite lookup_insert_eq. split; eauto.
    + rewrite lookup_insert_ne by done. rewrite Ht. tauto.
  - intros k t. destruct (decide (k = id task)) as [->|Hne].
    + rewrite lookup_insert_eq. intros [= <-]. simpl. eauto.
    + rewrite lookup_insert_ne by done. apply Htk.
  - intros k. destruct (decide (k = id task)) as [->|Hne].
    + rewrite lookup_insert_eq. rewrite decide_True; [done|].
      apply elem_of_app. right. by apply list_elem_of_singleton.
    + rewrite lookup_insert_ne by done. rewrite Hd.
      repeat case_decide; try done.
      * exfalso. apply H0. apply elem_of_app. by left.
      * apply elem_of_app in H0 as [?|?%list_elem_of_singleton]; done.
  - intros k. destruct (decide (k = id task)) as [->|Hne].
    + rewrite lookup_insert_eq. rewrite decide_True; [done|].
      apply elem_of_app. right. by apply list_elem_of_singleton.
    + rewrite lookup_insert_ne by done. rewrite Hi.
      repeat case_decide; try done.
      * exfalso. apply H0. apply elem_of_app. by left.
      * apply elem_of_app in H0 as [?|?%list_elem_of_singleton]; done.
Qed.

Lemma reset_loaded s : entries_loaded [] (reset s).
Proof.
  split; simpl; try done.
  - apply NoDup_nil_2.
  - intros k. rewrite lookup_empty. split; [by intros [? ?]|by intros ?%elem_of_nil].
Qed.

Lemma load_entries_loaded l ids s :
  entries_loaded ids s ->
  entries_loaded (ids ++ map id l) (fold_left load_entry l s).
Proof.
  revert ids s. induction l as [|t l IH]; intros ids s H; simpl.
  - by rewrite app_nil_r.
  - replace (ids ++ id t :: map id l)%list with ((ids ++ [id t]) ++ map id l)%list.
    + apply IH. by apply load_entry_loaded.
    + by rewrite <- List.app_assoc.
Qed.

(** The number of times [c] occurs in [l]. *)
Definition occurrences (c : string) (l : list string) : nat :=
  List.length (filter (fun y => y = c) l).

(** The number of edges into [c] from the parents [ps]. *)
Definition edges_into (deps : gmap string (list string)) (ps : list string)
    (c : string) : nat :=
  sum_list (map (fun p => occurrences c (children deps p)) ps).

Lemma occurrences_app c l1 l2 :
  occurrences c (l1 ++ l2) = (occurrences c l1 + occurrences c l2)%nat.
Proof. unfold occurrences. by rewrite filter_app, length_app. Qed.

Lemma occurrences_singleton c x :
  occurrences c [x] = if decide (x = c) then 1%nat else 0%nat.
Proof. unfold occurrences. rewrite filter_cons, filter_nil. by case_decide. Qed.

Lemma occurrences_pos c l : c ∈ l <-> (0 < occurrences c l)%nat.
Proof.
  unfold occurrences. induction l as [|x l IH].
  - rewrite filter_nil. simpl. split; [by intros ?%elem_of_nil|lia].
  - rewrite filter_cons, elem_of_cons. case_decide as E; simpl.
    + subst. split; [lia|auto].
    + rewrite IH. split; [intros [?|?]; [congruence|done]|auto].
Qed.

(** Changing the adjacency list of one parent changes the sum by the
    difference at that parent. *)
Lemma edges_into_alter deps ps p f c :
  NoDup ps -> p ∈ ps -> is_Some (deps !! p) ->
  (edges_into (alter f p deps) ps c + occurrences c (children deps p)
   = edges_into deps ps c + occurrences c (f (children deps p)))%nat.
Proof.
  intros Hnd Hin [l Hl]. unfold edges_into.
  induction ps as [|q ps IH]; [by apply elem_of_nil in Hin|].
  apply NoDup_cons in Hnd as [Hq Hnd]. simpl.
  apply elem_of_cons in Hin as [->|Hin].
  - assert (Hrest : map (fun p0 => occurrences c (children (alter f q deps) p0)) ps
                    = map (fun p0 => occurrences c (children deps p0)) ps).
    { apply map_ext_in. intros a Ha%list_elem_of_In. unfold children.
      rewrite lookup_alter_ne; [done|]. intros ->. done. }
    rewrite Hrest. unfold children at 1. rewrite lookup_alter_eq.
    unfold children. rewrite Hl. simpl. lia.
  - specialize (IH Hnd Hin).
    assert (q ≠ p) by (intros ->; done).
    unfold children at 1. rewrite lookup_alter_ne by done.
    fold (children deps q). lia.
Qed.

(** What the second loop maintains. *)
Record deps_loaded (ids : list string) (s : Scheduler) : Prop := {
  dl_dom : forall k, is_Some (dependents s !! k) <-> k ∈ ids;
  dl_children : forall p c, edge (dependents s) p c -> c ∈ ids;
  dl_indegree : forall c,
      default 0 (indegree s !! c) = Z.of_nat (edges_into (dependents s) (order s) c)
}.

Lemma add_dependency_frame task s parentId :
  let s' := add_dependency task s parentId in
  tasks s' = tasks s /\ order s' = order s /\ options s' = options s
  /\ permits s' = permits s /\ waiting s' = waiting s
  /\ threads s' = threads s /\ next_tid s' = next_tid s
  /\ run_state s' = run_state s /\ executed s' = executed s
  /\ runningTasks s' = runningTasks s /\ completedTasks s' = completedTasks s
  /\ failedTasks s' = failedTasks s.
Proof. unfold add_dependency. case_decide; simpl; repeat split; done. Qed.

Lemma add_dependency_loaded ids task s parentId :
  NoDup (order s) ->
  (forall k, k ∈ order s <-> k ∈ ids) ->
  (forall k, is_Some (tasks s !! k) <-> k ∈ ids) ->
  id task ∈ ids ->
  deps_loaded ids s ->
  deps_loaded ids (add_dependency task s parentId)
  /\ (forall p c, edge (dependents s) p c ->
        edge (dependents (add_dependency task s parentId)) p c)
  /\ (parentId ∈ ids ->
        edge (dependents (add_dependency task s parentId)) parentId (id task)).
Proof.
  intros Hnd Ho Ht Hid [Hdom Hch Hin]. unfold add_dependency.
  case_decide as Hknown; simpl.
  2:{ split; [done|]. split; [done|]. intros Hp. destruct Hknown. by apply Ht. }
  assert (Hp : parentId ∈ ids) by by apply Ht.
  assert (Hdp : is_Some (dependents s !! parentId)) by by apply Hdom.
  assert (Hedge : forall p c,
             edge (alter (fun children => (children ++ [id task])%list) parentId
                         (dependents s)) p c
             <-> edge (dependents s) p c \/ (p = parentId /\ c = id task)).
  { intros p c. unfold edge, children.
    destruct (decide (p = parentId)) as [->|Hne].
    - rewrite lookup_alter_eq. destruct Hdp as [l Hl]. rewrite Hl. simpl.
      rewrite elem_of_app, list_elem_of_singleton. naive_solver.
    - rewrite lookup_alter_ne by done. naive_solver. }
  split; [split|split]; simpl.
  - intros k. rewrite <- Hdom. unfold is_Some.
    destruct (decide (k = parentId)) as [->|Hne].
    + rewrite lookup_alter_eq. destruct Hdp as [l Hl]. rewrite Hl. simpl. naive_solver.
    + by rewrite lookup_alter_ne.
  - intros p c [He|[-> ->]]%Hedge; [by eapply Hch|done].
  - intros c.
    pose proof (edges_into_alter (dependents s) (order s) parentId
                  (fun children => (children ++ [id task])%list) c Hnd) as Hsum.
    specialize (Hsum (proj2 (Ho _) Hp) Hdp). cbv beta in Hsum.
    rewrite occurrences_app, occurrences_singleton in Hsum.
    destruct (decide (c = id task)) as [->|Hne].
    + rewrite lookup_insert_eq. simpl. rewrite Hin.
      rewrite decide_True in Hsum by done. lia.
    + rewrite lookup_insert_ne by done. rewrite Hin.
      rewrite decide_False in Hsum by done. lia.
  - intros p c He. apply Hedge. by left.
  - intros _. apply Hedge. by right.
Qed.

Lemma edges_into_empty deps ps c :
  (forall p, p ∈ ps -> children deps p = []) -> edges_into deps ps c = 0%nat.
Proof.
  intros H. unfold edges_into. induction ps as [|p ps IH]; simpl; [done|].
  rewrite (H p) by left. rewrite IH; [done|].
  intros q Hq. apply H. by right.
Qed.

(** What [loadPlan] leaves, as far as the run depends on it. *)
Record loaded (taskList : list Task) (opts : SchedulerOptions) (s : Scheduler)
  : Prop := {
  ld_nodup : NoDup (order s);
  ld_order : forall k, k ∈ order s <-> k ∈ map id taskList;
  ld_tasks : forall k, is_Some (tasks s !! k) <-> k ∈ map id taskList;
  ld_task : forall k t, tasks s !! k = Some t ->
              id t = k /\ status t = PENDING /\ attempts t = 0
              /\ is_Some (maxAttempts t);
  ld_deps : deps_loaded (map id taskList) s;
  ld_edges : forall t p, t ∈ taskList -> p ∈ dependencies t ->
               p ∈ map id taskList -> edge (dependents s) p (id t);
  ld_fresh : threads s = ∅ /\ waiting s = [] /\ permits s = maxConcurrency opts
             /\ run_state s = NotStarted /\ executed s = [] /\ failedTasks s = []
             /\ completedTasks s = [] /\ runningTasks s = []
             /\ options s = opts
}.

Lemma add_dependencies_loaded ids task :
  id task ∈ ids ->
  forall deps0 s,
    NoDup (order s) ->
    (forall k, k ∈ order s <-> k ∈ ids) ->
    (forall k, is_Some (tasks s !! k) <-> k ∈ ids) ->
    deps_loaded ids s ->
    let s' := fold_left (add_dependency task) deps0 s in
    deps_loaded ids s'
    /\ tasks s' = tasks s /\ order s' = order s
    /\ (forall p c, edge (dependents s) p c -> edge (dependents s') p c)
    /\ (forall p, p ∈ deps0 -> p ∈ ids -> edge (dependents s') p (id task)).
Proof.
  intros Hid. induction deps0 as [|p0 deps0 IH]; intros s Hnd Ho Ht Hdl; simpl.
  { do 4 (split; [done|]). intros p Hp. by apply elem_of_nil in Hp. }
  destruct (add_dependency_loaded ids task s p0 Hnd Ho Ht Hid Hdl)
    as (Hdl1 & Hmono1 & Hnew1).
  destruct (add_dependency_frame task s p0) as (Et & Eo & _).
  destruct (IH (add_dependency task s p0)) as (Hdl2 & Et2 & Eo2 & Hmono2 & Hnew2).
  { by rewrite Eo. } { intros k. by rewrite Eo. } { intros k. by rewrite Et. }
  { done. }
  split; [done|]. split; [congruence|]. split; [congruence|].
  split; [by eauto|].
  intros p [->|Hp]%elem_of_cons Hpi; [|by apply Hnew2].
  apply Hmono2. by apply Hnew1.
Qed.

Lemma add_all_dependencies_loaded ids :
  forall l s,
    (forall t, t ∈ l -> id t ∈ ids) ->
    NoDup (order s) ->
    (forall k, k ∈ order s <-> k ∈ ids) ->
    (forall k, is_Some (tasks s !! k) <-> k ∈ ids) ->
    deps_loaded ids s ->
    let s' := fold_left add_dependencies l s in
    deps_loaded ids s'
    /\ tasks s' = tasks s /\ order s' = order s
    /\ (forall p c, edge (dependents s) p c -> edge (dependents s') p c)
    /\ (forall t p, t ∈ l -> p ∈ dependencies t -> p ∈ ids ->
          edge (dependents s') p (id t)).
Proof.
  induction l as [|t l IH]; intros s Hids Hnd Ho Ht Hdl; simpl.
  { do 4 (split; [done|]). intros t p Hp. by apply elem_of_nil in Hp. }
  destruct (add_dependencies_loaded ids t (Hids t ltac:(by left))
              (dependencies t) s Hnd Ho Ht Hdl)
    as (Hdl1 & Et1 & Eo1 & Hmono1 & Hnew1).
  fold (add_dependencies s t) in *.
  destruct (IH (add_dependencies s t)) as (Hdl2 & Et2 & Eo2 & Hmono2 & Hnew2).
  { intros t' Ht'. apply Hids. by right. }
  { by rewrite Eo1. } { intros k. by rewrite Eo1. } { intros k. by rewrite Et1. }
  { done. }
  split; [done|]. split; [congruence|]. split; [congruence|].
  split; [by eauto|].
  intros t' p [->|Ht']%elem_of_cons Hp Hpi; [|by eapply Hnew2].
  apply Hmono2. by apply Hnew1.
Qed.

Lemma fold_frame {A} (f : Scheduler -> A -> Scheduler) (P : Scheduler -> Prop) l :
  (forall s a, P s -> P (f s a)) -> forall s, P s -> P (fold_left f l s).
Proof. intros Hf. induction l; simpl; auto. Qed.

Definition untouched (opts : SchedulerOptions) (s : Scheduler) : Prop :=
  threads s = ∅ /\ waiting s = [] /\ permits s = maxConcurrency opts
  /\ run_state s = NotStarted /\ executed s = [] /\ failedTasks s = []
  /\ completedTasks s = [] /\ runningTasks s = [] /\ options s = opts.

Lemma loadPlan_loaded taskList opts :
  loaded taskList opts (loadPlan taskList (new_scheduler opts)).
Proof.
  unfold loadPlan.
  pose proof (load_entries_loaded taskList [] _ (reset_loaded (new_scheduler opts)))
    as H1. simpl in H1.
  set (s1 := fold_left load_entry taskList (reset (new_scheduler opts))) in *.
  destruct H1 as [Ho Hnd Ht Htk Hd Hi].
  assert (Hdl : deps_loaded (map id taskList) s1).
  { split.
    - intros k. rewrite Hd. case_decide; split; eauto; try done.
    - intros p c. unfold edge, children. rewrite Hd.
      case_decide; simpl; by intros ?%elem_of_nil.
    - intros c. rewrite edges_into_empty.
      + rewrite Hi. by case_decide.
      + intros p Hp. unfold children. rewrite Hd. by case_decide. }
  destruct (add_all_dependencies_loaded (map id taskList) taskList s1)
    as (Hdl2 & Et2 & Eo2 & Hmono2 & Hnew2); try done.
  { intros t Hin. by apply list_elem_of_fmap_2. }
  split.
  - by rewrite Eo2.
  - intros k. by rewrite Eo2.
  - intros k. by rewrite Et2.
  - intros k t. rewrite Et2. apply Htk.
  - done.
  - done.
  - apply (fold_frame add_dependencies (untouched opts)).
    { intros s a Hs. unfold add_dependencies.
      apply (fold_frame (add_dependency a) (untouched opts)); [|done].
      intros s' p Hs'. unfold untouched, add_dependency in *.
      case_decide; simpl; done. }
    unfold s1. apply (fold_frame load_entry (untouched opts)).
    { intros s a Hs. unfold untouched, load_entry in *. simpl. done. }
    unfold untouched. simpl. done.
Qed.

(** ** Cycles in a plan *)

(** [child] declares a dependency on [parent], and [parent] is a task of
    the plan (an unknown parent is dropped by [loadPlan]). *)
Definition depends_on (taskList : list Task) (child parent : string) : Prop :=
  exists t, t ∈ taskList /\ id t = child /\ parent ∈ dependencies t
            /\ parent ∈ map id taskList.

Definition has_cycle (taskList : list Task) : Prop :=
  exists x, tc (depends_on taskList) x x.

Lemma depends_on_edge taskList opts s child parent :
  loaded taskList opts s -> depends_on taskList child parent ->
  edge (dependents s) parent child.
Proof. intros Hl (t & Ht & <- & Hp & Hk). by apply (ld_edges _ _ _ Hl). Qed.

Lemma tc_depends_on_edge taskList opts s x y :
  loaded taskList opts s -> tc (depends_on taskList) x y ->
  tc (edge (dependents s)) y x.
Proof.
  intros Hl. induction 1 as [x y H|x y z H _ IH].
  - apply tc_once. by eapply depends_on_edge.
  - eapply tc_r; [exact IH|]. by eapply depends_on_edge.
Qed.

Lemma loaded_children_known taskList opts s :
  loaded taskList opts s -> children_known s.
Proof.
  intros Hl p c He. apply (ld_order _ _ _ Hl).
  by apply (dl_children _ _ (ld_deps _ _ _ Hl) p).
Qed.

(** [s.includes(sub)] *)
Fixpoint includes (s sub : string) : bool :=
  String.prefix sub s ||
  match s with
  | EmptyString => false
  | String _ s' => includes s' sub
  end.

(** While [run()] has not got past the cycle check, nothing runs. *)
Definition before_check (s0 s : Scheduler) : Prop :=
  threads s = ∅ /\ executed s = [] /\ dependents s = dependents s0
  /\ order s = order s0
  /\ (run_state s = NotStarted \/ run_state s = AwaitEngineStart
      \/ run_state s = Rejected circular_message).

Lemma before_check_step s0 c s s' :
  hasCircularDependency s0 = Some true ->
  before_check s0 s -> step c s = Some s' -> before_check s0 s'.
Proof.
  intros Hcyc (Hth & Hex & Hd & Ho & Hrs). destruct c as [|tid o]; simpl.
  - unfold run_step.
    assert (Hc : hasCircularDependency s = Some true).
    { unfold hasCircularDependency in *. by rewrite Hd, Ho. }
    destruct Hrs as [Hrs|[Hrs|Hrs]]; rewrite Hrs.
    + intros [= <-]. unfold before_check. simpl. naive_solver.
    + rewrite Hc. intros [= <-]. unfold before_check. simpl. naive_solver.
    + discriminate.
  - unfold advance. rewrite Hth, lookup_empty. discriminate.
Qed.

Lemma before_check_exec s0 cs :
  hasCircularDependency s0 = Some true ->
  forall s s', before_check s0 s -> exec cs s = Some s' -> before_check s0 s'.
Proof.
  intros Hcyc. induction cs as [|c cs IH]; intros s s' Hs; simpl.
  - by intros [= <-].
  - destruct (step c s) as [s1|] eqn:Hstep; [|discriminate].
    apply IH. by eapply before_check_step.
Qed.

(** C4.  If the dependency graph of the loaded plan has a cycle, [run()]
    throws an error whose message contains "Circular dependency", and in
    no execution is the executor ever called. *)
Theorem C4_cycle_rejected :
  forall (opts : SchedulerOptions) (taskList : list Task),
    has_cycle taskList ->
    let s0 := loadPlan taskList (new_scheduler opts) in
    (exists s, exec [Tick; Tick] s0 = Some s
               /\ run_state s = Rejected circular_message)
    /\ includes circular_message "Circular dependency" = true
    /\ (forall cs s, exec cs s0 = Some s ->
          executed s = []
          /\ run_state s <> Resolved
          /\ (forall msg, run_state s = Rejected msg -> msg = circular_message)).
Proof.
  intros opts taskList [x Hx] s0.
  pose proof (loadPlan_loaded taskList opts) as Hl. fold s0 in Hl.
  assert (Hcyc : hasCircularDependency s0 = Some true).
  { eapply hasCircularDependency_complete.
    - by eapply loaded_children_known.
    - by eapply tc_depends_on_edge. }
  destruct (ld_fresh _ _ _ Hl) as (Hth & _ & _ & Hrs & Hex & _).
  assert (H0 : before_check s0 s0) by (unfold before_check; naive_solver).
  split; [|split; [reflexivity|]].
  - simpl. unfold run_step at 1. rewrite Hrs.
    unfold run_step. simpl. 
    assert (Hc' : hasCircularDependency (with_run_state AwaitEngineStart s0) = Some true)
      by exact Hcyc.
    rewrite Hc'. eauto.
  - intros cs s Hexec.
    destruct (before_check_exec s0 cs Hcyc s0 s H0 Hexec) as (_ & He & _ & _ & Hr).
    split; [done|]. split.
    + intros E. rewrite E in Hr. naive_solver.
    + intros msg E. rewrite E in Hr. naive_solver.
Qed.

Definition cyclic_plan : list Task :=
  [new_task "x" ["y"] None; new_task "y" ["x"] None].

Lemma two_task_cycle : has_cycle cyclic_plan.
Proof.
  exists "x". eapply tc_l; [|apply tc_once].
  - eexists. split; [by left|]. simpl. split; [done|]. split; [by left|]. right. by left.
  - eexists. split; [right; by left|]. simpl. split; [done|]. split; [by left|]. by left.
Qed.

Lemma C4_cycle_rejected_witness :
  has_cycle cyclic_plan
  /\ (exists s, exec [Tick; Tick] (loadPlan cyclic_plan (new_scheduler default_options))
                  = Some s
                /\ run_state s = Rejected circular_message)
  /\ includes circular_message "Circular dependency" = true
  /\ (forall cs s,
        exec cs (loadPlan cyclic_plan (new_scheduler default_options)) = Some s ->
        executed s = []
        /\ run_state s <> Resolved
        /\ (forall msg, run_state s = Rejected msg -> msg = circular_message)).
Proof.
  split; [apply two_task_cycle|].
  apply (C4_cycle_rejected default_options cyclic_plan two_task_cycle).
Defined.

(** ** Concrete runs *)

(** C1 fails on the code.  With [maxConcurrency = 1], an acyclic plan of
    one task and an executor that throws on the first attempt, the retry
    calls [scheduleTask] while the first activation still holds the only
    permit: the thread queues up behind itself, no continuation is left to
    run but the polling timer, which finds the task QUEUED for ever, and
    the promise of [run()] never settles. *)
Theorem C1_retry_deadlock :
  exec retry_schedule retry_plan = Some retry_deadlock
  /\ hasCircularDependency retry_plan = Some false
  /\ status_of retry_deadlock "t" = Some QUEUED
  /\ run_state retry_deadlock = Waiting
  /\ (forall c s', step c retry_deadlock = Some s' -> s' = retry_deadlock).
Proof.
  split; [by vm_compute|]. split; [by vm_compute|].
  split; [by vm_compute|]. split; [reflexivity|].
  intros [|tid o] s'.
  - vm_compute. by intros [= <-].
  - unfold step, advance. cbn [threads retry_deadlock].
    destruct (decide (tid = 0%nat)) as [->|Hne].
    + vm_compute. discriminate.
    + rewrite lookup_singleton_ne by done. discriminate.
Qed.

(** * The run, state by state *)

(** ** Permits *)

(** The permits held by all threads together. *)
Definition held_total (m : gmap nat Thread) : nat :=
  map_fold (fun _ th n => (held th + n)%nat) 0%nat m.

Lemma held_total_empty : held_total ∅ = 0%nat.
Proof. apply map_fold_empty. Qed.

Lemma held_total_insert m i th :
  m !! i = None -> held_total (<[i:=th]> m) = (held th + held_total m)%nat.
Proof.
  intros Hi. unfold held_total. rewrite map_fold_insert_L; [done| |done].
  intros. lia.
Qed.

Lemma held_total_delete m i th :
  m !! i = Some th -> (held_total (delete i m) + held th)%nat = held_total m.
Proof.
  intros Hi. unfold held_total.
  rewrite (map_fold_delete_L _ _ i th m); [lia| |done].
  intros. lia.
Qed.

Lemma held_total_alter m i th f :
  m !! i = Some th ->
  (held_total (alter f i m) + held th)%nat = (held_total m + held (f th))%nat.
Proof.
  intros Hi.
  assert (E : alter f i m = <[i := f th]> (delete i m)).
  { apply map_eq. intros j. destruct (decide (j = i)) as [->|Hne].
    - by rewrite lookup_alter_eq, lookup_insert_eq, Hi.
    - by rewrite lookup_alter_ne, lookup_insert_ne, lookup_delete_ne. }
  rewrite E, held_total_insert by apply lookup_delete_eq.
  pose proof (held_total_delete m i th Hi). lia.
Qed.

Definition running_pc (pc : Pc) : Prop :=
  pc = AwaitStartEmit \/ pc = AwaitExecutor \/ pc = AwaitRetryEmit
  \/ pc = AwaitRetryDelay.

(** The semaphore and the threads agree. *)
Record Sem (s : Scheduler) : Prop := {
  sem_permits : 0 <= permits s \/ held_total (threads s) = 0%nat;
  sem_sum : permits s + Z.of_nat (held_total (threads s)) = maxConcurrency (options s);
  sem_nodup : NoDup (waiting s);
  sem_waiting : forall tid, tid ∈ waiting s ->
                  exists th, threads s !! tid = Some th /\ th_pc th = AwaitAcquire;
  sem_tid : forall tid th, threads s !! tid = Some th -> (tid < next_tid s)%nat;
  sem_held : forall tid th, threads s !! tid = Some th ->
               th_pc th <> AwaitAcquire -> (1 <= held th)%nat;
  sem_running : forall k t, tasks s !! k = Some t -> status t = RUNNING ->
                  exists tid th, threads s !! tid = Some th /\ th_task th = k
                                 /\ running_pc (th_pc th)
}.

Lemma Sem_with_run_state r s : Sem s -> Sem (with_run_state r s).
Proof. intros []. by split. Qed.

Lemma Sem_with_executed l s : Sem s -> Sem (with_executed l s).
Proof. intros []. by split. Qed.

Lemma Sem_with_runningTasks l s : Sem s -> Sem (with_runningTasks l s).
Proof. intros []. by split. Qed.

Lemma Sem_with_completedTasks l s : Sem s -> Sem (with_completedTasks l s).
Proof. intros []. by split. Qed.

Lemma Sem_with_failedTasks l s : Sem s -> Sem (with_failedTasks l s).
Proof. intros []. by split. Qed.

Lemma Sem_with_indegree m s : Sem s -> Sem (with_indegree m s).
Proof. intros []. by split. Qed.

(** Writing a status other than RUNNING keeps the agreement. *)
Lemma Sem_update_task k f s :
  (forall t, status (f t) = RUNNING -> status t = RUNNING) ->
  Sem s -> Sem (update_task k f s).
Proof.
  intros Hf []. split; try done. simpl. intros k' t'.
  destruct (decide (k' = k)) as [->|Hne].
  - rewrite lookup_alter_eq. destruct (tasks s !! k) as [t|] eqn:E; [|done].
    simpl. intros [= <-] Hr. eauto.
  - rewrite lookup_alter_ne by done. eauto.
Qed.


(** [acquire] by a thread that is not in the queue. *)
Lemma Sem_acquire tid th s :
  threads s !! tid = Some th -> tid ∉ waiting s ->
  (forall k t, tasks s !! k = Some t -> status t = RUNNING -> k <> th_task th) ->
  Sem s -> Sem (acquire tid s).
Proof.
  intros Hth Hnw Hnr [Hp Hs Hnd Hw Ht Hh Hr]. unfold acquire.
  assert (Hrun : forall f k t, tasks s !! k = Some t -> status t = RUNNING ->
            exists tid' th', alter f tid (threads s) !! tid' = Some th'
                             /\ th_task th' = k /\ running_pc (th_pc th')).
  { intros f k t Hk Hst.
    destruct (Hr k t Hk Hst) as (tid' & th' & Hth' & Hk' & Hpc').
    assert (tid' ≠ tid).
    { intros ->. rewrite Hth in Hth'. injection Hth' as <-. by apply (Hnr k t). }
    exists tid', th'. by rewrite lookup_alter_ne. }
  assert (Hq : forall f tid', tid' ∈ waiting s ->
            exists th', alter f tid (threads s) !! tid' = Some th'
                        /\ th_pc th' = AwaitAcquire).
  { intros f tid' Hin. destruct (Hw tid' Hin) as (th' & Hth' & Hpc').
    assert (tid' ≠ tid) by (intros ->; done).
    exists th'. by rewrite lookup_alter_ne. }
  assert (Hlt : forall f tid' th', alter f tid (threads s) !! tid' = Some th' ->
            (tid' < next_tid s)%nat).
  { intros f tid' th'. destruct (decide (tid' = tid)) as [->|Hne].
    - rewrite lookup_alter_eq, Hth. eauto.
    - rewrite lookup_alter_ne by done. eauto. }
  case_decide as Hperm.
  - pose proof (held_total_alter (threads s) tid th
                  (fun th => mkThread (th_task th) Acquired (S (held th))) Hth) as Hsum.
    simpl in Hsum.
    split; simpl; eauto.
    + left. lia.
    + lia.
    + intros tid' th'. destruct (decide (tid' = tid)) as [->|Hne].
      * rewrite lookup_alter_eq, Hth. simpl. intros [= <-] _. simpl. lia.
      * rewrite lookup_alter_ne by done. eauto.
  - pose proof (held_total_alter (threads s) tid th
                  (fun th => mkThread (th_task th) AwaitAcquire (held th)) Hth) as Hsum.
    simpl in Hsum.
    split; simpl; eauto.
    + destruct Hp as [Hp|Hp]; [left; lia|right; lia].
    + lia.
    + apply NoDup_app. split; [done|]. split; [|apply NoDup_singleton].
      by intros x Hx ->%list_elem_of_singleton.
    + intros tid' [Hin| ->%list_elem_of_singleton]%elem_of_app; [eauto|].
      rewrite lookup_alter_eq, Hth. simpl. eauto.
    + intros tid' th'. destruct (decide (tid' = tid)) as [->|Hne].
      * rewrite lookup_alter_eq, Hth. simpl. by intros [= <-].
      * rewrite lookup_alter_ne by done. eauto.
Qed.

Lemma Sem_scheduleTask k s : Sem s -> Sem (scheduleTask k s).
Proof.
  intros H. unfold scheduleTask.
  pose proof (Sem_update_task k (set_status QUEUED) s) as H1.
  specialize (H1 ltac:(done) H). clear H.
  destruct H1 as [Hp Hs Hnd Hw Ht Hh Hr].
  assert (Hfresh : threads s !! next_tid s = None).
  { destruct (threads s !! next_tid s) eqn:E; [|done].
    apply Ht in E. simpl in E. lia. }
  eapply (Sem_acquire _ (mkThread k AwaitAcquire 0)).
  - simpl. apply lookup_insert_eq.
  - simpl. intros Hin. destruct (Hw _ Hin) as (th & Hth & _). simpl in Hth. congruence.
  - simpl. intros k' t'. destruct (decide (k' = k)) as [->|Hne]; [|done].
    rewrite lookup_alter_eq. destruct (tasks s !! k); [|done]. by intros [= <-].
  - split; simpl in *; try done.
    + rewrite held_total_insert by done. simpl. done.
    + rewrite held_total_insert by done. simpl. done.
    + intros tid Hin. destruct (Hw tid Hin) as (th & Hth & Hpc).
      exists th. rewrite lookup_insert_ne; [done|]. intros <-. congruence.
    + intros tid th. destruct (decide (tid = next_tid s)) as [->|Hne].
      * intros _. lia.
      * rewrite lookup_insert_ne by done. intros Hth. apply Ht in Hth. lia.
    + intros tid th. destruct (decide (tid = next_tid s)) as [->|Hne].
      * rewrite lookup_insert_eq. by intros [= <-].
      * rewrite lookup_insert_ne by done. eauto.
    + intros k' t' Hk' Hst. destruct (Hr k' t' Hk' Hst) as (tid & th & Hth & Hk & Hpc).
      exists tid, th. rewrite lookup_insert_ne; [done|]. intros <-. congruence.
Qed.

Lemma Sem_schedule_all {A} (f : A -> string) l s :
  Sem s -> Sem (fold_left (fun s x => scheduleTask (f x) s) l s).
Proof.
  revert s. induction l as [|x l IH]; intros s H; [done|].
  simpl. apply IH. by apply Sem_scheduleTask.
Qed.


(** A thread that holds a permit moves to another program point and
    writes its own task. *)
Lemma Sem_move tid th pc f s s' :
  threads s !! tid = Some th -> th_pc th <> AwaitAcquire -> pc <> AwaitAcquire ->
  (forall t, tasks s !! th_task th = Some t -> status (f t) = RUNNING ->
     running_pc pc \/ (status t = RUNNING /\ ~ running_pc (th_pc th))) ->
  tasks s' = alter f (th_task th) (tasks s) ->
  threads s' = alter (fun th => mkThread (th_task th) pc (held th)) tid (threads s) ->
  permits s' = permits s -> waiting s' = waiting s -> next_tid s' = next_tid s ->
  options s' = options s ->
  Sem s -> Sem s'.
Proof.
  intros Hth Hpc Hpc' Hf Etasks Ethreads Ep Ew En Eo [Hp Hs Hnd Hw Ht Hh Hr].
  pose proof (held_total_alter (threads s) tid th
                (fun th => mkThread (th_task th) pc (held th)) Hth) as Hsum.
  simpl in Hsum.
  split; rewrite ?Etasks, ?Ethreads, ?Ep, ?Ew, ?En, ?Eo; try done.
  - destruct Hp; [by left|right; lia].
  - lia.
  - intros tid' Hin. destruct (Hw tid' Hin) as (th' & Hth' & Hpc'').
    assert (tid' ≠ tid) by (intros ->; congruence).
    exists th'. by rewrite lookup_alter_ne.
  - intros tid' th'. destruct (decide (tid' = tid)) as [->|Hne].
    + rewrite lookup_alter_eq, Hth. eauto.
    + rewrite lookup_alter_ne by done. eauto.
  - intros tid' th'. destruct (decide (tid' = tid)) as [->|Hne].
    + rewrite lookup_alter_eq, Hth. simpl. intros [= <-] _. simpl. eauto.
    + rewrite lookup_alter_ne by done. eauto.
  - intros k t. destruct (decide (k = th_task th)) as [->|Hne].
    + rewrite lookup_alter_eq.
      destruct (tasks s !! th_task th) as [t0|] eqn:E; [|done].
      simpl. intros [= <-] Hst.
      destruct (Hf t0 eq_refl Hst) as [Hrun|[Hst0 Hnrun]].
      * exists tid. eexists. rewrite lookup_alter_eq, Hth. simpl. done.
      * destruct (Hr _ t0 E Hst0) as (tid' & th' & Hth' & Hk' & Hrp).
        exists tid', th'. rewrite lookup_alter_ne; [done|].
        intros ->. rewrite Hth in Hth'. by injection Hth' as <-.
    + rewrite lookup_alter_ne by done. intros Hk Hst.
      destruct (Hr k t Hk Hst) as (tid' & th' & Hth' & Hk' & Hrp).
      exists tid', th'. rewrite lookup_alter_ne; [done|].
      intros ->. rewrite Hth in Hth'. injection Hth' as <-. done.
Qed.

Lemma held_le_total m i th :
  m !! i = Some th -> (held th <= held_total m)%nat.
Proof. intros H. pose proof (held_total_delete m i th H). lia. Qed.

(** The thread leaves one [finally] block. *)
Lemma Sem_release tid th s :
  threads s !! tid = Some th -> th_pc th = Releasing ->
  Sem s ->
  Sem (match held th with
       | O | S O => with_threads (delete tid) (release s)
       | S n => with_threads
                  (alter (fun th => mkThread (th_task th) Releasing n) tid)
                  (release s)
       end).
Proof.
  intros Hth Hpc [Hp Hs Hnd Hw Ht Hh Hr].
  assert (Hheld : (1 <= held th)%nat) by (apply (Hh tid th Hth); congruence).
  pose proof (held_le_total _ _ _ Hth) as Hle.
  destruct Hp as [Hp|Hp]; [|lia].
  assert (Hnw : tid ∉ waiting s).
  { intros Hin. destruct (Hw _ Hin) as (th' & Hth' & Hpc'). congruence. }
  set (g := fun m : gmap nat Thread =>
              match held th with
              | O | S O => delete tid m
              | S n => alter (fun th => mkThread (th_task th) Releasing n) tid m
              end).
  assert (Hg : forall m, m !! tid = Some th ->
             (held_total (g m) + 1)%nat = held_total m).
  { intros m Hm. unfold g. destruct (held th) as [|[|n]] eqn:E; [lia| |].
    - pose proof (held_total_delete m tid th Hm). lia.
    - pose proof (held_total_alter m tid th
                    (fun th => mkThread (th_task th) Releasing (S n)) Hm) as H1.
      simpl in H1. lia. }
  assert (Hgne : forall m tid', tid' ≠ tid -> g m !! tid' = m !! tid').
  { intros m tid' Hne. unfold g. destruct (held th) as [|[|n]].
    - by rewrite lookup_delete_ne.
    - by rewrite lookup_delete_ne.
    - by rewrite lookup_alter_ne. }
  assert (Hgeq : forall m th', m !! tid = Some th -> g m !! tid = Some th' ->
             th_task th' = th_task th /\ th_pc th' = Releasing
             /\ (1 <= held th')%nat).
  { intros m th' Hm. unfold g. destruct (held th) as [|[|n]].
    - by rewrite lookup_delete_eq.
    - by rewrite lookup_delete_eq.
    - rewrite lookup_alter_eq, Hm. simpl. intros [= <-]. simpl. split_and!; [done..|lia]. }
  assert (E : match held th with
       | O | S O => with_threads (delete tid) (release s)
       | S n => with_threads
                  (alter (fun th => mkThread (th_task th) Releasing n) tid)
                  (release s)
       end = with_threads g (release s)).
  { unfold g. by destruct (held th) as [|[|n]]. }
  rewrite E. clear E. unfold release.
  destruct (waiting s) as [|next rest] eqn:Ewait.
  - split; simpl; try done.
    + left. lia.
    + specialize (Hg _ Hth). lia.
    + intros ? []%elem_of_nil.
    + intros tid' th'. destruct (decide (tid' = tid)) as [->|Hne].
      * intros _. eauto.
      * rewrite Hgne by done. eauto.
    + intros tid' th'. destruct (decide (tid' = tid)) as [->|Hne].
      * intros H%Hgeq; [|done]. intros _. apply H.
      * rewrite Hgne by done. eauto.
    + intros k t Hk Hst. destruct (Hr k t Hk Hst) as (tid' & th' & Hth' & Hk' & Hrp).
      exists tid', th'. rewrite Hgne; [done|].
      intros ->. rewrite Hth in Hth'. injection Hth' as <-.
      rewrite Hpc in Hrp. destruct Hrp as [|[|[|]]]; done.
  - assert (Hnext : next ∈ next :: rest) by left.
    destruct (Hw _ Hnext) as (thn & Hthn & Hpcn).
    assert (Hne : next ≠ tid) by (intros ->; done).
    pose proof (held_total_alter (threads s) next thn
       (fun th => mkThread (th_task th) Acquired (S (held th))) Hthn) as Hsum.
    simpl in Hsum.
    apply NoDup_cons in Hnd as [Hnin Hnd].
    set (m1 := alter (fun th => mkThread (th_task th) Acquired (S (held th))) next
                 (threads s)) in *.
    assert (Hm1 : m1 !! tid = Some th).
    { unfold m1. by rewrite lookup_alter_ne. }
    split; simpl; try done.
    + left. lia.
    + specialize (Hg _ Hm1). fold m1. lia.
    + intros tid' Hin. destruct (Hw tid') as (th' & Hth' & Hpc').
      { by right. }
      exists th'. fold m1. rewrite Hgne by (intros ->; congruence).
      unfold m1. rewrite lookup_alter_ne; [done|]. by intros <-.
    + intros tid' th'. fold m1. destruct (decide (tid' = tid)) as [->|Hne'].
      * intros _. eauto.
      * rewrite Hgne by done. unfold m1.
        destruct (decide (tid' = next)) as [->|Hne''].
        -- intros _. eauto.
        -- rewrite lookup_alter_ne by done. eauto.
    + intros tid' th'. fold m1. destruct (decide (tid' = tid)) as [->|Hne'].
      * intros H%Hgeq; [|done]. intros _. apply H.
      * rewrite Hgne by done. unfold m1.
        destruct (decide (tid' = next)) as [->|Hne''].
        -- rewrite lookup_alter_eq, Hthn. simpl. intros [= <-] _. simpl. lia.
        -- rewrite lookup_alter_ne by done. eauto.
    + intros k t Hk Hst. destruct (Hr k t Hk Hst) as (tid' & th' & Hth' & Hk' & Hrp).
      exists tid', th'. fold m1. rewrite Hgne.
      * unfold m1. rewrite lookup_alter_ne; [done|].
        intros ->. rewrite Hthn in Hth'. injection Hth' as <-.
        rewrite Hpcn in Hrp. destruct Hrp as [|[|[|]]]; done.
      * intros ->. rewrite Hth in Hth'. injection Hth' as <-.
        rewrite Hpc in Hrp. destruct Hrp as [|[|[|]]]; done.
Qed.

(** *** What a new activation leaves alone *)

Lemma acquire_frame tid s :
  tasks (acquire tid s) = tasks s /\ next_tid (acquire tid s) = next_tid s
  /\ order (acquire tid s) = order s /\ dependents (acquire tid s) = dependents s
  /\ indegree (acquire tid s) = indegree s /\ options (acquire tid s) = options s
  /\ executed (acquire tid s) = executed s
  /\ failedTasks (acquire tid s) = failedTasks s
  /\ run_state (acquire tid s) = run_state s
  /\ (forall tid', tid' ≠ tid -> threads (acquire tid s) !! tid' = threads s !! tid').
Proof.
  unfold acquire. case_decide; simpl; split_and!; try done.
  all: intros; by rewrite lookup_alter_ne.
Qed.

Lemma scheduleTask_next_tid k s : next_tid (scheduleTask k s) = S (next_tid s).
Proof.
  unfold scheduleTask.
  destruct (acquire_frame (next_tid s)
    (with_next_tid (S (next_tid s))
       (with_threads (insert (next_tid s) (mkThread k AwaitAcquire 0))
          (update_task k (set_status QUEUED) s)))) as (_ & -> & _). done.
Qed.

Lemma scheduleTask_threads_old k s tid :
  (tid < next_tid s)%nat -> threads (scheduleTask k s) !! tid = threads s !! tid.
Proof.
  intros Hlt. unfold scheduleTask.
  destruct (acquire_frame (next_tid s)
    (with_next_tid (S (next_tid s))
       (with_threads (insert (next_tid s) (mkThread k AwaitAcquire 0))
          (update_task k (set_status QUEUED) s)))) as (_ & _ & _ & _ & _ & _ & _ & _ & _ & ->);
    [|lia].
  simpl. rewrite lookup_insert_ne; [done|lia].
Qed.

Lemma schedule_all_threads_old {A} (f : A -> string) l s tid :
  (tid < next_tid s)%nat ->
  threads (fold_left (fun s x => scheduleTask (f x) s) l s) !! tid = threads s !! tid.
Proof.
  revert s. induction l as [|x l IH]; intros s Hlt; [done|].
  simpl. rewrite IH.
  - by apply scheduleTask_threads_old.
  - rewrite scheduleTask_next_tid. lia.
Qed.

Lemma mark_skipped_all_threads f l s :
  threads (fold_left (mark_skipped f) l s) = threads s.
Proof. revert s. induction l as [|x l IH]; intros s; [done|]. simpl. by rewrite IH. Qed.

Lemma Sem_mark_skipped_all f l s :
  Sem s -> Sem (fold_left (mark_skipped f) l s).
Proof.
  revert s. induction l as [|x l IH]; intros s H; [done|].
  simpl. apply IH. unfold mark_skipped. apply Sem_with_failedTasks.
  by apply Sem_update_task.
Qed.

Lemma Sem_onTaskCompleted k s : Sem s -> Sem (onTaskCompleted k s).
Proof.
  intros H. unfold onTaskCompleted.
  destruct (fold_left _ _ _) as [indegree' newlyReady].
  apply (Sem_schedule_all (fun x => x)). by apply Sem_with_indegree.
Qed.

Lemma onTaskCompleted_threads_old k s tid :
  (tid < next_tid s)%nat -> threads (onTaskCompleted k s) !! tid = threads s !! tid.
Proof.
  intros Hlt. unfold onTaskCompleted.
  destruct (fold_left _ _ _) as [indegree' newlyReady].
  by rewrite (schedule_all_threads_old (fun x => x)).
Qed.

Lemma not_running_pc pc :
  pc = AwaitAcquire \/ pc = Acquired \/ pc = AwaitCompleteEmit
  \/ pc = AwaitFailedEmit \/ pc = Releasing -> ~ running_pc pc.
Proof. intros [|[|[|[|]]]] [|[|[|]]]; congruence. Qed.


Ltac run_pc := unfold running_pc; tauto.

Lemma Sem_on_failure tid th t msg s :
  threads s !! tid = Some th -> th_pc th = AwaitExecutor ->
  tasks s !! th_task th = Some t -> th_task th = id t ->
  Sem s -> Sem (on_failure tid t msg s).
Proof.
  intros Hth Hpc Ht Hid H. unfold on_failure. rewrite <- Hid. case_decide.
  - eapply (Sem_move tid th AwaitRetryEmit (fun t => t)); try exact H;
      try done; try congruence.
    + intros. left. run_pc.
    + simpl. symmetry. by apply alter_id.
  - eapply (Sem_move tid th AwaitFailedEmit
             (fun t => set_error (Some msg) (set_status FAILED t)));
      try exact H; try done; congruence.
Qed.

Lemma Sem_advance tid o s s' :
  (forall k t, tasks s !! k = Some t -> id t = k) ->
  Sem s -> advance tid o s = Some s' -> Sem s'.
Proof.
  intros Hid H. unfold advance.
  destruct (threads s !! tid) as [th|] eqn:Hth; [|done]. simpl.
  destruct (tasks s !! th_task th) as [t|] eqn:Ht; [|done]. simpl.
  pose proof (sem_tid s H _ _ Hth) as Hlt.
  destruct (th_pc th) eqn:Hpc.
  - done.
  - intros [= <-]. eapply (Sem_move tid th AwaitStartEmit); try exact H;
      try done; try congruence.
    intros. left. run_pc.
  - intros [= <-]. eapply (Sem_move tid th AwaitExecutor (fun t => t)); try exact H;
      try done; try congruence.
    + intros. left. run_pc.
    + simpl. symmetry. by apply alter_id.
  - assert (Hfail : forall msg, Sem (on_failure tid t msg s)).
    { intros msg. apply (Sem_on_failure tid th); try done.
      symmetry. by apply Hid. }
    destruct o; intros [= <-]; try apply Hfail.
    eapply (Sem_move tid th AwaitCompleteEmit
              (fun t => set_result (Some value) (set_status COMPLETED t)));
      try exact H; try done; congruence.
  - intros [= <-].
    eapply (Sem_move tid th Releasing (fun t => t));
      try apply (Sem_onTaskCompleted (th_task th) s H); try done; try congruence.
    + by rewrite onTaskCompleted_threads_old.
    + intros t0 _ Hst. right. split; [done|]. apply not_running_pc. tauto.
    + simpl. symmetry. by apply alter_id.
  - intros [= <-]. eapply (Sem_move tid th AwaitRetryDelay (fun t => t)); try exact H;
      try done; try congruence.
    + intros. left. run_pc.
    + simpl. symmetry. by apply alter_id.
  - intros [= <-]. unfold rescheduleTask.
    eapply (Sem_acquire tid th).
    + done.
    + simpl. intros Hin. destruct (sem_waiting s H _ Hin) as (th' & Hth' & Hpc').
      congruence.
    + simpl. intros k t'. destruct (decide (k = th_task th)) as [->|Hne]; [|done].
      rewrite lookup_alter_eq, Ht. simpl. by intros [= <-].
    + by apply Sem_update_task.
  - unfold skipDependentTasks.
    destruct (skip_loop _ _ _ _ _) as [toSkip|]; [|done]. simpl.
    intros [= <-].
    eapply (Sem_move tid th Releasing (fun t => t));
      try apply (Sem_mark_skipped_all (th_task th) toSkip s H); try done;
      try congruence.
    + by rewrite mark_skipped_all_threads.
    + intros t0 _ Hst. right. split; [done|]. apply not_running_pc. tauto.
    + simpl. symmetry. by apply alter_id.
  - intros E. pose proof (Sem_release tid th s Hth Hpc H) as H'.
    destruct (held th) as [|[|n]]; by injection E as <-.
Qed.

Lemma Sem_run_step s s' : Sem s -> run_step s = Some s' -> Sem s'.
Proof.
  intros H. unfold run_step. destruct (run_state s).
  - intros [= <-]. by apply Sem_with_run_state.
  - destruct (hasCircularDependency s) as [[|]|]; [| |done].
    + intros [= <-]. by apply Sem_with_run_state.
    + destruct (_ && _); intros [= <-]; apply Sem_with_run_state; [done|].
      by apply (Sem_schedule_all id).
  - destruct (existsb _ _); intros [= <-]; [done|]. by apply Sem_with_run_state.
  - destruct (failedTasks s); intros [= <-]; by apply Sem_with_run_state.
  - intros [= <-]. by apply Sem_with_run_state.
  - done.
  - done.
Qed.

(** ** Attempts *)

(** The number the [catch] block compares [attempts] with. *)
Definition limit (s : Scheduler) (t : Task) : Z :=
  default (defaultMaxAttempts (options s)) (maxAttempts t).

(** The first attempt is made whatever the limit says. *)
Definition bound (s : Scheduler) (t : Task) : Z := Z.max 1 (limit s t).

(** The thread has yet to count the attempt it is about to make. *)
Definition pre_exec (pc : Pc) : Prop :=
  pc = AwaitAcquire \/ pc = Acquired \/ pc = AwaitRetryEmit \/ pc = AwaitRetryDelay.

Definition calls (s : Scheduler) (k : string) : Z :=
  Z.of_nat (occurrences k (executed s)).

Record Att (s : Scheduler) : Prop := {
  att_uniq : forall tid1 tid2 th1 th2,
      threads s !! tid1 = Some th1 -> threads s !! tid2 = Some th2 ->
      th_task th1 = th_task th2 -> tid1 = tid2;
  att_thread : forall tid th, threads s !! tid = Some th ->
      exists t, tasks s !! th_task th = Some t /\ status t <> PENDING
                /\ (pre_exec (th_pc th) -> attempts t < bound s t)
                /\ (th_pc th = AwaitStartEmit -> calls s (th_task th) + 1 <= attempts t);
  att_task : forall k t, tasks s !! k = Some t ->
      attempts t <= bound s t
      /\ calls s k <= attempts t
      /\ (status t = PENDING -> attempts t = 0)
      /\ (status t = FAILED -> limit s t <= attempts t)
}.

Lemma calls_app s s' l k :
  executed s' = (executed s ++ l)%list ->
  calls s' k = calls s k + Z.of_nat (occurrences k l).
Proof. intros E. unfold calls. rewrite E, occurrences_app. lia. Qed.

(** A thread moves and writes its own task. *)
Lemma Att_move tid th t g f l s s' :
  threads s !! tid = Some th -> tasks s !! th_task th = Some t ->
  tasks s' = alter f (th_task th) (tasks s) ->
  threads s' = alter g tid (threads s) ->
  th_task (g th) = th_task th ->
  executed s' = (executed s ++ l)%list -> options s' = options s ->
  (forall k, k ≠ th_task th -> k ∉ l) ->
  maxAttempts (f t) = maxAttempts t ->
  status (f t) <> PENDING ->
  attempts (f t) <= bound s t ->
  (pre_exec (th_pc (g th)) -> attempts (f t) < bound s t) ->
  (status (f t) = FAILED -> limit s t <= attempts (f t)) ->
  calls s (th_task th) + Z.of_nat (occurrences (th_task th) l) <= attempts (f t) ->
  (th_pc (g th) = AwaitStartEmit ->
   calls s (th_task th) + Z.of_nat (occurrences (th_task th) l) + 1 <= attempts (f t)) ->
  Att s -> Att s'.
Proof.
  intros Hth Ht Etasks Ethreads Hg Eex Eopt Hl Hmax Hst Hb Hpre Hfail Hc Hc1
         [Hu Hthr Htask].
  assert (Hlim : forall t0, limit s' t0 = limit s t0).
  { intros t0. unfold limit. by rewrite Eopt. }
  assert (Hbd : forall t0, bound s' t0 = bound s t0).
  { intros t0. unfold bound. by rewrite Hlim. }
  assert (Hlimf : limit s (f t) = limit s t) by (unfold limit; by rewrite Hmax).
  assert (Hbdf : bound s (f t) = bound s t) by (unfold bound; by rewrite Hlimf).
  assert (Hcalls : forall k, k ≠ th_task th -> calls s' k = calls s k).
  { intros k Hk. rewrite (calls_app s s' l k Eex).
    assert (occurrences k l = 0%nat); [|lia].
    destruct (occurrences k l) eqn:E; [done|].
    exfalso. apply (Hl k Hk). apply occurrences_pos. lia. }
  split.
  - intros tid1 tid2 th1 th2. rewrite Ethreads.
    intros H1 H2 E.
    assert (Hold : forall tid' th', alter g tid (threads s) !! tid' = Some th' ->
              exists th0, threads s !! tid' = Some th0 /\ th_task th0 = th_task th').
    { intros tid' th'. destruct (decide (tid' = tid)) as [->|Hne].
      - rewrite lookup_alter_eq, Hth. simpl. intros [= <-]. eauto.
      - rewrite lookup_alter_ne by done. eauto. }
    destruct (Hold _ _ H1) as (th1' & H1' & E1).
    destruct (Hold _ _ H2) as (th2' & H2' & E2).
    apply (Hu tid1 tid2 th1' th2' H1' H2'). congruence.
  - intros tid' th'. rewrite Ethreads, Etasks.
    destruct (decide (tid' = tid)) as [->|Hne].
    + rewrite lookup_alter_eq, Hth. simpl. intros [= <-].
      rewrite Hg, lookup_alter_eq, Ht. simpl. exists (f t).
      rewrite Hbd, Hbdf, (calls_app s s' l _ Eex). done.
    + rewrite lookup_alter_ne by done. intros Hth'.
      destruct (Hthr _ _ Hth') as (t' & Ht' & Hs' & Hp' & Hc').
      assert (th_task th' ≠ th_task th).
      { intros E. apply Hne. by apply (Hu tid' tid th' th). }
      rewrite lookup_alter_ne by done. exists t'.
      rewrite Hbd, Hcalls by done. done.
  - intros k t'. rewrite Etasks.
    destruct (decide (k = th_task th)) as [->|Hne].
    + rewrite lookup_alter_eq, Ht. simpl. intros [= <-].
      rewrite Hbd, Hlim, Hbdf, Hlimf, (calls_app s s' l _ Eex).
      split_and!; try done.
    + rewrite lookup_alter_ne by done. intros Hk.
      rewrite Hbd, Hlim, Hcalls by done. by apply Htask.
Qed.

(** The threads change, each keeping its task and gaining no obligation. *)
Lemma Att_threads s s' :
  tasks s' = tasks s -> executed s' = executed s -> options s' = options s ->
  (forall tid th', threads s' !! tid = Some th' ->
     exists th, threads s !! tid = Some th /\ th_task th' = th_task th
                /\ (pre_exec (th_pc th') -> pre_exec (th_pc th))
                /\ (th_pc th' = AwaitStartEmit -> th_pc th = AwaitStartEmit)) ->
  Att s -> Att s'.
Proof.
  intros Etasks Eex Eopt Hold [Hu Hthr Htask].
  assert (Hlim : forall t0, limit s' t0 = limit s t0).
  { intros t0. unfold limit. by rewrite Eopt. }
  assert (Hbd : forall t0, bound s' t0 = bound s t0).
  { intros t0. unfold bound. by rewrite Hlim. }
  assert (Hcalls : forall k, calls s' k = calls s k).
  { intros k. unfold calls. by rewrite Eex. }
  split.
  - intros tid1 tid2 th1 th2 H1 H2 E.
    destruct (Hold _ _ H1) as (th1' & H1' & E1 & _).
    destruct (Hold _ _ H2) as (th2' & H2' & E2 & _).
    apply (Hu tid1 tid2 th1' th2' H1' H2'). congruence.
  - intros tid th' Hth'. destruct (Hold _ _ Hth') as (th & Hth & E & Hp & Hs).
    destruct (Hthr _ _ Hth) as (t & Ht & Hst & Hpre & Hc).
    exists t. rewrite Etasks, E, Hbd, Hcalls. split_and!; auto.
  - intros k t. rewrite Etasks, Hbd, Hlim, Hcalls. apply Htask.
Qed.

(** A task is written by something other than its thread. *)
Lemma Att_update k f s s' :
  tasks s' = alter f k (tasks s) -> threads s' = threads s ->
  executed s' = executed s -> options s' = options s ->
  (forall t, maxAttempts (f t) = maxAttempts t /\ attempts (f t) = attempts t
             /\ status (f t) <> PENDING /\ status (f t) <> FAILED) ->
  Att s -> Att s'.
Proof.
  intros Etasks Ethreads Eex Eopt Hf [Hu Hthr Htask].
  assert (Hlim : forall t0, limit s' t0 = limit s t0).
  { intros t0. unfold limit. by rewrite Eopt. }
  assert (Hbd : forall t0, bound s' t0 = bound s t0).
  { intros t0. unfold bound. by rewrite Hlim. }
  assert (Hcalls : forall k, calls s' k = calls s k).
  { intros k0. unfold calls. by rewrite Eex. }
  assert (Hlimf : forall t, limit s (f t) = limit s t).
  { intros t. unfold limit. by destruct (Hf t) as (-> & _). }
  assert (Hbdf : forall t, bound s (f t) = bound s t).
  { intros t. unfold bound. by rewrite Hlimf. }
  split.
  - rewrite Ethreads. apply Hu.
  - intros tid th. rewrite Ethreads, Etasks. intros Hth.
    destruct (Hthr _ _ Hth) as (t & Ht & Hst & Hpre & Hc).
    destruct (decide (th_task th = k)) as [E|Hne].
    + rewrite E, lookup_alter_eq. rewrite E in Ht. rewrite Ht. simpl.
      exists (f t). destruct (Hf t) as (_ & Ha & Hs & _).
      rewrite Hbd, Hbdf, Hcalls, Ha, <- E. done.
    + rewrite lookup_alter_ne by done. exists t. rewrite Hbd, Hcalls. done.
  - intros k' t'. rewrite Etasks.
    destruct (decide (k' = k)) as [->|Hne].
    + rewrite lookup_alter_eq. destruct (tasks s !! k) as [t|] eqn:Ht; [|done].
      simpl. intros [= <-]. destruct (Hf t) as (_ & Ha & Hs & Hfl).
      destruct (Htask _ _ Ht) as (H1 & H2 & H3 & H4).
      rewrite Hbd, Hbdf, Hlim, Hlimf, Hcalls, Ha. done.
    + rewrite lookup_alter_ne by done. intros Hk.
      rewrite Hbd, Hlim, Hcalls. by apply Htask.
Qed.

(** *** What the semaphore does to the threads *)

Lemma acquire_threads tid s tid' th' :
  threads (acquire tid s) !! tid' = Some th' ->
  exists th, threads s !! tid' = Some th /\ th_task th' = th_task th
             /\ (tid' ≠ tid -> th' = th)
             /\ (tid' = tid -> th_pc th' = Acquired \/ th_pc th' = AwaitAcquire).
Proof.
  unfold acquire. case_decide; simpl.
  all: destruct (decide (tid' = tid)) as [->|Hne];
    [rewrite lookup_alter_eq; destruct (threads s !! tid) as [th|]; [|done];
     simpl; intros [= <-]; exists th; simpl; split_and!; auto; done
    |rewrite lookup_alter_ne by done; intros Hth; exists th'; split_and!; auto; done].
Qed.

Lemma release_threads s tid' th' :
  (forall tid, tid ∈ waiting s ->
     exists th, threads s !! tid = Some th /\ th_pc th = AwaitAcquire) ->
  threads (release s) !! tid' = Some th' ->
  exists th, threads s !! tid' = Some th /\ th_task th' = th_task th
             /\ (th' = th \/ (th_pc th = AwaitAcquire /\ th_pc th' = Acquired)).
Proof.
  intros Hw. unfold release. destruct (waiting s) as [|next rest]; simpl.
  - intros Hth. exists th'. auto.
  - destruct (decide (tid' = next)) as [->|Hne].
    + destruct (Hw next) as (th & Hth & Hpc); [by left|].
      rewrite lookup_alter_eq, Hth. simpl. intros [= <-]. exists th. simpl. auto.
    + rewrite lookup_alter_ne by done. intros Hth. exists th'. auto.
Qed.

Lemma release_frame s :
  tasks (release s) = tasks s /\ next_tid (release s) = next_tid s
  /\ order (release s) = order s /\ dependents (release s) = dependents s
  /\ indegree (release s) = indegree s /\ options (release s) = options s
  /\ executed (release s) = executed s
  /\ failedTasks (release s) = failedTasks s
  /\ run_state (release s) = run_state s.
Proof. unfold release. by destruct (waiting s). Qed.

Lemma pre_exec_cases pc :
  pc = Acquired \/ pc = AwaitAcquire -> pre_exec pc.
Proof. unfold pre_exec. tauto. Qed.

Lemma Att_acquire tid th s :
  threads s !! tid = Some th -> pre_exec (th_pc th) ->
  Att s -> Att (acquire tid s).
Proof.
  intros Hth Hpre. destruct (acquire_frame tid s) as (Et & _ & _ & _ & _ & Eo & Ee & _).
  apply Att_threads; try done.
  intros tid' th' Hth'.
  destruct (acquire_threads _ _ _ _ Hth') as (th0 & Hth0 & E & Hne & Heq).
  exists th0. split; [done|]. split; [done|].
  destruct (decide (tid' = tid)) as [->|Hn].
  - rewrite Hth in Hth0. injection Hth0 as <-.
    split; [done|]. intros Hs. destruct (Heq eq_refl); congruence.
  - by rewrite (Hne Hn).
Qed.

Lemma Att_release_step tid th s :
  (forall tid, tid ∈ waiting s ->
     exists th, threads s !! tid = Some th /\ th_pc th = AwaitAcquire) ->
  threads s !! tid = Some th -> th_pc th = Releasing ->
  Att s ->
  Att (match held th with
       | O | S O => with_threads (delete tid) (release s)
       | S n => with_threads
                  (alter (fun th => mkThread (th_task th) Releasing n) tid)
                  (release s)
       end).
Proof.
  intros Hw Hth Hpc H.
  destruct (release_frame s) as (Et & _ & _ & _ & _ & Eo & Ee & _).
  apply (Att_threads s); [destruct (held th) as [|[|n]]; simpl; congruence..| |done].
  intros tid' th'.
  assert (Hrel : forall th1, threads (release s) !! tid' = Some th1 ->
            exists th0, threads s !! tid' = Some th0 /\ th_task th1 = th_task th0
              /\ (pre_exec (th_pc th1) -> pre_exec (th_pc th0))
              /\ (th_pc th1 = AwaitStartEmit -> th_pc th0 = AwaitStartEmit)).
  { intros th1 H1. destruct (release_threads s _ _ Hw H1) as (th0 & H0 & E & Hc).
    exists th0. split; [done|]. split; [done|].
    destruct Hc as [->|[Ha Hb]]; [done|].
    rewrite Ha, Hb. split; [intros _; unfold pre_exec; tauto|done]. }
  destruct (held th) as [|[|n]]; simpl.
  - destruct (decide (tid' = tid)) as [->|Hne];
      [by rewrite lookup_delete_eq|rewrite lookup_delete_ne by done; apply Hrel].
  - destruct (decide (tid' = tid)) as [->|Hne];
      [by rewrite lookup_delete_eq|rewrite lookup_delete_ne by done; apply Hrel].
  - destruct (decide (tid' = tid)) as [->|Hne]; [|rewrite lookup_alter_ne by done; apply Hrel].
    rewrite lookup_alter_eq.
    destruct (threads (release s) !! tid) as [th1|] eqn:E1; [|done]. simpl.
    intros [= <-]. simpl.
    destruct (Hrel th1 eq_refl) as (th0 & H0 & E & _).
    exists th0. split; [done|]. split; [done|].
    split; [intros [|[|[|]]]; done|done].
Qed.

(** A new activation for a pending task. *)
Lemma Att_scheduleTask k t s :
  tasks s !! k = Some t -> status t = PENDING ->
  (forall tid th, threads s !! tid = Some th -> (tid < next_tid s)%nat) ->
  Att s -> Att (scheduleTask k s).
Proof.
  intros Ht Hst Hlt H. unfold scheduleTask.
  assert (Hfresh : threads s !! next_tid s = None).
  { destruct (threads s !! next_tid s) eqn:E; [|done]. apply Hlt in E. lia. }
  eapply (Att_acquire _ (mkThread k AwaitAcquire 0)).
  - simpl. apply lookup_insert_eq.
  - simpl. unfold pre_exec. tauto.
  - destruct H as [Hu Hthr Htask].
    assert (Hnk : forall tid th, threads s !! tid = Some th -> th_task th ≠ k).
    { intros tid th Hth E. destruct (Hthr _ _ Hth) as (t' & Ht' & Hs' & _).
      rewrite E, Ht in Ht'. by injection Ht' as <-. }
    destruct (Htask _ _ Ht) as (Hb & Hc & Hz & Hf).
    split; simpl.
    + intros tid1 tid2 th1 th2.
      destruct (decide (tid1 = next_tid s)) as [->|Hne1];
        destruct (decide (tid2 = next_tid s)) as [->|Hne2]; try done.
      * rewrite lookup_insert_eq, lookup_insert_ne by done.
        intros [= <-] H2 E. simpl in E. exfalso. exact (Hnk _ _ H2 (eq_sym E)).
      * rewrite lookup_insert_eq, lookup_insert_ne by done.
        intros H1 [= <-] E. simpl in E. exfalso. exact (Hnk _ _ H1 E).
      * rewrite !lookup_insert_ne by done. apply Hu.
    + intros tid th. destruct (decide (tid = next_tid s)) as [->|Hne].
      * rewrite lookup_insert_eq. intros [= <-]. simpl.
        rewrite lookup_alter_eq, Ht. simpl. eexists. split; [done|]. simpl.
        split; [done|]. split; [|done]. intros _.
        change (attempts t < Z.max 1 (limit s t)). rewrite (Hz Hst). lia.
      * rewrite lookup_insert_ne by done. intros Hth.
        rewrite lookup_alter_ne by (by apply not_eq_sym, (Hnk tid)).
        exact (Hthr _ _ Hth).
    + intros k' t'. destruct (decide (k' = k)) as [->|Hne].
      * rewrite lookup_alter_eq, Ht. simpl. intros [= <-]. simpl.
        split_and!; try done.
      * rewrite lookup_alter_ne by done. apply Htask.
Qed.

Lemma scheduleTask_frame k s :
  let s' := scheduleTask k s in
  tasks s' = alter (set_status QUEUED) k (tasks s)
  /\ order s' = order s /\ dependents s' = dependents s
  /\ indegree s' = indegree s /\ options s' = options s
  /\ executed s' = executed s /\ failedTasks s' = failedTasks s
  /\ run_state s' = run_state s.
Proof.
  unfold scheduleTask.
  destruct (acquire_frame (next_tid s)
    (with_next_tid (S (next_tid s))
       (with_threads (insert (next_tid s) (mkThread k AwaitAcquire 0))
          (update_task k (set_status QUEUED) s))))
    as (-> & _ & -> & -> & -> & -> & -> & -> & -> & _). done.
Qed.

Lemma Att_schedule_all l :
  forall s, NoDup l ->
    (forall k, k ∈ l -> exists t, tasks s !! k = Some t /\ status t = PENDING) ->
    Sem s -> Att s ->
    Att (fold_left (fun s k => scheduleTask k s) l s).
Proof.
  induction l as [|k l IH]; intros s Hnd Hp Hsem H; [done|].
  apply NoDup_cons in Hnd as [Hk Hnd]. simpl.
  destruct (Hp k) as (t & Ht & Hst); [by left|].
  apply IH; [done| |by apply Sem_scheduleTask|].
  - intros k' Hk'. destruct (Hp k') as (t' & Ht' & Hst'); [by right|].
    exists t'. destruct (scheduleTask_frame k s) as (-> & _).
    rewrite lookup_alter_ne; [done|]. by intros ->.
  - eapply Att_scheduleTask; try done. apply (sem_tid s Hsem).
Qed.

(** ** What a run never changes *)

Record Wf (s : Scheduler) : Prop := {
  wf_nodup : NoDup (order s);
  wf_order : forall k, k ∈ order s <-> is_Some (tasks s !! k);
  wf_id : forall k t, tasks s !! k = Some t -> id t = k;
  wf_max : forall k t, tasks s !! k = Some t -> is_Some (maxAttempts t);
  wf_edge : forall p c, edge (dependents s) p c -> p ∈ order s /\ c ∈ order s
}.

Record frame (s s' : Scheduler) : Prop := {
  fr_order : order s' = order s;
  fr_dependents : dependents s' = dependents s;
  fr_options : options s' = options s;
  fr_tasks : forall k,
      match tasks s !! k with
      | Some t => exists t', tasks s' !! k = Some t' /\ id t' = id t
                             /\ maxAttempts t' = maxAttempts t
      | None => tasks s' !! k = None
      end
}.

Lemma frame_refl s : frame s s.
Proof. split; try done. intros k. destruct (tasks s !! k) eqn:E; eauto. Qed.

Lemma frame_trans s1 s2 s3 : frame s1 s2 -> frame s2 s3 -> frame s1 s3.
Proof.
  intros [Ho1 Hd1 Hp1 Ht1] [Ho2 Hd2 Hp2 Ht2]. split; try congruence.
  intros k. specialize (Ht1 k). specialize (Ht2 k).
  destruct (tasks s1 !! k) as [t1|].
  - destruct Ht1 as (t2 & E2 & Hi & Hm). rewrite E2 in Ht2.
    destruct Ht2 as (t3 & E3 & Hi3 & Hm3). exists t3. split; [done|]. split; congruence.
  - by rewrite Ht1 in Ht2.
Qed.

Definition keeps (f : Task -> Task) : Prop :=
  forall t, id (f t) = id t /\ maxAttempts (f t) = maxAttempts t.

Lemma frame_alter f k s s' :
  keeps f -> tasks s' = alter f k (tasks s) -> order s' = order s ->
  dependents s' = dependents s -> options s' = options s -> frame s s'.
Proof.
  intros Hf Et Eo Ed Ep. split; try done. intros k'. rewrite Et.
  destruct (decide (k' = k)) as [->|Hne].
  - rewrite lookup_alter_eq. destruct (tasks s !! k) as [t|]; [|done].
    simpl. exists (f t). split; [done|]. apply Hf.
  - rewrite lookup_alter_ne by done. destruct (tasks s !! k'); eauto.
Qed.

Lemma frame_same s s' :
  tasks s' = tasks s -> order s' = order s ->
  dependents s' = dependents s -> options s' = options s -> frame s s'.
Proof.
  intros Et Eo Ed Ep. split; try done. intros k. rewrite Et.
  destruct (tasks s !! k); eauto.
Qed.

Lemma Wf_frame s s' : Wf s -> frame s s' -> Wf s'.
Proof.
  intros [Hn Ho Hi Hm He] [Eo Ed Ep Et]. split.
  - by rewrite Eo.
  - intros k. rewrite Eo, Ho. specialize (Et k).
    destruct (tasks s !! k) as [t|].
    + destruct Et as (t' & -> & _). split; eauto.
    + rewrite Et. split; by intros [? ?].
  - intros k t' Hk. specialize (Et k). destruct (tasks s !! k) as [t|] eqn:E.
    + destruct Et as (t'' & E' & Hid & _). rewrite Hk in E'. injection E' as <-.
      rewrite Hid. by apply Hi.
    + congruence.
  - intros k t' Hk. specialize (Et k). destruct (tasks s !! k) as [t|] eqn:E.
    + destruct Et as (t'' & E' & _ & Hmax). rewrite Hk in E'. injection E' as <-.
      rewrite Hmax. by eapply Hm.
    + congruence.
  - intros p c. rewrite Ed, Eo. apply He.
Qed.

Ltac frame_by k := eapply (frame_alter _ k); [|reflexivity..]; by intros ?.

Lemma frame_scheduleTask k s : frame s (scheduleTask k s).
Proof.
  destruct (scheduleTask_frame k s) as (Et & Eo & Ed & _ & Ep & _).
  by apply (frame_alter (set_status QUEUED) k); [intros ?|..].
Qed.

Lemma frame_schedule_all {A} (f : A -> string) l s :
  frame s (fold_left (fun s x => scheduleTask (f x) s) l s).
Proof.
  revert s. induction l as [|x l IH]; intros s; [apply frame_refl|].
  simpl. eapply frame_trans; [apply frame_scheduleTask|apply IH].
Qed.

Lemma frame_mark_skipped_all f l s : frame s (fold_left (mark_skipped f) l s).
Proof.
  revert s. induction l as [|x l IH]; intros s; [apply frame_refl|].
  simpl. eapply frame_trans; [|apply IH].
  frame_by x.
Qed.

Lemma frame_onTaskCompleted k s : frame s (onTaskCompleted k s).
Proof.
  unfold onTaskCompleted. destruct (fold_left _ _ _) as [indegree' newlyReady].
  eapply frame_trans; [|apply (frame_schedule_all (fun x => x))].
  by apply frame_same.
Qed.

Lemma frame_acquire tid s : frame s (acquire tid s).
Proof.
  destruct (acquire_frame tid s) as (Et & _ & Eo & Ed & _ & Ep & _).
  by apply frame_same.
Qed.

Lemma frame_release s : frame s (release s).
Proof.
  destruct (release_frame s) as (Et & _ & Eo & Ed & _ & Ep & _).
  by apply frame_same.
Qed.

Lemma frame_advance tid o s s' : advance tid o s = Some s' -> frame s s'.
Proof.
  unfold advance.
  destruct (threads s !! tid) as [th|] eqn:Hth; [|done]. simpl.
  destruct (tasks s !! th_task th) as [t|] eqn:Ht; [|done]. simpl.
  destruct (th_pc th) eqn:Hpc.
  - done.
  - intros [= <-]. frame_by (th_task th).
  - intros [= <-]. by apply frame_same.
  - assert (Hfail : forall msg, frame s (on_failure tid t msg s)).
    { intros msg. unfold on_failure. case_decide.
      - by apply frame_same.
      - frame_by (id t). }
    destruct o; intros [= <-]; try apply Hfail.
    frame_by (th_task th).
  - intros [= <-]. eapply frame_trans; [apply (frame_onTaskCompleted (th_task th))|].
    by apply frame_same.
  - intros [= <-]. by apply frame_same.
  - intros [= <-]. unfold rescheduleTask.
    eapply frame_trans; [|apply frame_acquire].
    frame_by (th_task th).
  - unfold skipDependentTasks.
    destruct (skip_loop _ _ _ _ _) as [toSkip|]; [|done]. simpl.
    intros [= <-]. eapply frame_trans; [apply (frame_mark_skipped_all (th_task th) toSkip)|].
    by apply frame_same.
  - intros E. eapply frame_trans; [apply frame_release|].
    destruct (held th) as [|[|n]]; injection E as <-; by apply frame_same.
Qed.

Lemma frame_run_step s s' : run_step s = Some s' -> frame s s'.
Proof.
  unfold run_step. destruct (run_state s).
  - intros [= <-]. by apply frame_same.
  - destruct (hasCircularDependency s) as [[|]|]; [| |done].
    + intros [= <-]. by apply frame_same.
    + destruct (_ && _); intros [= <-]; [by apply frame_same|].
      eapply frame_trans; [apply (frame_schedule_all id)|]. by apply frame_same.
  - destruct (existsb _ _); intros [= <-]; [apply frame_refl|]. by apply frame_same.
  - destruct (failedTasks s); intros [= <-]; by apply frame_same.
  - intros [= <-]. by apply frame_same.
  - done.
  - done.
Qed.

Lemma frame_step c s s' : step c s = Some s' -> frame s s'.
Proof. destruct c; [apply frame_run_step|apply frame_advance]. Qed.

Lemma frame_exec cs : forall s s', exec cs s = Some s' -> frame s s'.
Proof.
  induction cs as [|c cs IH]; intros s s'; simpl.
  - intros [= <-]. apply frame_refl.
  - destruct (step c s) as [s1|] eqn:E; [|done]. intros H.
    eapply frame_trans; [by eapply frame_step|by apply IH].
Qed.

Lemma Wf_loaded taskList opts s : loaded taskList opts s -> Wf s.
Proof.
  intros Hl. split.
  - apply (ld_nodup _ _ _ Hl).
  - intros k. by rewrite (ld_order _ _ _ Hl), (ld_tasks _ _ _ Hl).
  - intros k t Hk. by destruct (ld_task _ _ _ Hl k t Hk).
  - intros k t Hk. by destruct (ld_task _ _ _ Hl k t Hk) as (_ & _ & _ & ?).
  - intros p c He. split.
    + apply (ld_order _ _ _ Hl), (dl_dom _ _ (ld_deps _ _ _ Hl)).
      unfold edge, children in He. destruct (dependents s !! p); [eauto|].
      by apply elem_of_nil in He.
    + by apply (ld_order _ _ _ Hl), (dl_children _ _ (ld_deps _ _ _ Hl) p).
Qed.

(** *** The tasks a completion starts *)

Lemma completed_children_spec tasks children :
  forall ind acc,
    NoDup acc ->
    (forall c, c ∈ acc -> default 0 (ind !! c) <= 0
               /\ exists t, tasks !! c = Some t /\ status t = PENDING) ->
    forall ind' nr,
      fold_left (completed_child tasks) children (ind, acc) = (ind', nr) ->
      NoDup nr
      /\ (forall c, c ∈ nr -> default 0 (ind' !! c) <= 0
                    /\ exists t, tasks !! c = Some t /\ status t = PENDING)
      /\ (forall c, default 0 (ind' !! c)
                    = default 0 (ind !! c) - Z.of_nat (occurrences c children)).
Proof.
  induction children as [|x children IH]; intros ind acc Hnd Hacc ind' nr; simpl.
  - intros [= <- <-]. split; [done|]. split; [done|]. intros c.
    unfold occurrences. rewrite filter_nil. simpl. lia.
  - set (cur := default 0 (ind !! x) - 1).
    assert (Hind1 : forall c, default 0 (<[x:=cur]> ind !! c)
                     = default 0 (ind !! c) - (if decide (x = c) then 1 else 0)).
    { intros c. case_decide as E.
      - subst. by rewrite lookup_insert_eq.
      - rewrite lookup_insert_ne by done. lia. }
    assert (Hocc : forall c, Z.of_nat (occurrences c (x :: children))
                   = (if decide (x = c) then 1 else 0)
                     + Z.of_nat (occurrences c children)).
    { intros c. unfold occurrences. rewrite filter_cons.
      case_decide; simpl; lia. }
    assert (Hkeep : forall c, c ∈ acc -> default 0 (<[x:=cur]> ind !! c) <= 0
               /\ exists t, tasks !! c = Some t /\ status t = PENDING).
    { intros c Hc. destruct (Hacc c Hc) as [H1 H2]. split; [|done].
      rewrite Hind1. case_decide; lia. }
    assert (Hrest : forall acc1,
              NoDup acc1 ->
              (forall c, c ∈ acc1 -> default 0 (<[x:=cur]> ind !! c) <= 0
                 /\ exists t, tasks !! c = Some t /\ status t = PENDING) ->
              fold_left (completed_child tasks) children (<[x:=cur]> ind, acc1)
                = (ind', nr) ->
              NoDup nr
              /\ (forall c, c ∈ nr -> default 0 (ind' !! c) <= 0
                    /\ exists t, tasks !! c = Some t /\ status t = PENDING)
              /\ (forall c, default 0 (ind' !! c)
                    = default 0 (ind !! c) - Z.of_nat (occurrences c (x :: children)))).
    { intros acc1 Hnd1 Hacc1 Hfold.
      destruct (IH _ _ Hnd1 Hacc1 _ _ Hfold) as (H1 & H2 & H3).
      split; [done|]. split; [done|]. intros c. rewrite H3, Hind1, Hocc. lia. }
    unfold completed_child at 2. simpl. fold cur.
    case_decide as Hcur; [|by apply Hrest].
    destruct (tasks !! x) as [t|] eqn:Ht; [|by apply Hrest].
    case_decide as Hst; [|by apply Hrest].
    apply Hrest.
    + apply NoDup_app. split; [done|]. split; [|apply NoDup_singleton].
      intros c Hc ->%list_elem_of_singleton.
      destruct (Hacc _ Hc) as [Hle _]. unfold cur in Hcur. lia.
    + intros c [Hc| ->%list_elem_of_singleton]%elem_of_app; [by apply Hkeep|].
      rewrite lookup_insert_eq. simpl. split; [lia|eauto].
Qed.

(** *** The first batch *)

Lemma insert_by_priority_perm x l : insert_by_priority x l ≡ₚ x :: l.
Proof.
  induction l as [|y l IH]; simpl; [done|].
  case_decide; [|done]. rewrite IH. apply Permutation_swap.
Qed.

Lemma sort_by_priority_perm l : sort_by_priority l ≡ₚ l.
Proof.
  induction l as [|x l IH]; simpl; [done|].
  by rewrite insert_by_priority_perm, IH.
Qed.

Lemma task_values_spec s t :
  Wf s -> t ∈ task_values s <-> tasks s !! id t = Some t.
Proof.
  intros Hwf. unfold task_values. rewrite list_elem_of_omap. split.
  - intros (k & Hk & Ht). by rewrite (wf_id s Hwf k t Ht).
  - intros Ht. exists (id t). split; [|done]. apply (wf_order s Hwf). eauto.
Qed.

Lemma task_values_nodup s : Wf s -> NoDup (map id (task_values s)).
Proof.
  intros Hwf. unfold task_values. pose proof (wf_nodup s Hwf) as Hnd.
  induction (order s) as [|k l IH]; simpl; [apply NoDup_nil_2|].
  apply NoDup_cons in Hnd as [Hk Hnd].
  destruct (tasks s !! k) as [t|] eqn:Ht; [|by apply IH].
  simpl. apply NoDup_cons. split; [|by apply IH].
  rewrite (wf_id s Hwf k t Ht). intros Hin.
  apply list_elem_of_fmap in Hin as (t' & Hid & Hin).
  apply list_elem_of_omap in Hin as (k' & Hk' & Ht').
  rewrite (wf_id s Hwf k' t' Ht') in Hid. by subst.
Qed.

Lemma filter_ids_nodup (p : Task -> bool) l :
  NoDup (map id l) -> NoDup (map id (List.filter p l)).
Proof.
  induction l as [|x l IH]; simpl; [done|].
  intros [Hx Hnd]%NoDup_cons. destruct (p x); simpl; [|by apply IH].
  apply NoDup_cons. split; [|by apply IH].
  intros Hin. apply Hx.
  apply list_elem_of_fmap in Hin as (t' & Hid & Hin).
  apply list_elem_of_fmap. exists t'. split; [done|].
  apply list_elem_of_In. apply list_elem_of_In in Hin.
  by apply filter_In in Hin as [? _].
Qed.

Lemma getReadyTasks_spec s :
  Wf s ->
  NoDup (map id (getReadyTasks s))
  /\ (forall t, t ∈ getReadyTasks s ->
        tasks s !! id t = Some t /\ status t = PENDING
        /\ default 0 (indegree s !! id t) = 0).
Proof.
  intros Hwf. unfold getReadyTasks. split.
  - rewrite sort_by_priority_perm. apply filter_ids_nodup.
    by apply task_values_nodup.
  - intros t. rewrite sort_by_priority_perm.
    intros Hin%list_elem_of_In%filter_In. destruct Hin as [Hin Hr].
    apply list_elem_of_In, task_values_spec in Hin; [|done].
    unfold is_ready in Hr. apply andb_prop in Hr as [H1 H2].
    apply bool_decide_eq_true in H1, H2. done.
Qed.

Lemma fold_left_fmap {A B C} (g : B -> C -> C) (f : A -> B) l s :
  fold_left (fun s x => g (f x) s) l s = fold_left (fun s k => g k s) (map f l) s.
Proof. revert s. induction l as [|x l IH]; intros s; simpl; [done|]. apply IH. Qed.

(** *** The steps *)

Lemma Att_with_run_state r s : Att s -> Att (with_run_state r s).
Proof. intros []. by split. Qed.

Lemma Att_with_indegree m s : Att s -> Att (with_indegree m s).
Proof. intros []. by split. Qed.

Lemma Att_mark_skipped_all f l s :
  Att s -> Att (fold_left (mark_skipped f) l s).
Proof.
  revert s. induction l as [|x l IH]; intros s H; [done|].
  simpl. apply IH. by eapply (Att_update x _ s).
Qed.

Lemma Att_onTaskCompleted k s :
  Sem s -> Att s -> Att (onTaskCompleted k s).
Proof.
  intros Hsem H. unfold onTaskCompleted.
  destruct (fold_left _ _ _) as [indegree' newlyReady] eqn:Hfold.
  destruct (completed_children_spec _ _ _ [] (NoDup_nil_2)
              ltac:(by intros ? ?%elem_of_nil) _ _ Hfold) as (Hnd & Hnr & _).
  apply Att_schedule_all; try done.
  - intros c Hc. by destruct (Hnr c Hc).
  - by apply Sem_with_indegree.
  - by apply Att_with_indegree.
Qed.

Lemma occurrences_nil c : occurrences c [] = 0%nat.
Proof. done. Qed.

Lemma occurrences_self c : occurrences c [c] = 1%nat.
Proof. rewrite occurrences_singleton. by rewrite decide_True. Qed.

Lemma bound_limit s t : limit s t <= bound s t /\ 1 <= bound s t.
Proof. unfold bound. lia. Qed.

(** A thread moves to a point where it owes nothing. *)
Lemma Att_set_pc tid pc s :
  ~ pre_exec pc -> pc <> AwaitStartEmit -> Att s -> Att (set_pc tid pc s).
Proof.
  intros Hpre Hst. apply Att_threads; try done. simpl. intros tid' th'.
  destruct (decide (tid' = tid)) as [->|Hne].
  - rewrite lookup_alter_eq. destruct (threads s !! tid) as [th|]; [|done].
    simpl. intros [= <-]. exists th. simpl. done.
  - rewrite lookup_alter_ne by done. intros Hth. exists th'. done.
Qed.

Lemma Att_advance tid o s s' :
  Wf s -> Sem s -> Att s -> advance tid o s = Some s' -> Att s'.
Proof.
  intros Hwf Hsem H. unfold advance.
  destruct (threads s !! tid) as [th|] eqn:Hth; [|done]. simpl.
  destruct (tasks s !! th_task th) as [t|] eqn:Ht; [|done]. simpl.
  destruct (att_thread s H _ _ Hth) as (t0 & Ht0 & Hs & Hpre & Hc1).
  rewrite Ht in Ht0. injection Ht0 as <-.
  destruct (att_task s H _ _ Ht) as (Hb & Hc & Hz & Hf).
  pose proof (bound_limit s t) as [Hbl Hb1].
  pose proof (wf_id s Hwf _ _ Ht) as Hid.
  assert (Hnil : forall k, k ≠ th_task th -> k ∉ @nil string).
  { intros k _ []%elem_of_nil. }
  destruct (th_pc th) eqn:Hpc.
  - done.
  - intros [= <-].
    eapply (Att_move tid th t
              (fun th => mkThread (th_task th) AwaitStartEmit (held th))
              (fun t => set_attempts (attempts t + 1) (set_status RUNNING t)) []);
      try exact H; try done; simpl; rewrite ?occurrences_nil.
    + by rewrite app_nil_r.
    + assert (attempts t < bound s t) by (apply Hpre; unfold pre_exec; tauto). lia.
    + intros [|[|[|]]]; done.
    + lia.
    + lia.
  - intros [= <-].
    eapply (Att_move tid th t
              (fun th => mkThread (th_task th) AwaitExecutor (held th))
              (fun t => t) [th_task th]);
      try exact H; try done; simpl; rewrite ?occurrences_self.
    + symmetry. by apply alter_id.
    + intros k Hk ->%list_elem_of_singleton. done.
    + intros [|[|[|]]]; done.
    + specialize (Hc1 eq_refl). lia.
  - assert (Hfail : forall msg, Att (on_failure tid t msg s)).
    { intros msg. unfold on_failure. rewrite Hid.
      fold (limit s t). case_decide as Hlt.
      - eapply (Att_move tid th t
                  (fun th => mkThread (th_task th) AwaitRetryEmit (held th))
                  (fun t => t) []);
          try exact H; try done; simpl; rewrite ?occurrences_nil.
        + symmetry. by apply alter_id.
        + by rewrite app_nil_r.
        + intros _. lia.
        + lia.
      - eapply (Att_move tid th t
                  (fun th => mkThread (th_task th) AwaitFailedEmit (held th))
                  (fun t => set_error (Some msg) (set_status FAILED t)) []);
          try exact H; try done; simpl; rewrite ?occurrences_nil.
        + by rewrite app_nil_r.
        + intros [|[|[|]]]; done.
        + intros _. lia.
        + lia. }
    destruct o; intros [= <-]; try apply Hfail.
    eapply (Att_move tid th t
              (fun th => mkThread (th_task th) AwaitCompleteEmit (held th))
              (fun t => set_result (Some value) (set_status COMPLETED t)) []);
      try exact H; try done; simpl; rewrite ?occurrences_nil.
    + by rewrite app_nil_r.
    + intros [|[|[|]]]; done.
    + lia.
  - intros [= <-].
    apply Att_set_pc; [intros [|[|[|]]]; done|done|].
    by apply Att_onTaskCompleted.
  - intros [= <-].
    eapply (Att_move tid th t
              (fun th => mkThread (th_task th) AwaitRetryDelay (held th))
              (fun t => t) []);
      try exact H; try done; simpl; rewrite ?occurrences_nil.
    + symmetry. by apply alter_id.
    + by rewrite app_nil_r.
    + intros _. apply Hpre. unfold pre_exec. tauto.
    + lia.
  - intros [= <-]. unfold rescheduleTask.
    eapply (Att_acquire tid th); [done|unfold pre_exec; rewrite Hpc; tauto|].
    by eapply (Att_update (th_task th) _ s).
  - unfold skipDependentTasks.
    destruct (skip_loop _ _ _ _ _) as [toSkip|]; [|done]. simpl.
    intros [= <-]. apply Att_set_pc; [intros [|[|[|]]]; done|done|].
    by apply Att_mark_skipped_all.
  - intros E.
    pose proof (Att_release_step tid th s (sem_waiting s Hsem) Hth Hpc H) as H'.
    destruct (held th) as [|[|n]]; by injection E as <-.
Qed.

Lemma Att_run_step s s' :
  Wf s -> Sem s -> Att s -> run_step s = Some s' -> Att s'.
Proof.
  intros Hwf Hsem H. unfold run_step. destruct (run_state s).
  - intros [= <-]. by apply Att_with_run_state.
  - destruct (hasCircularDependency s) as [[|]|]; [| |done].
    + intros [= <-]. by apply Att_with_run_state.
    + destruct (_ && _); intros [= <-]; apply Att_with_run_state; [done|].
      destruct (getReadyTasks_spec s Hwf) as [Hnd Hr].
      rewrite (fold_left_fmap scheduleTask id).
      apply Att_schedule_all; try done.
      intros k (t & -> & Hin)%list_elem_of_fmap.
      exists t. by destruct (Hr t Hin) as (? & ? & _).
  - destruct (existsb _ _); intros [= <-]; [done|]. by apply Att_with_run_state.
  - destruct (failedTasks s); intros [= <-]; by apply Att_with_run_state.
  - intros [= <-]. by apply Att_with_run_state.
  - done.
  - done.
Qed.

(** ** Reachable states *)

Record Inv (s : Scheduler) : Prop := {
  inv_wf : Wf s;
  inv_sem : Sem s;
  inv_att : Att s
}.

Lemma Inv_step c s s' : Inv s -> step c s = Some s' -> Inv s'.
Proof.
  intros [Hwf Hsem Hatt] Hstep. split.
  - eapply Wf_frame; [done|by eapply frame_step].
  - destruct c; simpl in Hstep.
    + by eapply Sem_run_step.
    + eapply Sem_advance; [apply (wf_id s Hwf)|done..].
  - destruct c; simpl in Hstep.
    + by eapply Att_run_step.
    + by eapply Att_advance.
Qed.

Lemma Inv_exec cs : forall s s', Inv s -> exec cs s = Some s' -> Inv s'.
Proof.
  induction cs as [|c cs IH]; intros s s' H; simpl.
  - by intros [= <-].
  - destruct (step c s) as [s1|] eqn:E; [|done]. apply IH. by eapply Inv_step.
Qed.

Lemma Inv_loaded taskList opts s : loaded taskList opts s -> Inv s.
Proof.
  intros Hl. destruct (ld_fresh _ _ _ Hl) as (Eth & Ew & Ep & _ & Eex & _ & _ & _ & Eo).
  split.
  - by eapply Wf_loaded.
  - split; rewrite ?Eth, ?Ew, ?Ep, ?Eo.
    + right. apply held_total_empty.
    + rewrite held_total_empty. simpl. lia.
    + apply NoDup_nil_2.
    + by intros ? ?%elem_of_nil.
    + intros ??. by rewrite lookup_empty.
    + intros ??. by rewrite lookup_empty.
    + intros k t Hk Hst. destruct (ld_task _ _ _ Hl k t Hk) as (_ & Hp & _). congruence.
  - split; rewrite ?Eth.
    + intros ????. by rewrite lookup_empty.
    + intros ??. by rewrite lookup_empty.
    + intros k t Hk. destruct (ld_task _ _ _ Hl k t Hk) as (_ & Hp & Ha & _).
      unfold calls. rewrite Eex, Ha, Hp. pose proof (bound_limit s t).
      split_and!; [lia|done|done|done].
Qed.

Lemma reachable_Inv opts taskList cs s :
  exec cs (loadPlan taskList (new_scheduler opts)) = Some s ->
  Inv s /\ options s = opts.
Proof.
  intros Hexec. pose proof (loadPlan_loaded taskList opts) as Hl. split.
  - eapply Inv_exec; [|exact Hexec]. by eapply Inv_loaded.
  - rewrite (fr_options _ _ (frame_exec _ _ _ Hexec)).
    by destruct (ld_fresh _ _ _ Hl) as (_ & _ & _ & _ & _ & _ & _ & _ & ?).
Qed.

(** ** Counting the running tasks *)

Lemma holders_le_total (l : list string) :
  forall m : gmap nat Thread,
    NoDup l ->
    (forall k, k ∈ l -> exists tid th, m !! tid = Some th /\ th_task th = k
                                       /\ (1 <= held th)%nat) ->
    (List.length l <= held_total m)%nat.
Proof.
  induction l as [|k l IH]; intros m Hnd Hl; simpl; [lia|].
  apply NoDup_cons in Hnd as [Hk Hnd].
  destruct (Hl k) as (tid & th & Hth & Hk' & Hheld); [by left|].
  pose proof (held_total_delete m tid th Hth) as Hsum.
  assert (List.length l <= held_total (delete tid m))%nat; [|lia].
  apply IH; [done|]. intros k' Hin.
  destruct (Hl k') as (tid' & th' & Hth' & Hk'' & Hheld'); [by right|].
  exists tid', th'. rewrite lookup_delete_ne; [done|].
  intros <-. rewrite Hth in Hth'. injection Hth' as <-. congruence.
Qed.

Lemma summary_running_le_held s :
  Wf s -> Sem s -> (summary s RUNNING <= held_total (threads s))%nat.
Proof.
  intros Hwf Hsem. unfold summary.
  set (R := List.filter (fun t => bool_decide (status t = RUNNING)) (task_values s)).
  rewrite <- (length_map id R). apply holders_le_total.
  - apply filter_ids_nodup. by apply task_values_nodup.
  - intros k (t & -> & Hin)%list_elem_of_fmap.
    apply list_elem_of_In, filter_In in Hin as [Hin Hst].
    apply list_elem_of_In, task_values_spec in Hin; [|done].
    apply bool_decide_eq_true in Hst.
    destruct (sem_running s Hsem _ _ Hin Hst) as (tid & th & Hth & Hk & Hpc).
    exists tid, th. split; [done|]. split; [done|].
    apply (sem_held s Hsem tid th Hth). intros E. rewrite E in Hpc.
    destruct Hpc as [|[|[|]]]; done.
Qed.

(** C3 (amended).  For a whole-number [maxConcurrency] that is not
    negative, at every moment of a run the number of RUNNING tasks is at
    most [maxConcurrency], for every plan, every schedule and every
    behaviour of the executor; under a negative [maxConcurrency] no task is
    ever RUNNING. *)
Theorem C3_running_bounded :
  forall (opts : SchedulerOptions) (taskList : list Task) (cs : list Choice)
         (s : Scheduler),
    exec cs (loadPlan taskList (new_scheduler opts)) = Some s ->
    (0 <= maxConcurrency opts ->
     Z.of_nat (summary s RUNNING) <= maxConcurrency opts)
    /\ (maxConcurrency opts < 0 -> summary s RUNNING = 0%nat).
Proof.
  intros opts taskList cs s Hexec.
  destruct (reachable_Inv _ _ _ _ Hexec) as [[Hwf Hsem _] Eo].
  pose proof (summary_running_le_held s Hwf Hsem) as Hle.
  pose proof (sem_sum s Hsem) as Hsum. rewrite Eo in Hsum.
  destruct (sem_permits s Hsem); split; lia.
Qed.

Definition two_options : SchedulerOptions := mkOptions 1 3 300000 1000.

Definition two_plan : list Task := [new_task "a" [] None; new_task "b" [] None].

(** [run()] starts, both tasks are scheduled, the first one gets the only
    permit and its executor is called. *)
Definition two_schedule : list Choice :=
  [Tick; Tick; Advance 0 TimesOut; Advance 0 TimesOut].

Lemma C3_running_bounded_witness :
  exists s, exec two_schedule (loadPlan two_plan (new_scheduler two_options)) = Some s
            /\ status_of s "a" = Some RUNNING /\ status_of s "b" = Some QUEUED
            /\ (0 <= maxConcurrency two_options ->
                Z.of_nat (summary s RUNNING) <= maxConcurrency two_options)
            /\ (maxConcurrency two_options < 0 -> summary s RUNNING = 0%nat).
Proof.
  eexists. split; [by vm_compute|]. split; [by vm_compute|]. split; [by vm_compute|].
  apply (C3_running_bounded two_options two_plan two_schedule). by vm_compute.
Defined.

(** C3 as stated fails under a negative [maxConcurrency]: no task is ever
    RUNNING, and zero is more than the option. *)
Lemma C3_negative_maxConcurrency_counterexample :
  exists (opts : SchedulerOptions) (taskList : list Task) (cs : list Choice)
         (s : Scheduler),
    exec cs (loadPlan taskList (new_scheduler opts)) = Some s
    /\ run_state s = Waiting
    /\ status_of s "a" = Some QUEUED
    /\ ~ (Z.of_nat (summary s RUNNING) <= maxConcurrency opts).
Proof.
  exists (mkOptions (-1) 3 300000 1000), [new_task "a" [] None], [Tick; Tick].
  eexists. split; [by vm_compute|]. split; [by vm_compute|].
  split; [by vm_compute|]. by vm_compute.
Qed.

(** C2 (amended).  For a task whose [maxAttempts] is a whole number: the
    executor is called for the task at most [max 1 maxAttempts] times and
    [attempts] never exceeds that number, so
    both are bounded by [maxAttempts] when it is at least 1; a FAILED task
    has used up its attempts; and when an attempt throws, the task becomes
    FAILED in that step exactly if [attempts] has reached [maxAttempts]. *)
Theorem C2_attempts_bounded :
  forall (opts : SchedulerOptions) (taskList : list Task) (cs : list Choice)
         (s : Scheduler) (k : string) (t : Task) (m : Z),
    exec cs (loadPlan taskList (new_scheduler opts)) = Some s ->
    tasks s !! k = Some t -> maxAttempts t = Some m ->
    attempts t <= Z.max 1 m
    /\ Z.of_nat (occurrences k (executed s)) <= attempts t
    /\ (1 <= m -> attempts t <= m /\ Z.of_nat (occurrences k (executed s)) <= m)
    /\ (status t = FAILED -> m <= attempts t)
    /\ (forall tid th message,
          threads s !! tid = Some th -> th_task th = k -> th_pc th = AwaitExecutor ->
          exists s', advance tid (Rejects message) s = Some s'
                     /\ (status_of s' k = Some FAILED <-> m <= attempts t)).
Proof.
  intros opts taskList cs s k t m Hexec Hk Hm.
  destruct (reachable_Inv _ _ _ _ Hexec) as [[Hwf Hsem Hatt] Eo].
  destruct (att_task s Hatt k t Hk) as (Hb & Hc & _ & Hf).
  unfold bound, limit in *. rewrite Hm in *. simpl in *. fold (calls s k).
  split; [done|]. split; [done|]. split; [lia|]. split; [done|].
  intros tid th message Hth <- Hpc. unfold advance. rewrite Hth. simpl.
  rewrite Hk. simpl. rewrite Hpc. eexists. split; [done|].
  unfold on_failure, status_of. rewrite (wf_id s Hwf _ _ Hk), Hm. simpl.
  case_decide as Hlt; simpl.
  - rewrite Hk. simpl. split; [|lia]. intros [= E]. apply Hf in E. lia.
  - rewrite lookup_alter_eq, Hk. simpl. split; [lia|done].
Qed.

Definition zero_plan : list Task := [new_task "z" [] (Some 0)].

Definition zero_schedule : list Choice :=
  [Tick; Tick; Advance 0 TimesOut; Advance 0 TimesOut].

Lemma C2_attempts_bounded_witness :
  exists s t,
    exec two_schedule (loadPlan two_plan (new_scheduler two_options)) = Some s
    /\ tasks s !! "a" = Some t /\ maxAttempts t = Some 3
    /\ attempts t <= Z.max 1 3
    /\ Z.of_nat (occurrences "a" (executed s)) <= attempts t
    /\ (1 <= 3 -> attempts t <= 3 /\ Z.of_nat (occurrences "a" (executed s)) <= 3)
    /\ (status t = FAILED -> 3 <= attempts t)
    /\ (forall tid th message,
          threads s !! tid = Some th -> th_task th = "a" -> th_pc th = AwaitExecutor ->
          exists s', advance tid (Rejects message) s = Some s'
                     /\ (status_of s' "a" = Some FAILED <-> 3 <= attempts t)).
Proof.
  eexists. eexists. split; [by vm_compute|]. split; [by vm_compute|].
  split; [reflexivity|].
  apply (C2_attempts_bounded two_options two_plan two_schedule);
    by vm_compute.
Defined.

(** With [maxAttempts = 0] the executor is still called once and
    [attempts] becomes 1. *)
Lemma C2_zero_maxAttempts_counterexample :
  exists s t,
    exec zero_schedule (loadPlan zero_plan (new_scheduler default_options)) = Some s
    /\ tasks s !! "z" = Some t /\ maxAttempts t = Some 0
    /\ attempts t = 1 /\ executed s = ["z"]
    /\ ~ attempts t <= 0
    /\ ~ Z.of_nat (occurrences "z" (executed s)) <= 0.
Proof.
  eexists. eexists. split; [by vm_compute|]. split; [by vm_compute|].
  split; [done|]. split; [done|]. split; [done|]. split; by vm_compute.
Qed.

(** ** Dependencies *)

(** Some thread of task [k] rests at [pc]. *)
Definition at_pc (s : Scheduler) (k : string) (pc : Pc) : Prop :=
  map_Exists (fun _ th => th_task th = k /\ th_pc th = pc) (threads s).

(** [onTaskCompleted(p)] has run: [p] no longer holds its children back. *)
Definition released (s : Scheduler) (p : string) : Prop :=
  status_of s p = Some COMPLETED /\ ~ at_pc s p AwaitCompleteEmit.

#[global] Instance released_dec s p : Decision (released s p).
Proof. unfold released, at_pc. apply _. Defined.

(** The edges into [c] from parents that still hold it back. *)
Definition pending_edges (s : Scheduler) (c : string) : nat :=
  sum_list (map (fun p => if decide (released s p) then 0%nat
                          else occurrences c (children (dependents s) p))
                (order s)).

(** The status a thread at [pc] has given its task. *)
Definition corr (pc : Pc) (st : TaskStatus) : Prop :=
  match pc with
  | AwaitAcquire | Acquired => st = QUEUED
  | AwaitStartEmit | AwaitExecutor | AwaitRetryEmit | AwaitRetryDelay => st = RUNNING
  | AwaitCompleteEmit => st = COMPLETED
  | AwaitFailedEmit => st = FAILED
  | Releasing => st = COMPLETED \/ st = FAILED
  end.

Definition after_poll (r : RunState) : Prop :=
  r = Polled \/ r = AwaitEngineComplete \/ r = Resolved.

Definition waits (s : Scheduler) (c : string) : Prop :=
  status_of s c = Some PENDING \/ status_of s c = Some SKIPPED.

Definition some_pending (s : Scheduler) : Prop :=
  exists k t, tasks s !! k = Some t /\ is_pending t = true.

Record Dep (s : Scheduler) : Prop := {
  dep_corr : forall tid th t,
      threads s !! tid = Some th -> tasks s !! th_task th = Some t ->
      corr (th_pc th) (status t);
  dep_indegree : forall c,
      default 0 (indegree s !! c) = Z.of_nat (pending_edges s c);
  dep_blocked : forall p c,
      edge (dependents s) p c -> ~ released s p -> waits s c;
  dep_skipped : forall d t,
      tasks s !! d = Some t -> status t = SKIPPED ->
      d ∈ failedTasks s
      /\ exists f, error t = Some (skip_message f)
                   /\ tc (edge (dependents s)) f d
                   /\ status_of s f = Some FAILED;
  dep_failed : forall k, status_of s k = Some FAILED -> k ∈ failedTasks s;
  dep_polled : after_poll (run_state s) -> ~ some_pending s;
  dep_clean : run_state s = AwaitEngineComplete \/ run_state s = Resolved ->
              failedTasks s = []
}.

Lemma pending_edges_ext s s' c :
  order s' = order s -> dependents s' = dependents s ->
  (forall p, released s' p <-> released s p) ->
  pending_edges s' c = pending_edges s c.
Proof.
  intros Eo Ed Hrel. unfold pending_edges. rewrite Eo, Ed. f_equal.
  apply map_ext. intros p. by apply decide_ext.
Qed.

(** A task that has started has all its ancestors released. *)
Lemma started_ancestors s :
  (forall p c, edge (dependents s) p c -> ~ released s p -> waits s c) ->
  forall a x, tc (edge (dependents s)) a x ->
    ~ waits s x -> released s a.
Proof.
  intros Hblk a x Htc. induction Htc as [a x He|a y x He Htc IH]; intros Hx.
  - destruct (decide (released s a)) as [|Hn]; [done|].
    exfalso. by apply Hx, (Hblk a x).
  - specialize (IH Hx).
    destruct (decide (released s a)) as [|Hn]; [done|].
    exfalso. destruct (Hblk a y He Hn) as [E|E]; destruct IH as [E' _]; congruence.
Qed.

(** Below a task that is not released, everything waits. *)
Lemma descendants_wait s f d :
  (forall p c, edge (dependents s) p c -> ~ released s p -> waits s c) ->
  ~ released s f -> tc (edge (dependents s)) f d -> waits s d.
Proof.
  intros Hblk Hf Htc.
  destruct (decide (waits s d)) as [|Hn]; [done|].
  exfalso. apply Hf. by eapply started_ancestors.
Qed.

(** A step that releases nothing. *)
Lemma Dep_quiet s s' :
  order s' = order s -> dependents s' = dependents s ->
  indegree s' = indegree s -> run_state s' = run_state s ->
  (forall tid th t, threads s' !! tid = Some th -> tasks s' !! th_task th = Some t ->
     corr (th_pc th) (status t)) ->
  (forall p, released s' p <-> released s p) ->
  (forall c, waits s c -> waits s' c
                          \/ forall p, edge (dependents s) p c -> released s p) ->
  (forall f, status_of s f = Some FAILED -> status_of s' f = Some FAILED) ->
  (forall d t', tasks s' !! d = Some t' -> status t' = SKIPPED ->
     (exists t, tasks s !! d = Some t /\ status t = SKIPPED /\ error t' = error t)
     \/ (d ∈ failedTasks s'
         /\ exists f, error t' = Some (skip_message f)
                      /\ tc (edge (dependents s)) f d
                      /\ status_of s' f = Some FAILED)) ->
  (forall k, k ∈ failedTasks s -> k ∈ failedTasks s') ->
  (forall k, status_of s' k = Some FAILED ->
     status_of s k = Some FAILED \/ k ∈ failedTasks s') ->
  (some_pending s' -> some_pending s) ->
  (failedTasks s' = failedTasks s \/ some_pending s \/ failedTasks s <> []) ->
  Dep s -> Dep s'.
Proof.
  intros Eo Ed Ei Er Hcorr Hrel Hblk Hfs Hsk Hfl Hfd Hpend Hclean
         [Dc Di Db Ds Df Dp Dcl].
  split.
  - done.
  - intros c. rewrite Ei, (pending_edges_ext s s') by done. apply Di.
  - intros p c. rewrite Ed, Hrel. intros He Hn.
    destruct (Hblk c (Db p c He Hn)) as [|Hall]; [done|].
    exfalso. by apply Hn, Hall.
  - intros d t' Hd Hst. destruct (Hsk d t' Hd Hst) as [(t & Ht & Hs & He)|H].
    + destruct (Ds d t Ht Hs) as (Hin & f & Her & Htc & Hf).
      split; [by apply Hfl|]. exists f. rewrite Ed, He. auto.
    + by rewrite Ed.
  - intros k Hk. destruct (Hfd k Hk) as [H|H]; [|done]. by apply Hfl, Df.
  - rewrite Er. intros Hr Hp. by apply (Dp Hr), Hpend.
  - rewrite Er. intros Hr. specialize (Dcl Hr).
    destruct Hclean as [->|[Hp|Hne]]; [done| |done].
    exfalso. apply (Dp ltac:(unfold after_poll; tauto) Hp).
Qed.

Definition unique_threads (s : Scheduler) : Prop :=
  forall tid1 tid2 th1 th2,
    threads s !! tid1 = Some th1 -> threads s !! tid2 = Some th2 ->
    th_task th1 = th_task th2 -> tid1 = tid2.

Lemma at_pc_own s tid th pc :
  unique_threads s -> threads s !! tid = Some th ->
  at_pc s (th_task th) pc <-> th_pc th = pc.
Proof.
  intros Hu Hth. split.
  - intros (tid' & th' & Hth' & Hk & Hpc).
    assert (tid' = tid) as -> by (by eapply Hu).
    rewrite Hth in Hth'. by injection Hth' as <-.
  - intros Hpc. by exists tid, th.
Qed.

Lemma status_of_alter s s' f k k' :
  tasks s' = alter f k (tasks s) ->
  status_of s' k' = if decide (k' = k) then (fun t => status (f t)) <$> tasks s !! k
                    else status_of s k'.
Proof.
  intros E. unfold status_of. rewrite E. case_decide as Hk.
  - subst. rewrite lookup_alter_eq. by destruct (tasks s !! k).
  - by rewrite lookup_alter_ne.
Qed.

Lemma corr_started pc st : corr pc st -> st <> PENDING /\ st <> SKIPPED.
Proof. destruct pc; simpl; intros H; split; intros ->; naive_solver. Qed.

Lemma is_pending_status t :
  is_pending t = true
  <-> status t = PENDING \/ status t = QUEUED \/ status t = RUNNING.
Proof.
  unfold is_pending. rewrite !orb_true_iff, !bool_decide_eq_true. tauto.
Qed.

(** A thread moves and writes its own task. *)
Lemma Dep_move tid th t g f s s' :
  threads s !! tid = Some th -> tasks s !! th_task th = Some t ->
  tasks s' = alter f (th_task th) (tasks s) ->
  threads s' = alter g tid (threads s) ->
  th_task (g th) = th_task th ->
  order s' = order s -> dependents s' = dependents s ->
  indegree s' = indegree s -> run_state s' = run_state s ->
  (failedTasks s' = failedTasks s
   \/ failedTasks s' = set_add (th_task th) (failedTasks s)) ->
  unique_threads s ->
  corr (th_pc (g th)) (status (f t)) ->
  (status (f t) = COMPLETED /\ th_pc (g th) <> AwaitCompleteEmit
   <-> status t = COMPLETED /\ th_pc th <> AwaitCompleteEmit) ->
  (status t = FAILED -> status (f t) = FAILED) ->
  (status (f t) = FAILED ->
   status t = FAILED \/ failedTasks s' = set_add (th_task th) (failedTasks s)) ->
  (is_pending (f t) = true -> is_pending t = true) ->
  (failedTasks s' = failedTasks s \/ is_pending t = true) ->
  Dep s -> Dep s'.
Proof.
  intros Hth Ht Etasks Ethreads Hg Eo Ed Ei Er Efail Hu Hcorr HR Hfs Hfd Hpend Hclean
         HD.
  set (k := th_task th) in *.
  pose proof (dep_corr s HD _ _ _ Hth Ht) as Hc0.
  destruct (corr_started _ _ Hc0) as [HnP HnS].
  destruct (corr_started _ _ Hcorr) as [HnP' HnS'].
  assert (Hst : forall k', status_of s' k'
            = if decide (k' = k) then Some (status (f t)) else status_of s k').
  { intros k'. rewrite (status_of_alter s s' f k k' Etasks).
    case_decide; [|done]. by rewrite Ht. }
  assert (Hold : forall tid' th', threads s' !! tid' = Some th' ->
            exists th0, threads s !! tid' = Some th0 /\ th_task th0 = th_task th'
                        /\ (tid' ≠ tid -> th' = th0) /\ (tid' = tid -> th' = g th)).
  { intros tid' th'. rewrite Ethreads. destruct (decide (tid' = tid)) as [->|Hne].
    - rewrite lookup_alter_eq, Hth. simpl. intros [= <-]. exists th. by rewrite Hg.
    - rewrite lookup_alter_ne by done. intros H. exists th'. done. }
  assert (Hu' : unique_threads s').
  { intros tid1 tid2 th1 th2 H1 H2 E.
    destruct (Hold _ _ H1) as (th1' & H1' & E1 & _).
    destruct (Hold _ _ H2) as (th2' & H2' & E2 & _).
    apply (Hu tid1 tid2 th1' th2' H1' H2'). congruence. }
  assert (Hth' : threads s' !! tid = Some (g th)).
  { by rewrite Ethreads, lookup_alter_eq, Hth. }
  assert (Hfl : forall x, x ∈ failedTasks s -> x ∈ failedTasks s').
  { intros x Hx. destruct Efail as [->| ->]; [done|].
    unfold set_add. case_decide; [done|]. apply elem_of_app. by left. }
  assert (Hsp : some_pending s' -> some_pending s).
  { intros (k' & t' & Hk' & Hp'). rewrite Etasks in Hk'.
    destruct (decide (k' = k)) as [->|Hne].
    - rewrite lookup_alter_eq, Ht in Hk'. injection Hk' as <-.
      exists k, t. auto.
    - rewrite lookup_alter_ne in Hk' by done. by exists k', t'. }
  apply (Dep_quiet s s'); try done.
  - intros tid' th' t' H1 H2. destruct (Hold _ _ H1) as (th0 & H0 & E & Hne & Heq).
    destruct (decide (tid' = tid)) as [->|Hn].
    + rewrite (Heq eq_refl) in *. rewrite Hg, Etasks in H2. fold k in H2.
      rewrite lookup_alter_eq, Ht in H2. by injection H2 as <-.
    + rewrite (Hne Hn) in *.
      assert (th_task th0 ≠ k).
      { intros E'. apply Hn. by apply (Hu tid' tid th0 th). }
      rewrite Etasks, lookup_alter_ne in H2 by done.
      by apply (dep_corr s HD tid' th0).
  - intros p. destruct (decide (p = k)) as [->|Hne].
    + unfold released. rewrite Hst, decide_True by done.
      unfold status_of. rewrite Ht. simpl.
      pose proof (at_pc_own s tid th AwaitCompleteEmit Hu Hth) as H1.
      pose proof (at_pc_own s' tid (g th) AwaitCompleteEmit Hu' Hth') as H2.
      rewrite Hg in H2. fold k in H1, H2. rewrite H1, H2.
      split; intros [[= E] Hn]; [destruct HR as [HR _]|destruct HR as [_ HR]];
        destruct (HR (conj E Hn)) as [-> ?]; done.
    + unfold released. rewrite Hst, decide_False by done.
      assert (at_pc s' p AwaitCompleteEmit <-> at_pc s p AwaitCompleteEmit); [|tauto].
      split.
      * intros (tid' & th' & H1 & Hk & Hpc).
        destruct (Hold _ _ H1) as (th0 & H0 & E & Hn & _).
        assert (tid' ≠ tid).
        { intros ->. rewrite Hth in H0. injection H0 as <-. congruence. }
        rewrite (Hn H) in *. by exists tid', th0.
      * intros (tid' & th' & H1 & Hk & Hpc).
        assert (tid' ≠ tid).
        { intros ->. rewrite Hth in H1. injection H1 as <-. done. }
        exists tid', th'. by rewrite Ethreads, lookup_alter_ne.
  - intros c Hc. left. unfold waits in *. rewrite Hst. case_decide as E; [|done].
    subst c. unfold status_of in Hc. rewrite Ht in Hc. simpl in Hc.
    destruct Hc as [[= ?]|[= ?]]; done.
  - intros x. rewrite Hst. case_decide as E; [|done]. subst x.
    unfold status_of. rewrite Ht. simpl. intros [= E]. by rewrite (Hfs E).
  - intros d t'. rewrite Etasks. destruct (decide (d = k)) as [->|Hne].
    + rewrite lookup_alter_eq, Ht. simpl. intros [= <-] Hs. done.
    + rewrite lookup_alter_ne by done. intros Hd Hs. left. by exists t'.
  - intros x. rewrite Hst. case_decide as E; [|by left]. subst x.
    intros [= E]. destruct (Hfd E) as [E'|E'].
    + left. unfold status_of. by rewrite Ht, <- E'.
    + right. rewrite E'. unfold set_add. case_decide; [done|].
      apply elem_of_app. right. by apply list_elem_of_singleton.
  - destruct Hclean as [|Hp]; [by left|]. right. left. by exists k, t.
Qed.

(** The threads change; the tasks do not. *)
Lemma Dep_threads s s' :
  tasks s' = tasks s -> order s' = order s -> dependents s' = dependents s ->
  indegree s' = indegree s -> run_state s' = run_state s ->
  failedTasks s' = failedTasks s ->
  (forall tid th', threads s' !! tid = Some th' ->
     exists th, threads s !! tid = Some th /\ th_task th' = th_task th
                /\ (forall st, corr (th_pc th) st -> corr (th_pc th') st)
                /\ (th_pc th' = AwaitCompleteEmit -> th_pc th = AwaitCompleteEmit)) ->
  (forall tid th, threads s !! tid = Some th -> th_pc th = AwaitCompleteEmit ->
     threads s' !! tid = Some th) ->
  Dep s -> Dep s' /\ forall p, released s' p <-> released s p.
Proof.
  intros Et Eo Ed Ei Er Ef Hnew Hold HD.
  assert (Hst : forall k, status_of s' k = status_of s k).
  { intros k. unfold status_of. by rewrite Et. }
  assert (Hrel : forall p, released s' p <-> released s p).
  { intros p. unfold released. rewrite Hst.
    assert (at_pc s' p AwaitCompleteEmit <-> at_pc s p AwaitCompleteEmit); [|tauto].
    split.
    - intros (tid & th' & H1 & Hk & Hpc).
      destruct (Hnew _ _ H1) as (th & H0 & E & _ & Hace).
      exists tid, th. split; [done|]. split; [congruence|auto].
    - intros (tid & th & H1 & Hk & Hpc). exists tid, th. split; [|done].
      by apply Hold. }
  split; [|done].
  apply (Dep_quiet s s'); try done.
  - intros tid th' t H1 H2. destruct (Hnew _ _ H1) as (th & H0 & E & Hc & _).
    apply Hc. apply (dep_corr s HD tid th t H0). by rewrite <- E, <- Et.
  - intros c Hc. left. unfold waits. by rewrite !Hst.
  - intros f. by rewrite Hst.
  - intros d t'. rewrite Et. intros Hd Hs. left. by exists t'.
  - by rewrite Ef.
  - intros k. rewrite Hst. by left.
  - intros (k & t & Hk & Hp). exists k, t. by rewrite <- Et.
  - by left.
Qed.

(** A new activation for a pending task whose parents are all released. *)
Lemma Dep_spawn c t n s s' :
  tasks s !! c = Some t -> status t = PENDING ->
  (forall p, edge (dependents s) p c -> released s p) ->
  threads s !! n = None ->
  tasks s' = alter (set_status QUEUED) c (tasks s) ->
  threads s' = <[n := mkThread c AwaitAcquire 0]> (threads s) ->
  order s' = order s -> dependents s' = dependents s ->
  indegree s' = indegree s -> run_state s' = run_state s ->
  failedTasks s' = failedTasks s ->
  Dep s -> Dep s' /\ forall p, released s' p <-> released s p.
Proof.
  intros Ht Hst Hpar Hn Etasks Ethreads Eo Ed Ei Er Ef HD.
  assert (Hnc : forall tid th, threads s !! tid = Some th -> th_task th ≠ c).
  { intros tid th Hth E. pose proof (dep_corr s HD tid th t Hth) as Hc.
    rewrite E in Hc. destruct (corr_started _ _ (Hc Ht)). done. }
  assert (Hs' : forall k', status_of s' k'
            = if decide (k' = c) then Some QUEUED else status_of s k').
  { intros k'. rewrite (status_of_alter s s' _ c k' Etasks).
    case_decide; [|done]. by rewrite Ht. }
  assert (Hrel : forall p, released s' p <-> released s p).
  { intros p. unfold released. rewrite Hs'. case_decide as E.
    - subst. unfold status_of. rewrite Ht. simpl. rewrite Hst. split; intros [[=] _].
    - assert (at_pc s' p AwaitCompleteEmit <-> at_pc s p AwaitCompleteEmit); [|tauto].
      unfold at_pc. rewrite Ethreads. rewrite map_Exists_insert by done.
      simpl. split; [intros [[? [=]]|?]; done|by right]. }
  split; [|done].
  apply (Dep_quiet s s'); try done.
  - intros tid th t'. rewrite Ethreads, Etasks.
    destruct (decide (tid = n)) as [->|Hne].
    + rewrite lookup_insert_eq. intros [= <-]. simpl.
      rewrite lookup_alter_eq, Ht. simpl. by intros [= <-].
    + rewrite lookup_insert_ne by done. intros Hth.
      rewrite lookup_alter_ne by (by apply not_eq_sym, (Hnc tid)).
      by apply (dep_corr s HD tid).
  - intros c' Hc'. destruct (decide (c' = c)) as [->|Hne]; [by right|].
    left. unfold waits. by rewrite Hs', decide_False.
  - intros f. rewrite Hs'. case_decide as E; [|done]. subst.
    unfold status_of. rewrite Ht. simpl. by rewrite Hst.
  - intros d t'. rewrite Etasks. destruct (decide (d = c)) as [->|Hne].
    + rewrite lookup_alter_eq, Ht. simpl. by intros [= <-].
    + rewrite lookup_alter_ne by done. intros Hd Hs. left. by exists t'.
  - by rewrite Ef.
  - intros k. rewrite Hs'. case_decide; [done|by left].
  - intros _. exists c, t. split; [done|]. apply is_pending_status. by left.
  - by left.
Qed.

(** *** [skipDependentTasks] *)

Definition skipped_by (f : string) (t : Task) : Task :=
  set_error (Some (skip_message f)) (set_status SKIPPED t).

Lemma mark_skipped_all_tasks f l : forall s k,
  tasks (fold_left (mark_skipped f) l s) !! k
  = if decide (k ∈ l) then skipped_by f <$> tasks s !! k else tasks s !! k.
Proof.
  induction l as [|x l IH]; intros s k; cbn [fold_left].
  - rewrite decide_False; [done|]. by intros ?%elem_of_nil.
  - rewrite IH. cbn [mark_skipped tasks with_failedTasks update_task with_tasks].
    destruct (decide (k = x)) as [->|Hne].
    + rewrite lookup_alter_eq. rewrite (decide_True (P := x ∈ x :: l)) by left.
      case_decide; [|done]. by destruct (tasks s !! x).
    + rewrite lookup_alter_ne by done.
      apply decide_ext. rewrite elem_of_cons. naive_solver.
Qed.

Lemma set_add_elem x y l : y ∈ set_add x l <-> y = x \/ y ∈ l.
Proof.
  unfold set_add. case_decide.
  - split; [by right|]. by intros [->|?].
  - rewrite elem_of_app, list_elem_of_singleton. tauto.
Qed.

Lemma mark_skipped_all_failed f l : forall s x,
  x ∈ failedTasks (fold_left (mark_skipped f) l s) <-> x ∈ failedTasks s \/ x ∈ l.
Proof.
  induction l as [|y l IH]; intros s x; simpl.
  - split; [by left|]. by intros [?|?%elem_of_nil].
  - rewrite IH. simpl. rewrite set_add_elem, elem_of_cons. tauto.
Qed.

Lemma mark_skipped_all_frame f l : forall s,
  let s' := fold_left (mark_skipped f) l s in
  threads s' = threads s /\ order s' = order s /\ dependents s' = dependents s
  /\ indegree s' = indegree s /\ run_state s' = run_state s
  /\ options s' = options s /\ executed s' = executed s.
Proof.
  induction l as [|y l IH]; intros s; simpl; [done|].
  destruct (IH (mark_skipped f s y)) as (-> & -> & -> & -> & -> & -> & ->). done.
Qed.

(** The descendants of a failed task are marked. *)
Lemma Dep_mark_skipped_all f l s :
  status_of s f = Some FAILED ->
  (forall d, d ∈ l -> tc (edge (dependents s)) f d) ->
  Dep s -> Dep (fold_left (mark_skipped f) l s).
Proof.
  intros Hf Hl HD. set (s' := fold_left (mark_skipped f) l s).
  destruct (mark_skipped_all_frame f l s) as (Eth & Eo & Ed & Ei & Er & _).
  fold s' in Eth, Eo, Ed, Ei, Er.
  assert (Hnr : ~ released s f).
  { intros [E _]. congruence. }
  assert (Hw : forall d, d ∈ l -> waits s d).
  { intros d Hd. eapply descendants_wait; [apply (dep_blocked s HD)|done|by apply Hl]. }
  assert (Ht : forall k, tasks s' !! k
            = if decide (k ∈ l) then skipped_by f <$> tasks s !! k else tasks s !! k).
  { intros k. apply mark_skipped_all_tasks. }
  assert (Hst : forall k, status_of s' k
            = if decide (k ∈ l) then Some SKIPPED else status_of s k).
  { intros k. unfold status_of at 1. rewrite Ht. case_decide as E; [|done].
    destruct (Hw k E) as [H|H]; unfold status_of in H;
      destruct (tasks s !! k); done. }
  assert (Hkeep : forall k st, status_of s k = Some st -> st <> PENDING ->
            st <> SKIPPED -> k ∉ l).
  { intros k st Hk H1 H2 Hin. destruct (Hw k Hin) as [E|E]; congruence. }
  assert (Hrel : forall p, released s' p <-> released s p).
  { intros p. unfold released, at_pc. rewrite Eth, Hst. case_decide as E; [|done].
    split; [by intros [[=] _]|]. intros [Hc _]. by apply (Hkeep p COMPLETED) in Hc. }
  apply (Dep_quiet s s'); try done.
  - intros tid th t. rewrite Eth, Ht. intros Hth.
    destruct (tasks s !! th_task th) as [t0|] eqn:E0.
    + pose proof (dep_corr s HD tid th t0 Hth E0) as Hc.
      destruct (corr_started _ _ Hc) as [H1 H2].
      rewrite decide_False.
      * by intros [= <-].
      * apply (Hkeep _ (status t0)); [|done..]. unfold status_of. by rewrite E0.
    + by case_decide.
  - intros c Hc. left. unfold waits. rewrite Hst. case_decide; [by right|done].
  - intros x Hx. rewrite Hst, decide_False; [done|]. by apply (Hkeep x FAILED).
  - intros d t'. rewrite Ht. case_decide as E.
    + destruct (tasks s !! d) as [t0|]; [|done]. simpl. intros [= <-] _.
      right. split; [apply mark_skipped_all_failed; by right|].
      exists f. split; [done|]. split; [by apply Hl|].
      rewrite Hst, decide_False; [done|]. by apply (Hkeep f FAILED).
    + intros Hd Hs. left. by exists t'.
  - intros k Hk. apply mark_skipped_all_failed. by left.
  - intros k. rewrite Hst. case_decide; [done|by left].
  - intros (k & t & Hk & Hp). rewrite Ht in Hk. case_decide as E.
    + destruct (tasks s !! k) as [t0|]; [|done]. injection Hk as <-.
      apply is_pending_status in Hp. simpl in Hp. naive_solver.
    + by exists k, t.
  - right. right. intros E. pose proof (dep_failed s HD f Hf) as Hin.
    rewrite E in Hin. by apply elem_of_nil in Hin.
Qed.

(** The breadth-first search reaches the descendants, and only them. *)
Lemma skip_loop_spec deps fuel :
  forall queue visited toSkip res,
    skip_loop deps fuel queue visited toSkip = Some res ->
    (forall x, x ∈ visited <-> x ∈ toSkip) ->
    (forall v c, v ∈ visited -> edge deps v c -> c ∈ queue \/ c ∈ visited) ->
    (forall x, x ∈ toSkip -> x ∈ res)
    /\ (forall x, x ∈ queue -> x ∈ res)
    /\ (forall v c, v ∈ res -> edge deps v c -> c ∈ res)
    /\ (forall x, x ∈ res -> x ∈ toSkip \/ exists y, y ∈ queue /\ rtc (edge deps) y x).
Proof.
  induction fuel as [|fuel IH]; intros queue visited toSkip res; simpl; [done|].
  destruct queue as [|u rest].
  - intros [= <-] Hvt Hcl. split; [done|]. split; [by intros ? ?%elem_of_nil|].
    split; [|by left].
    intros v c Hv He. apply Hvt in Hv.
    destruct (Hcl v c Hv He) as [?%elem_of_nil|Hc]; [done|]. by apply Hvt.
  - case_decide as Hu.
    + intros Hres Hvt Hcl.
      destruct (IH _ _ _ _ Hres Hvt) as (H1 & H2 & H3 & H4).
      { intros v c Hv He. destruct (Hcl v c Hv He) as [[->|?]%elem_of_cons|?]; auto. }
      split; [done|]. split.
      { intros x [->|Hx]%elem_of_cons; [|by apply H2]. by apply H1, Hvt. }
      split; [done|].
      intros x Hx. destruct (H4 x Hx) as [?|(y & Hy & Hr)]; [by left|].
      right. exists y. split; [by right|done].
    + intros Hres Hvt Hcl.
      destruct (IH _ _ _ _ Hres) as (H1 & H2 & H3 & H4).
      { intros x. rewrite elem_of_cons, elem_of_app, list_elem_of_singleton, Hvt. tauto. }
      { intros v c [->|Hv]%elem_of_cons He.
        - left. apply elem_of_app. by right.
        - destruct (Hcl v c Hv He) as [[->|?]%elem_of_cons|?].
          + right. by left.
          + left. apply elem_of_app. by left.
          + right. by right. }
      split; [intros x Hx; apply H1, elem_of_app; by left|]. split.
      { intros x [->|Hx]%elem_of_cons.
        - apply H1, elem_of_app. right. by apply list_elem_of_singleton.
        - apply H2, elem_of_app. by left. }
      split; [done|].
      intros x Hx. destruct (H4 x Hx) as [[?| ->%list_elem_of_singleton]%elem_of_app
                                          |(y & [Hy|Hy]%elem_of_app & Hr)].
      * by left.
      * right. exists u. split; [by left|done].
      * right. exists y. split; [by right|done].
      * right. exists u. split; [by left|]. by eapply rtc_l.
Qed.

Lemma edge_count_delete (deps : gmap string (list string)) u l :
  deps !! u = Some l ->
  (edge_count (delete u deps) + List.length l)%nat = edge_count deps.
Proof.
  intros H. unfold edge_count.
  rewrite (map_fold_delete_L _ _ u l deps); [lia| |done]. intros. lia.
Qed.

(** The edges out of the nodes not yet taken off the queue. *)
Definition unvisited (deps : gmap string (list string)) (visited : list string)
  : gmap string (list string) :=
  filter (fun kv => kv.1 ∉ visited) deps.

Lemma unvisited_cons deps u visited :
  unvisited deps (u :: visited) = delete u (unvisited deps visited).
Proof.
  apply map_eq. intros k. unfold unvisited.
  destruct (decide (k = u)) as [->|Hne].
  - rewrite lookup_delete_eq. apply map_lookup_filter_None. right.
    intros l _ Hn. apply Hn. simpl. by left.
  - rewrite lookup_delete_ne by done.
    destruct (deps !! k) as [l|] eqn:E.
    + destruct (decide (k ∈ visited)) as [Hin|Hnin].
      * rewrite !map_lookup_filter_None_2; [done|right|right];
          intros l' _ Hn; apply Hn; simpl; [done|by right].
      * rewrite !(map_lookup_filter_Some_2 _ _ k l); try done; simpl.
        by intros [?|?]%elem_of_cons.
    + rewrite !map_lookup_filter_None_2; [done|by left|by left].
Qed.

Lemma skip_loop_total deps fuel :
  forall queue visited toSkip,
    (List.length queue + edge_count (unvisited deps visited) < fuel)%nat ->
    is_Some (skip_loop deps fuel queue visited toSkip).
Proof.
  induction fuel as [|fuel IH]; intros queue visited toSkip Hlt; [lia|].
  simpl. destruct queue as [|u rest]; [eauto|].
  simpl in Hlt. case_decide as Hu.
  - apply IH. lia.
  - apply IH. rewrite length_app, unvisited_cons.
    destruct (deps !! u) as [l|] eqn:E; simpl.
    + assert (Hl : unvisited deps visited !! u = Some l)
        by (by apply map_lookup_filter_Some_2).
      pose proof (edge_count_delete (unvisited deps visited) u l Hl) as Hd. lia.
    + rewrite delete_id; [lia|]. apply map_lookup_filter_None. by left.
Qed.

Lemma unvisited_nil deps : unvisited deps [] = deps.
Proof.
  apply map_eq. intros k. unfold unvisited.
  destruct (deps !! k) as [l|] eqn:E.
  - apply map_lookup_filter_Some_2; [done|]. simpl. by intros ?%elem_of_nil.
  - apply map_lookup_filter_None. by left.
Qed.

(** What [skipDependentTasks] marks. *)
Lemma skipDependentTasks_spec f s :
  exists toSkip,
    skipDependentTasks f s = Some (fold_left (mark_skipped f) toSkip s)
    /\ forall d, d ∈ toSkip <-> tc (edge (dependents s)) f d.
Proof.
  unfold skipDependentTasks.
  set (queue := default [] (dependents s !! f)).
  destruct (skip_loop_total (dependents s) (skip_fuel (dependents s) queue) queue [] [])
    as [toSkip Hres].
  { unfold skip_fuel. rewrite unvisited_nil. lia. }
  exists toSkip. rewrite Hres. split; [done|].
  destruct (skip_loop_spec _ _ _ _ _ _ Hres) as (_ & H2 & H3 & H4).
  { done. } { by intros ?? ?%elem_of_nil. }
  assert (Hrtc : forall y x, rtc (edge (dependents s)) y x -> y ∈ toSkip -> x ∈ toSkip).
  { intros y x Hr. induction Hr as [|y z x He _ IH]; [done|].
    intros Hy. apply IH. by eapply H3. }
  intros d. split.
  - intros Hd. destruct (H4 d Hd) as [?%elem_of_nil|(y & Hy & Hr)]; [done|].
    eapply tc_rtc_r; [|exact Hr]. by apply tc_once.
  - intros Htc. apply tc_rtc in Htc as Hr. inversion Htc as [? ? He|? y ? He Hrest]; subst.
    + by apply H2.
    + eapply Hrtc; [by apply tc_rtc|]. by apply H2.
Qed.

(** *** New activations *)

Lemma Dep_acquire tid th s :
  threads s !! tid = Some th -> th_pc th = AwaitAcquire ->
  Dep s -> Dep (acquire tid s) /\ forall p, released (acquire tid s) p <-> released s p.
Proof.
  intros Hth Hpc HD.
  destruct (acquire_frame tid s) as (Et & _ & Eo & Ed & Ei & _ & _ & Ef & Er & Hne).
  apply Dep_threads; try done.
  - intros tid' th' Hth'.
    destruct (acquire_threads _ _ _ _ Hth') as (th0 & Hth0 & E & Hn & Heq).
    exists th0. split; [done|]. split; [done|].
    destruct (decide (tid' = tid)) as [->|Hn'].
    + rewrite Hth in Hth0. injection Hth0 as <-. rewrite Hpc.
      destruct (Heq eq_refl) as [-> | ->]; done.
    + by rewrite (Hn Hn').
  - intros tid' th' Hth' Hpc'. rewrite Hne; [done|]. intros ->. congruence.
Qed.

Lemma Dep_scheduleTask c t s :
  tasks s !! c = Some t -> status t = PENDING ->
  (forall p, edge (dependents s) p c -> released s p) ->
  (forall tid th, threads s !! tid = Some th -> (tid < next_tid s)%nat) ->
  Dep s ->
  Dep (scheduleTask c s) /\ forall p, released (scheduleTask c s) p <-> released s p.
Proof.
  intros Ht Hst Hpar Hlt HD. unfold scheduleTask.
  assert (Hfresh : threads s !! next_tid s = None).
  { destruct (threads s !! next_tid s) eqn:E; [|done]. apply Hlt in E. lia. }
  set (s2 := with_next_tid (S (next_tid s))
               (with_threads (insert (next_tid s) (mkThread c AwaitAcquire 0))
                  (update_task c (set_status QUEUED) s))).
  destruct (Dep_spawn c t (next_tid s) s s2) as [HD2 Hrel2]; try done.
  destruct (Dep_acquire (next_tid s) (mkThread c AwaitAcquire 0) s2)
    as [HD3 Hrel3]; try done.
  { simpl. apply lookup_insert_eq. }
  split; [done|]. intros p. by rewrite Hrel3, Hrel2.
Qed.

Lemma Dep_schedule_all l :
  forall s, NoDup l ->
    (forall c, c ∈ l -> exists t, tasks s !! c = Some t /\ status t = PENDING) ->
    (forall c p, c ∈ l -> edge (dependents s) p c -> released s p) ->
    Sem s -> Dep s ->
    Dep (fold_left (fun s k => scheduleTask k s) l s).
Proof.
  induction l as [|c l IH]; intros s Hnd Hp Hpar Hsem HD; [done|].
  apply NoDup_cons in Hnd as [Hc Hnd]. simpl.
  destruct (Hp c) as (t & Ht & Hst); [by left|].
  destruct (Dep_scheduleTask c t s) as [HD' Hrel]; try done.
  { intros p. apply Hpar. by left. }
  { apply (sem_tid s Hsem). }
  destruct (scheduleTask_frame c s) as (Et & _ & Ed & _).
  apply IH; try done.
  - intros c' Hc'. destruct (Hp c') as (t' & Ht' & Hst'); [by right|].
    exists t'. rewrite Et, lookup_alter_ne; [done|]. by intros ->.
  - intros c' p Hc'. rewrite Ed, Hrel. apply Hpar. by right.
  - by apply Sem_scheduleTask.
Qed.

(** *** A completed task lets its children go *)

Lemma sum_list_release (F F' : string -> nat) l p :
  NoDup l -> p ∈ l -> F' p = 0%nat -> (forall q, q ≠ p -> F' q = F q) ->
  (sum_list (map F' l) + F p)%nat = sum_list (map F l).
Proof.
  intros Hnd Hin H0 Hne. induction l as [|q l IH]; [by apply elem_of_nil in Hin|].
  apply NoDup_cons in Hnd as [Hq Hnd]. simpl.
  apply elem_of_cons in Hin as [->|Hin].
  - rewrite H0. assert (map F' l = map F l) as ->; [|lia].
    apply map_ext_in. intros a Ha%list_elem_of_In. apply Hne. by intros ->.
  - specialize (IH Hnd Hin). rewrite (Hne q) by (by intros ->). lia.
Qed.

Lemma Dep_release_parent tid th t ind' s s' :
  threads s !! tid = Some th -> th_pc th = AwaitCompleteEmit ->
  tasks s !! th_task th = Some t ->
  tasks s' = tasks s ->
  threads s' = alter (fun th => mkThread (th_task th) Releasing (held th)) tid
                     (threads s) ->
  indegree s' = ind' ->
  (forall c, default 0 (ind' !! c)
             = default 0 (indegree s !! c)
               - Z.of_nat (occurrences c (children (dependents s) (th_task th)))) ->
  order s' = order s -> dependents s' = dependents s ->
  run_state s' = run_state s -> failedTasks s' = failedTasks s ->
  unique_threads s -> Wf s ->
  Dep s -> Dep s' /\ forall q, released s q -> released s' q.
Proof.
  intros Hth Hpc Ht Et Ethreads Ei Hind Eo Ed Er Ef Hu Hwf HD.
  set (p := th_task th) in *.
  pose proof (dep_corr s HD tid th t Hth Ht) as Hc. rewrite Hpc in Hc. simpl in Hc.
  assert (Hst : forall k, status_of s' k = status_of s k).
  { intros k. unfold status_of. by rewrite Et. }
  assert (Hat : forall q, at_pc s' q AwaitCompleteEmit
                 <-> at_pc s q AwaitCompleteEmit /\ q ≠ p).
  { intros q. split.
    - intros (tid' & th' & H1 & Hk & Hpc'). rewrite Ethreads in H1.
      destruct (decide (tid' = tid)) as [->|Hne].
      + rewrite lookup_alter_eq, Hth in H1. simpl in H1. by injection H1 as <-.
      + rewrite lookup_alter_ne in H1 by done. split; [by exists tid', th'|].
        intros ->. apply Hne. by apply (Hu tid' tid th' th).
    - intros [(tid' & th' & H1 & Hk & Hpc') Hne]. exists tid', th'.
      split; [|done]. rewrite Ethreads, lookup_alter_ne; [done|].
      intros ->. rewrite Hth in H1. injection H1 as <-. done. }
  assert (Hnrel : ~ released s p).
  { intros [_ Hn]. apply Hn. by exists tid, th. }
  assert (Hrelp : released s' p).
  { split; [rewrite Hst; unfold status_of; by rewrite Ht, <- Hc|].
    rewrite Hat. tauto. }
  assert (Hrel : forall q, q ≠ p -> released s' q <-> released s q).
  { intros q Hq. unfold released. rewrite Hst, Hat. tauto. }
  assert (Hmono : forall q, released s q -> released s' q).
  { intros q Hq. destruct (decide (q = p)) as [->|Hne]; [done|]. by apply Hrel. }
  split; [|done].
  destruct HD as [Dc Di Db Ds Df Dp Dcl]. split.
  - intros tid' th' t'. rewrite Ethreads, Et.
    destruct (decide (tid' = tid)) as [->|Hne].
    + rewrite lookup_alter_eq, Hth. simpl. intros [= <-]. simpl. fold p.
      rewrite Ht. intros [= <-]. by left.
    + rewrite lookup_alter_ne by done. apply Dc.
  - intros c. rewrite Ei, Hind, Di.
    assert (Hsum : (pending_edges s' c
                    + occurrences c (children (dependents s) p))%nat
                   = pending_edges s c); [|lia].
    unfold pending_edges. rewrite Eo, Ed.
    pose proof (sum_list_release
      (fun q => if decide (released s q) then 0%nat
                else occurrences c (children (dependents s) q))
      (fun q => if decide (released s' q) then 0%nat
                else occurrences c (children (dependents s) q))
      (order s) p (wf_nodup s Hwf)) as Hs.
    cbv beta in Hs. rewrite (decide_False (P := released s p)) in Hs by done.
    apply Hs.
    + apply (wf_order s Hwf). eauto.
    + by rewrite decide_True.
    + intros q Hq. apply decide_ext. by apply Hrel.
  - intros q c. rewrite Ed. intros He Hn.
    assert (q ≠ p) by (by intros ->).
    unfold waits. rewrite !Hst. apply (Db q c He). by rewrite <- Hrel.
  - intros d t'. rewrite Et, Ef, Ed. intros Hd Hs.
    destruct (Ds d t' Hd Hs) as (? & f & ? & ? & ?). split; [done|].
    exists f. by rewrite Hst.
  - intros k. rewrite Hst, Ef. apply Df.
  - rewrite Er. intros Hr (k & t' & Hk & Hp). apply (Dp Hr).
    exists k, t'. by rewrite <- Et.
  - rewrite Er, Ef. apply Dcl.
Qed.

Ltac fields :=
  cbn [tasks order dependents indegree permits waiting runningTasks
       completedTasks failedTasks options threads next_tid run_state executed].

Lemma alter_swap (f g : Thread -> Thread) (i j : nat) (m : gmap nat Thread) :
  i ≠ j -> alter f i (alter g j m) = alter g j (alter f i m).
Proof.
  intros Hne. apply map_eq. intros k.
  destruct (decide (k = i)) as [->|Hi].
  - by rewrite lookup_alter_eq, !lookup_alter_ne, lookup_alter_eq by done.
  - rewrite lookup_alter_ne by done. destruct (decide (k = j)) as [->|Hj].
    + by rewrite !lookup_alter_eq, lookup_alter_ne by done.
    + by rewrite !lookup_alter_ne by done.
Qed.

Lemma acquire_set_pc tid pc n s :
  tid ≠ n -> acquire n (set_pc tid pc s) = set_pc tid pc (acquire n s).
Proof.
  intros Hne. unfold acquire.
  change (permits (set_pc tid pc s)) with (permits s).
  case_decide; unfold set_pc, with_threads, with_semaphore; fields; f_equal;
    by apply alter_swap.
Qed.

Lemma scheduleTask_set_pc tid pc k s :
  tid ≠ next_tid s ->
  scheduleTask k (set_pc tid pc s) = set_pc tid pc (scheduleTask k s).
Proof.
  intros Hne. unfold scheduleTask.
  change (next_tid (set_pc tid pc s)) with (next_tid s).
  rewrite <- acquire_set_pc by done. f_equal.
  unfold set_pc, with_next_tid, with_threads, update_task, with_tasks; fields.
  f_equal. by rewrite alter_insert_ne.
Qed.

Lemma schedule_all_set_pc tid pc l :
  forall s, (tid < next_tid s)%nat ->
    set_pc tid pc (fold_left (fun s k => scheduleTask k s) l s)
    = fold_left (fun s k => scheduleTask k s) l (set_pc tid pc s).
Proof.
  induction l as [|k l IH]; intros s Hlt; simpl; [done|].
  rewrite IH by (rewrite scheduleTask_next_tid; lia).
  rewrite scheduleTask_set_pc; [done|]. simpl. lia.
Qed.

Lemma sum_list_zero (F : string -> nat) l x :
  sum_list (map F l) = 0%nat -> x ∈ l -> F x = 0%nat.
Proof.
  induction l as [|y l IH]; simpl; [by intros _ ?%elem_of_nil|].
  intros Hs [->|Hx]%elem_of_cons; [lia|]. apply IH; [lia|done].
Qed.

(** A task with no pending edge has all its parents released. *)
Lemma no_pending_edges s c :
  Wf s -> pending_edges s c = 0%nat ->
  forall p, edge (dependents s) p c -> released s p.
Proof.
  intros Hwf H0 p He.
  destruct (wf_edge s Hwf p c He) as [Hp _].
  pose proof (sum_list_zero _ _ p H0 Hp) as Hz. cbv beta in Hz.
  destruct (decide (released s p)) as [|Hn]; [done|].
  apply occurrences_pos in He. lia.
Qed.

Lemma release_keeps s tid th :
  (forall tid, tid ∈ waiting s ->
     exists th, threads s !! tid = Some th /\ th_pc th = AwaitAcquire) ->
  threads s !! tid = Some th -> th_pc th <> AwaitAcquire ->
  threads (release s) !! tid = Some th.
Proof.
  intros Hw Hth Hpc. unfold release. destruct (waiting s) as [|next rest]; [done|].
  simpl. rewrite lookup_alter_ne; [done|]. intros E.
  destruct (Hw next) as (th' & Hth' & Hpc'); [by left|]. congruence.
Qed.

Lemma Dep_with_run_state r s :
  (after_poll r -> ~ some_pending s) ->
  (r = AwaitEngineComplete \/ r = Resolved -> failedTasks s = []) ->
  Dep s -> Dep (with_run_state r s).
Proof. intros H1 H2 [Dc Di Db Ds Df Dp Dcl]. by split. Qed.

Lemma Att_unique s : Att s -> unique_threads s.
Proof. intros H. exact (att_uniq s H). Qed.

Ltac pc_neq := intros [? ?]; congruence.

Lemma Dep_advance tid o s s' :
  Wf s -> Sem s -> Att s -> Dep s -> advance tid o s = Some s' -> Dep s'.
Proof.
  intros Hwf Hsem Hatt HD. unfold advance.
  destruct (threads s !! tid) as [th|] eqn:Hth; [|done]. simpl.
  destruct (tasks s !! th_task th) as [t|] eqn:Ht; [|done]. simpl.
  pose proof (dep_corr s HD tid th t Hth Ht) as Hc.
  pose proof (Att_unique s Hatt) as Hu.
  pose proof (wf_id s Hwf _ _ Ht) as Hid.
  pose proof (sem_tid s Hsem _ _ Hth) as Hlt.
  destruct (th_pc th) eqn:Hpc; simpl in Hc.
  - done.
  - intros [= <-].
    eapply (Dep_move tid th t
              (fun th => mkThread (th_task th) AwaitStartEmit (held th))
              (fun t => set_attempts (attempts t + 1) (set_status RUNNING t)));
      try exact HD; try done; simpl; rewrite ?Hpc, ?Hc; try done.
    + by left.
    + split; pc_neq.
    + intros _. apply is_pending_status. rewrite Hc. tauto.
    + by left.
  - intros [= <-].
    eapply (Dep_move tid th t
              (fun th => mkThread (th_task th) AwaitExecutor (held th))
              (fun t => t));
      try exact HD; try done; simpl; rewrite ?Hpc, ?Hc; try done.
    + symmetry. by apply alter_id.
    + by left.
    + split; pc_neq.
    + by left.
  - assert (Hfail : forall msg, Dep (on_failure tid t msg s)).
    { intros msg. unfold on_failure. rewrite Hid. case_decide as Hlim.
      - eapply (Dep_move tid th t
                  (fun th => mkThread (th_task th) AwaitRetryEmit (held th))
                  (fun t => t));
          try exact HD; try done; simpl; rewrite ?Hpc, ?Hc; try done.
        + symmetry. by apply alter_id.
        + by left.
        + split; pc_neq.
        + by left.
      - eapply (Dep_move tid th t
                  (fun th => mkThread (th_task th) AwaitFailedEmit (held th))
                  (fun t => set_error (Some msg) (set_status FAILED t)));
          try exact HD; try done; simpl; rewrite ?Hpc, ?Hc; try done.
        + by right.
        + split; pc_neq.
        + by right.
        + right. apply is_pending_status. rewrite Hc. tauto. }
    destruct o; intros [= <-]; try apply Hfail.
    eapply (Dep_move tid th t
              (fun th => mkThread (th_task th) AwaitCompleteEmit (held th))
              (fun t => set_result (Some value) (set_status COMPLETED t)));
      try exact HD; try done; simpl; rewrite ?Hpc, ?Hc; try done.
    + by left.
    + split; pc_neq.
    + by left.
  - intros [= <-]. unfold onTaskCompleted.
    destruct (fold_left _ _ _) as [indegree' newlyReady] eqn:Hfold.
    destruct (completed_children_spec _ _ _ [] NoDup_nil_2
                ltac:(by intros ? ?%elem_of_nil) _ _ Hfold) as (Hnd & Hnr & Hind).
    rewrite schedule_all_set_pc by done.
    set (s1 := set_pc tid Releasing (with_indegree indegree' s)).
    destruct (Dep_release_parent tid th t indegree' s s1) as [HD1 Hmono];
      try done.
    assert (Hwf1 : Wf s1) by (eapply Wf_frame; [done|by apply frame_same]).
    apply Dep_schedule_all; try done.
    + intros c Hc'. by destruct (Hnr c Hc').
    + intros c p Hc'. apply (no_pending_edges s1 c Hwf1).
      destruct (Hnr c Hc') as [Hle _].
      pose proof (dep_indegree s1 HD1 c) as Hk. simpl in Hk. lia.
    + eapply (Sem_move tid th Releasing (fun t => t) (with_indegree indegree' s));
        try done; try congruence.
      * intros t0 _ Hst. right. split; [done|]. rewrite Hpc.
        apply not_running_pc. tauto.
      * simpl. symmetry. by apply alter_id.
      * by apply Sem_with_indegree.
  - intros [= <-].
    eapply (Dep_move tid th t
              (fun th => mkThread (th_task th) AwaitRetryDelay (held th))
              (fun t => t));
      try exact HD; try done; simpl; rewrite ?Hpc, ?Hc; try done.
    + symmetry. by apply alter_id.
    + by left.
    + split; pc_neq.
    + by left.
  - intros [= <-]. unfold rescheduleTask, acquire. simpl. case_decide.
    + eapply (Dep_move tid th t
                (fun th => mkThread (th_task th) Acquired (S (held th)))
                (set_status QUEUED));
        try exact HD; try done; simpl; rewrite ?Hpc, ?Hc; try done.
      * by left.
      * split; pc_neq.
      * intros _. apply is_pending_status. rewrite Hc. tauto.
      * by left.
    + eapply (Dep_move tid th t
                (fun th => mkThread (th_task th) AwaitAcquire (held th))
                (set_status QUEUED));
        try exact HD; try done; simpl; rewrite ?Hpc, ?Hc; try done.
      * by left.
      * split; pc_neq.
      * intros _. apply is_pending_status. rewrite Hc. tauto.
      * by left.
  - destruct (skipDependentTasks_spec (th_task th) s) as (toSkip & -> & Hskip).
    simpl. intros [= <-].
    set (sm := fold_left (mark_skipped (th_task th)) toSkip s).
    assert (Hf : status_of s (th_task th) = Some FAILED).
    { unfold status_of. by rewrite Ht, <- Hc. }
    assert (HDm : Dep sm).
    { apply Dep_mark_skipped_all; [done| |done]. intros d. apply Hskip. }
    destruct (mark_skipped_all_frame (th_task th) toSkip s) as (Eth & _).
    fold sm in Eth.
    assert (Hthm : threads sm !! tid = Some th) by (by rewrite Eth).
    destruct (frame_mark_skipped_all (th_task th) toSkip s) as [_ _ _ Hft].
    specialize (Hft (th_task th)). rewrite Ht in Hft.
    destruct Hft as (tm & Htm & _). fold sm in Htm.
    pose proof (dep_corr sm HDm tid th tm Hthm Htm) as Hcm.
    rewrite Hpc in Hcm. simpl in Hcm.
    eapply (Dep_move tid th tm
              (fun th => mkThread (th_task th) Releasing (held th))
              (fun t => t) sm);
      try exact HDm; try done; simpl; rewrite ?Hpc, ?Hcm; try done.
    + symmetry. by apply alter_id.
    + by left.
    + unfold unique_threads. rewrite Eth. apply Hu.
    + by right.
    + split; pc_neq.
    + by left.
    + by left.
  - intros E.
    assert (HD' : Dep (match held th with
       | O | S O => with_threads (delete tid) (release s)
       | S n => with_threads
                  (alter (fun th => mkThread (th_task th) Releasing n) tid)
                  (release s)
       end)); [|destruct (held th) as [|[|n]]; by injection E as <-].
    clear E.
    destruct (release_frame s) as (Et & _ & Eo & Ed & Ei & _ & _ & Ef & Er).
    apply (Dep_threads s); [destruct (held th) as [|[|n]]; simpl; congruence..| | |done].
    + intros tid' th'.
      assert (Hrel : forall th1, threads (release s) !! tid' = Some th1 ->
                exists th0, threads s !! tid' = Some th0 /\ th_task th1 = th_task th0
                  /\ (forall st, corr (th_pc th0) st -> corr (th_pc th1) st)
                  /\ (th_pc th1 = AwaitCompleteEmit -> th_pc th0 = AwaitCompleteEmit)).
      { intros th1 H1.
        destruct (release_threads s _ _ (sem_waiting s Hsem) H1) as (th0 & H0 & E & Hcs).
        exists th0. split; [done|]. split; [done|].
        destruct Hcs as [->|[Ha Hb]]; [done|]. rewrite Ha, Hb. done. }
      destruct (held th) as [|[|n]]; simpl.
      * destruct (decide (tid' = tid)) as [->|Hne];
          [by rewrite lookup_delete_eq|rewrite lookup_delete_ne by done; apply Hrel].
      * destruct (decide (tid' = tid)) as [->|Hne];
          [by rewrite lookup_delete_eq|rewrite lookup_delete_ne by done; apply Hrel].
      * destruct (decide (tid' = tid)) as [->|Hne];
          [|rewrite lookup_alter_ne by done; apply Hrel].
        rewrite lookup_alter_eq.
        destruct (threads (release s) !! tid) as [th1|] eqn:E1; [|done]. simpl.
        intros [= <-]. simpl.
        destruct (release_threads s _ _ (sem_waiting s Hsem) E1) as (th0 & H0 & E & _).
        rewrite Hth in H0. injection H0 as <-.
        exists th. rewrite Hpc. done.
    + intros tid' th0 H0 Hace.
      assert (tid' ≠ tid) by (intros ->; congruence).
      assert (threads (release s) !! tid' = Some th0).
      { apply release_keeps; [apply (sem_waiting s Hsem)|done|congruence]. }
      destruct (held th) as [|[|n]]; simpl.
      * by rewrite lookup_delete_ne.
      * by rewrite lookup_delete_ne.
      * by rewrite lookup_alter_ne.
Qed.

Lemma existsb_is_pending s :
  Wf s -> existsb is_pending (task_values s) = false -> ~ some_pending s.
Proof.
  intros Hwf He (k & t & Hk & Hp).
  assert (Hex : existsb is_pending (task_values s) = true); [|congruence].
  apply existsb_exists. exists t. split; [|done].
  apply list_elem_of_In, task_values_spec; [done|].
  by rewrite (wf_id s Hwf k t Hk).
Qed.

Lemma Dep_run_step s s' :
  Wf s -> Sem s -> Dep s -> run_step s = Some s' -> Dep s'.
Proof.
  intros Hwf Hsem HD. unfold run_step.
  destruct (run_state s) eqn:Hrs.
  - intros [= <-]. apply Dep_with_run_state; [intros [|[|]]; done|intros [|]; done|done].
  - destruct (hasCircularDependency s) as [[|]|]; [| |done].
    + intros [= <-].
      apply Dep_with_run_state; [intros [|[|]]; done|intros [|]; done|done].
    + destruct (_ && _); intros [= <-];
        (apply Dep_with_run_state; [intros [|[|]]; done|intros [|]; done|]); [done|].
      destruct (getReadyTasks_spec s Hwf) as [Hnd Hr].
      rewrite (fold_left_fmap scheduleTask id).
      apply Dep_schedule_all; try done.
      * intros k (t & -> & Hin)%list_elem_of_fmap.
        exists t. by destruct (Hr t Hin) as (? & ? & _).
      * intros c p (t & -> & Hin)%list_elem_of_fmap.
        apply (no_pending_edges s _ Hwf).
        destruct (Hr t Hin) as (_ & _ & H0).
        pose proof (dep_indegree s HD (id t)) as Hk. lia.
  - destruct (existsb _ _) eqn:Hex; intros [= <-]; [done|].
    apply Dep_with_run_state; [|intros [|]; done|done].
    intros _. by apply existsb_is_pending.
  - assert (Hp : ~ some_pending s).
    { apply (dep_polled s HD). rewrite Hrs. by left. }
    destruct (failedTasks s) eqn:Hf; intros [= <-].
    + apply Dep_with_run_state; [done|done|done].
    + apply Dep_with_run_state; [intros [|[|]]; done|intros [|]; done|done].
  - intros [= <-]. apply Dep_with_run_state; [| |done].
    + intros _. apply (dep_polled s HD). rewrite Hrs. right. by left.
    + intros _. apply (dep_clean s HD). rewrite Hrs. by left.
  - done.
  - done.
Qed.

Lemma Dep_step c s s' :
  Inv s -> Dep s -> step c s = Some s' -> Dep s'.
Proof.
  intros [Hwf Hsem Hatt] HD. destruct c; simpl.
  - by apply Dep_run_step.
  - by apply Dep_advance.
Qed.

Lemma Dep_exec cs : forall s s', Inv s -> Dep s -> exec cs s = Some s' -> Dep s'.
Proof.
  induction cs as [|c cs IH]; intros s s' Hi HD; simpl.
  - by intros [= <-].
  - destruct (step c s) as [s1|] eqn:E; [|done].
    apply IH; [by eapply Inv_step|by eapply Dep_step].
Qed.

Lemma Dep_loaded taskList opts s : loaded taskList opts s -> Dep s.
Proof.
  intros Hl.
  destruct (ld_fresh _ _ _ Hl) as (Eth & Ew & Ep & Er & Eex & Ef & _ & _ & Eo).
  assert (Hpend : forall k t, tasks s !! k = Some t -> status t = PENDING).
  { intros k t Hk. by destruct (ld_task _ _ _ Hl k t Hk) as (_ & ? & _). }
  assert (Hnrel : forall p, ~ released s p).
  { intros p [Hc _]. unfold status_of in Hc.
    destruct (tasks s !! p) as [t|] eqn:E; [|done].
    simpl in Hc. rewrite (Hpend p t E) in Hc. done. }
  split.
  - intros tid th t. by rewrite Eth, lookup_empty.
  - intros c. rewrite (dl_indegree _ _ (ld_deps _ _ _ Hl)). f_equal.
    unfold pending_edges, edges_into. f_equal. apply map_ext. intros p.
    by rewrite decide_False.
  - intros p c He _. left.
    assert (Hc : c ∈ order s) by (by eapply loaded_children_known).
    apply (ld_order _ _ _ Hl), (ld_tasks _ _ _ Hl) in Hc as [t Ht].
    unfold status_of. by rewrite Ht, <- (Hpend c t Ht).
  - intros d t Hd Hs. rewrite (Hpend d t Hd) in Hs. done.
  - intros k. unfold status_of. destruct (tasks s !! k) as [t|] eqn:E; [|done].
    simpl. rewrite (Hpend k t E). done.
  - rewrite Er. intros [|[|]]; done.
  - rewrite Er. intros [|]; done.
Qed.

Lemma reachable_Dep opts taskList cs s :
  exec cs (loadPlan taskList (new_scheduler opts)) = Some s -> Dep s.
Proof.
  intros Hexec. pose proof (loadPlan_loaded taskList opts) as Hl.
  eapply Dep_exec; [by eapply Inv_loaded|by eapply Dep_loaded|done].
Qed.

(** *** The plans of the scenarios *)

Definition cascade_plan : list Task :=
  [new_task "p" [] (Some 1); new_task "c" ["p"] None; new_task "g" ["c"] None].

(** [run()] starts; [p] runs and throws, fails for good and its
    dependents are skipped; the poll finds nothing pending and [run()]
    rejects. *)
Definition cascade_schedule : list Choice :=
  [Tick; Tick; Advance 0 TimesOut; Advance 0 TimesOut; Advance 0 (Rejects "boom");
   Advance 0 TimesOut; Advance 0 TimesOut; Tick; Tick].



(** *** When the executor never resolves *)












(** *** A failure next to a retry that never ends

    [p] fails for good and [c] is skipped; [q] fails once and its retry
    waits for the permit that [q] itself holds. *)












(** ** The life of a task *)

(** The moves of [task.status] that the scheduler makes. *)
Inductive lifecycle : TaskStatus -> TaskStatus -> Prop :=
  | lc_same st : lifecycle st st
  | lc_queue : lifecycle PENDING QUEUED
  | lc_start : lifecycle QUEUED RUNNING
  | lc_complete : lifecycle RUNNING COMPLETED
  | lc_fail : lifecycle RUNNING FAILED
  | lc_retry : lifecycle RUNNING QUEUED
  | lc_skip : lifecycle PENDING SKIPPED.

(** Every task of [s] is a task of [s'], its status one move on. *)
Definition follows (s s' : Scheduler) : Prop :=
  forall k st, status_of s k = Some st ->
    exists st', status_of s' k = Some st' /\ lifecycle st st'.

Lemma follows_same s s' : tasks s' = tasks s -> follows s s'.
Proof.
  intros Et k st Hk. exists st. unfold status_of in *. rewrite Et.
  split; [done|constructor].
Qed.

Lemma follows_then s s1 s' : follows s s1 -> tasks s' = tasks s1 -> follows s s'.
Proof.
  intros H Et k st Hk. destruct (H k st Hk) as (st' & Hk' & Hl).
  exists st'. unfold status_of in *. by rewrite Et.
Qed.

Lemma follows_from s s1 s' : tasks s1 = tasks s -> follows s1 s' -> follows s s'.
Proof.
  intros Et H k st Hk. apply H. unfold status_of in *. by rewrite Et.
Qed.

Lemma follows_alter f k0 t0 s s' :
  tasks s' = alter f k0 (tasks s) -> tasks s !! k0 = Some t0 ->
  lifecycle (status t0) (status (f t0)) -> follows s s'.
Proof.
  intros Et Ht Hl k st Hk. rewrite (status_of_alter s s' f k0 k Et).
  case_decide as E.
  - subst. unfold status_of in Hk. rewrite Ht in *. simpl in *.
    injection Hk as <-. eauto.
  - exists st. split; [done|constructor].
Qed.

Lemma schedule_all_tasks l : forall s k,
  tasks (fold_left (fun s c => scheduleTask c s) l s) !! k
  = if decide (k ∈ l) then set_status QUEUED <$> tasks s !! k else tasks s !! k.
Proof.
  induction l as [|x l IH]; intros s k; cbn [fold_left].
  - rewrite decide_False; [done|]. by intros ?%elem_of_nil.
  - rewrite IH. destruct (scheduleTask_frame x s) as (-> & _).
    destruct (decide (k = x)) as [->|Hne].
    + rewrite lookup_alter_eq. rewrite (decide_True (P := x ∈ x :: l)) by left.
      case_decide; [|done]. by destruct (tasks s !! x).
    + rewrite lookup_alter_ne by done.
      apply decide_ext. rewrite elem_of_cons. naive_solver.
Qed.

Lemma follows_schedule_all l s :
  (forall c, c ∈ l -> exists t, tasks s !! c = Some t /\ status t = PENDING) ->
  follows s (fold_left (fun s c => scheduleTask c s) l s).
Proof.
  intros Hp k st Hk. unfold status_of in *. rewrite schedule_all_tasks.
  case_decide as E.
  - destruct (Hp k E) as (t & Ht & Hst). rewrite Ht in *. simpl in *.
    injection Hk as <-. exists QUEUED. rewrite Hst. split; [done|constructor].
  - exists st. split; [done|constructor].
Qed.

Lemma follows_mark_skipped_all f l s :
  (forall d, d ∈ l -> waits s d) ->
  follows s (fold_left (mark_skipped f) l s).
Proof.
  intros Hw k st Hk. unfold status_of in *. rewrite mark_skipped_all_tasks.
  case_decide as E.
  - destruct (tasks s !! k) as [t|] eqn:Ht; [|done]. simpl in *.
    injection Hk as <-. exists SKIPPED. split; [done|].
    destruct (Hw k E) as [H|H]; unfold status_of in H; rewrite Ht in H;
      injection H as ->; constructor.
  - exists st. split; [done|constructor].
Qed.

(** A step moves every task along its life cycle, and drops none. *)
Lemma step_follows c s s' :
  Inv s -> Dep s -> step c s = Some s' -> follows s s'.
Proof.
  intros [Hwf Hsem Hatt] HD. destruct c as [|tid o]; simpl.
  - unfold run_step. destruct (run_state s).
    + intros [= <-]. by apply follows_same.
    + destruct (hasCircularDependency s) as [[|]|]; [| |done].
      * intros [= <-]. by apply follows_same.
      * destruct (_ && _); intros [= <-]; [by apply follows_same|].
        eapply follows_then; [|reflexivity].
        rewrite (fold_left_fmap scheduleTask id).
        apply follows_schedule_all.
        destruct (getReadyTasks_spec s Hwf) as [_ Hr].
        intros k (t & -> & Hin)%list_elem_of_fmap.
        exists t. by destruct (Hr t Hin) as (? & ? & _).
    + destruct (existsb _ _); intros [= <-]; by apply follows_same.
    + destruct (failedTasks s); intros [= <-]; by apply follows_same.
    + intros [= <-]. by apply follows_same.
    + done.
    + done.
  - unfold advance.
    destruct (threads s !! tid) as [th|] eqn:Hth; [|done]. simpl.
    destruct (tasks s !! th_task th) as [t|] eqn:Ht; [|done]. simpl.
    pose proof (dep_corr s HD tid th t Hth Ht) as Hc.
    destruct (th_pc th) eqn:Hpc; simpl in Hc.
    + done.
    + intros [= <-]. eapply (follows_alter _ (th_task th) t); [reflexivity|done|].
      simpl. rewrite Hc. constructor.
    + intros [= <-]. by apply follows_same.
    + assert (Hfail : forall msg, follows s (on_failure tid t msg s)).
      { intros msg. unfold on_failure. rewrite (wf_id s Hwf _ _ Ht). case_decide.
        - by apply follows_same.
        - eapply (follows_alter _ (th_task th) t); [reflexivity|done|].
          simpl. rewrite Hc. constructor. }
      destruct o; intros [= <-]; try apply Hfail.
      eapply (follows_alter _ (th_task th) t); [reflexivity|done|].
      simpl. rewrite Hc. constructor.
    + intros [= <-]. unfold onTaskCompleted.
      destruct (fold_left _ _ _) as [indegree' newlyReady] eqn:Hfold.
      destruct (completed_children_spec _ _ _ [] NoDup_nil_2
                  ltac:(by intros ? ?%elem_of_nil) _ _ Hfold) as (_ & Hnr & _).
      eapply follows_then; [|reflexivity].
      eapply (follows_from s (with_indegree indegree' s)); [reflexivity|].
      apply follows_schedule_all. intros c Hc'. by destruct (Hnr c Hc').
    + intros [= <-]. by apply follows_same.
    + intros [= <-]. unfold rescheduleTask.
      destruct (acquire_frame tid (update_task (th_task th) (set_status QUEUED) s))
        as (Et & _).
      eapply follows_then; [|exact Et].
      eapply (follows_alter _ (th_task th) t); [reflexivity|done|].
      simpl. rewrite Hc. constructor.
    + destruct (skipDependentTasks_spec (th_task th) s) as (toSkip & -> & Hskip).
      simpl. intros [= <-]. eapply follows_then; [|reflexivity].
      apply follows_mark_skipped_all. intros d Hd.
      eapply descendants_wait; [apply (dep_blocked s HD)| |by apply Hskip].
      intros [E _]. unfold status_of in E. rewrite Ht in E. simpl in E. congruence.
    + intros E. destruct (release_frame s) as (Et & _).
      apply follows_same. destruct (held th) as [|[|n]]; by injection E as <-.
Qed.


Definition terminal (st : TaskStatus) : Prop :=
  st = COMPLETED \/ st = FAILED \/ st = SKIPPED.

Lemma lifecycle_terminal st st' : terminal st -> rtc lifecycle st st' -> st' = st.
Proof.
  intros Ht Hr. induction Hr as [|st st1 st' Hl _ IH]; [done|].
  assert (st1 = st) as ->.
  { destruct Ht as [->|[->| ->]]; by inversion Hl. }
  by apply IH.
Qed.

Lemma schedule_all_executed {A} (f : A -> string) l s :
  executed (fold_left (fun s x => scheduleTask (f x) s) l s) = executed s.
Proof.
  revert s. induction l as [|x l IH]; intros s; [done|].
  simpl. rewrite IH. by destruct (scheduleTask_frame (f x) s) as (_&_&_&_&_&->&_).
Qed.

(** The executor is called by a thread whose task is RUNNING. *)
Lemma step_executed c s s' :
  Dep s -> step c s = Some s' ->
  executed s' = executed s
  \/ exists k, executed s' = (executed s ++ [k])%list
               /\ status_of s k = Some RUNNING.
Proof.
  intros HD. destruct c as [|tid o]; simpl.
  - unfold run_step. destruct (run_state s).
    + intros [= <-]. by left.
    + destruct (hasCircularDependency s) as [[|]|]; [| |done].
      * intros [= <-]. by left.
      * destruct (_ && _); intros [= <-]; [by left|].
        left. simpl. by rewrite (schedule_all_executed id).
    + destruct (existsb _ _); intros [= <-]; by left.
    + destruct (failedTasks s); intros [= <-]; by left.
    + intros [= <-]. by left.
    + done.
    + done.
  - unfold advance.
    destruct (threads s !! tid) as [th|] eqn:Hth; [|done]. simpl.
    destruct (tasks s !! th_task th) as [t|] eqn:Ht; [|done]. simpl.
    pose proof (dep_corr s HD tid th t Hth Ht) as Hc.
    destruct (th_pc th) eqn:Hpc; simpl in Hc.
    + done.
    + intros [= <-]. by left.
    + intros [= <-]. right. exists (th_task th). split; [done|].
      unfold status_of. by rewrite Ht, <- Hc.
    + assert (Hfail : forall msg, executed (on_failure tid t msg s) = executed s).
      { intros msg. unfold on_failure. by case_decide. }
      destruct o; intros [= <-]; left; try apply Hfail. done.
    + intros [= <-]. left. unfold onTaskCompleted.
      destruct (fold_left _ _ _) as [indegree' newlyReady]. simpl.
      by rewrite (schedule_all_executed (fun x => x)).
    + intros [= <-]. by left.
    + intros [= <-]. left. unfold rescheduleTask.
      by destruct (acquire_frame tid (update_task (th_task th) (set_status QUEUED) s))
        as (_&_&_&_&_&_&->&_).
    + unfold skipDependentTasks.
      destruct (skip_loop _ _ _ _ _) as [toSkip|]; [|done]. simpl.
      intros [= <-]. left. simpl.
      by destruct (mark_skipped_all_frame (th_task th) toSkip s) as (_&_&_&_&_&_&->).
    + intros E. left. destruct (release_frame s) as (_&_&_&_&_&_&Ee&_).
      destruct (held th) as [|[|n]]; by injection E as <-.
Qed.

(** A task that waits (PENDING or SKIPPED) has never been handed to the
    executor. *)
Definition untried (s : Scheduler) : Prop :=
  forall k, waits s k -> k ∉ executed s.

Lemma untried_step c s s' :
  Inv s -> Dep s -> step c s = Some s' -> untried s -> untried s'.
Proof.
  intros Hi HD Hstep Hu k Hw.
  assert (Hw0 : waits s k).
  { pose proof (fr_tasks _ _ (frame_step _ _ _ Hstep) k) as Hfr.
    destruct (tasks s !! k) as [t|] eqn:Ht.
    - destruct (step_follows c s s' Hi HD Hstep k (status t)) as (st' & Hk' & Hl).
      { unfold status_of. by rewrite Ht. }
      unfold waits, status_of. rewrite Ht. simpl.
      destruct Hw as [H|H]; rewrite H in Hk'; injection Hk' as <-;
        inversion Hl; subst; auto.
    - destruct Hw as [H|H]; unfold status_of in H; by rewrite Hfr in H. }
  destruct (step_executed c s s' HD Hstep) as [->|(k0 & -> & Hr)]; [by apply Hu|].
  rewrite elem_of_app, list_elem_of_singleton. intros [Hin| ->].
  - by apply (Hu k).
  - destruct Hw0 as [H|H]; congruence.
Qed.


(** *** Runs used as instances *)


(** Name the state a concrete run ends in, without writing it out. *)
Ltac run_to s E :=
  match goal with
  | |- context [exec ?cs ?s0 = Some _] =>
      let Hb := fresh "Hb" in
      assert (Hb : bool_decide (is_Some (exec cs s0)) = true)
        by (vm_compute; reflexivity);
      destruct (exec cs s0) as [s|] eqn:E;
      [clear Hb|by apply bool_decide_eq_true in Hb as [? ?]]
  end.

(** Read [f s] off the run that ends in [s]. *)
Ltac read E f v H :=
  match type of E with
  | exec ?cs ?s0 = Some ?s =>
      assert (H : f <$> exec cs s0 = Some v) by (vm_compute; reflexivity);
      rewrite E in H; simpl in H; injection H as H
  end.

Definition chain_plan : list Task :=
  [new_task "a" [] None; new_task "b" ["a"] None].

(** [a] runs and resolves, then [b] is scheduled and started. *)
Definition chain_schedule : list Choice :=
  [Tick; Tick; Advance 0 TimesOut; Advance 0 TimesOut; Advance 0 (Resolves "ok");
   Advance 0 TimesOut; Advance 1 TimesOut; Advance 1 TimesOut].

(** Then [b] resolves too, both threads leave, and [run()] returns. *)
Definition chain_rest : list Choice :=
  [Advance 1 (Resolves "ok"); Advance 1 TimesOut; Advance 0 TimesOut;
   Advance 1 TimesOut; Tick; Tick; Tick].










(** If [run()] resolves, every task of the plan is COMPLETED and the failed
    set is empty. *)
Theorem resolved_run_completed_all :
  forall (opts : SchedulerOptions) (taskList : list Task) (cs : list Choice)
         (s : Scheduler),
    exec cs (loadPlan taskList (new_scheduler opts)) = Some s ->
    run_state s = Resolved ->
    (forall k t, tasks s !! k = Some t -> status t = COMPLETED)
    /\ failedTasks s = []
    /\ summary s COMPLETED = List.length (task_values s).
Proof.
  intros opts taskList cs s Hexec Hr.
  pose proof (reachable_Dep _ _ _ _ Hexec) as HD.
  destruct (reachable_Inv _ _ _ _ Hexec) as [[Hwf _ _] _].
  assert (Hf : failedTasks s = []) by (apply (dep_clean s HD); by right).
  assert (Hnp : ~ some_pending s).
  { apply (dep_polled s HD). rewrite Hr. right. by right. }
  assert (Hall : forall k t, tasks s !! k = Some t -> status t = COMPLETED).
  { intros k t Hk. destruct (status t) eqn:E; try done; exfalso.
    1-3: apply Hnp; exists k, t; split; [done|];
         apply is_pending_status; rewrite E; tauto.
    - assert (Hin : k ∈ failedTasks s).
      { apply (dep_failed s HD). unfold status_of. by rewrite Hk, <- E. }
      rewrite Hf in Hin. by apply elem_of_nil in Hin.
    - destruct (dep_skipped s HD k t Hk E) as [Hin _].
      rewrite Hf in Hin. by apply elem_of_nil in Hin. }
  split; [done|]. split; [done|].
  unfold summary. f_equal.
  apply forallb_filter_id. apply forallb_forall. intros t Hin.
  apply list_elem_of_In, task_values_spec in Hin; [|done].
  apply bool_decide_eq_true. by eapply Hall.
Qed.

Lemma resolved_run_completed_all_witness :
  exists s,
    exec (chain_schedule ++ chain_rest)
         (loadPlan chain_plan (new_scheduler default_options)) = Some s
    /\ run_state s = Resolved
    /\ (forall k t, tasks s !! k = Some t -> status t = COMPLETED)
    /\ failedTasks s = []
    /\ summary s COMPLETED = List.length (task_values s).
Proof.
  run_to s E. read E run_state Resolved Hr.
  exists s. split; [done|]. split; [done|].
  by apply (resolved_run_completed_all default_options chain_plan
              (chain_schedule ++ chain_rest)).
Defined.

(** ** No false alarm from the cycle check *)

Section Back_edge.

Variable deps : gmap string (list string).

(** The GRAY nodes are the calls of [dfs] under way: each reaches the node
    being visited. *)
Definition gray_reach (c : gmap string Color) (u : string) : Prop :=
  forall g, c !! g = Some GRAY -> rtc (edge deps) g u.

Lemma dfs_back_edge fuel :
  forall u c c',
    coloured deps c -> gray_reach c u ->
    dfs deps fuel u c = Some (true, c') ->
    exists x, tc (edge deps) x x.
Proof.
  induction fuel as [|fuel IH]; intros u c c' Hcol Hg; [discriminate|].
  rewrite dfs_unfold.
  destruct (dfs_children deps fuel (children deps u) (<[u:=GRAY]> c))
    as [[[|] c2]|] eqn:Hloop; try discriminate.
  intros _.
  assert (Hcol1 : coloured deps (<[u:=GRAY]> c)).
  { intros x y He. destruct (decide (y = u)) as [->|Hne].
    - rewrite lookup_insert_eq. eauto.
    - rewrite lookup_insert_ne by done. by eapply Hcol. }
  assert (Hg1 : gray_reach (<[u:=GRAY]> c) u).
  { intros g. destruct (decide (g = u)) as [->|Hne]; [intros _; apply rtc_refl|].
    rewrite lookup_insert_ne by done. apply Hg. }
  clear Hg Hcol. revert Hloop Hcol1 Hg1.
  assert (Hch : forall y, y ∈ children deps u -> edge deps u y) by done.
  revert Hch. generalize (<[u:=GRAY]> c). generalize (children deps u).
  induction l as [|y l IHl]; intros c1 Hch; simpl; [discriminate|].
  intros Hloop Hcol Hg.
  assert (Hy : edge deps u y) by (apply Hch; left).
  assert (Hl : forall z, z ∈ l -> edge deps u z) by (intros z Hz; apply Hch; by right).
  destruct (c1 !! y) as [[| |]|] eqn:Ey.
  - destruct (dfs deps fuel y c1) as [[[|] c1']|] eqn:Hd; try discriminate.
    + apply (IH y c1 c1' Hcol); [|done].
      intros g Hgr. eapply rtc_r; [by apply Hg|done].
    + destruct (dfs_spec deps fuel y c1 c1' Hcol Ey Hd) as [Hp _].
      apply (IHl c1' Hl Hloop); [by eapply coloured_post|].
      intros g Hgr. apply Hg. by apply (post_gray_back _ _ _ Hp).
  - exists y. eapply tc_rtc_l; [by apply Hg|]. by apply tc_once.
  - by apply (IHl c1).
  - by apply (IHl c1).
Qed.

Lemma dfs_all_back_edge fuel :
  forall keys c,
    coloured deps c -> no_gray c ->
    dfs_all deps fuel keys c = Some true ->
    exists x, tc (edge deps) x x.
Proof.
  induction keys as [|k0 keys IH]; intros c Hcol Hng; simpl; [discriminate|].
  destruct (c !! k0) as [[| |]|] eqn:Hk0; try by apply IH.
  destruct (dfs deps fuel k0 c) as [[[|] c']|] eqn:Hd; try discriminate.
  - intros _. apply (dfs_back_edge fuel k0 c c' Hcol); [|done].
    intros g Hgr. by destruct (Hng g).
  - destruct (dfs_spec deps fuel k0 c c' Hcol Hk0 Hd) as [Hp _].
    apply IH; [by eapply coloured_post|].
    intros x Hx. apply (Hng x). by apply (post_gray_back _ _ _ Hp).
Qed.

End Back_edge.

Lemma hasCircularDependency_sound s :
  children_known s -> hasCircularDependency s = Some true ->
  exists x, tc (edge (dependents s)) x x.
Proof.
  intros Hk. unfold hasCircularDependency. apply dfs_all_back_edge.
  - intros a b He. rewrite all_white_lookup.
    rewrite decide_True; [eauto|]. by eapply Hk.
  - intros a Ha. rewrite all_white_lookup in Ha. by case_decide.
Qed.

(** *** The edges [loadPlan] records are the declared ones *)

Definition declared (taskList : list Task) (s : Scheduler) : Prop :=
  forall p c, edge (dependents s) p c -> depends_on taskList c p.

Lemma add_dependency_declared taskList task s parentId :
  task ∈ taskList -> parentId ∈ dependencies task ->
  (forall k, is_Some (tasks s !! k) <-> k ∈ map id taskList) ->
  declared taskList s -> declared taskList (add_dependency task s parentId).
Proof.
  intros Ht Hp Hk Hd p c. unfold add_dependency. case_decide as Hin; [|apply Hd].
  unfold edge, children. simpl. destruct (decide (p = parentId)) as [->|Hne].
  - rewrite lookup_alter_eq. destruct (dependents s !! parentId) as [l|] eqn:E.
    + simpl. intros [Hc| ->%list_elem_of_singleton]%elem_of_app.
      * apply Hd. unfold edge, children. by rewrite E.
      * exists task. split; [done|]. split; [done|]. split; [done|]. by apply Hk.
    + simpl. by intros ?%elem_of_nil.
  - rewrite lookup_alter_ne by done. apply Hd.
Qed.

Lemma loadPlan_declared taskList opts :
  declared taskList (loadPlan taskList (new_scheduler opts)).
Proof.
  unfold loadPlan.
  pose proof (load_entries_loaded taskList [] _ (reset_loaded (new_scheduler opts)))
    as H1. simpl in H1.
  set (s1 := fold_left load_entry taskList (reset (new_scheduler opts))) in *.
  destruct H1 as [_ _ Ht _ Hd _].
  assert (H0 : declared taskList s1).
  { intros p c. unfold edge, children. rewrite Hd.
    case_decide; simpl; by intros ?%elem_of_nil. }
  assert (Hgen : forall l s,
            (forall t, t ∈ l -> t ∈ taskList) ->
            (forall k, is_Some (tasks s !! k) <-> k ∈ map id taskList) ->
            declared taskList s ->
            declared taskList (fold_left add_dependencies l s)).
  { induction l as [|t l IH]; intros s Hl Hk Hs; simpl; [done|].
    assert (Hin : t ∈ taskList) by (apply Hl; left).
    assert (Hone : forall ps s0,
              (forall p, p ∈ ps -> p ∈ dependencies t) ->
              (forall k, is_Some (tasks s0 !! k) <-> k ∈ map id taskList) ->
              declared taskList s0 ->
              declared taskList (fold_left (add_dependency t) ps s0)
              /\ tasks (fold_left (add_dependency t) ps s0) = tasks s0).
    { induction ps as [|p ps IHp]; intros s0 Hps Hk0 Hs0; simpl; [done|].
      destruct (add_dependency_frame t s0 p) as (Et & _).
      destruct (IHp (add_dependency t s0 p)) as [H2 H3].
      - intros q Hq. apply Hps. by right.
      - intros k. by rewrite Et.
      - apply add_dependency_declared; try done. apply Hps. left.
      - split; [done|]. by rewrite H3. }
    destruct (Hone (dependencies t) s) as [H2 H3]; try done.
    apply IH.
    - intros t' Ht'. apply Hl. by right.
    - intros k. unfold add_dependencies. by rewrite H3.
    - done. }
  by apply Hgen.
Qed.

Lemma tc_edge_depends_on taskList opts x y :
  tc (edge (dependents (loadPlan taskList (new_scheduler opts)))) x y ->
  tc (depends_on taskList) y x.
Proof.
  pose proof (loadPlan_declared taskList opts) as Hd.
  induction 1 as [x y H|x y z H _ IH].
  - apply tc_once. by apply Hd.
  - eapply tc_r; [exact IH|]. by apply Hd.
Qed.

(** The cycle check of [run()] answers, and answers true exactly when the
    declared dependencies among the tasks of the plan contain a cycle. *)
Theorem cycle_check_is_exact :
  forall (opts : SchedulerOptions) (taskList : list Task),
    let s := loadPlan taskList (new_scheduler opts) in
    (hasCircularDependency s = Some true <-> has_cycle taskList)
    /\ (hasCircularDependency s = Some false <-> ~ has_cycle taskList).
Proof.
  intros opts taskList s.
  pose proof (loadPlan_loaded taskList opts) as Hl. fold s in Hl.
  pose proof (loaded_children_known _ _ _ Hl) as Hk.
  assert (Hyes : has_cycle taskList -> hasCircularDependency s = Some true).
  { intros [x Hx]. eapply hasCircularDependency_complete; [done|].
    by eapply tc_depends_on_edge. }
  assert (Hno : hasCircularDependency s = Some true -> has_cycle taskList).
  { intros H. destruct (hasCircularDependency_sound s Hk H) as [x Hx].
    exists x. by apply (tc_edge_depends_on taskList opts). }
  destruct (hasCircularDependency_total s Hk) as [[|] Hres]; rewrite Hres.
  - split; [tauto|]. split; [done|]. intros Hn. exfalso. by apply Hn, Hno.
  - split.
    + split; [done|]. intros Hc. apply Hyes in Hc. congruence.
    + split; [|done]. intros _ Hc. apply Hyes in Hc. congruence.
Qed.

(** ** The semaphore never keeps a thread waiting beside a free permit *)

Definition no_idle_permit (s : Scheduler) : Prop :=
  waiting s <> [] -> permits s <= 0.

Lemma no_idle_permit_same s s' :
  permits s' = permits s -> waiting s' = waiting s ->
  no_idle_permit s -> no_idle_permit s'.
Proof. unfold no_idle_permit. by intros -> ->. Qed.

Lemma no_idle_permit_acquire tid s :
  no_idle_permit s -> no_idle_permit (acquire tid s).
Proof.
  unfold no_idle_permit, acquire. case_decide as Hp; simpl; intros H Hw.
  - specialize (H Hw). lia.
  - lia.
Qed.

Lemma no_idle_permit_release s :
  0 <= permits s -> no_idle_permit s -> no_idle_permit (release s).
Proof.
  unfold no_idle_permit, release. intros Hp H.
  destruct (waiting s) as [|next rest]; simpl; [done|].
  intros _. assert (permits s <= 0) by (by apply H). lia.
Qed.

Lemma no_idle_permit_schedule_all {A} (f : A -> string) l s :
  no_idle_permit s ->
  no_idle_permit (fold_left (fun s x => scheduleTask (f x) s) l s).
Proof.
  revert s. induction l as [|x l IH]; intros s H; [done|].
  simpl. apply IH. unfold scheduleTask. apply no_idle_permit_acquire.
  by eapply no_idle_permit_same; [| |exact H].
Qed.

Lemma mark_skipped_all_semaphore f l : forall s,
  permits (fold_left (mark_skipped f) l s) = permits s
  /\ waiting (fold_left (mark_skipped f) l s) = waiting s.
Proof.
  induction l as [|x l IH]; intros s; simpl; [done|].
  by destruct (IH (mark_skipped f s x)) as [-> ->].
Qed.

Lemma no_idle_permit_step c s s' :
  Sem s -> 0 <= maxConcurrency (options s) ->
  step c s = Some s' -> no_idle_permit s -> no_idle_permit s'.
Proof.
  intros Hsem Hmax. destruct c as [|tid o]; simpl.
  - unfold run_step. destruct (run_state s).
    + intros [= <-]. by apply no_idle_permit_same.
    + destruct (hasCircularDependency s) as [[|]|]; [| |done].
      * intros [= <-]. by apply no_idle_permit_same.
      * destruct (_ && _); intros [= <-]; [by apply no_idle_permit_same|].
        intros H. eapply no_idle_permit_same;
          [| |apply (no_idle_permit_schedule_all id (getReadyTasks s) s H)]; done.
    + destruct (existsb _ _); intros [= <-]; [done|]. by apply no_idle_permit_same.
    + destruct (failedTasks s); intros [= <-]; by apply no_idle_permit_same.
    + intros [= <-]. by apply no_idle_permit_same.
    + done.
    + done.
  - unfold advance.
    destruct (threads s !! tid) as [th|] eqn:Hth; [|done]. simpl.
    destruct (tasks s !! th_task th) as [t|] eqn:Ht; [|done]. simpl.
    destruct (th_pc th) eqn:Hpc.
    + done.
    + intros [= <-]. by apply no_idle_permit_same.
    + intros [= <-]. by apply no_idle_permit_same.
    + assert (Hfail : forall msg, no_idle_permit s ->
                no_idle_permit (on_failure tid t msg s)).
      { intros msg. unfold on_failure. case_decide; by apply no_idle_permit_same. }
      destruct o; intros [= <-]; try apply Hfail. by apply no_idle_permit_same.
    + intros [= <-] H. unfold onTaskCompleted.
      destruct (fold_left _ _ _) as [indegree' newlyReady].
      eapply no_idle_permit_same;
        [| |apply (no_idle_permit_schedule_all (fun x => x) newlyReady
                     (with_indegree indegree' s))]; done.
    + intros [= <-]. by apply no_idle_permit_same.
    + intros [= <-] H. unfold rescheduleTask. apply no_idle_permit_acquire.
      by eapply no_idle_permit_same; [| |exact H].
    + unfold skipDependentTasks.
      destruct (skip_loop _ _ _ _ _) as [toSkip|]; [|done]. simpl.
      intros [= <-].
      destruct (mark_skipped_all_semaphore (th_task th) toSkip s) as [Ep Ew].
      by apply no_idle_permit_same.
    + intros E H.
      assert (H' : no_idle_permit (release s)).
      { apply no_idle_permit_release; [|done].
        destruct (sem_permits s Hsem) as [|H0]; [done|].
        pose proof (held_le_total _ _ _ Hth) as Hle.
        pose proof (sem_held s Hsem tid th Hth) as Hh.
        rewrite Hpc in Hh. specialize (Hh ltac:(done)). lia. }
      destruct (held th) as [|[|n]]; injection E as <-;
        by eapply no_idle_permit_same; [| |exact H'].
Qed.

(** In every state of a run, with a whole-number [maxConcurrency] that is
    not negative: the free permits and the permits held by threads add up to
    [maxConcurrency], the number of free permits is never negative, and no
    thread waits in the queue of the semaphore while a permit is free. *)
Theorem semaphore_accounts_for_permits :
  forall (opts : SchedulerOptions) (taskList : list Task) (cs : list Choice)
         (s : Scheduler),
    exec cs (loadPlan taskList (new_scheduler opts)) = Some s ->
    0 <= maxConcurrency opts ->
    permits s + Z.of_nat (held_total (threads s)) = maxConcurrency opts
    /\ 0 <= permits s <= maxConcurrency opts
    /\ (waiting s <> [] -> permits s = 0)
    /\ (forall tid, tid ∈ waiting s ->
          exists th, threads s !! tid = Some th /\ th_pc th = AwaitAcquire).
Proof.
  intros opts taskList cs s Hexec Hmax.
  destruct (reachable_Inv _ _ _ _ Hexec) as [[Hwf Hsem _] Eo].
  pose proof (sem_sum s Hsem) as Hsum. rewrite Eo in Hsum.
  assert (Hp : 0 <= permits s) by (destruct (sem_permits s Hsem); lia).
  assert (Hq : no_idle_permit s).
  { pose proof (loadPlan_loaded taskList opts) as Hl.
    assert (H0 : no_idle_permit (loadPlan taskList (new_scheduler opts))).
    { intros Hw. by destruct (ld_fresh _ _ _ Hl) as (_ & Ew & _). }
    assert (Ho0 : options (loadPlan taskList (new_scheduler opts)) = opts).
    { by destruct (ld_fresh _ _ _ Hl) as (_&_&_&_&_&_&_&_&?). }
    pose proof (Inv_loaded _ _ _ Hl) as Hi.
    clear Hsem Hwf Hsum Hp Eo Hl.
    revert Hexec H0 Hi Ho0. generalize (loadPlan taskList (new_scheduler opts)).
    induction cs as [|c cs IH]; intros s0; simpl.
    - by intros [= <-].
    - destruct (step c s0) as [s1|] eqn:E; [|done]. intros Hexec H0 Hi Ho0.
      apply (IH s1 Hexec).
      + eapply no_idle_permit_step; [apply (inv_sem s0 Hi)| |done..]. by rewrite Ho0.
      + by eapply Inv_step.
      + by rewrite (fr_options _ _ (frame_step _ _ _ E)). }
  split; [done|]. split; [lia|]. split.
  - intros Hw. specialize (Hq Hw). lia.
  - apply (sem_waiting s Hsem).
Qed.

Lemma semaphore_accounts_for_permits_witness :
  exists s,
    exec retry_schedule retry_plan = Some s
    /\ 0 <= maxConcurrency retry_options
    /\ waiting s <> []
    /\ permits s + Z.of_nat (held_total (threads s)) = maxConcurrency retry_options
    /\ 0 <= permits s <= maxConcurrency retry_options
    /\ (waiting s <> [] -> permits s = 0)
    /\ (forall tid, tid ∈ waiting s ->
          exists th, threads s !! tid = Some th /\ th_pc th = AwaitAcquire).
Proof.
  exists retry_deadlock. split; [by vm_compute|]. split; [by vm_compute|].
  split; [done|].
  apply (semaphore_accounts_for_permits retry_options [new_task "t" [] None]
           retry_schedule retry_deadlock); by vm_compute.
Defined.

(** ** [getReadyTasks] *)

Definition by_priority (a b : Task) : Prop := priority_of b <= priority_of a.

Lemma insert_by_priority_sorted x l :
  StronglySorted by_priority l -> StronglySorted by_priority (insert_by_priority x l).
Proof.
  induction 1 as [|y l Hl IH Hy]; simpl; [repeat constructor|].
  case_decide as Hlt.
  - constructor; [done|]. apply Forall_forall. intros z Hz.
    rewrite insert_by_priority_perm in Hz. apply elem_of_cons in Hz as [->|Hz].
    + unfold by_priority. lia.
    + rewrite Forall_forall in Hy. by apply Hy.
  - constructor; [by constructor|]. constructor; [unfold by_priority; lia|].
    apply Forall_forall. intros z Hz. rewrite Forall_forall in Hy.
    specialize (Hy z Hz). unfold by_priority in *. lia.
Qed.

Lemma sort_by_priority_sorted l : StronglySorted by_priority (sort_by_priority l).
Proof.
  induction l as [|x l IH]; simpl; [constructor|]. by apply insert_by_priority_sorted.
Qed.

(** The tasks of priority [p], in the order of the list. *)
Definition of_priority (p : Z) (l : list Task) : list Task :=
  List.filter (fun t => bool_decide (priority_of t = p)) l.

Lemma insert_by_priority_stable p x l :
  of_priority p (insert_by_priority x l) = of_priority p (x :: l).
Proof.
  induction l as [|y l IH]; [done|]. simpl insert_by_priority.
  case_decide as Hlt; [|done].
  unfold of_priority in *. simpl in *. rewrite IH.
  destruct (bool_decide (priority_of x = p)) eqn:Ex;
    destruct (bool_decide (priority_of y = p)) eqn:Ey; try done.
  apply bool_decide_eq_true in Ex, Ey. lia.
Qed.

Lemma sort_by_priority_stable p l :
  of_priority p (sort_by_priority l) = of_priority p l.
Proof.
  induction l as [|x l IH]; [done|]. simpl sort_by_priority.
  rewrite insert_by_priority_stable. unfold of_priority in *. simpl.
  by rewrite IH.
Qed.

(** [getReadyTasks()] returns the PENDING tasks whose indegree is 0, each
    once, sorted by priority from high to low (a missing priority counts as
    0); tasks of equal priority keep the order of the task map. *)
Theorem getReadyTasks_sorted_stable :
  forall (s : Scheduler),
    StronglySorted by_priority (getReadyTasks s)
    /\ getReadyTasks s ≡ₚ List.filter (is_ready s) (task_values s)
    /\ (forall p, of_priority p (getReadyTasks s)
                  = of_priority p (List.filter (is_ready s) (task_values s)))
    /\ (forall t, t ∈ getReadyTasks s ->
          status t = PENDING /\ default 0 (indegree s !! id t) = 0
          /\ exists k, tasks s !! k = Some t).
Proof.
  intros s. unfold getReadyTasks.
  split; [apply sort_by_priority_sorted|].
  split; [apply sort_by_priority_perm|].
  split; [intros p; apply sort_by_priority_stable|].
  intros t. rewrite sort_by_priority_perm.
  intros Hin%list_elem_of_In%filter_In. destruct Hin as [Hin Hr].
  unfold is_ready in Hr. apply andb_prop in Hr as [H1 H2].
  apply bool_decide_eq_true in H1, H2. split; [done|]. split; [done|].
  apply list_elem_of_In in Hin. unfold task_values in Hin.
  apply list_elem_of_omap in Hin as (k & _ & Hk). eauto.
Qed.

(** ** [getStatus] *)

Lemma summary_partition (l : list Task) :
  (List.length (List.filter (fun t => bool_decide (status t = PENDING)) l)
   + List.length (List.filter (fun t => bool_decide (status t = QUEUED)) l)
   + List.length (List.filter (fun t => bool_decide (status t = RUNNING)) l)
   + List.length (List.filter (fun t => bool_decide (status t = COMPLETED)) l)
   + List.length (List.filter (fun t => bool_decide (status t = FAILED)) l)
   + List.length (List.filter (fun t => bool_decide (status t = SKIPPED)) l))%nat
  = List.length l.
Proof.
  induction l as [|t l IH]; [done|]. simpl.
  destruct (status t); simpl; lia.
Qed.

Lemma task_values_length s : Wf s -> List.length (task_values s) = size (tasks s).
Proof.
  intros Hwf. unfold task_values.
  assert (Hlen : List.length (omap (fun k => tasks s !! k) (order s))
                 = List.length (order s)).
  { assert (Hall : forall k, k ∈ order s -> is_Some (tasks s !! k)).
    { intros k. apply (wf_order s Hwf). }
    induction (order s) as [|k l IH]; [done|]. simpl.
    destruct (Hall k) as [t ->]; [left|]. simpl. f_equal. apply IH.
    intros k' Hk'. apply Hall. by right. }
  rewrite Hlen. rewrite <- (size_list_to_set (C := gset string) (order s))
    by apply (wf_nodup s Hwf).
  rewrite <- size_dom. f_equal. apply set_eq. intros k.
  rewrite elem_of_list_to_set, elem_of_dom. apply (wf_order s Hwf).
Qed.

(** The six counters of [getStatus().summary] add up, in every state of a
    run, to the number of distinct ids of the loaded task list: every task
    is counted under exactly one status. *)
Theorem summary_counts_every_task :
  forall (opts : SchedulerOptions) (taskList : list Task) (cs : list Choice)
         (s : Scheduler),
    exec cs (loadPlan taskList (new_scheduler opts)) = Some s ->
    (summary s PENDING + summary s QUEUED + summary s RUNNING
     + summary s COMPLETED + summary s FAILED + summary s SKIPPED)%nat
    = size (list_to_set (map id taskList) : gset string)
    /\ (NoDup (map id taskList) ->
        (summary s PENDING + summary s QUEUED + summary s RUNNING
         + summary s COMPLETED + summary s FAILED + summary s SKIPPED)%nat
        = List.length taskList).
Proof.
  intros opts taskList cs s Hexec.
  destruct (reachable_Inv _ _ _ _ Hexec) as [[Hwf _ _] _].
  assert (E : (summary s PENDING + summary s QUEUED + summary s RUNNING
               + summary s COMPLETED + summary s FAILED + summary s SKIPPED)%nat
              = size (list_to_set (map id taskList) : gset string)).
  { unfold summary. rewrite summary_partition, (task_values_length s Hwf).
    rewrite <- size_dom. f_equal. apply set_eq. intros k.
    rewrite elem_of_list_to_set, elem_of_dom.
    pose proof (loadPlan_loaded taskList opts) as Hl.
    rewrite <- (ld_tasks _ _ _ Hl k).
    pose proof (fr_tasks _ _ (frame_exec _ _ _ Hexec) k) as Hk.
    destruct (tasks (loadPlan taskList (new_scheduler opts)) !! k) as [t|].
    - destruct Hk as (t' & -> & _). split; eauto.
    - rewrite Hk. done. }
  split; [done|]. intros Hnd. rewrite E.
  rewrite size_list_to_set by done. by rewrite length_map.
Qed.

Lemma summary_counts_every_task_witness :
  exists s,
    exec two_schedule (loadPlan two_plan (new_scheduler two_options)) = Some s
    /\ summary s RUNNING = 1%nat /\ summary s QUEUED = 1%nat
    /\ (summary s PENDING + summary s QUEUED + summary s RUNNING
        + summary s COMPLETED + summary s FAILED + summary s SKIPPED)%nat
       = size (list_to_set (map id two_plan) : gset string)
    /\ (NoDup (map id two_plan) ->
        (summary s PENDING + summary s QUEUED + summary s RUNNING
         + summary s COMPLETED + summary s FAILED + summary s SKIPPED)%nat
        = List.length two_plan).
Proof.
  run_to s E. exists s. split; [done|].
  read E (fun s => summary s RUNNING) 1%nat H1.
  read E (fun s => summary s QUEUED) 1%nat H2.
  split; [done|]. split; [done|].
  apply (summary_counts_every_task two_options two_plan two_schedule s E).
Defined.

(** ** The loops of a run terminate *)

(** A thread that rests at [acquire()] is in the queue of the semaphore. *)
Definition queued (s : Scheduler) : Prop :=
  forall tid th, threads s !! tid = Some th -> th_pc th = AwaitAcquire ->
                 tid ∈ waiting s.

Lemma queued_same s s' :
  threads s' = threads s -> waiting s' = waiting s -> queued s -> queued s'.
Proof. unfold queued. by intros -> ->. Qed.

Lemma queued_alter f tid s s' :
  (forall th, th_pc (f th) <> AwaitAcquire) ->
  threads s' = alter f tid (threads s) ->
  waiting s' = waiting s -> queued s -> queued s'.
Proof.
  unfold queued. intros Hpc -> -> H tid' th'.
  destruct (decide (tid' = tid)) as [->|Hne].
  - rewrite lookup_alter_eq. destruct (threads s !! tid); [|done].
    simpl. intros [= <-] Hf. by apply Hpc in Hf.
  - rewrite lookup_alter_ne by done. apply H.
Qed.

Lemma queued_move tid pc s s' :
  pc <> AwaitAcquire ->
  threads s' = alter (fun th => mkThread (th_task th) pc (held th)) tid (threads s) ->
  waiting s' = waiting s -> queued s -> queued s'.
Proof.
  unfold queued. intros Hpc -> -> H tid' th'.
  destruct (decide (tid' = tid)) as [->|Hne].
  - rewrite lookup_alter_eq. destruct (threads s !! tid); [|done].
    simpl. by intros [= <-].
  - rewrite lookup_alter_ne by done. apply H.
Qed.

Lemma queued_acquire tid s :
  (forall tid' th, tid' <> tid -> threads s !! tid' = Some th ->
                   th_pc th = AwaitAcquire -> tid' ∈ waiting s) ->
  queued (acquire tid s).
Proof.
  intros H tid' th'. unfold acquire. case_decide; simpl.
  - destruct (decide (tid' = tid)) as [->|Hne].
    + rewrite lookup_alter_eq. destruct (threads s !! tid); [|done].
      simpl. by intros [= <-].
    + rewrite lookup_alter_ne by done. by apply H.
  - destruct (decide (tid' = tid)) as [->|Hne].
    + intros _ _. apply elem_of_app. right. by left.
    + rewrite lookup_alter_ne by done. intros Hth Hpc.
      apply elem_of_app. left. by eapply H.
Qed.

Lemma queued_scheduleTask k s : queued s -> queued (scheduleTask k s).
Proof.
  intros H. unfold scheduleTask. apply queued_acquire. simpl.
  intros tid' th Hne. rewrite lookup_insert_ne by done. apply H.
Qed.

Lemma queued_schedule_all {A} (f : A -> string) l s :
  queued s -> queued (fold_left (fun s x => scheduleTask (f x) s) l s).
Proof.
  revert s. induction l as [|x l IH]; intros s H; [done|].
  simpl. apply IH. by apply queued_scheduleTask.
Qed.

Lemma queued_release s : queued s -> queued (release s).
Proof.
  intros H tid th. unfold release.
  destruct (waiting s) as [|next rest] eqn:Ew; simpl.
  - intros Hth Hpc. specialize (H tid th Hth Hpc). by rewrite Ew in H.
  - destruct (decide (tid = next)) as [->|Hne].
    + rewrite lookup_alter_eq. destruct (threads s !! next); [|done].
      simpl. by intros [= <-].
    + rewrite lookup_alter_ne by done. intros Hth Hpc.
      specialize (H tid th Hth Hpc). rewrite Ew in H.
      by apply elem_of_cons in H as [?|?].
Qed.

Lemma queued_step c s s' : queued s -> step c s = Some s' -> queued s'.
Proof.
  intros H. destruct c as [|tid o]; simpl.
  - unfold run_step. destruct (run_state s).
    + intros [= <-]. by apply (queued_same s).
    + destruct (hasCircularDependency s) as [[|]|]; [| |done].
      * intros [= <-]. by apply (queued_same s).
      * destruct (_ && _); intros [= <-]; [by apply (queued_same s)|].
        eapply queued_same;
          [| |apply (queued_schedule_all id (getReadyTasks s) s H)]; done.
    + destruct (existsb _ _); intros [= <-]; [done|]. by apply (queued_same s).
    + destruct (failedTasks s); intros [= <-]; by apply (queued_same s).
    + intros [= <-]. by apply (queued_same s).
    + done.
    + done.
  - unfold advance.
    destruct (threads s !! tid) as [th|] eqn:Hth; [|done]. simpl.
    destruct (tasks s !! th_task th) as [t|] eqn:Ht; [|done]. simpl.
    destruct (th_pc th) eqn:Hpc.
    + done.
    + intros [= <-]. by apply (queued_move tid AwaitStartEmit s).
    + intros [= <-]. by apply (queued_move tid AwaitExecutor s).
    + assert (Hfail : forall msg, queued (on_failure tid t msg s)).
      { intros msg. unfold on_failure. case_decide.
        - by apply (queued_move tid AwaitRetryEmit s).
        - by apply (queued_move tid AwaitFailedEmit s). }
      destruct o; intros [= <-]; try apply Hfail.
      by apply (queued_move tid AwaitCompleteEmit s).
    + intros [= <-].
      assert (H1 : queued (onTaskCompleted (th_task th) s)).
      { unfold onTaskCompleted.
        destruct (fold_left _ _ _) as [indegree' newlyReady].
        apply (queued_schedule_all (fun x => x) newlyReady (with_indegree indegree' s)).
        by apply (queued_same s). }
      by apply (queued_move tid Releasing (onTaskCompleted (th_task th) s)).
    + intros [= <-]. by apply (queued_move tid AwaitRetryDelay s).
    + intros [= <-]. unfold rescheduleTask. apply queued_acquire. simpl.
      intros tid' th' _. apply H.
    + unfold skipDependentTasks.
      destruct (skip_loop _ _ _ _ _) as [toSkip|]; [|done]. simpl.
      intros [= <-].
      destruct (mark_skipped_all_semaphore (th_task th) toSkip s) as [Ep Ew].
      apply (queued_move tid Releasing (fold_left (mark_skipped (th_task th)) toSkip s));
        [done|done|done|].
      apply (queued_same s); [apply mark_skipped_all_threads|done|done].
    + intros E. pose proof (queued_release s H) as H'.
      destruct (held th) as [|[|n]]; injection E as <-.
      * intros tid' th'. simpl. intros Hth'%lookup_delete_Some. apply H'. tauto.
      * intros tid' th'. simpl. intros Hth'%lookup_delete_Some. apply H'. tauto.
      * by apply (queued_alter (fun th => mkThread (th_task th) Releasing (S n))
                    tid (release s)).
Qed.

Lemma reachable_queued opts taskList cs s :
  exec cs (loadPlan taskList (new_scheduler opts)) = Some s -> queued s.
Proof.
  pose proof (loadPlan_loaded taskList opts) as Hl.
  assert (H0 : queued (loadPlan taskList (new_scheduler opts))).
  { intros tid th. destruct (ld_fresh _ _ _ Hl) as (-> & _). by rewrite lookup_empty. }
  clear Hl. revert H0. generalize (loadPlan taskList (new_scheduler opts)).
  induction cs as [|c cs IH]; intros s0 H0; simpl.
  - by intros [= <-].
  - destruct (step c s0) as [s1|] eqn:E; [|done]. intros Hexec.
    apply (IH s1); [|done]. by eapply queued_step.
Qed.


(** In every state of a run, [run()] can take its next step unless it has
    settled, and every activation that is not queued at the semaphore can
    take its next step, however the executor settles: the searches of
    [hasCircularDependency] and [skipDependentTasks] end.  An activation
    that cannot step is in the queue of the semaphore. *)
Theorem run_never_stuck :
  forall (opts : SchedulerOptions) (taskList : list Task) (cs : list Choice)
         (s : Scheduler),
    exec cs (loadPlan taskList (new_scheduler opts)) = Some s ->
    (run_state s <> Resolved -> (forall m, run_state s <> Rejected m) ->
     is_Some (step Tick s))
    /\ (forall tid th o,
          threads s !! tid = Some th -> th_pc th <> AwaitAcquire ->
          is_Some (step (Advance tid o) s))
    /\ (forall tid o, step (Advance tid o) s = None ->
          threads s !! tid = None \/ tid ∈ waiting s).
Proof.
  intros opts taskList cs s Hexec.
  destruct (reachable_Inv _ _ _ _ Hexec) as [[Hwf Hsem Hatt] Eo].
  assert (Hadv : forall tid th o,
             threads s !! tid = Some th -> th_pc th <> AwaitAcquire ->
             is_Some (advance tid o s)).
  { intros tid th o Hth Hpc. unfold advance. rewrite Hth. simpl.
    destruct (att_thread s Hatt tid th Hth) as (t & Ht & _). rewrite Ht. simpl.
    destruct (th_pc th); try done; try by eexists.
    - destruct o; by eexists.
    - destruct (skipDependentTasks_spec (th_task th) s) as (toSkip & -> & _).
      by eexists.
    - destruct (held th) as [|[|n]]; by eexists. }
  split_and!.
  - intros Hr1 Hr2. simpl. unfold run_step.
    destruct (run_state s) eqn:Er; try done; try by eexists.
    + assert (Hk : children_known s).
      { intros p c He. by destruct (wf_edge s Hwf p c He). }
      destruct (hasCircularDependency_total s Hk) as [[|] ->].
      * by eexists.
      * destruct (_ && _); by eexists.
    + destruct (existsb _ _); by eexists.
    + destruct (failedTasks s); by eexists.
    + by destruct (Hr2 message).
  - intros tid th o Hth Hpc. exact (Hadv tid th o Hth Hpc).
  - intros tid o Hnone. simpl in Hnone.
    destruct (threads s !! tid) as [th|] eqn:Hth; [|by left]. right.
    destruct (decide (th_pc th = AwaitAcquire)) as [Hpc|Hpc].
    + by apply (reachable_queued _ _ _ _ Hexec tid th).
    + destruct (Hadv tid th o Hth Hpc) as [s' Hs']. congruence.
Qed.

Lemma run_never_stuck_witness :
  exists s,
    exec two_schedule (loadPlan two_plan (new_scheduler two_options)) = Some s
    /\ is_Some (threads s !! 0%nat) /\ waiting s = [1%nat]
    /\ (run_state s <> Resolved -> (forall m, run_state s <> Rejected m) ->
        is_Some (step Tick s))
    /\ (forall tid th o,
          threads s !! tid = Some th -> th_pc th <> AwaitAcquire ->
          is_Some (step (Advance tid o) s))
    /\ (forall tid o, step (Advance tid o) s = None ->
          threads s !! tid = None \/ tid ∈ waiting s).
Proof.
  run_to s E. exists s. split; [done|].
  read E (fun s => bool_decide (is_Some (threads s !! 0%nat))) true H1.
  read E waiting [1%nat] H2.
  split; [by apply bool_decide_eq_true in H1|]. split; [done|].
  apply (run_never_stuck two_options two_plan two_schedule s E).
Defined.

(** ** [loadPlan] starts from scratch *)

Lemma load_entry_keeps s task :
  permits (load_entry s task) = permits s /\ waiting (load_entry s task) = waiting s
  /\ options (load_entry s task) = options s /\ threads (load_entry s task) = threads s
  /\ next_tid (load_entry s task) = next_tid s
  /\ run_state (load_entry s task) = run_state s
  /\ executed (load_entry s task) = executed s.
Proof. done. Qed.

Lemma add_dependency_keeps task s p :
  permits (add_dependency task s p) = permits s
  /\ waiting (add_dependency task s p) = waiting s
  /\ options (add_dependency task s p) = options s
  /\ threads (add_dependency task s p) = threads s
  /\ next_tid (add_dependency task s p) = next_tid s
  /\ run_state (add_dependency task s p) = run_state s
  /\ executed (add_dependency task s p) = executed s.
Proof. unfold add_dependency. by case_decide. Qed.

Definition same_run (s s' : Scheduler) : Prop :=
  permits s' = permits s /\ waiting s' = waiting s /\ options s' = options s
  /\ threads s' = threads s /\ next_tid s' = next_tid s
  /\ run_state s' = run_state s /\ executed s' = executed s.

Lemma loadPlan_same_run taskList s : same_run s (loadPlan taskList s).
Proof.
  unfold loadPlan.
  assert (H0 : same_run s (reset s)) by done.
  assert (H1 : same_run s (fold_left load_entry taskList (reset s))).
  { revert H0. generalize (reset s). induction taskList as [|t l IH]; intros s1 H1; [done|].
    simpl. apply IH. unfold same_run in *.
    destruct (load_entry_keeps s1 t) as (-> & -> & -> & -> & -> & -> & ->). done. }
  revert H1. generalize (fold_left load_entry taskList (reset s)).
  generalize taskList at 1.
  induction taskList0 as [|t l IH]; intros s1 H1; [done|].
  simpl. apply IH. unfold add_dependencies.
  revert H1. generalize s1. induction (dependencies t) as [|p ps IHp]; intros s2 H2; [done|].
  simpl. apply IHp. unfold same_run in *.
  destruct (add_dependency_keeps t s2 p) as (-> & -> & -> & -> & -> & -> & ->). done.
Qed.

(** [loadPlan] discards the plan loaded before: loading [taskList] over
    any other plan gives the tasks, dependents, indegrees and the
    running, completed and failed sets that loading it into the same
    scheduler without that plan gives.  The semaphore is not part of what
    is reset: its permits and its queue are as they were. *)
Theorem loadPlan_replaces_plan :
  forall (taskList previous : list Task) (s : Scheduler),
    loadPlan taskList (loadPlan previous s) = loadPlan taskList s
    /\ permits (loadPlan taskList s) = permits s
    /\ waiting (loadPlan taskList s) = waiting s.
Proof.
  intros taskList previous s.
  destruct (loadPlan_same_run taskList s) as (Ep & Ew & _).
  split; [|done].
  destruct (loadPlan_same_run previous s) as (Ep' & Ew' & Eo' & Eth' & En' & Er' & Ex').
  unfold loadPlan at 1 3. f_equal. f_equal.
  unfold reset. by rewrite Ep', Ew', Eo', Eth', En', Er', Ex'.
Qed.

(** ** [resumeFrom] *)

(** One turn of the inner loop: the indegree of a child goes down by one,
    but not below 0. *)
Definition resume_child (indegree : gmap string Z) (childId : string)
  : gmap string Z :=
  let currentIndegree := default 0 (indegree !! childId) in
  <[childId := Z.max 0 (currentIndegree - 1)]> indegree.

(** One turn of the outer loop; an id the plan does not have is passed
    over. *)
Definition resume_task (results : gmap string string) (s : Scheduler)
    (taskId : string) : Scheduler :=
  match tasks s !! taskId with
  | Some _ =>
      let s1 := update_task taskId
                  (fun t => set_result (results !! taskId) (set_status COMPLETED t)) s in
      let s2 := with_completedTasks (set_add taskId (completedTasks s1)) s1 in
      with_indegree
        (fold_left resume_child (default [] (dependents s2 !! taskId)) (indegree s2))
        s2
  | None => s
  end.

Definition resumeFrom (completedTaskIds : list string)
    (results : gmap string string) (s : Scheduler) : Scheduler :=
  fold_left (resume_task results) completedTaskIds s.

(** The entries of the adjacency lists of the resumed ids that name [c],
    a repeated id counted each time. *)
Definition resumed_edges (s : Scheduler) (ids : list string) (c : string) : nat :=
  sum_list (map (fun k => if decide (k ∈ order s)
                          then occurrences c (children (dependents s) k)
                          else 0%nat) ids).

Lemma occurrences_cons c a l :
  occurrences c (a :: l)
  = ((if decide (a = c) then 1 else 0) + occurrences c l)%nat.
Proof.
  unfold occurrences. rewrite filter_cons. by case_decide.
Qed.

Lemma resume_children_spec l : forall ind,
  (forall c, 0 <= default 0 (ind !! c)) ->
  forall c, default 0 (fold_left resume_child l ind !! c)
            = Z.max 0 (default 0 (ind !! c) - Z.of_nat (occurrences c l)).
Proof.
  induction l as [|a l IH]; intros ind Hpos c.
  - simpl. rewrite occurrences_nil. specialize (Hpos c). lia.
  - simpl. rewrite IH.
    + rewrite occurrences_cons. unfold resume_child.
      destruct (decide (a = c)) as [->|Hne].
      * rewrite lookup_insert_eq. simpl. specialize (Hpos c). lia.
      * rewrite lookup_insert_ne by done. lia.
    + intros c'. unfold resume_child. destruct (decide (a = c')) as [->|Hne].
      * rewrite lookup_insert_eq. simpl. lia.
      * rewrite lookup_insert_ne by done. apply Hpos.
Qed.

Definition mark_completed (r : option string) (t : Task) : Task :=
  set_result r (set_status COMPLETED t).

Lemma resume_task_spec results s k :
  Wf s -> (forall c, 0 <= default 0 (indegree s !! c)) ->
  let s1 := resume_task results s k in
  tasks s1 = alter (mark_completed (results !! k)) k (tasks s)
  /\ order s1 = order s /\ dependents s1 = dependents s
  /\ same_run s s1 /\ failedTasks s1 = failedTasks s
  /\ (forall x, x ∈ completedTasks s -> x ∈ completedTasks s1)
  /\ (k ∈ order s -> k ∈ completedTasks s1)
  /\ (forall c, default 0 (indegree s1 !! c)
                = Z.max 0 (default 0 (indegree s !! c)
                           - Z.of_nat (resumed_edges s [k] c))).
Proof.
  intros Hwf Hpos. unfold resume_task, resumed_edges. simpl.
  destruct (tasks s !! k) as [t|] eqn:Ht.
  - assert (Hk : k ∈ order s) by (apply (wf_order s Hwf); eauto).
    simpl. split_and!; try done.
    + intros x Hx. by apply set_add_elem; right.
    + intros _. by apply set_add_elem; left.
    + intros c. rewrite decide_True by done.
      rewrite resume_children_spec by done. unfold children. lia.
  - assert (Hk : k ∉ order s).
    { intros Hk%(wf_order s Hwf). rewrite Ht in Hk. by destruct Hk. }
    split_and!; try done.
    + apply map_eq. intros i. destruct (decide (i = k)) as [->|Hne].
      * by rewrite lookup_alter_eq, Ht.
      * by rewrite lookup_alter_ne.
    + intros c. rewrite decide_False by done. specialize (Hpos c). simpl. lia.
Qed.

Lemma mark_completed_twice r t :
  mark_completed r (mark_completed r t) = mark_completed r t.
Proof. by destruct t. Qed.

Lemma resumed_edges_cons s k ids c :
  resumed_edges s (k :: ids) c
  = (resumed_edges s [k] c + resumed_edges s ids c)%nat.
Proof. unfold resumed_edges. simpl. lia. Qed.

Lemma frame_resume_task results s k : Wf s -> frame s (resume_task results s k).
Proof.
  intros Hwf. unfold resume_task. destruct (tasks s !! k); [|apply frame_refl].
  by apply (frame_alter (mark_completed (results !! k)) k); [intros ?|..].
Qed.

(** What [resumeFrom] leaves, for any list of ids. *)
Lemma resumeFrom_spec results ids : forall s,
  Wf s -> (forall c, 0 <= default 0 (indegree s !! c)) ->
  let s' := resumeFrom ids results s in
  (forall k, tasks s' !! k
             = if decide (k ∈ ids)
               then mark_completed (results !! k) <$> tasks s !! k
               else tasks s !! k)
  /\ order s' = order s /\ dependents s' = dependents s
  /\ same_run s s' /\ failedTasks s' = failedTasks s
  /\ (forall x, x ∈ completedTasks s -> x ∈ completedTasks s')
  /\ (forall k, k ∈ ids -> k ∈ order s -> k ∈ completedTasks s')
  /\ (forall c, default 0 (indegree s' !! c)
                = Z.max 0 (default 0 (indegree s !! c)
                           - Z.of_nat (resumed_edges s ids c))).
Proof.
  unfold resumeFrom.
  induction ids as [|k ids IH]; intros s Hwf Hpos; cbn [fold_left].
  - split_and!; try done.
    + by intros k ?%elem_of_nil.
    + intros c. unfold resumed_edges. simpl. specialize (Hpos c). lia.
  - 
    destruct (resume_task_spec results s k Hwf Hpos)
      as (Et & Eo & Ed & Hsr & Ef & Hc & Hk & Hi).
    set (s1 := resume_task results s k) in *.
    assert (Hwf1 : Wf s1) by (eapply Wf_frame; [done|by apply frame_resume_task]).
    assert (Hpos1 : forall c, 0 <= default 0 (indegree s1 !! c)).
    { intros c. rewrite Hi. lia. }
    destruct (IH s1 Hwf1 Hpos1) as (Et' & Eo' & Ed' & Hsr' & Ef' & Hc' & Hk' & Hi').
    split_and!.
    + intros k'. rewrite Et', Et.
      destruct (decide (k' = k)) as [->|Hne].
      * rewrite lookup_alter_eq, (decide_True (P := k ∈ k :: ids)) by left.
        case_decide; [|done]. destruct (tasks s !! k); [|done].
        simpl. by rewrite mark_completed_twice.
      * rewrite lookup_alter_ne by done.
        destruct (decide (k' ∈ ids)) as [Hin|Hin].
        -- by rewrite decide_True by (by right).
        -- rewrite decide_False; [done|]. by intros [?|?]%elem_of_cons.
    + congruence.
    + congruence.
    + unfold same_run in *. destruct Hsr as (?&?&?&?&?&?&?).
      destruct Hsr' as (?&?&?&?&?&?&?). split_and!; congruence.
    + congruence.
    + auto.
    + intros k' [->|Hin]%elem_of_cons Ho; [by apply Hc', Hk|].
      apply Hk'; [done|]. by rewrite Eo.
    + intros c. rewrite Hi', Hi, (resumed_edges_cons s k ids c).
      assert (resumed_edges s1 ids c = resumed_edges s ids c) as ->.
      { unfold resumed_edges. by rewrite Eo, Ed. }
      lia.
Qed.

(** Summing over the resumed ids that are tasks, or over the tasks that
    are resumed. *)
Lemma sum_resumed (f : string -> nat) ids l :
  NoDup ids -> NoDup l ->
  sum_list (map (fun k => if decide (k ∈ l) then f k else 0%nat) ids)
  = sum_list (map (fun p => if decide (p ∈ ids) then f p else 0%nat) l).
Proof.
  intros Hids Hl. induction ids as [|k ids IH].
  - cbn [map sum_list]. clear Hids Hl. induction l as [|p l IHl]; [done|].
    cbn [map sum_list]. rewrite <- IHl.
    rewrite decide_False; [done|]. by intros ?%elem_of_nil.
  - apply NoDup_cons in Hids as [Hk Hids]. simpl. rewrite (IH Hids).
    destruct (decide (k ∈ l)) as [Hin|Hin].
    + rewrite Nat.add_comm.
      rewrite <- (sum_list_release
                    (fun p => if decide (p ∈ k :: ids) then f p else 0%nat)
                    (fun p => if decide (p ∈ ids) then f p else 0%nat) l k Hl Hin).
      * by rewrite (decide_True (P := k ∈ k :: ids)) by left.
      * by rewrite decide_False.
      * intros q Hq. destruct (decide (q ∈ ids)) as [Hqi|Hqi].
        -- by rewrite decide_True by (by right).
        -- rewrite decide_False; [done|]. by intros [?|?]%elem_of_cons.
    + simpl. f_equal. apply map_ext_in. intros p Hp%list_elem_of_In.
      destruct (decide (p ∈ ids)) as [Hqi|Hqi].
      * by rewrite decide_True by (by right).
      * rewrite decide_False; [done|]. intros [->|?]%elem_of_cons; done.
Qed.

(** The edges into [c] from tasks that are not resumed. *)
Definition open_edges (s : Scheduler) (ids : list string) (c : string) : nat :=
  sum_list (map (fun p => if decide (p ∈ ids) then 0%nat
                          else occurrences c (children (dependents s) p))
                (order s)).

Lemma open_edges_split s ids c :
  NoDup ids -> NoDup (order s) ->
  (open_edges s ids c + resumed_edges s ids c)%nat
  = edges_into (dependents s) (order s) c.
Proof.
  intros Hids Ho. unfold open_edges, resumed_edges, edges_into.
  rewrite (sum_resumed (fun k => occurrences c (children (dependents s) k))
             ids (order s) Hids Ho).
  induction (order s) as [|p l IH]; [done|]. simpl.
  apply NoDup_cons in Ho as [_ Ho]. specialize (IH Ho).
  case_decide; lia.
Qed.

Lemma open_edges_zero s ids c :
  Wf s ->
  open_edges s ids c = 0%nat <-> forall p, edge (dependents s) p c -> p ∈ ids.
Proof.
  intros Hwf. unfold open_edges. split.
  - intros H0 p He. destruct (decide (p ∈ ids)) as [|Hn]; [done|]. exfalso.
    destruct (wf_edge s Hwf p c He) as [Hp _].
    assert (Hocc : (0 < occurrences c (children (dependents s) p))%nat)
      by (by apply occurrences_pos).
    revert H0 Hp. induction (order s) as [|q l IH]; [by intros _ ?%elem_of_nil|].
    simpl. intros H0 [->|Hin]%elem_of_cons.
    + rewrite decide_False in H0 by done. lia.
    + apply IH; [lia|done].
  - intros H. induction (order s) as [|q l IH]; [done|]. simpl. rewrite IH.
    case_decide as Hq; [done|].
    destruct (Nat.eq_dec (occurrences c (children (dependents s) q)) 0) as [->|Hne];
      [done|].
    exfalso. apply Hq, H. apply occurrences_pos. lia.
Qed.

Section Resumed.

Variable opts : SchedulerOptions.
Variable taskList : list Task.
Variable ids : list string.
Variable results : gmap string string.

Let s0 := loadPlan taskList (new_scheduler opts).
Let s := resumeFrom ids results s0.

Lemma loaded_nonneg c : 0 <= default 0 (indegree s0 !! c).
Proof.
  pose proof (loadPlan_loaded taskList opts) as Hl. fold s0 in Hl.
  rewrite (dl_indegree _ _ (ld_deps _ _ _ Hl)). lia.
Qed.

Lemma resumed_spec :
  (forall k, tasks s !! k
             = if decide (k ∈ ids)
               then mark_completed (results !! k) <$> tasks s0 !! k
               else tasks s0 !! k)
  /\ order s = order s0 /\ dependents s = dependents s0
  /\ same_run s0 s /\ failedTasks s = failedTasks s0
  /\ (forall x, x ∈ completedTasks s0 -> x ∈ completedTasks s)
  /\ (forall k, k ∈ ids -> k ∈ order s0 -> k ∈ completedTasks s)
  /\ (forall c, default 0 (indegree s !! c)
                = Z.max 0 (default 0 (indegree s0 !! c)
                           - Z.of_nat (resumed_edges s0 ids c))).
Proof.
  apply resumeFrom_spec.
  - eapply Wf_loaded. apply loadPlan_loaded.
  - apply loaded_nonneg.
Qed.

Lemma resumed_task k t :
  tasks s !! k = Some t ->
  id t = k /\ attempts t = 0 /\ is_Some (maxAttempts t)
  /\ (k ∈ ids -> status t = COMPLETED /\ result t = results !! k)
  /\ (k ∉ ids -> status t = PENDING /\ tasks s0 !! k = Some t).
Proof.
  pose proof (loadPlan_loaded taskList opts) as Hl. fold s0 in Hl.
  destruct resumed_spec as (Et & _). rewrite Et.
  destruct (decide (k ∈ ids)) as [Hin|Hin].
  - destruct (tasks s0 !! k) as [t0|] eqn:E; [|done]. simpl. intros [= <-].
    destruct (ld_task _ _ _ Hl k t0 E) as (Hid & _ & Ha & Hm).
    split_and!; try done; by destruct t0.
  - intros E. destruct (ld_task _ _ _ Hl k t E) as (Hid & Hp & Ha & Hm).
    split_and!; done.
Qed.

Lemma resumed_Wf : Wf s.
Proof.
  pose proof (loadPlan_loaded taskList opts) as Hl. fold s0 in Hl.
  destruct resumed_spec as (Et & Eo & Ed & _).
  pose proof (Wf_loaded _ _ _ Hl) as [Hn Ho Hi Hm He]. split.
  - by rewrite Eo.
  - intros k. rewrite Eo, Ho, Et. case_decide; [|done].
    destruct (tasks s0 !! k); simpl; split; intros [? ?]; eauto; done.
  - intros k t Hk. by destruct (resumed_task k t Hk).
  - intros k t Hk. by destruct (resumed_task k t Hk) as (_ & _ & ? & _).
  - intros p c. rewrite Eo, Ed. apply He.
Qed.

Lemma resumed_status k :
  k ∈ order s0 ->
  status_of s k = Some (if decide (k ∈ ids) then COMPLETED else PENDING).
Proof.
  intros Hk. rewrite <- (proj1 (proj2 resumed_spec)) in Hk.
  apply (wf_order s resumed_Wf) in Hk as [t Ht].
  unfold status_of. rewrite Ht. simpl.
  destruct (resumed_task k t Ht) as (_ & _ & _ & H1 & H2).
  case_decide; f_equal; [by apply H1|by apply H2].
Qed.

Lemma resumed_fresh :
  threads s = ∅ /\ waiting s = [] /\ permits s = maxConcurrency opts
  /\ run_state s = NotStarted /\ executed s = [] /\ failedTasks s = []
  /\ options s = opts.
Proof.
  pose proof (loadPlan_loaded taskList opts) as Hl. fold s0 in Hl.
  destruct (ld_fresh _ _ _ Hl) as (Eth & Ew & Ep & Er & Eex & Ef & _ & _ & Eo).
  destruct resumed_spec as (_ & _ & _ & (Ep' & Ew' & Eo' & Eth' & _ & Er' & Ex') & Ef' & _).
  split_and!; congruence.
Qed.

Lemma resumed_Inv : Inv s.
Proof.
  destruct resumed_fresh as (Eth & Ew & Ep & Er & Eex & Ef & Eo).
  split.
  - apply resumed_Wf.
  - split; rewrite ?Eth, ?Ew, ?Ep, ?Eo.
    + right. apply held_total_empty.
    + rewrite held_total_empty. simpl. lia.
    + apply NoDup_nil_2.
    + by intros ? ?%elem_of_nil.
    + intros ??. by rewrite lookup_empty.
    + intros ??. by rewrite lookup_empty.
    + intros k t Hk Hst. destruct (resumed_task k t Hk) as (_ & _ & _ & H1 & H2).
      destruct (decide (k ∈ ids)) as [Hin|Hin].
      * destruct (H1 Hin). congruence.
      * destruct (H2 Hin). congruence.
  - split; rewrite ?Eth.
    + intros ????. by rewrite lookup_empty.
    + intros ??. by rewrite lookup_empty.
    + intros k t Hk. destruct (resumed_task k t Hk) as (_ & Ha & _ & H1 & H2).
      unfold calls. rewrite Eex, Ha. pose proof (bound_limit s t).
      split_and!; [lia|done|done|].
      intros Hf. destruct (decide (k ∈ ids)) as [Hin|Hin].
      * destruct (H1 Hin). congruence.
      * destruct (H2 Hin). congruence.
Qed.

Lemma resumed_released p :
  p ∈ order s0 -> released s p <-> p ∈ ids.
Proof.
  intros Hp. unfold released. rewrite (resumed_status p Hp).
  destruct resumed_fresh as (Eth & _).
  assert (Hno : ~ at_pc s p AwaitCompleteEmit).
  { unfold at_pc. rewrite Eth. intros (i & x & Hx & _). by rewrite lookup_empty in Hx. }
  case_decide; split; try done. by intros [? _].
Qed.

Hypothesis ids_nodup : NoDup ids.

Lemma resumed_indegree c :
  default 0 (indegree s !! c) = Z.of_nat (open_edges s0 ids c).
Proof.
  pose proof (loadPlan_loaded taskList opts) as Hl. fold s0 in Hl.
  destruct resumed_spec as (_ & _ & _ & _ & _ & _ & _ & Hi). rewrite Hi.
  rewrite (dl_indegree _ _ (ld_deps _ _ _ Hl)).
  rewrite <- (open_edges_split s0 ids c ids_nodup (ld_nodup _ _ _ Hl)). lia.
Qed.

Lemma resumed_pending_edges c : pending_edges s c = open_edges s0 ids c.
Proof.
  destruct resumed_spec as (_ & Eo & Ed & _).
  unfold pending_edges, open_edges. rewrite Eo, Ed. f_equal.
  apply map_ext_in. intros p Hp%list_elem_of_In.
  apply decide_ext. by apply resumed_released.
Qed.

(** The ids are closed under the dependencies of the plan. *)
Hypothesis ids_closed :
  forall child parent, child ∈ ids -> depends_on taskList child parent -> parent ∈ ids.

Lemma resumed_Dep : Dep s.
Proof.
  pose proof (loadPlan_loaded taskList opts) as Hl. fold s0 in Hl.
  pose proof (Wf_loaded _ _ _ Hl) as Hwf0.
  destruct resumed_fresh as (Eth & Ew & Ep & Er & Eex & Ef & Eo).
  destruct resumed_spec as (_ & Eo' & Ed & _).
  assert (Hst : forall k, status_of s k <> Some FAILED /\ status_of s k <> Some SKIPPED
                          /\ status_of s k <> Some RUNNING).
  { intros k. unfold status_of. destruct (tasks s !! k) as [t|] eqn:E; [|done].
    simpl. destruct (resumed_task k t E) as (_ & _ & _ & H1 & H2).
    destruct (decide (k ∈ ids)) as [Hin|Hin].
    - destruct (H1 Hin) as [-> _]. done.
    - destruct (H2 Hin) as [-> _]. done. }
  split.
  - intros tid th t. by rewrite Eth, lookup_empty.
  - intros c. by rewrite resumed_indegree, resumed_pending_edges.
  - intros p c He Hrel. rewrite Ed in He.
    destruct (wf_edge s0 Hwf0 p c He) as [Hp Hc].
    assert (Hpn : p ∉ ids) by (intros Hin; by apply Hrel, resumed_released).
    assert (Hcn : c ∉ ids).
    { intros Hin. apply Hpn, (ids_closed c p Hin).
      by apply (loadPlan_declared taskList opts). }
    left. rewrite (resumed_status c Hc). by rewrite decide_False.
  - intros d t Hd Hs. destruct (Hst d) as (_ & H & _).
    unfold status_of in H. rewrite Hd in H. simpl in H. congruence.
  - intros k Hk. by destruct (Hst k) as (H & _).
  - rewrite Er. intros [|[|]]; done.
  - rewrite Er. intros [|]; done.
Qed.

End Resumed.

Lemma getReadyTasks_elem s t :
  Wf s ->
  t ∈ getReadyTasks s
  <-> tasks s !! (id t) = Some t /\ status t = PENDING
      /\ default 0 (indegree s !! (id t)) = 0.
Proof.
  intros Hwf. unfold getReadyTasks. rewrite sort_by_priority_perm.
  rewrite list_elem_of_In, filter_In, <- list_elem_of_In, (task_values_spec s t Hwf).
  unfold is_ready. rewrite andb_true_iff, !bool_decide_eq_true. tauto.
Qed.

(** [resumeFrom(ids, results)] after [loadPlan]: each id of the plan in
    [ids] is COMPLETED with the result stored for it and is in the
    completed set; the other tasks are as loaded.  The indegree of a task
    is what [loadPlan] counted less one for every entry of an adjacency
    list of a resumed id that names it (an id listed twice counts twice),
    and not below 0.  When no id is listed twice, the ready tasks are the
    tasks not in [ids] whose dependencies in the plan are all in [ids]. *)
Theorem resumeFrom_releases_dependents :
  forall (opts : SchedulerOptions) (taskList : list Task) (ids : list string)
         (results : gmap string string),
    let s0 := loadPlan taskList (new_scheduler opts) in
    let s := resumeFrom ids results s0 in
    (forall k, k ∈ ids -> k ∈ map id taskList ->
       exists t, tasks s !! k = Some t /\ status t = COMPLETED
                 /\ result t = results !! k /\ k ∈ completedTasks s)
    /\ (forall k, k ∉ ids -> tasks s !! k = tasks s0 !! k)
    /\ (forall c, default 0 (indegree s !! c)
                  = Z.max 0 (default 0 (indegree s0 !! c)
                             - Z.of_nat (resumed_edges s0 ids c)))
    /\ (NoDup ids ->
        forall t, t ∈ getReadyTasks s
                  <-> tasks s0 !! (id t) = Some t /\ (id t ∉ ids)
                      /\ forall p, depends_on taskList (id t) p -> p ∈ ids).
Proof.
  intros opts taskList ids results s0 s.
  pose proof (loadPlan_loaded taskList opts) as Hl. fold s0 in Hl.
  pose proof (Wf_loaded _ _ _ Hl) as Hwf0.
  destruct (resumed_spec opts taskList ids results)
    as (Et & Eo & Ed & _ & _ & _ & Hc & Hi).
  fold s0 in Et, Eo, Ed, Hc, Hi. fold s in Et, Eo, Ed, Hc, Hi.
  split_and!.
  - intros k Hin Hk. apply (ld_tasks _ _ _ Hl) in Hk as [t0 Ht0].
    assert (Ht : tasks s !! k = Some (mark_completed (results !! k) t0)).
    { by rewrite Et, decide_True, Ht0. }
    eexists. split; [exact Ht|].
    destruct (resumed_task opts taskList ids results k _ Ht) as (_ & _ & _ & H1 & _).
    destruct (H1 Hin) as [? ?]. split_and!; try done.
    apply Hc; [done|]. apply (wf_order s0 Hwf0). eauto.
  - intros k Hk. by rewrite Et, decide_False.
  - done.
  - intros Hnd t.
    rewrite (getReadyTasks_elem s t (resumed_Wf opts taskList ids results)).
    pose proof (resumed_indegree opts taskList ids results Hnd (id t)) as Hind.
    fold s0 in Hind. fold s in Hind. rewrite Hind.
    assert (Hopen : open_edges s0 ids (id t) = 0%nat
                    <-> forall p, depends_on taskList (id t) p -> p ∈ ids).
    { rewrite (open_edges_zero s0 ids (id t) Hwf0). split.
      - intros H p (t1 & Ht1 & Hid & Hp & Hk). apply H. rewrite <- Hid.
        by apply (ld_edges _ _ _ Hl).
      - intros H p He. apply H. by apply (loadPlan_declared taskList opts). }
    split.
    + intros (Ht & Hp & H0).
      destruct (resumed_task opts taskList ids results (id t) t Ht)
        as (_ & _ & _ & H1 & H2).
      assert (Hn : id t ∉ ids).
      { intros Hin. destruct (H1 Hin). congruence. }
      destruct (H2 Hn) as [_ Ht0]. split; [done|]. split; [done|].
      apply Hopen. lia.
    + intros (Ht0 & Hn & Hdeps).
      assert (Ht : tasks s !! (id t) = Some t) by (by rewrite Et, decide_False).
      split; [done|]. split.
      * by destruct (ld_task _ _ _ Hl _ _ Ht0) as (_ & ? & _).
      * apply Hopen in Hdeps. lia.
Qed.

Lemma terminal_not_executed cs : forall s s',
  Inv s -> Dep s -> exec cs s = Some s' ->
  forall k st, status_of s k = Some st -> terminal st ->
               k ∉ executed s -> status_of s' k = Some st /\ k ∉ executed s'.
Proof.
  induction cs as [|c cs IH]; intros s s' Hi HD; simpl.
  - by intros [= <-].
  - destruct (step c s) as [s1|] eqn:E; [|done]. intros Hexec k st Hk Ht Hn.
    destruct (step_follows c s s1 Hi HD E k st Hk) as (st1 & Hk1 & Hl).
    assert (st1 = st) as ->.
    { apply (lifecycle_terminal st st1 Ht). by apply rtc_once. }
    apply (IH s1 s' (Inv_step _ _ _ Hi E) (Dep_step _ _ _ Hi HD E) Hexec k st Hk1 Ht).
    destruct (step_executed c s s1 HD E) as [->|(k0 & -> & Hr)]; [done|].
    rewrite elem_of_app, list_elem_of_singleton. intros [?| ->]; [done|].
    rewrite Hk in Hr. injection Hr as ->. destruct Ht as [|[|]]; done.
Qed.

Lemma untried_exec cs : forall s s',
  Inv s -> Dep s -> untried s -> exec cs s = Some s' -> untried s'.
Proof.
  induction cs as [|c cs IH]; intros s s' Hi HD Hu; simpl.
  - by intros [= <-].
  - destruct (step c s) as [s1|] eqn:E; [|done]. intros Hexec.
    apply (IH s1 s'); [by eapply Inv_step|by eapply Dep_step| |done].
    by eapply untried_step.
Qed.

(** A run after [resumeFrom], when no id is listed twice and every
    dependency of a resumed task is resumed too: a resumed task stays
    COMPLETED and its executor is never called, and the executor of a task
    is called only when all its dependencies in the plan are COMPLETED. *)
Theorem resumed_run_keeps_order :
  forall (opts : SchedulerOptions) (taskList : list Task) (ids : list string)
         (results : gmap string string) (cs : list Choice) (s : Scheduler),
    NoDup ids ->
    (forall child parent,
        child ∈ ids -> depends_on taskList child parent -> parent ∈ ids) ->
    exec cs (resumeFrom ids results (loadPlan taskList (new_scheduler opts))) = Some s ->
    (forall k, k ∈ ids -> k ∈ map id taskList ->
               status_of s k = Some COMPLETED /\ k ∉ executed s)
    /\ (forall child parent,
          depends_on taskList child parent -> child ∈ executed s ->
          status_of s parent = Some COMPLETED).
Proof.
  intros opts taskList ids results cs s Hnd Hclosed Hexec.
  pose proof (loadPlan_loaded taskList opts) as Hl.
  pose proof (resumed_Inv opts taskList ids results) as Hi.
  pose proof (resumed_Dep opts taskList ids results Hnd Hclosed) as HD.
  destruct (resumed_fresh opts taskList ids results) as (_ & _ & _ & _ & Eex & _).
  destruct (resumed_spec opts taskList ids results) as (_ & _ & Ed & _).
  split.
  - intros k Hin Hk.
    apply (terminal_not_executed cs _ s Hi HD Hexec k COMPLETED).
    + rewrite resumed_status by (by apply (ld_order _ _ _ Hl)).
      by rewrite decide_True.
    + by left.
    + rewrite Eex. by intros ?%elem_of_nil.
  - intros child parent (t & Ht & Hid & Hp & Hk) Hin.
    assert (Hu : untried s).
    { apply (untried_exec cs _ s Hi HD); [|done].
      intros k _. rewrite Eex. by intros ?%elem_of_nil. }
    pose proof (Dep_exec cs _ s Hi HD Hexec) as HD'.
    assert (He : edge (dependents s) parent child).
    { rewrite (fr_dependents _ _ (frame_exec _ _ _ Hexec)), Ed, <- Hid.
      by apply (ld_edges _ _ _ Hl). }
    assert (Hn : ~ waits s child) by (intros Hw; by apply (Hu _ Hw)).
    by destruct (started_ancestors s (dep_blocked s HD') parent child
                   (tc_once _ _ _ He) Hn).
Qed.

Definition resumed_schedule : list Choice :=
  [Tick; Tick; Advance 0 TimesOut; Advance 0 TimesOut].

Lemma resumed_run_keeps_order_witness :
  exists s,
    exec resumed_schedule
      (resumeFrom ["a"] {[ "a" := "done" ]}
         (loadPlan chain_plan (new_scheduler default_options))) = Some s
    /\ executed s = ["b"]
    /\ (forall k, k ∈ ["a"] -> k ∈ map id chain_plan ->
                  status_of s k = Some COMPLETED /\ k ∉ executed s)
    /\ (forall child parent,
          depends_on chain_plan child parent -> child ∈ executed s ->
          status_of s parent = Some COMPLETED).
Proof.
  run_to s E. exists s. split; [done|].
  read E executed ["b"] H1. split; [done|].
  apply (resumed_run_keeps_order default_options chain_plan ["a"] {[ "a" := "done" ]}
           resumed_schedule s).
  - apply NoDup_singleton.
  - intros child parent ->%list_elem_of_singleton (t & Ht & Hid & Hp & _).
    apply elem_of_cons in Ht as [->|Ht].
    + by apply elem_of_nil in Hp.
    + apply list_elem_of_singleton in Ht as ->. done.
  - exact E.
Defined.

(** ** How [run()] can end *)

Section Source.

Variable deps : gmap string (list string).
Variable nodes : list string.

Hypothesis nodes_closed : forall p c, edge deps p c -> p ∈ nodes.
Hypothesis acyclic : forall x, ~ tc (edge deps) x x.

(** A path against the edges: every element is a child of the one before. *)
Inductive climb : list string -> Prop :=
  | climb_one x : x ∈ nodes -> climb [x]
  | climb_cons p c l : edge deps p c -> climb (c :: l) -> climb (p :: c :: l).

Lemma climb_reach x l : climb (x :: l) -> forall y, y ∈ l -> tc (edge deps) x y.
Proof.
  revert x. induction l as [|c l IH]; intros x Hc y Hy; [by apply elem_of_nil in Hy|].
  inversion Hc as [|p c' l' He Hrest]; subst.
  apply elem_of_cons in Hy as [->|Hy]; [by apply tc_once|].
  eapply tc_l; [done|]. by apply IH.
Qed.

Lemma climb_NoDup l : climb l -> NoDup l.
Proof.
  induction l as [|x l IH]; intros Hc; [constructor|].
  apply NoDup_cons. split.
  - intros Hin. by apply (acyclic x), (climb_reach x l).
  - inversion Hc; subst; [constructor|by apply IH].
Qed.

Lemma climb_nodes l : climb l -> forall x, x ∈ l -> x ∈ nodes.
Proof.
  induction 1 as [x Hx|p c l He Hc IH]; intros y Hy.
  - by apply list_elem_of_singleton in Hy as ->.
  - apply elem_of_cons in Hy as [->|Hy]; [by eapply nodes_closed|by apply IH].
Qed.

(** A finite graph without a cycle has a node without a parent. *)
Lemma source_exists :
  nodes <> [] -> exists c, c ∈ nodes /\ forall p, ~ edge deps p c.
Proof.
  intros Hne.
  destruct (decide (Exists (fun c => Forall (fun p => c ∉ children deps p) nodes) nodes))
    as [Hex|Hnex].
  - apply Exists_exists in Hex as (c & Hc & Hall). exists c. split; [done|].
    intros p He. rewrite Forall_forall in Hall.
    by apply (Hall p (nodes_closed p c He)).
  - exfalso.
    assert (Hparent : forall c, c ∈ nodes -> exists p, edge deps p c).
    { intros c Hc.
      destruct (decide (Exists (fun p => c ∈ children deps p) nodes)) as [He|Hn].
      - apply Exists_exists in He as (p & _ & Hp). by exists p.
      - destruct Hnex. apply Exists_exists. exists c. split; [done|].
        apply Forall_forall. intros p Hp Hin. apply Hn, Exists_exists. eauto. }
    assert (Hlong : forall n, exists l, climb l /\ List.length l = S n).
    { induction n as [|n [l [Hl Hlen]]].
      - destruct nodes as [|c0 rest] eqn:E; [done|].
        exists [c0]. split; [|done]. constructor. rewrite E. by left.
      - destruct l as [|c l]; [done|].
        destruct (Hparent c) as [p Hp]; [by apply (climb_nodes _ Hl); left|].
        exists (p :: c :: l). split; [by constructor|]. simpl in *. lia. }
    destruct (Hlong (List.length nodes)) as (l & Hl & Hlen).
    pose proof (NoDup_submseteq l nodes (climb_NoDup l Hl) (climb_nodes l Hl)) as Hsub.
    apply submseteq_length in Hsub. lia.
Qed.

End Source.

Lemma schedule_all_run {A} (f : A -> string) l s :
  let s' := fold_left (fun s x => scheduleTask (f x) s) l s in
  failedTasks s' = failedTasks s /\ run_state s' = run_state s.
Proof.
  revert s. induction l as [|x l IH]; intros s; [done|]. simpl.
  destruct (IH (scheduleTask (f x) s)) as [-> ->].
  by destruct (scheduleTask_frame (f x) s) as (_&_&_&_&_&_&?&?).
Qed.

Lemma mark_skipped_all_known f l : forall s,
  (forall x, x ∈ l -> x ∈ failedTasks s) ->
  failedTasks (fold_left (mark_skipped f) l s) = failedTasks s.
Proof.
  induction l as [|y l IH]; intros s H; [done|]. simpl.
  assert (E : failedTasks (mark_skipped f s y) = failedTasks s).
  { unfold mark_skipped. simpl. unfold set_add.
    rewrite decide_True; [done|]. apply H. by left. }
  rewrite IH; [done|]. intros x Hx. rewrite E. apply H. by right.
Qed.

Lemma not_pending_terminal s k t :
  ~ some_pending s -> tasks s !! k = Some t -> terminal (status t).
Proof.
  intros Hn Hk. unfold terminal.
  destruct (status t) eqn:E; auto; exfalso; apply Hn; exists k, t;
    (split; [done|]); apply is_pending_status; auto.
Qed.

(** What a step of an activation does to the failed set and to [run()]. *)
Lemma advance_failed tid o s s' :
  Inv s -> Dep s -> advance tid o s = Some s' ->
  run_state s' = run_state s
  /\ (forall k, k ∈ failedTasks s' ->
        k ∈ failedTasks s \/ status_of s' k = Some FAILED
        \/ status_of s' k = Some SKIPPED)
  /\ (~ some_pending s -> failedTasks s' = failedTasks s).
Proof.
  intros [Hwf Hsem Hatt] HD. unfold advance.
  destruct (threads s !! tid) as [th|] eqn:Hth; [|done]. simpl.
  destruct (tasks s !! th_task th) as [t|] eqn:Ht; [|done]. simpl.
  pose proof (dep_corr s HD tid th t Hth Ht) as Hcorr.
  pose proof (wf_id s Hwf _ _ Ht) as Hid.
  assert (Hsame : forall s1, run_state s1 = run_state s ->
                  failedTasks s1 = failedTasks s ->
    run_state s1 = run_state s
    /\ (forall k, k ∈ failedTasks s1 ->
          k ∈ failedTasks s \/ status_of s1 k = Some FAILED
          \/ status_of s1 k = Some SKIPPED)
    /\ (~ some_pending s -> failedTasks s1 = failedTasks s)).
  { intros s1 Hr Hf. split; [done|]. split; [|done]. intros k. rewrite Hf. auto. }
  destruct (th_pc th) eqn:Hpc.
  - done.
  - intros [= <-]. by apply Hsame.
  - intros [= <-]. by apply Hsame.
  - assert (Hfail : forall msg,
      run_state (on_failure tid t msg s) = run_state s
      /\ (forall k, k ∈ failedTasks (on_failure tid t msg s) ->
            k ∈ failedTasks s \/ status_of (on_failure tid t msg s) k = Some FAILED
            \/ status_of (on_failure tid t msg s) k = Some SKIPPED)
      /\ (~ some_pending s -> failedTasks (on_failure tid t msg s) = failedTasks s)).
    { intros msg. unfold on_failure. case_decide; [by apply Hsame|].
      split; [done|]. split.
      - intros k. simpl. rewrite set_add_elem. intros [->|Hin]; [|by left].
        right. left. unfold status_of. simpl. rewrite Hid, lookup_alter_eq, Ht. done.
      - intros Hn. exfalso. apply Hn. exists (th_task th), t. split; [done|].
        apply is_pending_status. simpl in Hcorr. auto. }
    destruct o; intros [= <-]; try apply Hfail. by apply Hsame.
  - intros [= <-]. apply Hsame.
    + simpl. unfold onTaskCompleted.
      destruct (fold_left _ _ _) as [indegree' newlyReady].
      by destruct (schedule_all_run (fun x => x) newlyReady (with_indegree indegree' s))
        as [_ ->].
    + simpl. unfold onTaskCompleted.
      destruct (fold_left _ _ _) as [indegree' newlyReady].
      by destruct (schedule_all_run (fun x => x) newlyReady (with_indegree indegree' s))
        as [-> _].
  - intros [= <-]. by apply Hsame.
  - intros [= <-]. unfold rescheduleTask.
    destruct (acquire_frame tid (update_task (th_task th) (set_status QUEUED) s))
      as (_&_&_&_&_&_&_&Hf&Hr&_).
    by apply Hsame.
  - destruct (skipDependentTasks_spec (th_task th) s) as (toSkip & -> & Hskip).
    simpl. intros [= <-].
    destruct (mark_skipped_all_frame (th_task th) toSkip s) as (_&_&_&_&Hr&_).
    split; [done|]. split.
    + intros k. simpl. rewrite mark_skipped_all_failed. intros [Hin|Hin]; [by left|].
      right. right. unfold status_of. simpl.
      rewrite mark_skipped_all_tasks, decide_True by done.
      assert (Hk : k ∈ order s).
      { apply Hskip in Hin. destruct (tc_last _ _ _ Hin) as [y Hy].
        by destruct (wf_edge s Hwf y k Hy). }
      apply (wf_order s Hwf) in Hk as [t0 ->]. done.
    + intros Hn. simpl. apply mark_skipped_all_known. intros x Hx.
      apply Hskip in Hx.
      assert (Hnr : ~ released s (th_task th)).
      { intros [Hc _]. unfold status_of in Hc. rewrite Ht in Hc. simpl in *. congruence. }
      pose proof (descendants_wait s (th_task th) x (dep_blocked s HD) Hnr Hx) as Hw.
      assert (Hxo : x ∈ order s).
      { destruct (tc_last _ _ _ Hx) as [y Hy]. by destruct (wf_edge s Hwf y x Hy). }
      apply (wf_order s Hwf) in Hxo as [tx Htx].
      pose proof (not_pending_terminal s x tx Hn Htx) as Hterm.
      destruct Hw as [Hw|Hw]; unfold status_of in Hw; rewrite Htx in Hw;
        simpl in Hw; injection Hw as Hw.
      * rewrite Hw in Hterm. by destruct Hterm as [|[|]].
      * by destruct (dep_skipped s HD x tx Htx Hw).
  - intros E.
    destruct (release_frame s) as (_&_&_&_&_&_&_&Hf&Hr).
    destruct (held th) as [|[|n]]; injection E as <-; by apply Hsame.
Qed.

Definition unstarted (s : Scheduler) : Prop :=
  run_state s = NotStarted \/ run_state s = AwaitEngineStart.

Record Out (s : Scheduler) : Prop := {
  out_unstarted : unstarted s ->
      threads s = ∅ /\ forall k t, tasks s !! k = Some t -> status t = PENDING;
  out_failed : forall k, k ∈ failedTasks s ->
      status_of s k = Some FAILED \/ status_of s k = Some SKIPPED;
  out_rejected : forall m, run_state s = Rejected m ->
      m = failure_message (failedTasks s) /\ failedTasks s <> []
      /\ ~ some_pending s
}.

Lemma follows_terminal s s' k t :
  follows s s' -> tasks s !! k = Some t -> terminal (status t) ->
  status_of s' k = Some (status t).
Proof.
  intros Hf Hk Ht. destruct (Hf k (status t)) as (st' & Hk' & Hl).
  { unfold status_of. by rewrite Hk. }
  rewrite Hk'. f_equal. apply (lifecycle_terminal _ _ Ht). by apply rtc_once.
Qed.

(** With no cycle among its dependencies, a plan that is not empty has a
    ready task when [run()] looks for one. *)
Lemma unstarted_ready s :
  Inv s -> Dep s -> (forall x, ~ tc (edge (dependents s)) x x) ->
  (forall k t, tasks s !! k = Some t -> status t = PENDING) ->
  (0 < size (tasks s))%nat -> getReadyTasks s <> [].
Proof.
  intros [Hwf _ _] HD Hacyclic Hpend Hsize.
  assert (Hne : order s <> []).
  { intros E. destruct (map_choose (tasks s)) as (k & t & Hk).
    - intros E'. rewrite E', map_size_empty in Hsize. lia.
    - assert (Hin : k ∈ order s) by (apply (wf_order s Hwf); eauto).
      rewrite E in Hin. by apply elem_of_nil in Hin. }
  destruct (source_exists (dependents s) (order s)) as (c & Hc & Hsrc); try done.
  { intros p c He. by destruct (wf_edge s Hwf p c He). }
  apply (wf_order s Hwf) in Hc as [t Ht].
  assert (Hin : t ∈ getReadyTasks s).
  { pose proof (wf_id s Hwf _ _ Ht) as Hid.
    apply getReadyTasks_elem; [done|]. rewrite Hid. split; [done|].
    split; [by eapply Hpend|].
    rewrite (dep_indegree s HD c). unfold pending_edges.
    assert (H0 : sum_list (map (fun p => if decide (released s p) then 0%nat
                        else occurrences c (children (dependents s) p)) (order s))
                 = 0%nat).
    { clear Hne. induction (order s) as [|p l IH]; [done|]. simpl. rewrite IH.
      case_decide; [done|].
      destruct (Nat.eq_dec (occurrences c (children (dependents s) p)) 0) as [->|Hn];
        [done|].
      exfalso. apply (Hsrc p). apply occurrences_pos. lia. }
    by rewrite H0. }
  intros E. rewrite E in Hin. by apply elem_of_nil in Hin.
Qed.

Lemma Out_step c s s' :
  Inv s -> Dep s -> (forall x, ~ tc (edge (dependents s)) x x) ->
  Out s -> step c s = Some s' -> Out s'.
Proof.
  intros Hi HD Hacyclic [Hun Hfailed Hrej] Hstep.
  pose proof (step_follows c s s' Hi HD Hstep) as Hfol.
  pose proof (frame_step c s s' Hstep) as Hfr.
  assert (Hwf : Wf s) by apply Hi.
  assert (Hold : forall k, k ∈ failedTasks s ->
            status_of s' k = Some FAILED \/ status_of s' k = Some SKIPPED).
  { intros k Hk. specialize (Hfailed k Hk). unfold status_of in Hfailed.
    destruct (tasks s !! k) as [t|] eqn:Ht; [|naive_solver]. simpl in Hfailed.
    rewrite (follows_terminal s s' k t Hfol Ht).
    - destruct Hfailed as [[= ->]|[= ->]]; auto.
    - unfold terminal. destruct Hfailed as [[= ->]|[= ->]]; auto. }
  assert (Hquiet : ~ some_pending s -> ~ some_pending s').
  { intros Hn (k & t' & Hk' & Hp).
    pose proof (fr_tasks _ _ Hfr k) as Hk.
    destruct (tasks s !! k) as [t|] eqn:Ht; [|congruence].
    pose proof (not_pending_terminal s k t Hn Ht) as Hterm.
    pose proof (follows_terminal s s' k t Hfol Ht Hterm) as Hst.
    unfold status_of in Hst. rewrite Hk' in Hst. simpl in Hst. injection Hst as Hst.
    apply is_pending_status in Hp. rewrite Hst in Hp.
    destruct Hterm as [E|[E|E]]; rewrite E in Hp; naive_solver. }
  destruct c as [|tid o]; simpl in Hstep.
  - unfold run_step in Hstep. destruct (run_state s) eqn:Er.
    + injection Hstep as <-. destruct Hun as [Hth Hpend]; [by left|].
      split; simpl; [done|done|]. by intros m [=].
    + destruct Hun as [Hth Hpend]; [by right|].
      assert (Hk : children_known s).
      { intros p c He. by destruct (wf_edge s Hwf p c He). }
      destruct (hasCircularDependency s) as [[|]|] eqn:Hc; [| |done].
      { destruct (hasCircularDependency_sound s Hk Hc) as [x Hx].
        by destruct (Hacyclic x). }
      destruct (bool_decide (getReadyTasks s = []) && bool_decide (0 < size (tasks s))%nat)
        eqn:Hb.
      { apply andb_prop in Hb as [H1 H2].
        apply bool_decide_eq_true in H1, H2.
        by destruct (unstarted_ready s Hi HD Hacyclic Hpend H2). }
      injection Hstep as <-.
      destruct (schedule_all_run id (getReadyTasks s) s) as [Hf Hr].
      split; simpl.
      * intros [H|H]; simpl in H; congruence.
      * intros k. rewrite Hf. apply Hold.
      * by intros m [=].
    + destruct (existsb is_pending (task_values s)); injection Hstep as <-.
      * split; [|done|]; [intros [H|H]; congruence|intros m H; congruence].
      * split; simpl; [intros [H|H]; simpl in H; congruence|done|by intros m [=]].
    + pose proof (dep_polled s HD) as Hpolled. rewrite Er in Hpolled.
      specialize (Hpolled ltac:(by left)).
      destruct (failedTasks s) as [|f fs] eqn:Ef; injection Hstep as <-.
      * split; simpl; [intros [H|H]; simpl in H; congruence|by rewrite Ef|by intros m [=]].
      * split; simpl; [intros [H|H]; simpl in H; congruence|by rewrite Ef in *|].
        intros m [= <-]. by rewrite Ef.
    + injection Hstep as <-. split; simpl; [intros [H|H]; simpl in H; congruence|done|by intros m [=]].
    + done.
    + done.
  - destruct (advance_failed tid o s s' Hi HD Hstep) as (Hr & Hnew & Hsame).
    split.
    + unfold unstarted. rewrite Hr. intros Hu. destruct (Hun Hu) as [Hth _].
      unfold advance in Hstep. by rewrite Hth, lookup_empty in Hstep.
    + intros k Hk. destruct (Hnew k Hk) as [Hin|H]; [by apply Hold|done].
    + intros m. rewrite Hr. intros Hm. destruct (Hrej m Hm) as (-> & Hne & Hn).
      rewrite (Hsame Hn). auto.
Qed.

Lemma failure_message_first (l : list string) :
  exists c rest, failure_message l = String c rest /\ c <> "N"%char /\ c <> "C"%char.
Proof.
  unfold failure_message, string_of_Z.
  destruct (Z.to_int (Z.of_nat (List.length l))) as [u|u].
  - destruct u; simpl; eexists _, _; (split; [reflexivity|done]).
  - simpl. eexists _, _. split; [reflexivity|done].
Qed.

Lemma Out_exec cs : forall s s',
  Inv s -> Dep s -> (forall x, ~ tc (edge (dependents s)) x x) ->
  Out s -> exec cs s = Some s' -> Out s'.
Proof.
  induction cs as [|c cs IH]; intros s s' Hi HD Hacyclic Ho; simpl.
  - by intros [= <-].
  - destruct (step c s) as [s1|] eqn:E; [|done]. intros Hexec.
    apply (IH s1 s'); [by eapply Inv_step|by eapply Dep_step| |by eapply Out_step|done].
    by rewrite (fr_dependents _ _ (frame_step _ _ _ E)).
Qed.

(** [run()] rejects for two reasons only.  With a cycle among the
    dependencies it rejects with the circular-dependency error before any
    executor is called.  Without one it rejects only after the poll found
    no task pending, queued or running, with the message that counts and
    lists the failed set, which then holds exactly the FAILED and SKIPPED
    tasks and is not empty.  The error "No tasks are ready to execute" is
    never thrown after [loadPlan]. *)
Theorem run_rejects_only_for_cycles_and_failures :
  forall (opts : SchedulerOptions) (taskList : list Task) (cs : list Choice)
         (s : Scheduler) (m : string),
    exec cs (loadPlan taskList (new_scheduler opts)) = Some s ->
    run_state s = Rejected m ->
    m <> not_ready_message
    /\ ((has_cycle taskList /\ m = circular_message /\ executed s = [])
        \/ (~ has_cycle taskList
            /\ m = failure_message (failedTasks s) /\ failedTasks s <> []
            /\ (forall k, k ∈ failedTasks s
                          <-> status_of s k = Some FAILED \/ status_of s k = Some SKIPPED)
            /\ (forall k t, tasks s !! k = Some t -> is_pending t = false))).
Proof.
  intros opts taskList cs s m Hexec Hm.
  pose proof (loadPlan_loaded taskList opts) as Hl.
  set (s0 := loadPlan taskList (new_scheduler opts)) in *.
  pose proof (loaded_children_known _ _ _ Hl) as Hk.
  destruct (ld_fresh _ _ _ Hl) as (Hth & _ & _ & Hrs & Hex & Hf & _).
  destruct (hasCircularDependency_total s0 Hk) as [[|] Hres].
  - assert (H0 : before_check s0 s0) by (unfold before_check; naive_solver).
    destruct (before_check_exec s0 cs Hres s0 s H0 Hexec) as (_ & Hex' & _ & _ & Hr).
    assert (m = circular_message) as -> by (destruct Hr as [|[|]]; congruence).
    split; [done|]. left. split; [|done].
    destruct (hasCircularDependency_sound s0 Hk Hres) as [x Hx].
    exists x. by apply (tc_edge_depends_on taskList opts).
  - assert (Hacyclic : forall x, ~ tc (edge (dependents s0)) x x).
    { intros x Hx. pose proof (hasCircularDependency_complete s0 x Hk Hx). congruence. }
    assert (Ho0 : Out s0).
    { split.
      - intros _. split; [done|]. intros k t Ht.
        by destruct (ld_task _ _ _ Hl k t Ht) as (_ & ? & _).
      - intros k. rewrite Hf. by intros ?%elem_of_nil.
      - intros m'. by rewrite Hrs. }
    pose proof (Inv_loaded _ _ _ Hl) as Hi0. pose proof (Dep_loaded _ _ _ Hl) as HD0.
    pose proof (Out_exec cs s0 s Hi0 HD0 Hacyclic Ho0 Hexec) as [_ Hfailed Hrej].
    pose proof (Dep_exec cs s0 s Hi0 HD0 Hexec) as HD.
    pose proof (Inv_exec cs s0 s Hi0 Hexec) as Hi.
    destruct (Hrej m Hm) as (-> & Hne & Hquiet).
    split.
    { destruct (failure_message_first (failedTasks s)) as (c & rest & -> & Hc & _).
      unfold not_ready_message. intros [= ? _]. congruence. }
    right. split_and!; try done.
    + intros [x Hx]. apply (Hacyclic x). by eapply tc_depends_on_edge.
    + intros k. split; [apply Hfailed|].
      intros [H|H]; [by apply (dep_failed s HD)|].
      unfold status_of in H. destruct (tasks s !! k) as [t|] eqn:Ht; [|done].
      simpl in H. injection H as H. by destruct (dep_skipped s HD k t Ht H).
    + intros k t Ht. destruct (is_pending t) eqn:E; [|done].
      exfalso. apply Hquiet. by exists k, t.
Qed.

Lemma run_rejects_only_for_cycles_and_failures_witness :
  exists s m,
    exec cascade_schedule (loadPlan cascade_plan (new_scheduler default_options)) = Some s
    /\ run_state s = Rejected m
    /\ m <> not_ready_message
    /\ ((has_cycle cascade_plan /\ m = circular_message /\ executed s = [])
        \/ (~ has_cycle cascade_plan
            /\ m = failure_message (failedTasks s) /\ failedTasks s <> []
            /\ (forall k, k ∈ failedTasks s
                          <-> status_of s k = Some FAILED \/ status_of s k = Some SKIPPED)
            /\ (forall k t, tasks s !! k = Some t -> is_pending t = false))).
Proof.
  run_to s E. exists s.
  read E run_state (Rejected (failure_message ["p"; "c"; "g"])) Hr.
  exists (failure_message ["p"; "c"; "g"]). split; [done|]. split; [done|].
  apply (run_rejects_only_for_cycles_and_failures default_options cascade_plan
           cascade_schedule s _ E Hr).
Defined.

(** ** A scheduler without permits *)








(** ** Without failures a run completes *)

(** A choice in a run where every call of the executor resolves.  The
    outcome is read only where the executor settles, so such a run is one
    whose choices all carry [Resolves]. *)
Definition resolves (c : Choice) : Prop :=
  match c with
  | Tick | Advance _ (Resolves _) => True
  | _ => False
  end.

(** The steps an activation at [pc] has ahead of it, at most. *)
Definition pc_weight (pc : Pc) : nat :=
  match pc with
  | AwaitAcquire => 6
  | Acquired => 5
  | AwaitStartEmit => 4
  | AwaitExecutor => 3
  | AwaitCompleteEmit => 2
  | Releasing => 1
  | AwaitRetryEmit | AwaitRetryDelay | AwaitFailedEmit => 0
  end.

Definition pc_total (m : gmap nat Thread) : nat :=
  map_fold (fun _ th n => (pc_weight (th_pc th) + n)%nat) 0%nat m.

Definition is_PENDING (s : Scheduler) (k : string) : nat :=
  if decide (status_of s k = Some PENDING) then 1%nat else 0%nat.

Definition pending_count (s : Scheduler) : nat :=
  sum_list (map (is_PENDING s) (order s)).

Definition run_rank (r : RunState) : nat :=
  match r with
  | NotStarted => 5
  | AwaitEngineStart => 4
  | Waiting => 3
  | Polled => 2
  | AwaitEngineComplete => 1
  | Resolved | Rejected _ => 0
  end.

(** A bound on the steps that are left. *)
Definition work (s : Scheduler) : nat :=
  (7 * pending_count s + pc_total (threads s) + run_rank (run_state s))%nat.

Lemma pc_total_empty : pc_total ∅ = 0%nat.
Proof. apply map_fold_empty. Qed.

Lemma pc_total_insert m i th :
  m !! i = None -> pc_total (<[i:=th]> m) = (pc_weight (th_pc th) + pc_total m)%nat.
Proof.
  intros Hi. unfold pc_total. rewrite map_fold_insert_L; [done| |done].
  intros. lia.
Qed.

Lemma pc_total_delete m i th :
  m !! i = Some th -> (pc_total (delete i m) + pc_weight (th_pc th))%nat = pc_total m.
Proof.
  intros Hi. unfold pc_total.
  rewrite (map_fold_delete_L _ _ i th m); [lia| |done].
  intros. lia.
Qed.

Lemma pc_total_alter m i th f :
  m !! i = Some th ->
  (pc_total (alter f i m) + pc_weight (th_pc th))%nat
  = (pc_total m + pc_weight (th_pc (f th)))%nat.
Proof.
  intros Hi.
  assert (E : alter f i m = <[i := f th]> (delete i m)).
  { apply map_eq. intros j. destruct (decide (j = i)) as [->|Hne].
    - by rewrite lookup_alter_eq, lookup_insert_eq, Hi.
    - by rewrite lookup_alter_ne, lookup_insert_ne, lookup_delete_ne. }
  rewrite E, pc_total_insert by apply lookup_delete_eq.
  pose proof (pc_total_delete m i th Hi). lia.
Qed.

Lemma held_total_zero m :
  (forall i th, m !! i = Some th -> held th = 0%nat) -> held_total m = 0%nat.
Proof.
  induction m as [|i th m Hi Hfold IH] using map_first_key_ind.
  - intros _. apply held_total_empty.
  - intros H. rewrite held_total_insert by done.
    rewrite (H i th) by apply lookup_insert_eq. rewrite IH; [done|].
    intros j th' Hj. apply (H j). rewrite lookup_insert_ne; [done|]. by intros <-; congruence.
Qed.

(** The pending tasks, counted along [order]. *)
Lemma pending_count_le s s' :
  order s' = order s ->
  (forall k, status_of s' k = Some PENDING -> status_of s k = Some PENDING) ->
  (pending_count s' <= pending_count s)%nat.
Proof.
  intros Eo H. unfold pending_count. rewrite Eo. clear Eo.
  induction (order s) as [|k l IH]; simpl; [done|].
  assert (is_PENDING s' k <= is_PENDING s k)%nat; [|lia].
  unfold is_PENDING. destruct (decide (status_of s' k = Some PENDING)) as [E|E].
  - by rewrite decide_True by auto.
  - case_decide; lia.
Qed.

Lemma pending_count_less s s' k :
  order s' = order s -> NoDup (order s) -> k ∈ order s ->
  status_of s k = Some PENDING -> status_of s' k <> Some PENDING ->
  (forall k', k' <> k -> status_of s' k' = status_of s k') ->
  (pending_count s' + 1 = pending_count s)%nat.
Proof.
  intros Eo Hnd Hk Hp Hnp Hother. unfold pending_count. rewrite Eo.
  rewrite <- (sum_list_release (is_PENDING s) (is_PENDING s') (order s) k Hnd Hk).
  - unfold is_PENDING. by rewrite decide_True.
  - unfold is_PENDING. by rewrite decide_False.
  - intros q Hq. unfold is_PENDING. by rewrite Hother.
Qed.

(** *** What holds while nothing fails *)

Definition under_way (s : Scheduler) : Prop :=
  run_state s = Waiting \/ run_state s = Polled
  \/ run_state s = AwaitEngineComplete \/ run_state s = Resolved.

Definition fresh_pc (th : Thread) : Prop :=
  (th_pc th = AwaitAcquire /\ held th = 0%nat)
  \/ (th_pc th = Acquired /\ held th = 1%nat).

Definition calm (th : Thread) : Prop :=
  th_pc th <> AwaitRetryEmit /\ th_pc th <> AwaitRetryDelay
  /\ th_pc th <> AwaitFailedEmit
  /\ (th_pc th = AwaitAcquire -> held th = 0%nat) /\ (held th <= 1)%nat.

(** Every task that is still pending waits for a parent. *)
Definition blocked (s : Scheduler) : Prop :=
  forall k t, tasks s !! k = Some t -> status t = PENDING ->
              default 0 (indegree s !! k) <> 0.

Record Good (s : Scheduler) : Prop := {
  good_status : forall k t, tasks s !! k = Some t ->
      status t <> FAILED /\ status t <> SKIPPED;
  good_pc : forall tid th, threads s !! tid = Some th -> calm th;
  good_queued : forall k t, tasks s !! k = Some t -> status t = QUEUED ->
      exists tid th, threads s !! tid = Some th /\ th_task th = k;
  good_blocked : under_way s -> blocked s;
  good_attempts : forall k t, tasks s !! k = Some t ->
      attempts t <= 1 /\ (status t = QUEUED -> attempts t = 0);
  good_called : forall k t, tasks s !! k = Some t -> status t = COMPLETED ->
      1 <= calls s k;
  good_calling : forall tid th, threads s !! tid = Some th ->
      th_pc th = AwaitExecutor -> 1 <= calls s (th_task th)
}.

Lemma fresh_calm th : fresh_pc th -> calm th.
Proof.
  unfold fresh_pc, calm. intros [[-> ->]|[-> ->]]; split_and!; try done; lia.
Qed.

(** The threads after [scheduleTask]: the old ones, and a new one for the
    task. *)
Lemma scheduleTask_threads k s tid th :
  Sem s ->
  threads (scheduleTask k s) !! tid = Some th ->
  ((tid < next_tid s)%nat /\ threads s !! tid = Some th)
  \/ (tid = next_tid s /\ th_task th = k /\ fresh_pc th).
Proof.
  intros Hsem. unfold scheduleTask, acquire.
  assert (Hnone : threads s !! next_tid s = None).
  { destruct (threads s !! next_tid s) as [th0|] eqn:E; [|done].
    pose proof (sem_tid s Hsem _ _ E). lia. }
  case_decide; simpl.
  all: destruct (decide (tid = next_tid s)) as [->|Hne];
    [rewrite lookup_alter_eq, lookup_insert_eq; simpl; intros [= <-]; right;
     unfold fresh_pc; simpl; auto
    |rewrite lookup_alter_ne, lookup_insert_ne by done; intros Hth; left;
     split; [|done]; pose proof (sem_tid s Hsem _ _ Hth); lia].
Qed.

Lemma scheduleTask_thread_new k s :
  exists th, threads (scheduleTask k s) !! next_tid s = Some th /\ th_task th = k.
Proof.
  unfold scheduleTask, acquire. case_decide; simpl;
    rewrite lookup_alter_eq, lookup_insert_eq; simpl; eauto.
Qed.

Lemma schedule_all_threads l : forall s tid th,
  Sem s ->
  threads (fold_left (fun s c => scheduleTask c s) l s) !! tid = Some th ->
  ((tid < next_tid s)%nat /\ threads s !! tid = Some th)
  \/ (th_task th ∈ l /\ fresh_pc th).
Proof.
  induction l as [|x l IH]; intros s tid th Hsem; cbn [fold_left].
  - intros Hth. left. split; [|done]. by apply (sem_tid s Hsem tid th).
  - intros Hth.
    destruct (IH (scheduleTask x s) tid th (Sem_scheduleTask x s Hsem) Hth)
      as [[Hlt Hold]|[Hin Hf]].
    + destruct (scheduleTask_threads x s tid th Hsem Hold) as [?|(_ & <- & ?)]; [by left|].
      right. split; [by left|done].
    + right. split; [by right|done].
Qed.

Lemma schedule_all_thread_new l : forall s k,
  Sem s -> k ∈ l ->
  exists tid th,
    threads (fold_left (fun s c => scheduleTask c s) l s) !! tid = Some th
    /\ th_task th = k.
Proof.
  induction l as [|x l IH]; intros s k Hsem Hk; [by apply elem_of_nil in Hk|].
  cbn [fold_left]. destruct (decide (k ∈ l)) as [Hin|Hnin].
  - by apply IH; [apply Sem_scheduleTask|].
  - apply elem_of_cons in Hk as [->|?]; [|done].
    destruct (scheduleTask_thread_new x s) as (th & Hth & Hk).
    exists (next_tid s), th. split; [|done].
    rewrite (schedule_all_threads_old (fun c => c)); [done|].
    rewrite scheduleTask_next_tid. lia.
Qed.

Lemma schedule_all_indegree {A} (f : A -> string) l s :
  indegree (fold_left (fun s x => scheduleTask (f x) s) l s) = indegree s.
Proof.
  revert s. induction l as [|x l IH]; intros s; [done|]. simpl. rewrite IH.
  by destruct (scheduleTask_frame (f x) s) as (_&_&_&?&_).
Qed.

(** *** The children a completion makes ready *)

Lemma completed_child_fst tasks a x :
  fst (completed_child tasks a x) = <[x := default 0 (fst a !! x) - 1]> (fst a).
Proof.
  unfold completed_child. case_decide; [|done].
  destruct (tasks !! x); [|done]. by case_decide.
Qed.

Lemma completed_child_snd tasks a x c :
  c ∈ snd a -> c ∈ snd (completed_child tasks a x).
Proof.
  unfold completed_child. case_decide; [|done].
  destruct (tasks !! x); [|done]. case_decide; [|done].
  simpl. intros Hc. apply elem_of_app. by left.
Qed.

Lemma completed_children_indegree tasks children : forall a c,
  default 0 (fst (fold_left (completed_child tasks) children a) !! c)
  = default 0 (fst a !! c) - Z.of_nat (occurrences c children).
Proof.
  induction children as [|x children IH]; intros a c; cbn [fold_left].
  - unfold occurrences. rewrite filter_nil. simpl. lia.
  - rewrite IH, completed_child_fst, occurrences_cons.
    destruct (decide (x = c)) as [->|Hne].
    + rewrite lookup_insert_eq. simpl. lia.
    + rewrite lookup_insert_ne by done. lia.
Qed.

(** A pending child whose count reaches 0 is made ready, when the counts
    cover the occurrences among the children. *)
Lemma completed_children_ready tasks children : forall a,
  (forall c, Z.of_nat (occurrences c children) <= default 0 (fst a !! c)) ->
  (forall c, c ∈ snd a -> c ∈ snd (fold_left (completed_child tasks) children a))
  /\ (forall c t, c ∈ children ->
        default 0 (fst (fold_left (completed_child tasks) children a) !! c) = 0 ->
        tasks !! c = Some t -> status t = PENDING ->
        c ∈ snd (fold_left (completed_child tasks) children a)).
Proof.
  induction children as [|x children IH]; intros a Hocc; cbn [fold_left].
  - split; [done|]. by intros c t ?%elem_of_nil.
  - assert (Hocc1 : forall c, Z.of_nat (occurrences c children)
                      <= default 0 (fst (completed_child tasks a x) !! c)).
    { intros c. specialize (Hocc c). rewrite occurrences_cons in Hocc.
      rewrite completed_child_fst. destruct (decide (x = c)) as [->|Hne].
      - rewrite lookup_insert_eq. simpl. lia.
      - rewrite lookup_insert_ne by done. lia. }
    destruct (IH _ Hocc1) as [Hmono Hready]. split.
    + intros c Hc. by apply Hmono, completed_child_snd.
    + intros c t Hc H0 Ht Hp.
      destruct (decide (c ∈ children)) as [Hin|Hnin]; [by eapply Hready|].
      apply elem_of_cons in Hc as [->|?]; [|done].
      apply Hmono.
      rewrite completed_children_indegree, completed_child_fst, lookup_insert_eq in H0.
      simpl in H0.
      assert (E : occurrences x children = 0%nat).
      { destruct (Nat.eq_dec (occurrences x children) 0) as [|Hn]; [done|].
        exfalso. apply Hnin, occurrences_pos. lia. }
      rewrite E in H0. unfold completed_child.
      rewrite decide_True by lia. rewrite Ht, decide_True by done.
      simpl. apply elem_of_app. right. by left.
Qed.

Lemma sum_list_elem (F : string -> nat) l p :
  p ∈ l -> (F p <= sum_list (map F l))%nat.
Proof.
  induction l as [|x l IH]; [by intros ?%elem_of_nil|].
  intros [->|Hin]%elem_of_cons; simpl; [lia|]. specialize (IH Hin). lia.
Qed.

(** The count of a task covers the entries a parent that has not released
    it has for it. *)
Lemma indegree_covers s p c :
  Dep s -> p ∈ order s -> ~ released s p ->
  Z.of_nat (occurrences c (children (dependents s) p))
  <= default 0 (indegree s !! c).
Proof.
  intros HD Hp Hrel. rewrite (dep_indegree s HD c). unfold pending_edges.
  pose proof (sum_list_elem
    (fun p => if decide (released s p) then 0%nat
              else occurrences c (children (dependents s) p)) (order s) p Hp) as H.
  simpl in H. rewrite decide_False in H by done. lia.
Qed.

Lemma release_thread s tid' th' :
  (forall tid, tid ∈ waiting s ->
     exists th, threads s !! tid = Some th /\ th_pc th = AwaitAcquire) ->
  threads (release s) !! tid' = Some th' ->
  exists th, threads s !! tid' = Some th /\ th_task th' = th_task th
    /\ (th' = th
        \/ (th_pc th = AwaitAcquire
            /\ th' = mkThread (th_task th) Acquired (S (held th)))).
Proof.
  intros Hw. unfold release. destruct (waiting s) as [|next rest]; simpl.
  - intros H. exists th'. auto.
  - destruct (decide (tid' = next)) as [->|Hne].
    + rewrite lookup_alter_eq. destruct (Hw next) as (th & Hth & Hpc); [by left|].
      rewrite Hth. simpl. intros [= <-]. exists th. auto.
    + rewrite lookup_alter_ne by done. intros H. exists th'. auto.
Qed.

Lemma release_thread_kept s tid th :
  threads s !! tid = Some th ->
  exists th', threads (release s) !! tid = Some th' /\ th_task th' = th_task th.
Proof.
  intros Hth. unfold release. destruct (waiting s) as [|next rest]; simpl; [eauto|].
  destruct (decide (tid = next)) as [->|Hne].
  - rewrite lookup_alter_eq, Hth. simpl. eauto.
  - rewrite lookup_alter_ne by done. eauto.
Qed.

(** An activation moves on and writes the status of its own task. *)
Lemma Good_move tid th t g f l s s' :
  threads s !! tid = Some th -> tasks s !! th_task th = Some t ->
  tasks s' = alter f (th_task th) (tasks s) ->
  threads s' = alter g tid (threads s) ->
  th_task (g th) = th_task th -> calm (g th) ->
  status (f t) <> FAILED -> status (f t) <> SKIPPED -> status (f t) <> PENDING ->
  indegree s' = indegree s -> run_state s' = run_state s ->
  executed s' = (executed s ++ l)%list ->
  attempts (f t) <= 1 -> (status (f t) = QUEUED -> attempts (f t) = 0) ->
  (status (f t) = COMPLETED \/ th_pc (g th) = AwaitExecutor ->
   1 <= calls s (th_task th) + Z.of_nat (occurrences (th_task th) l)) ->
  Good s -> Good s'.
Proof.
  intros Hth Ht Et Eth Hg Hcalm Hf1 Hf2 Hf3 Ei Er Ee Ha1 Ha2 Hcall
         [Hst Hpc Hq Hb Hatt Hcd Hcg].
  assert (Hmono : forall k, calls s k <= calls s' k).
  { intros k. rewrite (calls_app s s' l k Ee). lia. }
  split.
  - intros k t'. rewrite Et. destruct (decide (k = th_task th)) as [->|Hne].
    + rewrite lookup_alter_eq, Ht. simpl. by intros [= <-].
    + rewrite lookup_alter_ne by done. apply Hst.
  - intros tid' th'. rewrite Eth. destruct (decide (tid' = tid)) as [->|Hne].
    + rewrite lookup_alter_eq, Hth. simpl. by intros [= <-].
    + rewrite lookup_alter_ne by done. apply Hpc.
  - intros k t'. rewrite Et, Eth. destruct (decide (k = th_task th)) as [->|Hne].
    + intros _ _. exists tid, (g th). by rewrite lookup_alter_eq, Hth.
    + rewrite lookup_alter_ne by done. intros Hk Hs.
      destruct (Hq k t' Hk Hs) as (tid' & th' & Hth' & Hk').
      destruct (decide (tid' = tid)) as [->|Hne'].
      * exists tid, (g th). rewrite lookup_alter_eq, Hth. split; [done|]. congruence.
      * exists tid', th'. by rewrite lookup_alter_ne.
  - unfold under_way, blocked. rewrite Er, Ei, Et. intros Hu k t'.
    destruct (decide (k = th_task th)) as [->|Hne].
    + rewrite lookup_alter_eq, Ht. simpl. by intros [= <-].
    + rewrite lookup_alter_ne by done. by apply Hb.
  - intros k t'. rewrite Et. destruct (decide (k = th_task th)) as [->|Hne].
    + rewrite lookup_alter_eq, Ht. simpl. by intros [= <-].
    + rewrite lookup_alter_ne by done. apply Hatt.
  - intros k t'. rewrite Et. destruct (decide (k = th_task th)) as [->|Hne].
    + rewrite lookup_alter_eq, Ht. simpl. intros [= <-] Hs.
      rewrite (calls_app s s' l _ Ee). apply Hcall. by left.
    + rewrite lookup_alter_ne by done. intros Hk Hs.
      specialize (Hcd k t' Hk Hs). specialize (Hmono k). lia.
  - intros tid' th'. rewrite Eth. destruct (decide (tid' = tid)) as [->|Hne].
    + rewrite lookup_alter_eq, Hth. simpl. intros [= <-] Hp. rewrite Hg.
      rewrite (calls_app s s' l _ Ee). apply Hcall. by right.
    + rewrite lookup_alter_ne by done. intros Hth' Hp.
      specialize (Hcg tid' th' Hth' Hp). specialize (Hmono (th_task th')). lia.
Qed.

(** Scheduling a batch keeps the run good when the pending tasks that are
    left out of it are held back. *)
Lemma Good_schedule_all l s :
  Sem s ->
  (forall k t, tasks s !! k = Some t -> status t <> FAILED /\ status t <> SKIPPED) ->
  (forall tid th, threads s !! tid = Some th -> calm th) ->
  (forall k t, tasks s !! k = Some t -> status t = QUEUED ->
     exists tid th, threads s !! tid = Some th /\ th_task th = k) ->
  (forall k t, tasks s !! k = Some t -> status t = PENDING -> (k ∉ l) ->
     default 0 (indegree s !! k) <> 0) ->
  (forall k t, tasks s !! k = Some t ->
     attempts t <= 1 /\ (status t = QUEUED \/ k ∈ l -> attempts t = 0)) ->
  (forall k t, tasks s !! k = Some t -> status t = COMPLETED -> 1 <= calls s k) ->
  (forall tid th, threads s !! tid = Some th ->
     th_pc th = AwaitExecutor -> 1 <= calls s (th_task th)) ->
  Good (fold_left (fun s c => scheduleTask c s) l s)
  /\ blocked (fold_left (fun s c => scheduleTask c s) l s).
Proof.
  intros Hsem Hst Hpc Hq Hb Hatt Hcd Hcg.
  set (s' := fold_left (fun s c => scheduleTask c s) l s).
  assert (Ht : forall k t', tasks s' !! k = Some t' ->
            (k ∈ l /\ status t' = QUEUED /\ attempts t' = 0)
            \/ ((k ∉ l) /\ tasks s !! k = Some t')).
  { intros k t'. unfold s'. rewrite schedule_all_tasks. case_decide as Hin.
    - destruct (tasks s !! k) as [t|] eqn:E; [|done]. simpl. intros [= <-]. left.
      split; [done|]. split; [done|]. simpl. apply (Hatt k t E). by right.
    - intros H. by right. }
  assert (Ee : forall k, calls s' k = calls s k).
  { intros k. unfold calls, s'. by rewrite (schedule_all_executed (fun c => c)). }
  assert (Hblocked : blocked s').
  { intros k t' Hk Hs. destruct (Ht k t' Hk) as [(_ & E & _)|[Hnin Hk0]]; [congruence|].
    unfold s'. rewrite (schedule_all_indegree (fun c => c)). by eapply Hb. }
  split; [split|done]; [| | |done| | |].
  - intros k t' Hk.
    destruct (Ht k t' Hk) as [(_ & -> & _)|[_ Hk0]]; [done|by eapply Hst].
  - intros tid th Hth.
    destruct (schedule_all_threads l s tid th Hsem Hth) as [[_ Hold]|[_ Hf]].
    + by eapply Hpc.
    + by apply fresh_calm.
  - intros k t' Hk Hs. destruct (Ht k t' Hk) as [(Hin & _)|[_ Hk0]].
    + by apply schedule_all_thread_new.
    + destruct (Hq k t' Hk0 Hs) as (tid & th & Hth & Hk').
      exists tid, th. split; [|done]. unfold s'.
      rewrite (schedule_all_threads_old (fun c => c)); [done|].
      by apply (sem_tid s Hsem tid th).
  - intros k t' Hk. destruct (Ht k t' Hk) as [(_ & _ & ->)|[_ Hk0]]; [done|].
    destruct (Hatt k t' Hk0) as [H1 H2]. split; [done|]. intros Hs. apply H2. by left.
  - intros k t' Hk Hs. rewrite Ee.
    destruct (Ht k t' Hk) as [(_ & E & _)|[_ Hk0]]; [congruence|]. by eapply Hcd.
  - intros tid th Hth Hp. rewrite Ee.
    destruct (schedule_all_threads l s tid th Hsem Hth) as [[_ Hold]|[_ Hf]].
    + by eapply Hcg.
    + destruct Hf as [[E _]|[E _]]; congruence.
Qed.

Lemma Good_not_rejected s m : Out s -> Good s -> run_state s <> Rejected m.
Proof.
  intros [_ Hf Hr] HG E. destruct (Hr m E) as (_ & Hne & _).
  destruct (failedTasks s) as [|k l] eqn:El; [done|].
  assert (Hk : k ∈ k :: l) by (by left).
  unfold status_of in Hf.
  destruct (Hf k Hk) as [H|H]; destruct (tasks s !! k) as [t|] eqn:Ht; try done;
    simpl in H; injection H as H; destruct (good_status s HG k t Ht); congruence.
Qed.

(** Activations exist only while [run()] waits for them. *)
Lemma Good_under_way s tid th :
  Out s -> Good s -> threads s !! tid = Some th -> under_way s.
Proof.
  intros Ho HG Hth. unfold under_way.
  destruct (run_state s) eqn:Er; try tauto.
  - destruct (out_unstarted s Ho) as [E _]; [by left|]. by rewrite E in Hth.
  - destruct (out_unstarted s Ho) as [E _]; [by right|]. by rewrite E in Hth.
  - by destruct (Good_not_rejected s message Ho HG).
Qed.

Lemma calls_same s s' k : executed s' = executed s -> calls s' k = calls s k.
Proof. unfold calls. by intros ->. Qed.

Lemma calls_nonneg s k : 0 <= calls s k.
Proof. unfold calls. lia. Qed.

Lemma Good_advance tid v s s' :
  Wf s -> Sem s -> Att s -> Dep s -> Out s -> Good s ->
  advance tid (Resolves v) s = Some s' -> Good s'.
Proof.
  intros Hwf Hsem Hatt HD Ho HG. unfold advance.
  destruct (threads s !! tid) as [th|] eqn:Hth; [|done]. simpl.
  destruct (tasks s !! th_task th) as [t|] eqn:Ht; [|done]. simpl.
  pose proof (dep_corr s HD tid th t Hth Ht) as Hc.
  pose proof (good_pc s HG tid th Hth) as (Hc1 & Hc2 & Hc3 & Hc4 & Hc5).
  pose proof (Good_under_way s tid th Ho HG Hth) as Hu.
  pose proof (good_attempts s HG _ t Ht) as [Ha1 Ha2].
  pose proof (calls_nonneg s (th_task th)) as Hcalls.
  destruct (th_pc th) eqn:Hpc; simpl in Hc; try done.
  - intros [= <-].
    eapply (Good_move tid th t
              (fun th => mkThread (th_task th) AwaitStartEmit (held th))
              (fun t => set_attempts (attempts t + 1) (set_status RUNNING t)) []);
      try exact HG; try done; simpl.
    + by rewrite app_nil_r.
    + rewrite (Ha2 Hc). lia.
    + by intros [|].
  - intros [= <-].
    eapply (Good_move tid th t
              (fun th => mkThread (th_task th) AwaitExecutor (held th))
              (fun t => t) [th_task th]);
      try exact HG; try done; simpl; rewrite ?Hc; try done.
    + symmetry. by apply alter_id.
    + intros _. rewrite occurrences_self. lia.
  - intros [= <-].
    eapply (Good_move tid th t
              (fun th => mkThread (th_task th) AwaitCompleteEmit (held th))
              (fun t => set_result (Some v) (set_status COMPLETED t)) []);
      try exact HG; try done; simpl.
    + by rewrite app_nil_r.
    + intros _. pose proof (good_calling s HG tid th Hth Hpc). rewrite occurrences_nil. lia.
  - intros [= <-]. unfold onTaskCompleted.
    destruct (fold_left _ _ _) as [indegree' newlyReady] eqn:Hfold.
    destruct (completed_children_spec _ _ _ [] NoDup_nil_2
                ltac:(by intros ? ?%elem_of_nil) _ _ Hfold) as (Hnd & Hnr & Hind).
    set (s0 := with_indegree indegree' s).
    set (s1 := fold_left (fun s c => scheduleTask c s) newlyReady s0).
    assert (Hk : th_task th ∈ order s) by (apply (wf_order s Hwf); eauto).
    assert (Hrel : ~ released s (th_task th)).
    { intros [_ Hn]. apply Hn. exists tid, th. auto. }
    assert (HG1 : Good s1).
    { apply (Good_schedule_all newlyReady s0).
      - by apply Sem_with_indegree.
      - apply (good_status s HG).
      - apply (good_pc s HG).
      - apply (good_queued s HG).
      - simpl. intros k t' Hk' Hs Hnin E.
        destruct (decide (k ∈ children (dependents s) (th_task th))) as [Hin|Hn].
        + apply Hnin.
          destruct (completed_children_ready (tasks s)
                      (children (dependents s) (th_task th)) (indegree s, []))
            as [_ Hready].
          { intros c. simpl. by apply indegree_covers. }
          unfold children in Hready at 1 2 3. rewrite Hfold in Hready. simpl in Hready.
          by apply (Hready k t').
        + rewrite Hind in E.
          assert (E0 : occurrences k (default [] (dependents s !! th_task th)) = 0%nat).
          { destruct (Nat.eq_dec (occurrences k
                        (default [] (dependents s !! th_task th))) 0) as [|Hp]; [done|].
            exfalso. apply Hn, occurrences_pos. unfold children. lia. }
          rewrite E0 in E.
          apply (good_blocked s HG Hu k t' Hk' Hs). lia.
      - simpl. intros k t' Hk'. destruct (good_attempts s HG k t' Hk') as [H1 H2].
        split; [done|]. intros [Hs|Hin]; [by apply H2|].
        destruct (Hnr k Hin) as (_ & t0 & Ht0 & Hp0).
        assert (t0 = t') as -> by congruence.
        by destruct (att_task s Hatt k t' Hk') as (_ & _ & H3 & _); apply H3.
      - apply (good_called s HG).
      - apply (good_calling s HG). }
    assert (Hth1 : threads s1 !! tid = Some th).
    { unfold s1. rewrite (schedule_all_threads_old (fun c => c)); [done|].
      by apply (sem_tid s Hsem tid th). }
    assert (Ht1 : tasks s1 !! th_task th = Some t).
    { unfold s1. rewrite schedule_all_tasks. rewrite decide_False; [done|].
      intros Hin. destruct (Hnr _ Hin) as (_ & t0 & Ht0 & Hp). congruence. }
    eapply (Good_move tid th t
              (fun th => mkThread (th_task th) Releasing (held th))
              (fun t => t) [] s1);
      try exact HG1; try done; simpl; rewrite ?Hc; try done.
    + symmetry. by apply alter_id.
    + by rewrite app_nil_r.
    + intros _. pose proof (good_called s1 HG1 _ t Ht1 Hc). rewrite occurrences_nil. lia.
  - intros E.
    assert (E' : s' = with_threads (delete tid) (release s)).
    { destruct (held th) as [|[|n]]; [by injection E as <-..|]. simpl in Hc5. lia. }
    clear E. subst s'.
    destruct (release_frame s) as (Et & _ & _ & _ & Ei & _ & Ee & _ & Er).
    assert (Hold : forall tid' th', tid' <> tid ->
              threads (release s) !! tid' = Some th' ->
              exists th0, threads s !! tid' = Some th0 /\ th_task th' = th_task th0
                /\ (th' = th0
                    \/ (th_pc th0 = AwaitAcquire
                        /\ th' = mkThread (th_task th0) Acquired (S (held th0))))).
    { intros tid' th' _ H. by apply release_thread; [apply (sem_waiting s Hsem)|]. }
    split; simpl.
    + rewrite Et. apply (good_status s HG).
    + intros tid' th'. destruct (decide (tid' = tid)) as [->|Hne];
        [by rewrite lookup_delete_eq|rewrite lookup_delete_ne by done].
      intros H.
      destruct (Hold tid' th' Hne H) as (th0 & H0 & _ & [->|[Hp ->]]).
      * by apply (good_pc s HG tid').
      * destruct (good_pc s HG tid' th0 H0) as (_ & _ & _ & Hh & _).
        rewrite (Hh Hp). unfold calm. simpl. split_and!; done.
    + rewrite Et. intros k t' Hk' Hs.
      destruct (good_queued s HG k t' Hk' Hs) as (tid' & th' & Hth' & Hk'').
      assert (Hne : tid' <> tid).
      { intros ->. assert (th' = th) as -> by congruence.
        rewrite Hk'', Hk' in Ht. injection Ht as ->. destruct Hc; congruence. }
      destruct (release_thread_kept s tid' th' Hth') as (th1 & H1 & Hk1).
      exists tid', th1. rewrite lookup_delete_ne by done. split; [done|congruence].
    + unfold under_way, blocked. simpl. rewrite Et, Ei, Er. intros Hu'.
      by apply (good_blocked s HG).
    + rewrite Et. apply (good_attempts s HG).
    + rewrite Et. intros k t' Hk' Hs.
      rewrite (calls_same s); [by apply (good_called s HG k t')|done].
    + intros tid' th'. destruct (decide (tid' = tid)) as [->|Hne];
        [by rewrite lookup_delete_eq|rewrite lookup_delete_ne by done].
      intros H Hp. rewrite (calls_same s) by done.
      destruct (Hold tid' th' Hne H) as (th0 & H0 & _ & [->|[_ ->]]); [|done].
      by apply (good_calling s HG tid').
Qed.

Lemma Good_same s s' :
  tasks s' = tasks s -> threads s' = threads s -> indegree s' = indegree s ->
  executed s' = executed s ->
  (under_way s' -> blocked s) -> Good s -> Good s'.
Proof.
  intros Et Eth Ei Ee Hu [Hst Hpc Hq Hb Ha Hcd Hcg].
  split; unfold blocked, calls; rewrite ?Et, ?Eth, ?Ei, ?Ee; done.
Qed.

Lemma Good_run_step s s' :
  Wf s -> Sem s -> Att s -> Out s -> Good s -> run_step s = Some s' -> Good s'.
Proof.
  intros Hwf Hsem Hatt Ho HG. unfold run_step.
  destruct (run_state s) eqn:Er; try done.
  - intros [= <-]. apply (Good_same s); try done.
    unfold under_way. simpl. intros [|[|[|]]]; congruence.
  - destruct (out_unstarted s Ho) as [Eth Hpend]; [by right|].
    destruct (hasCircularDependency s) as [[|]|]; [| |done].
    { intros [= <-]. apply (Good_same s); try done.
      unfold under_way. simpl. intros [|[|[|]]]; congruence. }
    destruct (_ && _).
    { intros [= <-]. apply (Good_same s); try done.
      unfold under_way. simpl. intros [|[|[|]]]; congruence. }
    intros [= <-]. rewrite (fold_left_fmap scheduleTask id (getReadyTasks s) s).
    destruct (Good_schedule_all (map id (getReadyTasks s)) s) as [HG1 Hb1]; try done.
    + apply (good_status s HG).
    + apply (good_pc s HG).
    + apply (good_queued s HG).
    + intros k t Hk Hs Hnin E. apply Hnin.
      pose proof (wf_id s Hwf k t Hk) as Hid.
      apply list_elem_of_fmap. exists t. split; [done|].
      apply getReadyTasks_elem; [done|]. by rewrite Hid.
    + intros k t Hk. destruct (good_attempts s HG k t Hk) as [H1 H2].
      split; [done|]. intros _.
      destruct (att_task s Hatt k t Hk) as (_ & _ & H3 & _). apply H3.
      by apply (Hpend k).
    + apply (good_called s HG).
    + apply (good_calling s HG).
    + eapply Good_same; [..|exact HG1]; done.
  - destruct (existsb _ _); intros [= <-]; [done|].
    apply (Good_same s); try done. intros _. apply (good_blocked s HG). by left.
  - assert (Hb : blocked s) by (apply (good_blocked s HG); right; by left).
    destruct (failedTasks s); intros [= <-]; by apply (Good_same s).
  - intros [= <-]. apply (Good_same s); try done. intros _.
    apply (good_blocked s HG). right. right. by left.
Qed.

Lemma Good_step c s s' :
  Inv s -> Dep s -> Out s -> Good s -> resolves c ->
  step c s = Some s' -> Good s'.
Proof.
  intros [Hwf Hsem Hatt] HD Ho HG. destruct c as [|tid [v|m|]]; simpl; try done.
  - intros _. by apply Good_run_step.
  - intros _. by apply Good_advance.
Qed.

(** *** The work that is left goes down *)

(** The part of [work] that activations and pending tasks account for. *)
Definition backlog (s : Scheduler) : nat :=
  (7 * pending_count s + pc_total (threads s))%nat.

Lemma work_backlog s : work s = (backlog s + run_rank (run_state s))%nat.
Proof. done. Qed.

Lemma work_with_run_state r s :
  work (with_run_state r s) = (backlog s + run_rank r)%nat.
Proof. done. Qed.

Lemma backlog_scheduleTask k s :
  Wf s -> Sem s -> status_of s k = Some PENDING ->
  (backlog (scheduleTask k s) + 1 <= backlog s)%nat.
Proof.
  intros Hwf Hsem Hk.
  destruct (scheduleTask_frame k s) as (Et & Eo & _).
  assert (Hin : k ∈ order s).
  { apply (wf_order s Hwf). unfold status_of in Hk.
    destruct (tasks s !! k); [eauto|done]. }
  assert (Hp : (pending_count (scheduleTask k s) + 1 = pending_count s)%nat).
  { apply (pending_count_less s _ k); try done.
    - apply (wf_nodup s Hwf).
    - unfold status_of. rewrite Et, lookup_alter_eq.
      destruct (tasks s !! k); [|done]. simpl. congruence.
    - intros k' Hne. unfold status_of. by rewrite Et, lookup_alter_ne. }
  assert (Hnone : threads s !! next_tid s = None).
  { destruct (threads s !! next_tid s) as [th0|] eqn:E; [|done].
    pose proof (sem_tid s Hsem _ _ E). lia. }
  assert (Hpc : (pc_total (threads (scheduleTask k s)) <= 6 + pc_total (threads s))%nat).
  { unfold scheduleTask, acquire. case_decide; simpl.
    - pose proof (pc_total_alter
        (<[next_tid s := mkThread k AwaitAcquire 0]> (threads s)) (next_tid s)
        (mkThread k AwaitAcquire 0)
        (fun th => mkThread (th_task th) Acquired (S (held th)))
        (lookup_insert_eq _ _ _)) as Ha.
      rewrite pc_total_insert in Ha by done. simpl in Ha. lia.
    - pose proof (pc_total_alter
        (<[next_tid s := mkThread k AwaitAcquire 0]> (threads s)) (next_tid s)
        (mkThread k AwaitAcquire 0)
        (fun th => mkThread (th_task th) AwaitAcquire (held th))
        (lookup_insert_eq _ _ _)) as Ha.
      rewrite pc_total_insert in Ha by done. simpl in Ha. lia. }
  unfold backlog. lia.
Qed.

Lemma backlog_schedule_all l : forall s,
  Wf s -> Sem s -> NoDup l ->
  (forall c, c ∈ l -> status_of s c = Some PENDING) ->
  (backlog (fold_left (fun s c => scheduleTask c s) l s) <= backlog s)%nat.
Proof.
  induction l as [|x l IH]; intros s Hwf Hsem Hnd Hp; cbn [fold_left]; [done|].
  apply NoDup_cons in Hnd as [Hx Hnd].
  pose proof (backlog_scheduleTask x s Hwf Hsem (Hp x ltac:(by left))) as H1.
  assert (H2 : (backlog (fold_left (fun s c => scheduleTask c s) l (scheduleTask x s))
                <= backlog (scheduleTask x s))%nat); [|lia].
  apply IH; [|by apply Sem_scheduleTask|done|].
  - eapply Wf_frame; [done|apply frame_scheduleTask].
  - intros c Hc. destruct (scheduleTask_frame x s) as (Et & _).
    unfold status_of. rewrite Et, lookup_alter_ne by (intros ->; done).
    apply Hp. by right.
Qed.

Lemma pc_total_release s :
  (forall tid, tid ∈ waiting s ->
     exists th, threads s !! tid = Some th /\ th_pc th = AwaitAcquire) ->
  (pc_total (threads (release s)) <= pc_total (threads s))%nat.
Proof.
  intros Hw. unfold release. destruct (waiting s) as [|next rest]; simpl; [done|].
  destruct (Hw next) as (th & Hth & Hpc); [by left|].
  pose proof (pc_total_alter (threads s) next th
    (fun th => mkThread (th_task th) Acquired (S (held th))) Hth) as Ha.
  rewrite Hpc in Ha. simpl in Ha. lia.
Qed.

(** An activation that moves toward its end, while no task is made
    pending, leaves less work. *)
Lemma work_move tid th g s s' :
  threads s !! tid = Some th ->
  threads s' = alter g tid (threads s) ->
  (pc_weight (th_pc (g th)) < pc_weight (th_pc th))%nat ->
  order s' = order s ->
  (forall k, status_of s' k = Some PENDING -> status_of s k = Some PENDING) ->
  run_state s' = run_state s ->
  (work s' < work s)%nat.
Proof.
  intros Hth Eth Hlt Eo Hp Er. unfold work. rewrite Eth, Er.
  pose proof (pc_total_alter (threads s) tid th g Hth).
  pose proof (pending_count_le s s' Eo Hp). lia.
Qed.

Lemma work_advance tid v s s' :
  Wf s -> Sem s -> Dep s -> Good s ->
  advance tid (Resolves v) s = Some s' -> (work s' < work s)%nat.
Proof.
  intros Hwf Hsem HD HG. unfold advance.
  destruct (threads s !! tid) as [th|] eqn:Hth; [|done]. simpl.
  destruct (tasks s !! th_task th) as [t|] eqn:Ht; [|done]. simpl.
  pose proof (dep_corr s HD tid th t Hth Ht) as Hc.
  pose proof (good_pc s HG tid th Hth) as (Hc1 & Hc2 & Hc3 & Hc4 & Hc5).
  assert (Hst : forall f s', tasks s' = alter f (th_task th) (tasks s) ->
            status (f t) <> PENDING ->
            forall k, status_of s' k = Some PENDING -> status_of s k = Some PENDING).
  { intros f s1 Et Hf k. unfold status_of. rewrite Et.
    destruct (decide (k = th_task th)) as [->|Hne].
    - rewrite lookup_alter_eq, Ht. simpl. congruence.
    - by rewrite lookup_alter_ne. }
  destruct (th_pc th) eqn:Hpc; simpl in Hc; try done.
  - intros [= <-].
    apply (work_move tid th (fun th => mkThread (th_task th) AwaitStartEmit (held th)));
      try done; [rewrite Hpc; simpl; lia|].
    by apply (Hst (fun t => set_attempts (attempts t + 1) (set_status RUNNING t))).
  - intros [= <-].
    apply (work_move tid th (fun th => mkThread (th_task th) AwaitExecutor (held th)));
      try done. rewrite Hpc; simpl; lia.
  - intros [= <-].
    apply (work_move tid th
             (fun th => mkThread (th_task th) AwaitCompleteEmit (held th)));
      try done; [rewrite Hpc; simpl; lia|].
    by apply (Hst (fun t => set_result (Some v) (set_status COMPLETED t))).
  - intros [= <-]. unfold onTaskCompleted.
    destruct (fold_left _ _ _) as [indegree' newlyReady] eqn:Hfold.
    destruct (completed_children_spec _ _ _ [] NoDup_nil_2
                ltac:(by intros ? ?%elem_of_nil) _ _ Hfold) as (Hnd & Hnr & Hind).
    set (s0 := with_indegree indegree' s).
    set (s1 := fold_left (fun s c => scheduleTask c s) newlyReady s0).
    assert (Hth1 : threads s1 !! tid = Some th).
    { unfold s1. rewrite (schedule_all_threads_old (fun c => c)); [done|].
      by apply (sem_tid s Hsem tid th). }
    assert (Hbacklog : (backlog s1 <= backlog s0)%nat).
    { apply backlog_schedule_all; try done.
      - eapply Wf_frame; [done|by apply frame_same].
      - by apply Sem_with_indegree.
      - intros c Hc'. destruct (Hnr c Hc') as (_ & t0 & Ht0 & Hp0).
        unfold status_of. simpl. rewrite Ht0. simpl. congruence. }
    assert (Hlt : (work (set_pc tid Releasing s1) < work s1)%nat).
    { apply (work_move tid th (fun th => mkThread (th_task th) Releasing (held th)));
        try done. rewrite Hpc; simpl; lia. }
    assert (Er : run_state s1 = run_state s).
    { unfold s1. by destruct (schedule_all_run (fun c => c) newlyReady s0) as [_ ->]. }
    assert (Hs0 : backlog s0 = backlog s) by done.
    unfold work, backlog in *. rewrite Er in Hlt. lia.
  - intros E.
    assert (E' : s' = with_threads (delete tid) (release s)).
    { destruct (held th) as [|[|n]]; [by injection E as <-..|]. simpl in Hc5. lia. }
    clear E. subst s'.
    destruct (release_frame s) as (Et & _ & Eo & _ & _ & _ & _ & _ & Er).
    pose proof (pc_total_release s (sem_waiting s Hsem)) as Hrel.
    assert (Hkeep : threads (release s) !! tid = Some th).
    { apply release_keeps; [apply (sem_waiting s Hsem)|done|]. by rewrite Hpc. }
    pose proof (pc_total_delete _ _ _ Hkeep) as Hdel. rewrite Hpc in Hdel.
    simpl in Hdel.
    assert (Hpend : (pending_count (with_threads (delete tid) (release s))
                     <= pending_count s)%nat).
    { apply pending_count_le; [done|]. intros k. unfold status_of. simpl. by rewrite Et. }
    unfold work. simpl. rewrite Er. lia.
Qed.

(** *** There is always a step to take *)

(** The edges that start at a pending task. *)
Definition pending_deps (s : Scheduler) : gmap string (list string) :=
  filter (fun kv => status_of s kv.1 = Some PENDING) (dependents s).

Lemma pending_deps_edge s p c :
  edge (pending_deps s) p c
  <-> status_of s p = Some PENDING /\ edge (dependents s) p c.
Proof.
  unfold edge, children, pending_deps. split.
  - destruct (filter _ _ !! p) as [l|] eqn:E; simpl; [|by intros ?%elem_of_nil].
    apply map_lookup_filter_Some in E as [E Hp]. rewrite E. by simpl.
  - intros [Hp Hc]. destruct (dependents s !! p) as [l|] eqn:E;
      [|by apply elem_of_nil in Hc].
    assert (E' : filter (fun kv => status_of s kv.1 = Some PENDING) (dependents s) !! p
                 = Some l) by (by apply map_lookup_filter_Some).
    by rewrite E'.
Qed.

Lemma pending_deps_tc s x y :
  tc (edge (pending_deps s)) x y -> tc (edge (dependents s)) x y.
Proof.
  induction 1 as [x y H|x y z H _ IH].
  - apply tc_once. by apply pending_deps_edge in H as [_ ?].
  - eapply tc_l; [|exact IH]. by apply pending_deps_edge in H as [_ ?].
Qed.

(** With no activation left and no cycle, a good run has completed every
    task. *)
Lemma all_completed s :
  Wf s -> Sem s -> Dep s -> Good s ->
  (forall x, ~ tc (edge (dependents s)) x x) ->
  blocked s -> threads s = ∅ ->
  forall k t, tasks s !! k = Some t -> status t = COMPLETED.
Proof.
  intros Hwf Hsem HD HG Hacyclic Hb Eth.
  assert (Hst : forall k t, tasks s !! k = Some t ->
            status t = PENDING \/ status t = COMPLETED).
  { intros k t Hk. destruct (good_status s HG k t Hk) as [H1 H2].
    destruct (status t) eqn:E; try done; auto.
    - destruct (good_queued s HG k t Hk E) as (tid & th & Hth & _).
      by rewrite Eth in Hth.
    - destruct (sem_running s Hsem k t Hk E) as (tid & th & Hth & _).
      by rewrite Eth in Hth. }
  assert (Hrel : forall p t, tasks s !! p = Some t -> status t = COMPLETED ->
            released s p).
  { intros p t Hp E. split; [unfold status_of; by rewrite Hp, <- E|].
    unfold at_pc. rewrite Eth. intros (tid & th & Hth & _). by rewrite lookup_empty in Hth. }
  set (nodes := filter (fun k => status_of s k = Some PENDING) (order s)).
  destruct (decide (nodes = [])) as [Hnil|Hne].
  - intros k t Hk. destruct (Hst k t Hk) as [E|E]; [|done]. exfalso.
    assert (Hin : k ∈ nodes).
    { apply list_elem_of_filter. split; [unfold status_of; by rewrite Hk, <- E|].
      apply (wf_order s Hwf). eauto. }
    rewrite Hnil in Hin. by apply elem_of_nil in Hin.
  - exfalso.
    destruct (source_exists (pending_deps s) nodes) as (c & Hc & Hsrc); try done.
    { intros p c [Hp He]%pending_deps_edge. apply list_elem_of_filter. split; [done|].
      by destruct (wf_edge s Hwf p c He). }
    { intros x Hx. by apply (Hacyclic x), pending_deps_tc. }
    apply list_elem_of_filter in Hc as [Hp Hc].
    unfold status_of in Hp. destruct (tasks s !! c) as [t|] eqn:Ht; [|done].
    simpl in Hp. injection Hp as Hp.
    apply (Hb c t Ht Hp). rewrite (dep_indegree s HD c). unfold pending_edges.
    assert (H0 : sum_list (map (fun p => if decide (released s p) then 0%nat
                        else occurrences c (children (dependents s) p)) (order s))
                 = 0%nat); [|by rewrite H0].
    assert (Hall : forall p, p ∈ order s ->
              (if decide (released s p) then 0%nat
               else occurrences c (children (dependents s) p)) = 0%nat).
    { intros p Hin. case_decide as Hr; [done|].
      destruct (Nat.eq_dec (occurrences c (children (dependents s) p)) 0) as [|Hn];
        [done|].
      exfalso. assert (He : edge (dependents s) p c) by (apply occurrences_pos; lia).
      apply (wf_order s Hwf) in Hin as [tp Htp].
      destruct (Hst p tp Htp) as [E|E].
      - apply (Hsrc p). apply pending_deps_edge. split; [|done].
        unfold status_of. by rewrite Htp, <- E.
      - by apply Hr, (Hrel p tp). }
    clear -Hall. induction (order s) as [|p l IH]; [done|]. simpl.
    rewrite (Hall p) by (by left). rewrite IH; [done|].
    intros q Hq. apply Hall. by right.
Qed.

(** While an activation exists, one of them is not waiting for a permit. *)
Lemma some_thread_runs s :
  Sem s -> queued s -> no_idle_permit s -> Good s ->
  1 <= maxConcurrency (options s) -> threads s <> ∅ ->
  exists tid th, threads s !! tid = Some th /\ th_pc th <> AwaitAcquire.
Proof.
  intros Hsem Hq Hidle HG Hmax Hne.
  destruct (decide (map_Exists (fun _ th => th_pc th <> AwaitAcquire) (threads s)))
    as [(tid & th & Hth & Hpc)|Hn]; [by exists tid, th|].
  exfalso.
  assert (Hall : forall tid th, threads s !! tid = Some th -> th_pc th = AwaitAcquire).
  { intros tid th Hth. destruct (decide (th_pc th = AwaitAcquire)) as [|Hpc]; [done|].
    destruct Hn. by exists tid, th. }
  assert (H0 : held_total (threads s) = 0%nat).
  { apply held_total_zero. intros tid th Hth.
    destruct (good_pc s HG tid th Hth) as (_ & _ & _ & Hh & _).
    by apply Hh, (Hall tid). }
  pose proof (sem_sum s Hsem) as Hsum. rewrite H0 in Hsum.
  destruct (map_choose (threads s) Hne) as (tid & th & Hth).
  pose proof (Hq tid th Hth (Hall tid th Hth)) as Hw.
  assert (permits s <= 0); [|lia].
  apply Hidle. intros E. rewrite E in Hw. by apply elem_of_nil in Hw.
Qed.

Record Live (s : Scheduler) : Prop := {
  live_inv : Inv s;
  live_dep : Dep s;
  live_out : Out s;
  live_queued : queued s;
  live_idle : no_idle_permit s;
  live_good : Good s;
  live_acyclic : forall x, ~ tc (edge (dependents s)) x x;
  live_permits : 1 <= maxConcurrency (options s)
}.

Lemma Live_step c s s' : Live s -> resolves c -> step c s = Some s' -> Live s'.
Proof.
  intros [Hi HD Ho Hq Hidle HG Hac Hmax] Hc Hstep.
  pose proof (frame_step _ _ _ Hstep) as Hfr. split.
  - by eapply Inv_step.
  - by eapply Dep_step.
  - by eapply Out_step.
  - by eapply queued_step.
  - eapply no_idle_permit_step; [apply (inv_sem s Hi)| |done..]. lia.
  - by eapply Good_step.
  - by rewrite (fr_dependents _ _ Hfr).
  - by rewrite (fr_options _ _ Hfr).
Qed.

Lemma Live_exec cs : forall s s',
  Live s -> Forall resolves cs -> exec cs s = Some s' -> Live s'.
Proof.
  induction cs as [|c cs IH]; intros s s' HL Hcs; simpl.
  - by intros [= <-].
  - apply Forall_cons in Hcs as [Hc Hcs].
    destruct (step c s) as [s1|] eqn:E; [|done]. apply IH; [|done].
    by eapply Live_step.
Qed.

Lemma Live_loadPlan taskList opts :
  1 <= maxConcurrency opts -> ~ has_cycle taskList ->
  Live (loadPlan taskList (new_scheduler opts)).
Proof.
  intros Hmax Hacyclic.
  pose proof (loadPlan_loaded taskList opts) as Hl.
  set (s0 := loadPlan taskList (new_scheduler opts)) in *.
  destruct (ld_fresh _ _ _ Hl) as (Hth & Hw & Hp & Hrs & Hex & Hf & _ & _ & Hopt).
  assert (Hpend : forall k t, tasks s0 !! k = Some t -> status t = PENDING).
  { intros k t Ht. by destruct (ld_task _ _ _ Hl k t Ht) as (_ & ? & _). }
  split.
  - by eapply Inv_loaded.
  - by eapply Dep_loaded.
  - split.
    + by intros _.
    + intros k. rewrite Hf. by intros ?%elem_of_nil.
    + intros m. by rewrite Hrs.
  - intros tid th. by rewrite Hth, lookup_empty.
  - intros Hne. by rewrite Hw in Hne.
  - split.
    + intros k t Ht. rewrite (Hpend k t Ht). done.
    + intros tid th. by rewrite Hth, lookup_empty.
    + intros k t Ht. rewrite (Hpend k t Ht). done.
    + unfold under_way. rewrite Hrs. intros [|[|[|]]]; congruence.
    + intros k t Ht. destruct (ld_task _ _ _ Hl k t Ht) as (_ & _ & Ha & _).
      rewrite Ha. split; [lia|done].
    + intros k t Ht Hs. by rewrite (Hpend k t Ht) in Hs.
    + intros tid th. by rewrite Hth, lookup_empty.
  - intros x Hx. apply Hacyclic. exists x. by apply (tc_edge_depends_on taskList opts).
  - by rewrite Hopt.
Qed.

Lemma work_run_state s s' :
  tasks s' = tasks s -> order s' = order s -> threads s' = threads s ->
  (run_rank (run_state s') < run_rank (run_state s))%nat ->
  (work s' < work s)%nat.
Proof.
  intros Et Eo Eth Hr. unfold work. rewrite Eth.
  assert (pending_count s' <= pending_count s)%nat; [|lia].
  apply pending_count_le; [done|]. intros k. unfold status_of. by rewrite Et.
Qed.

(** A good run that has not resolved has a step that leaves less work. *)
Lemma Live_progress s :
  Live s -> run_state s <> Resolved ->
  exists c s', resolves c /\ step c s = Some s' /\ (work s' < work s)%nat.
Proof.
  intros [Hi HD Ho Hq Hidle HG Hac Hmax] Hnr.
  pose proof Hi as [Hwf Hsem Hatt].
  assert (Htick : forall s', run_step s = Some s' ->
            tasks s' = tasks s -> order s' = order s -> threads s' = threads s ->
            (run_rank (run_state s') < run_rank (run_state s))%nat ->
            exists c s', resolves c /\ step c s = Some s' /\ (work s' < work s)%nat).
  { intros s' Hs' Et Eo Eth Hr. exists Tick, s'. split; [done|]. split; [done|].
    by apply work_run_state. }
  destruct (run_state s) eqn:Er.
  - apply (Htick (with_run_state AwaitEngineStart s)); try done.
    + unfold run_step. by rewrite Er.
    + simpl. lia.
  - assert (Hk : children_known s).
    { intros p c He. by destruct (wf_edge s Hwf p c He). }
    destruct (hasCircularDependency_total s Hk) as [b Hb].
    destruct b.
    { apply (Htick (with_run_state (Rejected circular_message) s)); try done.
      - unfold run_step. by rewrite Er, Hb.
      - simpl. lia. }
    destruct (bool_decide (getReadyTasks s = []) && bool_decide (0 < size (tasks s))%nat)
      eqn:Hempty.
    { apply (Htick (with_run_state (Rejected not_ready_message) s)); try done.
      - unfold run_step. by rewrite Er, Hb, Hempty.
      - simpl. lia. }
    exists Tick. eexists. split; [done|]. split.
    { simpl. unfold run_step. by rewrite Er, Hb, Hempty. }
    destruct (getReadyTasks_spec s Hwf) as [Hnd Hr].
    rewrite (fold_left_fmap scheduleTask id).
    assert (Hbacklog : (backlog (fold_left (fun s c => scheduleTask c s)
                             (map id (getReadyTasks s)) s) <= backlog s)%nat).
    { apply backlog_schedule_all; try done.
      intros c (t & -> & Hin)%list_elem_of_fmap.
      destruct (Hr t Hin) as (Ht & Hp & _). unfold status_of. rewrite Ht. simpl.
      by rewrite Hp. }
    rewrite work_with_run_state, work_backlog, Er. simpl. lia.
  - destruct (decide (threads s = ∅)) as [Eth|Hne].
    + assert (Hb : blocked s) by (apply (good_blocked s HG); by left).
      pose proof (all_completed s Hwf Hsem HD HG Hac Hb Eth) as Hall.
      assert (Hex : existsb is_pending (task_values s) = false).
      { destruct (existsb is_pending (task_values s)) eqn:E; [|done].
        apply existsb_exists in E as (t & Hin & Hp).
        apply list_elem_of_In, (task_values_spec s t Hwf) in Hin.
        apply is_pending_status in Hp. rewrite (Hall _ _ Hin) in Hp.
        destruct Hp as [|[|]]; congruence. }
      apply (Htick (with_run_state Polled s)); try done.
      * unfold run_step. by rewrite Er, Hex.
      * simpl. lia.
    + destruct (some_thread_runs s Hsem Hq Hidle HG Hmax Hne) as (tid & th & Hth & Hpc).
      assert (Hadv : is_Some (advance tid (Resolves "") s)).
      { unfold advance. rewrite Hth. simpl.
        destruct (att_thread s Hatt tid th Hth) as (t & Ht & _). rewrite Ht. simpl.
        destruct (th_pc th); try done; try by eexists.
        - destruct (skipDependentTasks_spec (th_task th) s) as (toSkip & -> & _).
          by eexists.
        - destruct (held th) as [|[|n]]; by eexists. }
      destruct Hadv as [s' Hs']. exists (Advance tid (Resolves "")), s'.
      split; [done|]. split; [done|]. by eapply work_advance.
  - destruct (failedTasks s) as [|k l] eqn:Ef.
    + apply (Htick (with_run_state AwaitEngineComplete s)); try done.
      * unfold run_step. by rewrite Er, Ef.
      * simpl. lia.
    + apply (Htick (with_run_state (Rejected (failure_message (k :: l))) s)); try done.
      * unfold run_step. by rewrite Er, Ef.
      * simpl. lia.
  - apply (Htick (with_run_state Resolved s)); try done.
    + unfold run_step. by rewrite Er.
    + simpl. lia.
  - done.
  - by destruct (Good_not_rejected s message Ho HG).
Qed.

#[global] Instance RunState_eq_dec : EqDecision RunState.
Proof. solve_decision. Defined.

Lemma Live_finishes n : forall s,
  Live s -> (work s <= n)%nat ->
  exists cs s', Forall resolves cs /\ exec cs s = Some s' /\ run_state s' = Resolved
                /\ Live s'.
Proof.
  induction n as [|n IH]; intros s HL Hn.
  - destruct (decide (run_state s = Resolved)) as [E|Hne].
    + exists [], s. by split_and!.
    + destruct (Live_progress s HL Hne) as (c & s' & _ & _ & Hlt). lia.
  - destruct (decide (run_state s = Resolved)) as [E|Hne].
    + exists [], s. by split_and!.
    + destruct (Live_progress s HL Hne) as (c & s1 & Hc & Hstep & Hlt).
      destruct (IH s1) as (cs & s' & Hcs & Hexec & Hr & HL').
      { by eapply Live_step. } { lia. }
      exists (c :: cs), s'. split; [by constructor|]. split; [|done].
      simpl. by rewrite Hstep.
Qed.

Lemma tc_first {A} (R : relation A) x z : tc R x z -> exists y, R x y.
Proof. induction 1; eauto. Qed.

Lemma Live_calls s k t :
  Live s -> tasks s !! k = Some t ->
  status t <> FAILED /\ status t <> SKIPPED /\ attempts t <= 1
  /\ calls s k <= 1 /\ (status t = COMPLETED -> calls s k = 1).
Proof.
  intros HL Ht. pose proof (live_good s HL) as HG.
  destruct (good_status s HG k t Ht) as [H1 H2].
  destruct (good_attempts s HG k t Ht) as [H3 _].
  destruct (att_task s (inv_att s (live_inv s HL)) k t Ht) as (_ & H4 & _).
  split_and!; try done; [lia|].
  intros Hs. pose proof (good_called s HG k t Ht Hs). lia.
Qed.

Lemma Live_resolved s k t :
  Live s -> run_state s = Resolved -> tasks s !! k = Some t -> status t = COMPLETED.
Proof.
  intros HL Er Ht. pose proof (live_dep s HL) as HD.
  assert (Hp : is_pending t = false).
  { destruct (is_pending t) eqn:E; [|done]. exfalso.
    apply (dep_polled s HD); [right; by right|]. by exists k, t. }
  destruct (good_status s (live_good s HL) k t Ht) as [H1 H2].
  destruct (status t) eqn:E; try done;
    exfalso; apply not_true_iff_false in Hp; apply Hp, is_pending_status;
    rewrite E; tauto.
Qed.

(** When every call of the executor resolves, [run()] resolves and every
    executor is called once.  In a run with at least one permit and no
    cycle among the dependencies in which every executor call so far has
    resolved, [run()] has not rejected, no task is FAILED or SKIPPED, no
    executor has been called twice and the executor of every COMPLETED task
    has been called; and the run can go on, every call resolving, until
    [run()] resolves with every task of the plan COMPLETED and its executor
    called exactly once. *)
Theorem run_completes_when_executors_resolve :
  forall (opts : SchedulerOptions) (taskList : list Task) (cs : list Choice)
         (s : Scheduler),
    1 <= maxConcurrency opts ->
    ~ has_cycle taskList ->
    Forall resolves cs ->
    exec cs (loadPlan taskList (new_scheduler opts)) = Some s ->
    (forall m, run_state s <> Rejected m)
    /\ (forall k t, tasks s !! k = Some t ->
          status t <> FAILED /\ status t <> SKIPPED /\ attempts t <= 1
          /\ calls s k <= 1 /\ (status t = COMPLETED -> calls s k = 1))
    /\ exists cs' s',
         Forall resolves cs' /\ exec cs' s = Some s' /\ run_state s' = Resolved
         /\ forall k, k ∈ map id taskList ->
              status_of s' k = Some COMPLETED /\ calls s' k = 1.
Proof.
  intros opts taskList cs s Hmax Hacyclic Hcs Hexec.
  pose proof (Live_exec cs _ s (Live_loadPlan taskList opts Hmax Hacyclic) Hcs Hexec)
    as HL.
  split; [|split].
  - intros m. apply Good_not_rejected; [apply (live_out s HL)|apply (live_good s HL)].
  - intros k t. by apply Live_calls.
  - destruct (Live_finishes (work s) s HL) as (cs' & s' & H1 & H2 & H3 & HL'); [done|].
    exists cs', s'. split_and!; try done.
    intros k Hk.
    apply (ld_tasks _ _ _ (loadPlan_loaded taskList opts)) in Hk as [t0 Ht0].
    pose proof (fr_tasks _ _ (frame_trans _ _ _ (frame_exec _ _ _ Hexec)
                                (frame_exec _ _ _ H2)) k) as Hfr.
    rewrite Ht0 in Hfr. destruct Hfr as (t' & Ht' & _).
    pose proof (Live_resolved s' k t' HL' H3 Ht') as Hs.
    destruct (Live_calls s' k t' HL' Ht') as (_ & _ & _ & _ & Hc).
    split; [unfold status_of; by rewrite Ht', <- Hs|by apply Hc].
Qed.

Lemma run_completes_when_executors_resolve_witness :
  exists s,
    exec [Tick; Tick; Advance 0 (Resolves "ok"); Advance 0 (Resolves "ok")]
         (loadPlan chain_plan (new_scheduler retry_options)) = Some s
    /\ executed s = ["a"]
    /\ (forall m, run_state s <> Rejected m)
    /\ (forall k t, tasks s !! k = Some t ->
          status t <> FAILED /\ status t <> SKIPPED /\ attempts t <= 1
          /\ calls s k <= 1 /\ (status t = COMPLETED -> calls s k = 1))
    /\ exists cs' s',
         Forall resolves cs' /\ exec cs' s = Some s' /\ run_state s' = Resolved
         /\ forall k, k ∈ map id chain_plan ->
              status_of s' k = Some COMPLETED /\ calls s' k = 1.
Proof.
  run_to s E. exists s. split; [done|].
  read E executed ["a"] Hex. split; [done|].
  apply (run_completes_when_executors_resolve retry_options chain_plan
           [Tick; Tick; Advance 0 (Resolves "ok"); Advance 0 (Resolves "ok")] s).
  - simpl. lia.
  - intros [x Hx].
    destruct (tc_first _ _ _ Hx) as (y & t & Ht & Hid & Hp & _).
    destruct (tc_last _ _ _ Hx) as (z & t' & Ht' & _ & Hp' & _).
    apply elem_of_cons in Ht as [->|Ht]; [by apply elem_of_nil in Hp|].
    apply list_elem_of_singleton in Ht as ->. simpl in Hid. subst x.
    apply elem_of_cons in Ht' as [->|Ht']; [by apply elem_of_nil in Hp'|].
    apply list_elem_of_singleton in Ht' as ->. simpl in Hp'.
    by apply list_elem_of_singleton in Hp'.
  - repeat constructor.
  - exact E.
Defined.

(** ** The results *)

(** [getTaskResult(id)] *)
Definition getTaskResult (s : Scheduler) (i : string) : option string :=
  t ← tasks s !! i; result t.

(** [getAllResults()]: the entries of the [Map] it builds, in the order of
    their insertion.  An empty string is falsy and is left out. *)
Definition getAllResults (s : Scheduler) : list (string * string) :=
  omap (fun k => t ← tasks s !! k;
                 r ← result t;
                 if decide (r = "") then None else Some (k, r))
       (order s).

(** The task and the value, when the step is a call of the executor that
    resolves. *)
Definition resolved (c : Choice) (s : Scheduler) : option (string * string) :=
  match c with
  | Advance tid (Resolves value) =>
      th ← threads s !! tid;
      if decide (th_pc th = AwaitExecutor) then Some (th_task th, value) else None
  | _ => None
  end.

(** What the executor calls of a run resolved with, in order. *)
Fixpoint resolutions (cs : list Choice) (s : Scheduler) : list (string * string) :=
  match cs with
  | [] => []
  | c :: cs' =>
      match step c s with
      | Some s' => (option_list (resolved c s) ++ resolutions cs' s')%list
      | None => []
      end
  end.

(** No task is dropped, no result is written and no task is completed. *)
Definition kept (s s' : Scheduler) : Prop :=
  forall k t, tasks s !! k = Some t ->
    exists t', tasks s' !! k = Some t' /\ result t' = result t
               /\ (status t' = COMPLETED -> status t = COMPLETED).

Lemma kept_same s s' : tasks s' = tasks s -> kept s s'.
Proof. intros Et k t Hk. exists t. by rewrite Et. Qed.

Lemma kept_trans s1 s2 s3 : kept s1 s2 -> kept s2 s3 -> kept s1 s3.
Proof.
  intros H1 H2 k t Hk. destruct (H1 k t Hk) as (t1 & Hk1 & Hr1 & Hs1).
  destruct (H2 k t1 Hk1) as (t2 & Hk2 & Hr2 & Hs2).
  exists t2. split; [done|]. split; [congruence|auto].
Qed.

Lemma kept_alter f k0 s s' :
  tasks s' = alter f k0 (tasks s) ->
  (forall t, result (f t) = result t /\ status (f t) <> COMPLETED) ->
  kept s s'.
Proof.
  intros Et Hf k t Hk. rewrite Et. destruct (decide (k = k0)) as [->|Hne].
  - rewrite lookup_alter_eq, Hk. simpl. exists (f t). destruct (Hf t) as [H1 H2].
    split; [done|]. split; [done|]. by intros ?.
  - rewrite lookup_alter_ne by done. by exists t.
Qed.

Lemma kept_schedule_all l s : kept s (fold_left (fun s c => scheduleTask c s) l s).
Proof.
  intros k t Hk. rewrite schedule_all_tasks, Hk. case_decide; simpl.
  - exists (set_status QUEUED t). split; [done|]. split; [done|]. by simpl.
  - by exists t.
Qed.

Lemma kept_mark_skipped_all f l s : kept s (fold_left (mark_skipped f) l s).
Proof.
  intros k t Hk. rewrite mark_skipped_all_tasks, Hk. case_decide; simpl.
  - exists (skipped_by f t). split; [done|]. split; [done|]. by simpl.
  - by exists t.
Qed.

(** Only an executor that resolves writes a result or completes a task. *)
Lemma step_kept c s s' : step c s = Some s' -> resolved c s = None -> kept s s'.
Proof.
  destruct c as [|tid o]; simpl.
  - intros Hstep _. unfold run_step in Hstep. destruct (run_state s).
    + injection Hstep as <-. by apply kept_same.
    + destruct (hasCircularDependency s) as [[|]|]; [| |done].
      * injection Hstep as <-. by apply kept_same.
      * destruct (_ && _); injection Hstep as <-; [by apply kept_same|].
        eapply kept_trans; [|by apply kept_same].
        rewrite (fold_left_fmap scheduleTask id). apply kept_schedule_all.
    + destruct (existsb _ _); injection Hstep as <-; by apply kept_same.
    + destruct (failedTasks s); injection Hstep as <-; by apply kept_same.
    + injection Hstep as <-. by apply kept_same.
    + done.
    + done.
  - unfold advance.
    destruct (threads s !! tid) as [th|] eqn:Hth; [|done]. simpl.
    destruct (tasks s !! th_task th) as [t|] eqn:Ht; [|done]. simpl.
    destruct (th_pc th) eqn:Hpc.
    + done.
    + intros [= <-] _. by eapply (kept_alter _ (th_task th)).
    + intros [= <-] _. by apply kept_same.
    + assert (Hfail : forall msg, kept s (on_failure tid t msg s)).
      { intros msg. unfold on_failure. case_decide.
        - by apply kept_same.
        - by eapply (kept_alter _ (id t)). }
      destruct o; intros [= <-]; try (intros _; apply Hfail).
      rewrite decide_True by done. done.
    + intros [= <-] _. unfold onTaskCompleted.
      destruct (fold_left _ _ _) as [indegree' newlyReady] eqn:Hfold.
      eapply kept_trans; [|by apply kept_same].
      eapply kept_trans; [|apply kept_schedule_all]. by apply kept_same.
    + intros [= <-] _. by apply kept_same.
    + intros [= <-] _. unfold rescheduleTask.
      destruct (acquire_frame tid (update_task (th_task th) (set_status QUEUED) s))
        as (Et & _).
      eapply kept_trans; [|apply kept_same; exact Et].
      by eapply (kept_alter _ (th_task th)).
    + destruct (skipDependentTasks_spec (th_task th) s) as (toSkip & -> & Hskip).
      simpl. intros [= <-] _. eapply kept_trans; [|by apply kept_same].
      apply kept_mark_skipped_all.
    + intros E _. destruct (release_frame s) as (Et & _).
      apply kept_same. destruct (held th) as [|[|n]]; by injection E as <-.
Qed.

(** An executor that resolves completes its task with the value, and
    writes no other task. *)
Lemma step_resolved c s s' k v :
  step c s = Some s' -> resolved c s = Some (k, v) ->
  (exists t', tasks s' !! k = Some t' /\ result t' = Some v /\ status t' = COMPLETED)
  /\ (forall k', k' <> k -> tasks s' !! k' = tasks s !! k')
  /\ exists tid th, threads s !! tid = Some th /\ th_task th = k
                    /\ th_pc th = AwaitExecutor.
Proof.
  destruct c as [|tid [value|m|]]; simpl; try done.
  unfold advance. destruct (threads s !! tid) as [th|] eqn:Hth; [|done]. simpl.
  destruct (tasks s !! th_task th) as [t|] eqn:Ht; [|done]. simpl.
  case_decide as Hpc; [|done]. rewrite Hpc. intros [= <-] [= <- <-].
  split; [|split].
  - simpl. rewrite lookup_alter_eq, Ht. simpl. eauto.
  - intros k' Hne. simpl. by rewrite lookup_alter_ne.
  - by exists tid, th.
Qed.

(** Once a task is completed no executor resolves for it again, and its
    result stays. *)
Lemma completed_result_stays k cs : forall s s' t,
  Inv s -> Dep s -> exec cs s = Some s' ->
  tasks s !! k = Some t -> status t = COMPLETED ->
  (exists t', tasks s' !! k = Some t' /\ result t' = result t
              /\ status t' = COMPLETED)
  /\ forall v, (k, v) ∉ resolutions cs s.
Proof.
  induction cs as [|c cs IH]; intros s s' t Hi HD; simpl.
  - intros [= <-] Ht Hs. split; [by exists t|]. by intros v ?%elem_of_nil.
  - destruct (step c s) as [s1|] eqn:E; [|done]. intros Hexec Ht Hs.
    assert (Hst1 : status_of s1 k = Some COMPLETED).
    { rewrite <- Hs. apply (follows_terminal s s1 k t); [by apply (step_follows c)|done|].
      rewrite Hs. by left. }
    assert (H1 : exists t1, tasks s1 !! k = Some t1 /\ result t1 = result t
                            /\ status t1 = COMPLETED
                            /\ forall v, resolved c s <> Some (k, v)).
    { unfold status_of in Hst1. destruct (tasks s1 !! k) as [t1|] eqn:Ht1; [|done].
      simpl in Hst1. injection Hst1 as Hst1. exists t1.
      assert (Hno : forall v, resolved c s <> Some (k, v)).
      { intros v Hr.
        destruct (step_resolved c s s1 k v E Hr) as (_ & _ & tid & th & Hth & Hk & Hpc).
        subst k. pose proof (dep_corr s HD tid th t Hth Ht) as Hc.
        rewrite Hpc in Hc. simpl in Hc. congruence. }
      split; [done|]. split; [|done].
      destruct (resolved c s) as [[k' v]|] eqn:Hr.
      - destruct (step_resolved c s s1 k' v E Hr) as (_ & Hother & _).
        assert (Hne : k <> k') by (intros ->; by apply (Hno v)).
        rewrite (Hother k Hne), Ht in Ht1. by injection Ht1 as <-.
      - destruct (step_kept c s s1 E Hr k t Ht) as (t1' & Ht1' & Hres & _). congruence. }
    destruct H1 as (t1 & Ht1 & Hr1 & Hs1 & Hno).
    destruct (IH s1 s' t1) as [(t' & Ht' & Hr' & Hs') Hnone]; try done.
    { by eapply Inv_step. } { by eapply Dep_step. }
    split; [exists t'; split; [done|]; split; [congruence|done]|].
    intros v [Hin|Hin]%elem_of_app; [|by apply (Hnone v)].
    destruct (resolved c s) as [p|] eqn:Hr; simpl in Hin; [|by apply elem_of_nil in Hin].
    apply list_elem_of_singleton in Hin as <-. by apply (Hno v).
Qed.

(** The entries of a log for task [k]. *)
Definition resolutions_of (k : string) (l : list (string * string))
  : list (string * string) :=
  filter (fun p => p.1 = k) l.

Lemma resolutions_of_none k l : (forall v, (k, v) ∉ l) -> resolutions_of k l = [].
Proof.
  intros Hnone. unfold resolutions_of.
  induction l as [|[k' v] l IH]; [done|].
  rewrite filter_cons. simpl. case_decide as E.
  - subst k'. exfalso. apply (Hnone v). by left.
  - apply IH. intros v' Hin. apply (Hnone v'). by right.
Qed.

Lemma resolutions_of_elem k v l : (k, v) ∈ l <-> (k, v) ∈ resolutions_of k l.
Proof. unfold resolutions_of. rewrite list_elem_of_filter. naive_solver. Qed.

(** A task is completed by the one call of its executor that resolves, and
    has the result of that call. *)
Lemma result_of_run k cs : forall s s' t,
  Inv s -> Dep s -> exec cs s = Some s' ->
  tasks s !! k = Some t -> status t <> COMPLETED ->
  exists t', tasks s' !! k = Some t'
    /\ ((resolutions_of k (resolutions cs s) = []
         /\ result t' = result t /\ status t' <> COMPLETED)
        \/ (exists v, resolutions_of k (resolutions cs s) = [(k, v)]
                      /\ result t' = Some v /\ status t' = COMPLETED)).
Proof.
  induction cs as [|c cs IH]; intros s s' t Hi HD; simpl.
  - intros [= <-] Ht Hs. exists t. split; [done|]. by left.
  - destruct (step c s) as [s1|] eqn:E; [|done]. intros Hexec Ht Hs.
    assert (Hi1 : Inv s1) by apply (Inv_step c s s1 Hi E).
    assert (HD1 : Dep s1) by apply (Dep_step c s s1 Hi HD E).
    unfold resolutions_of in *. rewrite filter_app.
    destruct (resolved c s) as [[k' v]|] eqn:Hr.
    + destruct (step_resolved c s s1 k' v E Hr) as ((t1 & Ht1 & Hr1 & Hs1) & Hother & _).
      simpl. rewrite filter_cons. simpl.
      destruct (decide (k' = k)) as [->|Hne]; rewrite ?filter_nil; simpl.
      * destruct (completed_result_stays k cs s1 s' t1 Hi1 HD1 Hexec Ht1 Hs1)
          as [(t' & Ht' & Hr' & Hs') Hnone].
        exists t'. split; [done|]. right. exists v. split; [|split; [congruence|done]].
        pose proof (resolutions_of_none k _ Hnone) as E0. unfold resolutions_of in E0.
        by rewrite E0.
      * rewrite <- (Hother k) in Ht by done.
        destruct (IH s1 s' t Hi1 HD1 Hexec Ht Hs) as (t' & Ht' & Hcase).
        by exists t'.
    + destruct (step_kept c s s1 E Hr k t Ht) as (t1 & Ht1 & Hr1 & Hs1).
      destruct (IH s1 s' t1 Hi1 HD1 Hexec Ht1) as (t' & Ht' & Hcase); [by auto|].
      exists t'. split; [done|]. simpl. rewrite ?filter_nil. simpl.
      rewrite Hr1 in Hcase. done.
Qed.

Lemma getAllResults_elem s k r :
  Wf s ->
  (k, r) ∈ getAllResults s
  <-> exists t, tasks s !! k = Some t /\ result t = Some r /\ r <> "".
Proof.
  intros Hwf. unfold getAllResults. rewrite list_elem_of_omap. split.
  - intros (k' & Hin & H).
    destruct (tasks s !! k') as [t|] eqn:Ht; [|done]. simpl in H.
    destruct (result t) as [r'|] eqn:Hr; [|done]. simpl in H.
    case_decide; [done|]. injection H as <- <-. by exists t.
  - intros (t & Ht & Hr & Hne). exists k. split.
    + apply (wf_order s Hwf). eauto.
    + rewrite Ht. simpl. rewrite Hr. simpl. by rewrite decide_False.
Qed.

(** [getAllResults()] has one entry for a task at most, and lists the tasks
    in the order of the plan. *)
Lemma getAllResults_keys s :
  Wf s -> NoDup (map fst (getAllResults s)) /\ map fst (getAllResults s) ⊆+ order s.
Proof.
  intros Hwf. pose proof (wf_nodup s Hwf) as Hnd.
  assert (Hsub : map fst (getAllResults s) `sublist_of` order s).
  { unfold getAllResults. clear. induction (order s) as [|k l IH]; simpl; [done|].
    destruct (tasks s !! k) as [t|]; simpl; [|by apply sublist_cons].
    destruct (result t) as [r|]; simpl; [|by apply sublist_cons].
    case_decide; [by apply sublist_cons|]. simpl. by apply sublist_skip. }
  split; [by eapply sublist_NoDup|by apply sublist_submseteq].
Qed.

(** [getTaskResult] and [getAllResults] after a run.  The executor of a
    task resolves once at most, however often it is called, and the task of
    the plan is COMPLETED with result [v] exactly when a call of its
    executor resolved with [v]; until then it has the result it was loaded
    with.  [getTaskResult(id)] is that result, and [getAllResults()] lists
    each task once at most, with its result, unless the result is missing
    or the empty string: a task whose executor resolved with the empty
    string is COMPLETED and is not listed. *)
Theorem results_are_what_executors_resolved :
  forall (opts : SchedulerOptions) (taskList : list Task) (cs : list Choice)
         (s : Scheduler) (k : string) (t0 : Task),
    exec cs (loadPlan taskList (new_scheduler opts)) = Some s ->
    tasks (loadPlan taskList (new_scheduler opts)) !! k = Some t0 ->
    let log := resolutions cs (loadPlan taskList (new_scheduler opts)) in
    exists t,
      tasks s !! k = Some t
      /\ getTaskResult s k = result t
      /\ (List.length (resolutions_of k log) <= 1)%nat
      /\ (forall v, (k, v) ∈ log <-> status t = COMPLETED /\ result t = Some v)
      /\ (status t <> COMPLETED -> result t = result t0)
      /\ (forall r, (k, r) ∈ getAllResults s <-> result t = Some r /\ r <> "")
      /\ NoDup (map fst (getAllResults s)).
Proof.
  intros opts taskList cs s k t0 Hexec Ht0.
  pose proof (loadPlan_loaded taskList opts) as Hl.
  set (s0 := loadPlan taskList (new_scheduler opts)) in *.
  pose proof (Inv_loaded _ _ _ Hl) as Hi0. pose proof (Dep_loaded _ _ _ Hl) as HD0.
  assert (Hp0 : status t0 <> COMPLETED).
  { destruct (ld_task _ _ _ Hl k t0 Ht0) as (_ & -> & _). done. }
  destruct (result_of_run k cs s0 s t0 Hi0 HD0 Hexec Ht0 Hp0) as (t & Ht & Hcase).
  pose proof (inv_wf s (Inv_exec cs s0 s Hi0 Hexec)) as Hwf.
  simpl. exists t. split; [done|]. split; [unfold getTaskResult; by rewrite Ht|].
  split; [|split; [|split; [|split]]].
  - destruct Hcase as [(-> & _)|(v0 & -> & _)]; simpl; lia.
  - intros v. rewrite resolutions_of_elem.
    destruct Hcase as [(-> & Hres & Hst)|(v0 & -> & Hres & Hst)].
    + split; [by intros ?%elem_of_nil|by intros [? _]].
    + rewrite list_elem_of_singleton. split.
      * intros [= ->]. done.
      * intros [_ E]. congruence.
  - intros Hst. destruct Hcase as [(_ & Hres & _)|(v0 & _ & _ & Hst')]; done.
  - intros r. rewrite (getAllResults_elem s k r Hwf). split.
    + intros (t' & Ht' & Hr & Hne). by assert (t' = t) as -> by congruence.
    + intros [Hr Hne]. by exists t.
  - by destruct (getAllResults_keys s Hwf).
Qed.

(** [a] resolves with the empty string, then [b] with [ok]. *)
Definition empty_result_schedule : list Choice :=
  [Tick; Tick; Advance 0 (Resolves ""); Advance 0 (Resolves "");
   Advance 0 (Resolves ""); Advance 0 (Resolves ""); Advance 1 (Resolves "ok");
   Advance 1 (Resolves "ok"); Advance 1 (Resolves "ok")].

Lemma results_are_what_executors_resolved_witness :
  exists s t0,
    exec empty_result_schedule (loadPlan chain_plan (new_scheduler default_options))
    = Some s
    /\ tasks (loadPlan chain_plan (new_scheduler default_options)) !! "a" = Some t0
    /\ resolutions empty_result_schedule
         (loadPlan chain_plan (new_scheduler default_options))
       = [("a", ""); ("b", "ok")]
    /\ getAllResults s = [("b", "ok")]
    /\ let log := resolutions empty_result_schedule
                    (loadPlan chain_plan (new_scheduler default_options)) in
       exists t,
      tasks s !! "a" = Some t
      /\ getTaskResult s "a" = result t
      /\ (List.length (resolutions_of "a" log) <= 1)%nat
      /\ (forall v, ("a", v) ∈ log <-> status t = COMPLETED /\ result t = Some v)
      /\ (status t <> COMPLETED -> result t = result t0)
      /\ (forall r, ("a", r) ∈ getAllResults s <-> result t = Some r /\ r <> "")
      /\ NoDup (map fst (getAllResults s)).
Proof.
  run_to s E.
  assert (H0 : bool_decide (is_Some
            (tasks (loadPlan chain_plan (new_scheduler default_options)) !! "a")) = true)
    by (vm_compute; reflexivity).
  apply bool_decide_eq_true in H0 as [t0 Ht0].
  exists s, t0. split; [done|]. split; [done|].
  split; [vm_compute; reflexivity|].
  read E getAllResults [("b", "ok")] Hall. split; [done|].
  by apply (results_are_what_executors_resolved default_options chain_plan
              empty_result_schedule s "a" t0).
Defined.

End Scheduler.
